(** * Resource-constrained project scheduling: critical path, activity-list
    sampler and serial schedule decoder of [main.py] (phase 5).

    The Python program is embedded shallowly.  Integers are [Z], activity
    indices are [nat], Python lists are Rocq lists read with stdpp's lookup
    and written with stdpp's insert behind an explicit bounds check, Python
    sets are [gset nat].  Code that mutates is written in a small state and
    exception monad; loops that Python writes with [while] and functions that
    recurse on the network take a fuel argument. *)

From stdpp Require Import prelude gmap.
Local Open Scope Z_scope.

(** ** Outcomes of running Python code *)

(** The exceptions the modelled code can raise.  [SystemError] stands for a
    reference that points outside the modelled heap; no Python run reaches
    it, it only makes the heap accessors total. *)
Inductive pyexn := IndexError | AttributeError | KeyError | ValueError | SystemError.

Inductive outcome (A : Type) :=
| Ret (a : A)
| Raise (e : pyexn)
| Timeout.
Arguments Ret {A} a.
Arguments Raise {A} e.
Arguments Timeout {A}.

(** A computation over a mutable state [S]: the state survives an exception,
    as it does in Python. *)
Definition M (S A : Type) : Type := S -> outcome A * S.

#[global] Instance M_ret {S} : MRet (M S) := fun A a s => (Ret a, s).
#[global] Instance M_bind {S} : MBind (M S) := fun A B f m s =>
  match m s with
  | (Ret a, s') => f a s'
  | (Raise e, s') => (Raise e, s')
  | (Timeout, s') => (Timeout, s')
  end.

Definition raise {S A} (e : pyexn) : M S A := fun s => (Raise e, s).
Definition timeout {S A} : M S A := fun s => (Timeout, s).
Definition get {S} : M S S := fun s => (Ret s, s).
Definition put {S} (s : S) : M S unit := fun _ => (Ret tt, s).

(** [l[i]] for a non-negative index. *)
Definition index {S A} (l : list A) (i : nat) : M S A :=
  match l !! i with
  | Some a => mret a
  | None => raise IndexError
  end.

(** [l[i] = x] on a list held in a local variable: the updated list, or
    [IndexError]. *)
Definition store {S A} (l : list A) (i : nat) (x : A) : M S (list A) :=
  if decide (i < length l)%nat then mret (<[i:=x]> l) else raise IndexError.

(** A generator expression [(f(x) for x in l)] consumed to its end: the
    calls happen left to right, each seeing the state the previous left. *)
Fixpoint gen_list {S A B} (f : A -> M S B) (l : list A) : M S (list B) :=
  match l with
  | [] => mret []
  | x :: l' => y ← f x; ys ← gen_list f l'; mret (y :: ys)
  end.

(** [max(...)] and [min(...)] of the values of a generator. *)
Definition py_max {S} (vs : list Z) : M S Z :=
  match vs with
  | [] => raise ValueError
  | v :: vs' => mret (fold_left Z.max vs' v)
  end.

Definition py_min {S} (vs : list Z) : M S Z :=
  match vs with
  | [] => raise ValueError
  | v :: vs' => mret (fold_left Z.min vs' v)
  end.

(** ** Precedence index *)

(** [[[j for j in range(n) if i in predecessors[j]] for i in range(n)]] *)
Definition successors_by_predecessors (predecessors : list (list nat)) : list (list nat) :=
  let n := length predecessors in
  (fun i => filter (fun j => i ∈ default [] (predecessors !! j)) (seq 0 n)) <$> seq 0 n.

(** ** Critical path calculator *)

Module CriticalPath.
Section defs.
Context (duration : list Z) (predecessors successors : list (list nat)).

(** [est[i] = v] and [lst[i] = v]: the state of these computations is the
    vector being filled. *)
Definition assign (i : nat) (v : Z) : M (list Z) unit :=
  fun vec => if decide (i < length vec)%nat then (Ret tt, <[i:=v]> vec)
             else (Raise IndexError, vec).

Definition current (i : nat) : M (list Z) Z :=
  vec ← get; index vec i.

(** The closure [calc_es]; [fuel] bounds the depth of the recursion. *)
Fixpoint calc_es (fuel : nat) (i : nat) : M (list Z) Z :=
  match fuel with
  | O => timeout
  | S fuel' =>
    ps ← index predecessors i;
    match ps with
    | [] => mret tt
    | _ :: _ =>
      vs ← gen_list (fun p => e ← calc_es fuel' p; d ← index duration p; mret (e + d)) ps;
      m ← py_max vs;
      assign i m
    end;;
    current i
  end.

(** The closure [calc_lf]; it reads the finished [est] and fills [lst]. *)
Fixpoint calc_lf (est : list Z) (fuel : nat) (i : nat) : M (list Z) Z :=
  match fuel with
  | O => timeout
  | S fuel' =>
    (if decide (Z.of_nat i = Z.of_nat (length duration) - 1) then
       e ← index est i; assign i e
     else
       ss ← index successors i;
       match ss with
       | [] => mret tt
       | _ :: _ =>
         vs ← gen_list (fun s => l ← calc_lf est fuel' s; d ← index duration s; mret (l - d)) ss;
         m ← py_min vs;
         assign i m
       end);;
    current i
  end.

(** [l[-1]] and [vec[-1] = v]: Python reads the index [-1] as the last item
    of a list, and raises [IndexError] on an empty one. *)
Definition index_last {S A} (l : list A) : M S A :=
  match last l with
  | Some a => mret a
  | None => raise IndexError
  end.

Definition assign_last (v : Z) : M (list Z) unit :=
  fun vec => match vec with
             | [] => (Raise IndexError, vec)
             | _ :: _ => (Ret tt, <[(length vec - 1)%nat:=v]> vec)
             end.

(** The call [calc_es(-1)], the first one when there is no activity: the
    body of [calc_es] at the index [-1]; the calls it makes in turn are at
    the non-negative indices the predecessor lists hold. *)
Definition calc_es_last (fuel : nat) : M (list Z) Z :=
  match fuel with
  | O => timeout
  | S fuel' =>
    ps ← index_last predecessors;
    match ps with
    | [] => mret tt
    | _ :: _ =>
      vs ← gen_list (fun p => e ← calc_es fuel' p; d ← index duration p; mret (e + d)) ps;
      m ← py_max vs;
      assign_last m
    end;;
    vec ← get; index_last vec
  end.

End defs.

(** [calculate_critical_times(duration, predecessors, successors=None)].
    [not successors] holds for [None] and for the empty list.  The first
    call is [calc_es(len(duration) - 1)]: with no activity at all that is
    [calc_es(-1)]. *)
Definition calculate_critical_times (fuel : nat) (duration : list Z)
    (predecessors : list (list nat)) (successors : option (list (list nat)))
    : outcome (list Z * list Z) :=
  let successors :=
    match successors with
    | Some (s :: ss) => s :: ss
    | _ => successors_by_predecessors predecessors
    end in
  let n := length duration in
  match n with
  | O =>
    match calc_es_last duration predecessors fuel (replicate n 0) with
    | (Ret _, est) =>
      match calc_lf duration successors est fuel 0%nat (replicate n 0) with
      | (Ret _, lst) => Ret (est, lst)
      | (Raise e, _) => Raise e
      | (Timeout, _) => Timeout
      end
    | (Raise e, _) => Raise e
    | (Timeout, _) => Timeout
    end
  | S last =>
    match calc_es duration predecessors fuel last (replicate n 0) with
    | (Ret _, est) =>
      match calc_lf duration successors est fuel 0%nat (replicate n 0) with
      | (Ret _, lst) => Ret (est, lst)
      | (Raise e, _) => Raise e
      | (Timeout, _) => Timeout
      end
    | (Raise e, _) => Raise e
    | (Timeout, _) => Timeout
    end
  end.

End CriticalPath.


(** ** Activity-order sampler *)

Module Sampler.

(** [list.remove(x)]: drop the first item equal to [x]; [None] stands for
    the [ValueError] of a missing item. *)
Fixpoint list_remove (x : nat) (l : list nat) : option (list nat) :=
  match l with
  | [] => None
  | y :: l' => if decide (x = y) then Some l' else (y ::.) <$> list_remove x l'
  end.

(** [min(x, key=rule)]: the first item of [x] whose key is minimal; a later
    item replaces the current one only when its key is strictly smaller. *)
Definition py_min_key (rule : nat -> Z) (x : list nat) : option nat :=
  match x with
  | [] => None
  | a :: l => Some (fold_left (fun best y => if decide (rule y < rule best) then y else best) l a)
  end.

(** The object built by [__init__]. *)
Record ActivityListSampler := {
  pred : list (list nat);
  succ : list (list nat);
  n : nat
}.

Definition init (predecessors : list (list nat)) : ActivityListSampler :=
  {| pred := predecessors;
     succ := successors_by_predecessors predecessors;
     n := length predecessors |}.

(** The three local variables of [_gen]. *)
Record gen_state := {
  res : list nat;
  rem : list (gset nat);
  ready : list nat
}.

Section gen.
(** [R] is the state of the pseudo-random source, threaded through the
    selection policy [pick]. *)
Context {R : Type} (self : ActivityListSampler).

(** [for s in self.succ[i]: rem[s].remove(i); if not rem[s]: ready.append(s)] *)
Fixpoint release (i : nat) (ss : list nat) (rem : list (gset nat)) (ready : list nat)
    : M R (list (gset nat) * list nat) :=
  match ss with
  | [] => mret (rem, ready)
  | s :: ss' =>
    rs ← index rem s;
    if decide (i ∈ rs) then
      let rs' := rs ∖ {[i]} in
      let rem' := <[s:=rs']> rem in
      release i ss' rem' (if decide (rs' = ∅) then ready ++ [s] else ready)
    else raise KeyError
  end.

(** One turn of the [while ready:] loop. *)
Definition gen_step (pick : list nat -> M R nat) (st : gen_state) : M R gen_state :=
  i ← pick (ready st);
  ready1 ← match list_remove i (ready st) with
           | Some l => mret l
           | None => raise ValueError
           end;
  ss ← index (succ self) i;
  '(rem1, ready2) ← release i ss (rem st) ready1;
  mret {| res := res st ++ [i]; rem := rem1; ready := ready2 |}.

Fixpoint gen_loop (fuel : nat) (pick : list nat -> M R nat) (st : gen_state) : M R (list nat) :=
  match ready st with
  | [] => mret (res st)
  | _ :: _ =>
    match fuel with
    | O => timeout
    | S fuel' => st' ← gen_step pick st; gen_loop fuel' pick st'
    end
  end.

Definition gen_init : gen_state :=
  let rem := (list_to_set <$> pred self) : list (gset nat) in
  {| res := [];
     rem := rem;
     ready := filter (fun i => rem !! i = Some ∅) (seq 0 (n self)) |}.

Definition _gen (fuel : nat) (pick : list nat -> M R nat) : M R (list nat) :=
  gen_loop fuel pick gen_init.

(** The state after [k] turns of the loop, when it takes that many. *)
Fixpoint gen_iter (k : nat) (pick : list nat -> M R nat) (st : gen_state) : M R gen_state :=
  match k with
  | O => mret st
  | S k' =>
    match ready st with
    | [] => raise ValueError
    | _ :: _ => st' ← gen_step pick st; gen_iter k' pick st'
    end
  end.

(** [random.choice(x)] is [x[randbelow(len(x))]]; [randbelow] is the
    pseudo-random source, which answers below its argument. *)
Definition choice (randbelow : nat -> R -> nat * R) (x : list nat) : M R nat :=
  fun r => let '(k, r') := randbelow (length x) r in index x k r'.

Definition random (fuel : nat) (randbelow : nat -> R -> nat * R) : M R (list nat) :=
  _gen fuel (choice randbelow).

Definition min_pick (rule : nat -> Z) (x : list nat) : M R nat :=
  match py_min_key rule x with
  | Some i => mret i
  | None => raise ValueError
  end.

Definition min_rule (fuel : nat) (rule : nat -> Z) : M R (list nat) :=
  _gen fuel (min_pick rule).

End gen.
End Sampler.


(** ** Resource time-profile *)

Module Profile.

(** A [TimeCapacityNode] object.  Its [capacity] attribute is a reference to
    a list object, [next] and [prev] are references to nodes or [None]. *)
Record TimeCapacityNode := {
  time : Z;
  capacity : nat;
  next : option nat;
  prev : option nat
}.

(** The part of the Python heap the decoder works on: the list-of-integer
    objects ([vecs], addressed by position) and the node objects ([nodes]).
    Objects are never freed, a new one goes to the end. *)
Record heap := {
  vecs : list (list Z);
  nodes : list TimeCapacityNode
}.

(** The list object behind a reference. *)
Definition vec (r : nat) : M heap (list Z) :=
  fun h => match vecs h !! r with
           | Some v => (Ret v, h)
           | None => (Raise SystemError, h)
           end.

(** [r[i]] *)
Definition vec_index (r i : nat) : M heap Z :=
  v ← vec r; index v i.

(** [r[i] = x], in place. *)
Definition vec_assign (r i : nat) (x : Z) : M heap unit :=
  fun h => match vecs h !! r with
           | Some v =>
             if decide (i < length v)%nat
             then (Ret tt, {| vecs := <[r:=<[i:=x]> v]> (vecs h); nodes := nodes h |})
             else (Raise IndexError, h)
           | None => (Raise SystemError, h)
           end.

(** [r.copy()]: a new list object with the same items. *)
Definition copy (r : nat) : M heap nat :=
  fun h => match vecs h !! r with
           | Some v => (Ret (length (vecs h)), {| vecs := vecs h ++ [v]; nodes := nodes h |})
           | None => (Raise SystemError, h)
           end.

(** The node object behind a reference. *)
Definition deref (a : nat) : M heap TimeCapacityNode :=
  fun h => match nodes h !! a with
           | Some nd => (Ret nd, h)
           | None => (Raise SystemError, h)
           end.

(** Attribute access and method call on a variable that may hold [None]. *)
Definition attr (o : option nat) : M heap TimeCapacityNode :=
  match o with
  | Some a => deref a
  | None => raise AttributeError
  end.

Definition call {A} (o : option nat) (method : nat -> M heap A) : M heap A :=
  match o with
  | Some a => method a
  | None => raise AttributeError
  end.

(** [a.next = v] and [a.prev = v] *)
Definition set_next (a : nat) (v : option nat) : M heap unit :=
  fun h => match nodes h !! a with
           | Some nd =>
             (Ret tt, {| vecs := vecs h;
                         nodes := <[a:={| time := time nd; capacity := capacity nd;
                                          next := v; prev := prev nd |}]> (nodes h) |})
           | None => (Raise SystemError, h)
           end.

Definition set_prev (a : nat) (v : option nat) : M heap unit :=
  fun h => match nodes h !! a with
           | Some nd =>
             (Ret tt, {| vecs := vecs h;
                         nodes := <[a:={| time := time nd; capacity := capacity nd;
                                          next := next nd; prev := v |}]> (nodes h) |})
           | None => (Raise SystemError, h)
           end.

(** [TimeCapacityNode(time, capacity)] *)
Definition init (t : Z) (c : nat) : M heap nat :=
  fun h => (Ret (length (nodes h)),
            {| vecs := vecs h;
               nodes := nodes h ++ [{| time := t; capacity := c; next := None; prev := None |}] |}).

Definition insert_after (self : nat) (t : Z) : M heap nat :=
  me ← deref self;
  c ← copy (capacity me);
  node ← init t c;
  set_prev node (Some self);;
  me ← deref self;
  set_next node (next me);;
  match next me with
  | Some nx => set_prev nx (Some node)
  | None => mret tt
  end;;
  set_next self (Some node);;
  mret node.

(** [all(capacity[i] >= demand[i] for i in range(len(demand)))] on the items
    of the two lists; [None] stands for the [IndexError] of a capacity list
    that ends before a decision is reached. *)
Fixpoint all_ge (cap dem : list Z) {struct dem} : option bool :=
  match dem with
  | [] => Some true
  | d :: dem' =>
    match cap with
    | [] => None
    | c :: cap' => if decide (c >= d) then all_ge cap' dem' else Some false
    end
  end.

Definition enough (self : nat) (demand : nat) : M heap bool :=
  dv ← vec demand;
  me ← deref self;
  cv ← vec (capacity me);
  match all_ge cv dv with
  | Some b => mret b
  | None => raise IndexError
  end.

(** [for i in range(len(demand)): self.capacity[i] -= demand[i]], the
    remaining [k] turns from index [j] on.  Every turn reads both lists
    anew, so the model does not assume that they are different objects. *)
Fixpoint consume_from (self demand : nat) (j k : nat) : M heap unit :=
  match k with
  | O => mret tt
  | S k' =>
    me ← deref self;
    c ← vec_index (capacity me) j;
    d ← vec_index demand j;
    vec_assign (capacity me) j (c - d);;
    consume_from self demand (S j) k'
  end.

Definition consume (self : nat) (demand : nat) : M heap unit :=
  dv ← vec demand;
  consume_from self demand 0 (length dv).

End Profile.

(** ** Serial schedule decoder *)

Module Decoder.
Import Profile.

Section body.
(** [duration] and the items of [demands] are references to list objects of
    the heap, so is [capacity] below; [predecessors] and the activity list
    are only ever iterated. *)
Context (fuel : nat) (duration : nat) (predecessors : list (list nat)) (demands : list nat).

(** [for p in predecessors[i]: if finish_nodes[p].time > start.time: start = finish_nodes[p]] *)
Fixpoint latest_finish (finish_nodes : list (option nat)) (ps : list nat) (start : option nat)
    : M heap (option nat) :=
  match ps with
  | [] => mret start
  | p :: ps' =>
    fp ← index finish_nodes p;
    fnd ← attr fp;
    snd ← attr start;
    latest_finish finish_nodes ps' (if decide (time fnd > time snd) then fp else start)
  end.

(** [while not node.enough(demands[i]): node = node.next; start = node;
    finish_time = start.time + duration[i]] *)
Fixpoint find_start (fuel : nat) (i : nat) (node start : option nat) (finish_time : Z)
    : M heap (option nat * option nat * Z) :=
  _ ← attr node;
  d ← index demands i;
  ok ← call node (fun a => enough a d);
  if (ok : bool) then mret (node, start, finish_time)
  else
    match fuel with
    | O => timeout
    | S fuel' =>
      nd ← attr node;
      let node := next nd in
      let start := node in
      snd ← attr start;
      dv ← vec_index duration i;
      find_start fuel' i node start (time snd + dv)
    end.

(** [while t != finish_node: t.consume(demands[i]); t = t.next] *)
Fixpoint consume_range (fuel : nat) (i : nat) (t finish_node : option nat) : M heap unit :=
  if decide (t = finish_node) then mret tt
  else
    match fuel with
    | O => timeout
    | S fuel' =>
      _ ← attr t;
      d ← index demands i;
      call t (fun a => consume a d);;
      nd ← attr t;
      consume_range fuel' i (next nd) finish_node
    end.

(** The body of [for i in alist:]; [st] holds [starts] and [finish_nodes]. *)
Definition schedule (root : nat) (i : nat) (st : list Z * list (option nat))
    : M heap (list Z * list (option nat)) :=
  let '(starts, finish_nodes) := st in
  ps ← index predecessors i;
  start ← latest_finish finish_nodes ps (Some root);
  snd ← attr start;
  dv ← vec_index duration i;
  '(node, start, finish_time) ← find_start fuel i start start (time snd + dv);
  nd ← attr node;
  finish_node ←
    match next nd with
    | None => a ← call node (fun a => insert_after a finish_time); mret (Some a)
    | Some nx =>
      nxd ← deref nx;
      if decide (time nxd ≠ finish_time)
      then a ← call node (fun a => insert_after a finish_time); mret (Some a)
      else mret (Some nx)
    end;
  consume_range fuel i start finish_node;;
  snd ← attr start;
  starts ← store starts i (time snd);
  finish_nodes ← store finish_nodes i finish_node;
  mret (starts, finish_nodes).

Fixpoint decode_loop (root : nat) (alist : list nat) (st : list Z * list (option nat))
    : M heap (list Z * list (option nat)) :=
  match alist with
  | [] => mret st
  | i :: alist' => st' ← schedule root i st; decode_loop root alist' st'
  end.

(** The four statements before the loop. *)
Definition decode_init (capacity : nat) : M heap (nat * (list Z * list (option nat))) :=
  c ← copy capacity;
  root ← init 0 c;
  dur ← vec duration;
  let starts := replicate (length dur) 0 in
  let finish_nodes := replicate (length dur) None in
  finish_nodes ← store finish_nodes 0%nat (Some root);
  mret (root, (starts, finish_nodes)).

(** [decode] up to its [return], keeping the local variables. *)
Definition decode_run (alist : list nat) (capacity : nat)
    : M heap (nat * (list Z * list (option nat))) :=
  '(root, st) ← decode_init capacity;
  st' ← decode_loop root alist st;
  mret (root, st').

End body.

Definition decode (fuel : nat) (alist : list nat) (duration : nat)
    (predecessors : list (list nat)) (demands : list nat) (capacity : nat) : M heap (list Z) :=
  '(_, (starts, _)) ← decode_run fuel duration predecessors demands alist capacity;
  mret starts.

(** The references of the breakpoints from [a] on, following [next]. *)
Fixpoint chain (fuel : nat) (ns : list TimeCapacityNode) (a : nat) : list nat :=
  match fuel with
  | O => []
  | S fuel' =>
    match ns !! a with
    | None => []
    | Some nd => a :: match next nd with
                      | None => []
                      | Some b => chain fuel' ns b
                      end
    end
  end.

End Decoder.


(** ** Vocabulary of the specification *)

(** Every predecessor is an activity of the network. *)
Definition in_range (predecessors : list (list nat)) : Prop :=
  ∀ i ps p, predecessors !! i = Some ps → p ∈ ps → (p < length predecessors)%nat.

(** The predecessor relation has no cycle: the activities can be numbered so
    that every predecessor has a smaller number than its successor. *)
Definition acyclic (predecessors : list (list nat)) : Prop :=
  ∃ rank : nat → nat,
    ∀ i ps p, predecessors !! i = Some ps → p ∈ ps → (rank p < rank i)%nat.

(** Activity [n-1] is the only one that may lack a successor. *)
Definition single_sink (predecessors : list (list nat)) : Prop :=
  ∀ i, (S i < length predecessors)%nat →
    ∃ j ps, predecessors !! j = Some ps ∧ i ∈ ps.

(** Activity [0] is the only one that may lack a predecessor. *)
Definition single_source (predecessors : list (list nat)) : Prop :=
  ∀ i ps, predecessors !! i = Some ps → i ≠ 0%nat → ps ≠ [].

(** The optional third argument of [calculate_critical_times]: left out, or
    the successor lists of the same network. *)
Definition consistent_successors (predecessors : list (list nat))
    (successors : option (list (list nat))) : Prop :=
  successors = None ∨ successors = Some (successors_by_predecessors predecessors).

(** [v[p] + duration[p]] and [v[s] - duration[s]], when both items exist. *)
Definition plus_duration (duration v : list Z) (p : nat) : option Z :=
  e ← v !! p; d ← duration !! p; Some (e + d).

Definition minus_duration (duration v : list Z) (s : nat) : option Z :=
  l ← v !! s; d ← duration !! s; Some (l - d).

(** [m] is the maximum, resp. minimum, of [f] over the non-empty list [ps]. *)
Definition max_over (f : nat → option Z) (ps : list nat) (m : Z) : Prop :=
  (∃ p, p ∈ ps ∧ f p = Some m) ∧ ∀ p, p ∈ ps → ∃ v, f p = Some v ∧ v <= m.

Definition min_over (f : nat → option Z) (ss : list nat) (m : Z) : Prop :=
  (∃ s, s ∈ ss ∧ f s = Some m) ∧ ∀ s, s ∈ ss → ∃ v, f s = Some v ∧ m <= v.

(** The earliest-start recurrence on a vector [est]. *)
Definition earliest_start_recurrence (duration : list Z) (predecessors : list (list nat))
    (est : list Z) : Prop :=
  ∀ i ps, predecessors !! i = Some ps →
    match ps with
    | [] => est !! i = Some 0
    | _ :: _ => ∃ e, est !! i = Some e ∧ max_over (plus_duration duration est) ps e
    end.

(** What the claim on the two critical-time vectors asks of them. *)
Definition critical_times_ordered (est lst : list Z) : Prop :=
  length est = length lst ∧
  (∀ i e l, est !! i = Some e → lst !! i = Some l → 0 <= e ∧ e <= l) ∧
  est !! (length est - 1)%nat = lst !! (length est - 1)%nat.

(** What holds of them on every well-formed network: no earliest time is
    negative, the two vectors agree at the last activity, and
    [est[i] <= lst[i]] at every activity whose duration is at least that of
    the last one. *)
Definition critical_times_bounded (duration est lst : list Z) : Prop :=
  length est = length lst ∧
  (∀ i e, est !! i = Some e → 0 <= e) ∧
  (∃ e, est !! (length est - 1)%nat = Some e ∧ lst !! (length est - 1)%nat = Some e) ∧
  (∀ i e l d ds, est !! i = Some e → lst !! i = Some l →
     duration !! i = Some d → duration !! (length duration - 1)%nat = Some ds →
     ds <= d → e <= l).

Definition nonnegative (duration : list Z) : Prop :=
  ∀ i d, duration !! i = Some d → 0 <= d.

(** The networks the critical-path claims speak of. *)
Definition well_formed_network (duration : list Z) (predecessors : list (list nat)) : Prop :=
  (0 < length duration)%nat ∧
  length predecessors = length duration ∧
  in_range predecessors ∧
  acyclic predecessors ∧
  single_source predecessors ∧
  single_sink predecessors ∧
  nonnegative duration.

(** The values the two recursions compute, as pure functions of the network
    ([fuel] again bounds the depth). *)
Module CriticalValues.
Section defs.
Context (duration : list Z) (predecessors successors : list (list nat)).

Definition dur (i : nat) : Z := default 0 (duration !! i).

Fixpoint ES (fuel : nat) (i : nat) : Z :=
  match fuel with
  | O => 0
  | S fuel' =>
    match predecessors !! i with
    | Some (p :: ps) =>
      fold_left Z.max ((fun q => ES fuel' q + dur q) <$> ps) (ES fuel' p + dur p)
    | _ => 0
    end
  end.

Fixpoint LF (sink_value : Z) (fuel : nat) (i : nat) : Z :=
  match fuel with
  | O => 0
  | S fuel' =>
    if decide (Z.of_nat i = Z.of_nat (length duration) - 1) then sink_value
    else
      match successors !! i with
      | Some (s :: ss) =>
        fold_left Z.min ((fun q => LF sink_value fuel' q - dur q) <$> ss)
                  (LF sink_value fuel' s - dur s)
      | _ => 0
      end
  end.

(** [reaches j i]: [j] is [i] or one of its ancestors. *)
Inductive reaches : nat → nat → Prop :=
| reaches_refl i : reaches i i
| reaches_step j p i ps :
    predecessors !! i = Some ps → p ∈ ps → reaches j p → reaches j i.

(** A vector being filled with the values [value]: an item is still at its
    initial 0 or has its final value; [extends] says final values stay. *)
Definition filled (value : nat → Z) (v : list Z) : Prop :=
  length v = length duration ∧ ∀ j x, v !! j = Some x → x = 0 ∨ x = value j.

Definition extends (value : nat → Z) (v v' : list Z) : Prop :=
  ∀ j, v !! j = Some (value j) → v' !! j = Some (value j).

(** With a numbering [rank] of the activities, fuel beyond the rank of [i]
    is enough for [ES], fuel beyond [bound - rank i] for [LF]. *)
Definition ESv (rank : nat → nat) (i : nat) : Z := ES (S (rank i)) i.

Definition LFv (rank : nat → nat) (bound : nat) (sink_value : Z) (i : nat) : Z :=
  LF sink_value (S (bound - rank i)) i.

End defs.
End CriticalValues.

(** An activity order: every activity exactly once, each after all of its
    predecessors. *)
Definition topological_order (predecessors : list (list nat)) (order : list nat) : Prop :=
  order ≡ₚ seq 0 (length predecessors) ∧
  ∀ k i ps p, order !! k = Some i → predecessors !! i = Some ps → p ∈ ps →
    ∃ k', (k' < k)%nat ∧ order !! k' = Some p.

(** What holds of the local variables of [_gen] at every turn of its loop:
    [rem[j]] is the set of predecessors of [j] not yet emitted, [res] and
    [ready] together hold, once each, the activities all of whose
    predecessors are emitted, and [res] is topologically ordered. *)
Definition gen_inv (predecessors : list (list nat)) (st : Sampler.gen_state) : Prop :=
  length (Sampler.rem st) = length predecessors ∧
  (∀ j ps, predecessors !! j = Some ps →
     ∃ rs, Sampler.rem st !! j = Some rs ∧ ∀ p, p ∈ rs ↔ p ∈ ps ∧ p ∉ Sampler.res st) ∧
  NoDup (Sampler.res st ++ Sampler.ready st) ∧
  (∀ j, j ∈ Sampler.res st ++ Sampler.ready st ↔
        (j < length predecessors)%nat ∧
        ∀ ps p, predecessors !! j = Some ps → p ∈ ps → p ∈ Sampler.res st) ∧
  (∀ k i ps p, Sampler.res st !! k = Some i → predecessors !! i = Some ps → p ∈ ps →
     ∃ k', (k' < k)%nat ∧ Sampler.res st !! k' = Some p).

(** A selection policy that answers with an item of a non-empty list. *)
Definition selects {R : Type} (pick : list nat → M R nat) : Prop :=
  ∀ x r, x ≠ [] → ∃ i r', pick x r = (Ret i, r') ∧ i ∈ x.

(** A computation that neither reads nor writes the state it runs in: run
    on the state of the pseudo-random source, it makes no use of it. *)
Definition stateless {S A : Type} (m : M S A) : Prop := ∃ o, ∀ s, m s = (o, s).

(** ** Vocabulary for the decoder *)

Module Frame.
Import Profile.
Section defs.
(** [h0] is the heap in which [decode] is called. *)
Context (h0 : heap).

(** A node reference is fresh when the node was created after the call. *)
Definition fresh (a : nat) : Prop := (length (nodes h0) ≤ a)%nat.

Definition ofresh (o : option nat) : Prop := ∀ a, o = Some a → fresh a.

Definition all_fresh (finish_nodes : list (option nat)) : Prop :=
  ∀ i a, finish_nodes !! i = Some (Some a) → fresh a.

(** The frame kept by every step of [decode]: the list objects that existed
    at the call are as they were, and the fresh nodes refer to list objects
    and nodes created after the call. *)
Definition framed (h : heap) : Prop :=
  (∀ r, (r < length (vecs h0))%nat → vecs h !! r = vecs h0 !! r) ∧
  (length (vecs h0) ≤ length (vecs h))%nat ∧
  (length (nodes h0) ≤ length (nodes h))%nat ∧
  (∀ a nd, fresh a → nodes h !! a = Some nd →
     (length (vecs h0) ≤ capacity nd)%nat ∧ ofresh (next nd)).

(** [m] keeps the frame whatever its outcome, and a value it returns
    satisfies [Q]. *)
Definition preserves {A : Type} (m : M heap A) (Q : A → Prop) : Prop :=
  ∀ h, framed h → framed (m h).2 ∧ ∀ a, (m h).1 = Ret a → Q a.

End defs.

(** Nodes stay where they are and keep their time. *)
Definition evolves (h h' : heap) : Prop :=
  ∀ a nd, nodes h !! a = Some nd →
    ∃ nd', nodes h' !! a = Some nd' ∧ time nd' = time nd.

Definition monotone {A : Type} (m : M heap A) : Prop :=
  ∀ h, evolves h (m h).2.

(** [m] only reads the heap. *)
Definition readonly {A : Type} (m : M heap A) : Prop :=
  ∀ h, (m h).2 = h.

End Frame.

(** The breakpoint list of a decode in progress.  Of a node only its time,
    its capacity reference and its [next] matter to [decode]; [prev] is
    written and never read. *)
Module Chain.
Import Profile.

Definition link (nd : TimeCapacityNode) : Z * nat * option nat :=
  (time nd, capacity nd, next nd).

Definition links (h : heap) : list (Z * nat * option nat) := link <$> nodes h.

(** [l] is a run of nodes each of whose [next] is the following one, the
    last one's [next] being [e]. *)
Fixpoint linked (L : list (Z * nat * option nat)) (l : list nat) (e : option nat) : Prop :=
  match l with
  | [] => True
  | a :: r =>
    (∃ t c, L !! a = Some (t, c, match r with [] => e | b :: _ => Some b end)) ∧
    linked L r e
  end.

(** The invariant of the loop of [decode] on a well-formed input: the
    breakpoints reachable from the root are the nodes of [l], in this order
    and without repetition; each has a capacity list of its own, created
    after the call and as long as [cap]; the last breakpoint still has the
    full capacity [cap]; the list objects older than the call ([V0]) are
    untouched. *)
Definition chained (V0 : list (list Z)) (cap : list Z) (l : list nat)
    (L : list (Z * nat * option nat)) (V : list (list Z)) : Prop :=
  NoDup l ∧
  linked L l None ∧
  (∀ a, a ∈ l → ∃ t c n cv, L !! a = Some (t, c, n) ∧ (length V0 ≤ c)%nat ∧
                             V !! c = Some cv ∧ length cv = length cap) ∧
  (∀ a a' t t' c n n', a ∈ l → a' ∈ l →
     L !! a = Some (t, c, n) → L !! a' = Some (t', c, n') → a = a') ∧
  (∃ a t c, last l = Some a ∧ L !! a = Some (t, c, None) ∧ V !! c = Some cap) ∧
  (∀ r, (r < length V0)%nat → V !! r = V0 !! r).

End Chain.

(** The inputs claim C4 speaks of: [duration] and [capacity] refer to list
    objects of the heap, the network is not empty, [alist] is an activity
    order of it, and every activity has a demand list that is item by item
    at most the capacity. *)
Definition decodable (h0 : Profile.heap) (alist : list nat) (duration : nat)
    (predecessors : list (list nat)) (demands : list nat) (capacity : nat)
    (dur cap : list Z) : Prop :=
  Profile.vecs h0 !! duration = Some dur ∧
  Profile.vecs h0 !! capacity = Some cap ∧
  (0 < length dur)%nat ∧
  length predecessors = length dur ∧
  length demands = length dur ∧
  topological_order predecessors alist ∧
  ∀ i d, demands !! i = Some d →
    ∃ dv, Profile.vecs h0 !! d = Some dv ∧ Forall2 Z.le dv cap.

(** What claim C9 asks of the local variables of [decode] once the
    activities of [done] are processed; [dur] holds the items of the
    [duration] list. *)
Definition finish_times_recorded (dur : list Z) (done : list nat) (h : Profile.heap)
    (starts : list Z) (finish_nodes : list (option nat)) : Prop :=
  ∀ i, i ∈ done →
    ∃ a nd s d,
      finish_nodes !! i = Some (Some a) ∧ Profile.nodes h !! a = Some nd ∧
      starts !! i = Some s ∧ dur !! i = Some d ∧ Profile.time nd = s + d.

(** ** Schedules *)

(** Activity [i] runs at time [t]: [start_time[i] <= t < start_time[i] + duration[i]]. *)
Definition active (starts dur : list Z) (i : nat) (t : Z) : bool :=
  match starts !! i, dur !! i with
  | Some s, Some d => bool_decide (s <= t < s + d)
  | _, _ => false
  end.

(** The demand for resource [r] at time [t]: the sum of [demand[i][r]] over
    the activities that run then. *)
Definition usage (starts dur : list Z) (demand : list (list Z)) (t : Z) (r : nat) : Z :=
  foldr Z.add 0
    ((fun i => if active starts dur i t
               then default 0 (dv ← demand !! i; dv !! r) else 0)
       <$> seq 0 (length starts)).

Definition resource_feasible (starts dur : list Z) (demand : list (list Z))
    (cap : list Z) : Prop :=
  ∀ t r c, cap !! r = Some c → usage starts dur demand t r <= c.

Definition respects_precedence (starts dur : list Z) (predecessors : list (list nat)) : Prop :=
  ∀ i ps p s sp dp,
    predecessors !! i = Some ps → p ∈ ps →
    starts !! i = Some s → starts !! p = Some sp → dur !! p = Some dp →
    sp + dp <= s.

(** The times of the breakpoints from [root] on. *)
Definition profile_times (fuel : nat) (h : Profile.heap) (root : nat) : list Z :=
  omap (fun a => Profile.time <$> Profile.nodes h !! a)
       (Decoder.chain fuel (Profile.nodes h) root).

Definition strictly_increasing (ts : list Z) : Prop :=
  ∀ j x y, ts !! j = Some x → ts !! S j = Some y → x < y.

(** ** Three small projects *)

(** Five activities, 0 the source and 4 the sink, each of positive
    duration; one resource.  In the heap: the duration list at reference 0,
    the capacity list at 1, the demand lists of the activities at 2 to 6. *)
Module Examples.
Import Profile.

Definition durations : list Z := [1; 2; 5; 1; 1].

(** Capacity 1; activities 2 and 3 need the whole of it. *)
Definition tight_predecessors : list (list nat) := [[]; [0]; [0]; [1]; [2; 3]]%nat.
Definition tight_demand : list (list Z) := [[0]; [0]; [1]; [1]; [0]].
Definition tight_heap : heap :=
  {| vecs := durations :: [1] :: tight_demand; nodes := [] |}.

(** Capacity 2; activity 3 comes after activity 2 and needs the whole of it. *)
Definition wide_predecessors : list (list nat) := [[]; [0]; [0]; [2]; [1; 3]]%nat.
Definition wide_demand : list (list Z) := [[0]; [1]; [1]; [2]; [0]].
Definition wide_heap : heap :=
  {| vecs := durations :: [2] :: wide_demand; nodes := [] |}.

Definition order : list nat := [0; 1; 2; 3; 4]%nat.
Definition demand_refs : list nat := [2; 3; 4; 5; 6]%nat.

(** A chain of four activities with a dummy start and a dummy end. *)
Definition chain_durations : list Z := [0; 2; 3; 0].
Definition chain_predecessors : list (list nat) := [[]; [0]; [1]; [2]]%nat.
Definition chain_heap : heap :=
  {| vecs := [chain_durations; [1]; [0]; [1]; [1]; [0]]; nodes := [] |}.
Definition chain_order : list nat := [0; 1; 2; 3]%nat.
Definition chain_demand_refs : list nat := [2; 3; 4; 5]%nat.

(** The heap and the local variables when [decode] has worked through the
    chain. *)
Definition chain_decoded : outcome (nat * (list Z * list (option nat))) * heap :=
  Eval vm_compute in
    Decoder.decode_run 5 0 chain_predecessors chain_demand_refs chain_order 1 chain_heap.

(** Two activities, the second of duration 5. *)
Definition pair_durations : list Z := [0; 5].
Definition pair_predecessors : list (list nat) := [[]; [0]]%nat.

End Examples.

(** ** Vocabulary of the further properties *)

(** A list of activities in ascending order. *)
Definition ascending (l : list nat) : Prop :=
  ∀ j k x y, (j < k)%nat → l !! j = Some x → l !! k = Some y → (x < y)%nat.

(** The latest-time vector follows the backward recurrence: the sink takes
    its earliest time, an activity with no successor takes 0, any other
    activity the least of its successors' values less their durations. *)
Definition latest_finish_recurrence (duration : list Z) (predecessors : list (list nat))
    (est lst : list Z) : Prop :=
  ∀ i ss, successors_by_predecessors predecessors !! i = Some ss →
    if decide (i = (length duration - 1)%nat) then
      ∃ e, est !! i = Some e ∧ lst !! i = Some e
    else
      match ss with
      | [] => lst !! i = Some 0
      | _ :: _ => ∃ l, lst !! i = Some l ∧ min_over (minus_duration duration lst) ss l
      end.

(** Every activity but the last finishes, by the earliest times, no later than
    the last one starts. *)
Definition finishes_by_sink (duration est : list Z) : Prop :=
  ∀ i e d s, i ≠ (length duration - 1)%nat →
    est !! i = Some e → duration !! i = Some d →
    est !! (length duration - 1)%nat = Some s → e + d <= s.

(** A set of activities each of which waits for another one of the set: its
    members lie on a cycle of the network or behind one. *)
Definition unfounded (predecessors : list (list nat)) (C : nat → Prop) : Prop :=
  ∀ i, C i → ∃ ps p, predecessors !! i = Some ps ∧ p ∈ ps ∧ C p.

(** What the sampler emits on any network: no activity twice, exactly the
    activities all of whose predecessors are emitted, each behind its
    predecessors. *)
Definition emitted (predecessors : list (list nat)) (order : list nat) : Prop :=
  NoDup order ∧
  (∀ j, j ∈ order ↔
        (j < length predecessors)%nat ∧
        ∀ ps p, predecessors !! j = Some ps → p ∈ ps → p ∈ order) ∧
  (∀ k i ps p, order !! k = Some i → predecessors !! i = Some ps → p ∈ ps →
     ∃ k', (k' < k)%nat ∧ order !! k' = Some p).

(** The capacity list [cv] covers the demand list [dv] wherever both have an
    item. *)
Definition covers (cv dv : list Z) : Prop :=
  ∀ i d c, dv !! i = Some d → cv !! i = Some c → d <= c.

(** The [next] and [prev] attributes of the nodes of a heap are inverse to
    each other. *)
Definition doubly_linked (h : Profile.heap) : Prop :=
  (∀ a nd b, Profile.nodes h !! a = Some nd → Profile.next nd = Some b →
     ∃ nb, Profile.nodes h !! b = Some nb ∧ Profile.prev nb = Some a) ∧
  (∀ a nd b, Profile.nodes h !! a = Some nd → Profile.prev nd = Some b →
     ∃ nb, Profile.nodes h !! b = Some nb ∧ Profile.next nb = Some a).

(** What [insert_after] does to the nodes: the new node [m] stands between
    [self] and the node that followed it. *)
Definition spliced (N N' : list Profile.TimeCapacityNode) (self : nat)
    (nd : Profile.TimeCapacityNode) (t : Z) (c : nat) : Prop :=
  let m := length N in
  length N' = S m ∧
  N' !! m = Some {| Profile.time := t; Profile.capacity := c;
                    Profile.next := Profile.next nd; Profile.prev := Some self |} ∧
  N' !! self = Some {| Profile.time := Profile.time nd;
                       Profile.capacity := Profile.capacity nd;
                       Profile.next := Some m;
                       Profile.prev := if decide (Profile.next nd = Some self)
                                       then Some m else Profile.prev nd |} ∧
  (∀ nx nxd, Profile.next nd = Some nx → nx ≠ self → N !! nx = Some nxd →
     N' !! nx = Some {| Profile.time := Profile.time nxd;
                        Profile.capacity := Profile.capacity nxd;
                        Profile.next := Profile.next nxd;
                        Profile.prev := Some m |}) ∧
  (∀ a, a ≠ self → Profile.next nd ≠ Some a → (a < m)%nat → N' !! a = N !! a).

(** The code [m] keeps the property [I] of the heap, whatever its outcome. *)
Definition keeps {A : Type} (I : Profile.heap → Prop) (m : M Profile.heap A) : Prop :=
  ∀ h, I h → I (m h).2.

(** A capacity list that is as long as the capacity of the project and lies,
    item by item, between 0 and it. *)
Definition within (cap cv : list Z) : Prop :=
  length cv = length cap ∧ ∀ k c x, cap !! k = Some c → cv !! k = Some x → 0 <= x <= c.

(** The capacity lists of the nodes made since [h0] lie within [cap]. *)
Definition capacities_within (h0 h : Profile.heap) (cap : list Z) : Prop :=
  ∀ a nd, (length (Profile.nodes h0) ≤ a)%nat → Profile.nodes h !! a = Some nd →
    ∃ cv, Profile.vecs h !! Profile.capacity nd = Some cv ∧ within cap cv.

(** The demand of the activities [acts] for resource [r], summed. *)
Definition load (demand : list (list Z)) (acts : list nat) (r : nat) : Z :=
  foldr Z.add 0 ((fun i => default 0 (dv ← demand !! i; dv !! r)) <$> acts).

(** The demand lists [demand] are those the references [demands] name in the
    heap. *)
Definition stored (h0 : Profile.heap) (demands : list nat) (demand : list (list Z)) : Prop :=
  length demands = length demand ∧
  ∀ i d, demands !! i = Some d →
    ∃ dv, demand !! i = Some dv ∧ Profile.vecs h0 !! d = Some dv.

(** The capacity holds all activities at once: the demands are non-negative,
    one item per resource, and their sum over all activities is within the
    capacity of each resource. *)
Definition ample (demand : list (list Z)) (cap : list Z) : Prop :=
  (∀ i dv, demand !! i = Some dv →
     length dv = length cap ∧ ∀ k x, dv !! k = Some x → 0 <= x) ∧
  ∀ r c, cap !! r = Some c → load demand (seq 0 (length demand)) r <= c.

(** The forward recurrence at one activity. *)
Definition recurrence_at (dur : list Z) (predecessors : list (list nat)) (starts : list Z)
    (i : nat) : Prop :=
  ∀ ps, predecessors !! i = Some ps →
    match ps with
    | [] => starts !! i = Some 0
    | _ :: _ => ∃ e, starts !! i = Some e ∧ max_over (plus_duration dur starts) ps e
    end.

(** ** More small cases *)

Module Cases.
Import Profile.

(** Two activities that wait for each other. *)
Definition knot_durations : list Z := [1; 1].
Definition knot_predecessors : list (list nat) := [[1]; [0]]%nat.

(** Activity 0 is free; activities 1 and 2 wait for each other. *)
Definition snarl_predecessors : list (list nat) := [[]; [2]; [1]]%nat.

(** One breakpoint of capacity [3; 4], and a demand list [1; 5] at
    reference 1. *)
Definition lone_heap : heap :=
  {| vecs := [[3; 4]; [1; 5]];
     nodes := [{| time := 0; capacity := 0; next := None; prev := None |}] |}.

(** The chain of [Examples] with room for all its activities at once:
    capacity 2. *)
Definition roomy_demand : list (list Z) := [[0]; [1]; [1]; [0]].
Definition roomy_heap : heap :=
  {| vecs := Examples.chain_durations :: [2] :: roomy_demand; nodes := [] |}.

(** The chain whose activity 2 needs two units of a resource of capacity 1. *)
Definition short_heap : heap :=
  {| vecs := [Examples.chain_durations; [1]; [0]; [1]; [2]; [0]]; nodes := [] |}.

(** The chain decoded in full, and with the activities 0 and 1 only. *)
Definition chain_full : outcome (list Z) * heap :=
  Eval vm_compute in
    Decoder.decode 5 Examples.chain_order 0 Examples.chain_predecessors
      Examples.chain_demand_refs 1 Examples.chain_heap.
Definition chain_partial : outcome (list Z) * heap :=
  Eval vm_compute in
    Decoder.decode 5 [0; 1]%nat 0 Examples.chain_predecessors
      Examples.chain_demand_refs 1 Examples.chain_heap.

(** A project of no activity. *)
Definition empty_heap : heap := {| vecs := [[]; [1]]; nodes := [] |}.

End Cases.

(** * Proofs *)

(** ** Running monadic code *)

Lemma bind_run {S A B} (m : M S A) (f : A → M S B) (s : S) :
  (m ≫= f) s =
  match m s with
  | (Ret a, s') => f a s'
  | (Raise e, s') => (Raise e, s')
  | (Timeout, s') => (Timeout, s')
  end.
Proof. reflexivity. Qed.

Lemma bind_ret_run {S A B} (m : M S A) (f : A → M S B) (s s' : S) (a : A) :
  m s = (Ret a, s') → (m ≫= f) s = f a s'.
Proof. intros H. rewrite bind_run, H. reflexivity. Qed.

Lemma ret_run {S A} (a : A) (s : S) : (mret a : M S A) s = (Ret a, s).
Proof. reflexivity. Qed.

Lemma index_run {S A} (l : list A) (i : nat) (a : A) (s : S) :
  l !! i = Some a → index l i s = (Ret a, s).
Proof. intros H. unfold index. rewrite H. reflexivity. Qed.

(** A generator whose calls all succeed, keep an invariant [I] and move the
    state along a preorder [Rel] under which the facts [Q] gained by each
    call are stable. *)
Lemma gen_list_run {S A B} (f : A → M S B) (g : A → B)
    (I : S → Prop) (Rel : S → S → Prop) (Q : A → S → Prop) :
  (∀ s, Rel s s) →
  (∀ s1 s2 s3, Rel s1 s2 → Rel s2 s3 → Rel s1 s3) →
  (∀ x s s', Q x s → Rel s s' → Q x s') →
  ∀ (l : list A) (s : S),
    (∀ x s, x ∈ l → I s → ∃ s', f x s = (Ret (g x), s') ∧ I s' ∧ Rel s s' ∧ Q x s') →
    I s →
    ∃ s', gen_list f l s = (Ret (g <$> l), s') ∧ I s' ∧ Rel s s' ∧ ∀ x, x ∈ l → Q x s'.
Proof.
  intros Hrefl Htrans Hstable l.
  induction l as [|x l IH]; intros s Hf Hs.
  - exists s. split; [reflexivity|]. split; [done|]. split; [done|].
    intros x Hx. by apply elem_of_nil in Hx.
  - destruct (Hf x s) as (s1 & Hx & Hs1 & Hrel1 & HQ1); [by left | done |].
    destruct (IH s1) as (s2 & Hl & Hs2 & Hrel2 & HQ2); [|done|].
    { intros y s' Hy. apply Hf. by right. }
    exists s2. split.
    { simpl. rewrite (bind_ret_run _ _ _ _ _ Hx), (bind_ret_run _ _ _ _ _ Hl). reflexivity. }
    split; [done|]. split; [by eapply Htrans|].
    intros y Hy. apply elem_of_cons in Hy as [->|Hy]; [by eapply Hstable | by apply HQ2].
Qed.

(** ** Maxima and minima of folds *)

Lemma fold_max_ge_init (l : list Z) (a : Z) : a <= fold_left Z.max l a.
Proof. revert a. induction l as [|x l IH]; intros a; simpl; [lia|]. specialize (IH (Z.max a x)). lia. Qed.

Lemma fold_max_ge_elem (l : list Z) (a x : Z) : x ∈ l → x <= fold_left Z.max l a.
Proof.
  revert a. induction l as [|y l IH]; intros a Hx; [by apply elem_of_nil in Hx|].
  simpl. apply elem_of_cons in Hx as [->|Hx]; [|by apply IH].
  pose proof (fold_max_ge_init l (Z.max a y)). lia.
Qed.

Lemma fold_max_attained (l : list Z) (a : Z) :
  fold_left Z.max l a = a ∨ fold_left Z.max l a ∈ l.
Proof.
  revert a. induction l as [|y l IH]; intros a; simpl; [by left|].
  destruct (IH (Z.max a y)) as [H|H].
  - rewrite H. destruct (Z.max_spec a y) as [[_ ->]|[_ ->]]; [right; by left | by left].
  - right. by right.
Qed.

Lemma fold_min_le_init (l : list Z) (a : Z) : fold_left Z.min l a <= a.
Proof. revert a. induction l as [|x l IH]; intros a; simpl; [lia|]. specialize (IH (Z.min a x)). lia. Qed.

Lemma fold_min_le_elem (l : list Z) (a x : Z) : x ∈ l → fold_left Z.min l a <= x.
Proof.
  revert a. induction l as [|y l IH]; intros a Hx; [by apply elem_of_nil in Hx|].
  simpl. apply elem_of_cons in Hx as [->|Hx]; [|by apply IH].
  pose proof (fold_min_le_init l (Z.min a y)). lia.
Qed.

Lemma fold_min_attained (l : list Z) (a : Z) :
  fold_left Z.min l a = a ∨ fold_left Z.min l a ∈ l.
Proof.
  revert a. induction l as [|y l IH]; intros a; simpl; [by left|].
  destruct (IH (Z.min a y)) as [H|H].
  - rewrite H. destruct (Z.min_spec a y) as [[_ ->]|[_ ->]]; [by left | right; by left].
  - right. by right.
Qed.

(** ** The precedence index *)

Lemma successors_lookup (predecessors : list (list nat)) (i : nat) :
  (i < length predecessors)%nat →
  successors_by_predecessors predecessors !! i =
  Some (filter (fun j => i ∈ default [] (predecessors !! j)) (seq 0 (length predecessors))).
Proof.
  intros Hi. unfold successors_by_predecessors.
  rewrite list_lookup_fmap, lookup_seq_lt by done. reflexivity.
Qed.

Lemma successors_length (predecessors : list (list nat)) :
  length (successors_by_predecessors predecessors) = length predecessors.
Proof. unfold successors_by_predecessors. by rewrite length_fmap, length_seq. Qed.

Lemma elem_of_successors (predecessors : list (list nat)) (i j : nat) (ss : list nat) :
  successors_by_predecessors predecessors !! i = Some ss →
  j ∈ ss ↔ ∃ ps, predecessors !! j = Some ps ∧ i ∈ ps.
Proof.
  intros Hss.
  assert (i < length predecessors)%nat as Hi.
  { apply lookup_lt_Some in Hss. by rewrite successors_length in Hss. }
  rewrite successors_lookup in Hss by done. injection Hss as <-.
  rewrite list_elem_of_filter, elem_of_seq. split.
  - intros [Hin [_ Hj]]. destruct (predecessors !! j) as [ps|] eqn:E; simpl in Hin.
    + by exists ps.
    + by apply elem_of_nil in Hin.
  - intros (ps & Hps & Hin). rewrite Hps. simpl. split; [done|].
    apply lookup_lt_Some in Hps. lia.
Qed.

(** ** The critical path calculator computes the critical values *)

Import CriticalPath CriticalValues.

Lemma assign_run (i : nat) (m : Z) (v : list Z) :
  (i < length v)%nat → assign i m v = (Ret tt, <[i:=m]> v).
Proof. intros Hi. unfold assign. by destruct (decide (i < length v)%nat). Qed.

Lemma current_run (i : nat) (x : Z) (v : list Z) :
  v !! i = Some x → current i v = (Ret x, v).
Proof. intros Hx. unfold current. rewrite bind_run. simpl. by apply index_run. Qed.

Lemma extends_refl (value : nat → Z) (v : list Z) : extends value v v.
Proof. by intros j. Qed.

Lemma extends_trans (value : nat → Z) (v1 v2 v3 : list Z) :
  extends value v1 v2 → extends value v2 v3 → extends value v1 v3.
Proof. intros H1 H2 j Hj. by apply H2, H1. Qed.

Lemma filled_insert (duration : list Z) (value : nat → Z) (v : list Z) (i : nat) :
  filled duration value v → filled duration value (<[i:=value i]> v).
Proof.
  intros [Hl Hf]. split; [by rewrite length_insert|].
  intros j x. destruct (decide (i = j)) as [<-|Hne].
  - intros Hx. apply list_lookup_insert_Some in Hx as [(_ & <- & _)|(? & _)]; [by right|done].
  - rewrite list_lookup_insert_ne by done. apply Hf.
Qed.

Lemma extends_insert (value : nat → Z) (v v' : list Z) (i : nat) :
  (i < length v')%nat → extends value v v' → extends value v (<[i:=value i]> v').
Proof.
  intros Hi Hext j Hj. apply Hext in Hj. destruct (decide (i = j)) as [<-|Hne].
  - by rewrite list_lookup_insert_eq.
  - by rewrite list_lookup_insert_ne.
Qed.


Section reaching.
Context (predecessors : list (list nat)).
Local Abbreviation reaches := (reaches predecessors).

Lemma reaches_first (i s j : nat) (ps : list nat) :
  predecessors !! s = Some ps → i ∈ ps → reaches s j → reaches i j.
Proof.
  intros Hps Hi Hsj. induction Hsj as [s|s p j qs Hqs Hp Hsp IH].
  - eapply reaches_step; [done..|]. constructor.
  - eapply reaches_step; [done..|]. by apply IH.
Qed.

Lemma reaches_inv_first (i j : nat) :
  reaches i j → i = j ∨ ∃ s ps, predecessors !! s = Some ps ∧ i ∈ ps ∧ reaches s j.
Proof.
  induction 1 as [i|i p j ps Hps Hp Hip IH]; [by left|]. right.
  destruct IH as [->|(s & qs & Hqs & Hi & Hsp)].
  - exists j, ps. split; [done|]. split; [done|]. constructor.
  - exists s, qs. split; [done|]. split; [done|]. by eapply reaches_step.
Qed.

End reaching.

Section critical_path.
Context (duration : list Z) (predecessors : list (list nat)) (rank : nat → nat).
Hypothesis Hrank : ∀ i ps p, predecessors !! i = Some ps → p ∈ ps → (rank p < rank i)%nat.
Hypothesis Hrange : in_range predecessors.
Hypothesis Hlen : length predecessors = length duration.
Hypothesis Hpos : (0 < length duration)%nat.
Hypothesis Hsink : single_sink predecessors.

Local Abbreviation successors := (successors_by_predecessors predecessors).
Local Abbreviation bound := (rank (length predecessors - 1)).
Local Abbreviation dur := (CriticalValues.dur duration).
Local Abbreviation ES := (CriticalValues.ES duration predecessors).
Local Abbreviation ESv := (CriticalValues.ESv duration predecessors rank).
Local Abbreviation reaches := (CriticalValues.reaches predecessors).

Section earliest.
Local Abbreviation filled := (CriticalValues.filled duration ESv).
Local Abbreviation extends := (CriticalValues.extends ESv).

Lemma ES_stable (f f' i : nat) :
  (rank i < f)%nat → (rank i < f')%nat → ES f i = ES f' i.
Proof.
  revert f' i. induction f as [|f IH]; intros f' i Hf Hf'; [lia|].
  destruct f' as [|f']; [lia|]. simpl.
  destruct (predecessors !! i) as [[|p ps]|] eqn:E; try done.
  assert (∀ q, q ∈ p :: ps → ES f q = ES f' q) as Hq.
  { intros q Hq. pose proof (Hrank i _ q E Hq). apply IH; lia. }
  rewrite (Hq p) by (by left). f_equal.
  apply list_fmap_ext. intros k q Hk. rewrite (Hq q); [done|].
  right. by eapply list_elem_of_lookup_2.
Qed.

Lemma ESv_unfold (i p : nat) (ps : list nat) :
  predecessors !! i = Some (p :: ps) →
  ESv i = fold_left Z.max ((fun q => ESv q + dur q) <$> ps) (ESv p + dur p).
Proof.
  intros E. unfold CriticalValues.ESv at 1. simpl. rewrite E.
  assert (∀ q, q ∈ p :: ps → ES (rank i) q = ESv q) as Hq.
  { intros q Hq. pose proof (Hrank i _ q E Hq). apply ES_stable; lia. }
  rewrite (Hq p) by (by left). f_equal.
  apply list_fmap_ext. intros k q Hk. rewrite (Hq q); [done|].
  right. by eapply list_elem_of_lookup_2.
Qed.

Lemma ESv_source (i : nat) : predecessors !! i = Some [] → ESv i = 0.
Proof. intros E. unfold CriticalValues.ESv. simpl. by rewrite E. Qed.

Lemma calc_es_S (fuel i : nat) :
  calc_es duration predecessors (S fuel) i =
  (ps ← index predecessors i;
   match ps with
   | [] => mret tt
   | _ :: _ =>
     vs ← gen_list (fun p => e ← calc_es duration predecessors fuel p;
                             d ← index duration p; mret (e + d)) ps;
     m ← py_max vs;
     assign i m
   end;;
   current i).
Proof. reflexivity. Qed.

Lemma calc_es_run (fuel i : nat) (est : list Z) :
  (rank i < fuel)%nat → (i < length duration)%nat → filled est →
  ∃ est', calc_es duration predecessors fuel i est = (Ret (ESv i), est') ∧
          filled est' ∧ extends est est' ∧
          ∀ j, reaches j i → est' !! j = Some (ESv j).
Proof.
  revert i est. induction fuel as [|fuel IH]; intros i est Hfuel Hi Hest; [lia|].
  destruct (lookup_lt_is_Some_2 predecessors i) as [ps Hps]; [lia|].
  rewrite calc_es_S, (bind_ret_run _ _ _ _ _ (index_run _ _ _ _ Hps)).
  destruct ps as [|p ps].
  - destruct (lookup_lt_is_Some_2 est i) as [x Hx]; [destruct Hest; lia|].
    assert (x = ESv i) as ->.
    { rewrite (ESv_source i Hps). destruct Hest as [_ Hest].
      destruct (Hest i x Hx) as [->| ->]; [done|]. by apply ESv_source. }
    exists est. split.
    { rewrite bind_run, ret_run. by apply current_run. }
    split; [done|]. split; [apply extends_refl|].
    intros j Hj. inversion Hj; subst; [done|].
    match goal with H : predecessors !! _ = Some ?l, H' : _ ∈ ?l |- _ =>
      rewrite Hps in H; injection H as <-; by apply elem_of_nil in H' end.
  - set (f := fun q => e ← calc_es duration predecessors fuel q; d ← index duration q; mret (e + d)).
    destruct (gen_list_run f (fun q => ESv q + dur q) filled extends
                (fun q s => ∀ j, reaches j q → s !! j = Some (ESv j))
                (extends_refl ESv) (extends_trans ESv)) with (l := p :: ps) (s := est)
      as (est1 & Hrun & Hest1 & Hext1 & Hall); [| |done|].
    { intros q s s' HQ Hrel j Hj. by apply Hrel, HQ. }
    { intros q s Hq Hs.
      pose proof (Hrank i _ q Hps Hq). pose proof (Hrange i _ q Hps Hq).
      destruct (IH q s) as (s' & Hc & Hs' & Hext & Hreach); [lia|lia|done|].
      exists s'. split; [|done].
      unfold f. rewrite (bind_ret_run _ _ _ _ _ Hc).
      destruct (lookup_lt_is_Some_2 duration q) as [d Hd]; [lia|].
      rewrite (bind_ret_run _ _ _ _ _ (index_run _ _ _ _ Hd)).
      unfold CriticalValues.dur. rewrite Hd. reflexivity. }
    exists (<[i:=ESv i]> est1).
    assert (i < length est1)%nat as Hi1 by (destruct Hest1; lia).
    split.
    { rewrite bind_run, bind_run. fold f. rewrite Hrun, fmap_cons.
      cbv beta iota. unfold py_max. rewrite <- (ESv_unfold i p ps Hps).
      rewrite bind_run, ret_run, (assign_run _ _ _ Hi1). apply current_run.
      by apply list_lookup_insert_eq. }
    split; [by apply filled_insert|]. split; [by apply extends_insert|].
    intros j Hj. destruct (decide (i = j)) as [<-|Hne].
    { by rewrite list_lookup_insert_eq. }
    rewrite list_lookup_insert_ne by done.
    inversion Hj; subst; [done|].
    match goal with H : predecessors !! _ = Some ?l, H' : _ ∈ ?l |- _ =>
      rewrite Hps in H; injection H as <-; by eapply Hall end.
Qed.


End earliest.

(** Some activity has the largest rank. *)
Lemma rank_argmax (m : nat) :
  (0 < m)%nat → ∃ k, (k < m)%nat ∧ ∀ i, (i < m)%nat → (rank i ≤ rank k)%nat.
Proof.
  induction m as [|m IH]; [lia|]. intros _.
  destruct m as [|m].
  { exists 0%nat. split; [lia|]. intros i Hi. by replace i with 0%nat by lia. }
  destruct IH as (k & Hk & Hmax); [lia|].
  destruct (decide (rank k ≤ rank (S m))%nat) as [Hle|Hgt].
  - exists (S m). split; [lia|]. intros i Hi.
    destruct (decide (i = S m)) as [->|Hne]; [done|].
    specialize (Hmax i). lia.
  - exists k. split; [lia|]. intros i Hi.
    destruct (decide (i = S m)) as [->|Hne]; [lia|]. apply Hmax. lia.
Qed.

(** With a single sink, the last activity has the largest rank and no
    successor. *)
Lemma sink_rank_max (i : nat) :
  (i < length predecessors)%nat →
  (rank i ≤ rank (length predecessors - 1))%nat.
Proof.
  intros Hi.
  destruct (rank_argmax (length predecessors)) as (k & Hk & Hmax); [lia|].
  destruct (decide (S k < length predecessors)%nat) as [Hlt|Hge].
  - destruct (Hsink k Hlt) as (j & ps & Hps & Hin).
    pose proof (Hrank j ps k Hps Hin). pose proof (lookup_lt_Some _ _ _ Hps).
    specialize (Hmax j). lia.
  - replace (length predecessors - 1)%nat with k by lia. by apply Hmax.
Qed.

Lemma sink_no_successor (j : nat) (ps : list nat) :
  predecessors !! j = Some ps → (length predecessors - 1)%nat ∉ ps.
Proof.
  intros Hps Hin. pose proof (Hrank j ps _ Hps Hin).
  pose proof (sink_rank_max j (lookup_lt_Some _ _ _ Hps)). lia.
Qed.

Lemma all_reach_sink (j : nat) :
  (j < length predecessors)%nat → reaches j (length predecessors - 1).
Proof.
  remember (rank (length predecessors - 1) - rank j)%nat as m eqn:Hm.
  revert j Hm. induction (lt_wf m) as [m _ IH]. intros j Hm Hj.
  destruct (decide (S j < length predecessors)%nat) as [Hlt|Hge].
  - destruct (Hsink j Hlt) as (s & ps & Hps & Hin).
    pose proof (Hrank s ps j Hps Hin). pose proof (lookup_lt_Some _ _ _ Hps) as Hs.
    pose proof (sink_rank_max s Hs).
    eapply reaches_first; [done..|].
    eapply (IH (rank (length predecessors - 1) - rank s)%nat); [lia|done|done].
  - replace (length predecessors - 1)%nat with j by lia. constructor.
Qed.

Lemma all_reached_from_source (j : nat) :
  single_source predecessors → (j < length predecessors)%nat → reaches 0 j.
Proof.
  intros Hsource. remember (rank j) as m eqn:Hm.
  revert j Hm. induction (lt_wf m) as [m _ IH]. intros j Hm Hj.
  destruct (decide (j = 0%nat)) as [->|Hne]; [constructor|].
  destruct (lookup_lt_is_Some_2 predecessors j Hj) as [ps Hps].
  pose proof (Hsource j ps Hps Hne) as Hnil.
  destruct ps as [|p ps]; [done|].
  assert (p ∈ p :: ps) as Hin by (by left).
  pose proof (Hrank j _ p Hps Hin). pose proof (Hrange j _ p Hps Hin).
  eapply reaches_step; [done..|]. eapply (IH (rank p)); [lia|done|done].
Qed.


Section latest.
Context (est : list Z) (sink_value : Z).
Hypothesis Hest : est !! (length duration - 1)%nat = Some sink_value.

Local Abbreviation LF := (CriticalValues.LF duration successors sink_value).
Local Abbreviation LFv := (CriticalValues.LFv duration successors rank bound sink_value).
Local Abbreviation filled := (CriticalValues.filled duration LFv).
Local Abbreviation extends := (CriticalValues.extends LFv).

Lemma successor_rank (i s : nat) (ss : list nat) :
  successors !! i = Some ss → s ∈ ss →
  (s < length duration)%nat ∧ (rank i < rank s)%nat ∧ (rank s ≤ bound)%nat.
Proof.
  intros Hss Hs. apply (elem_of_successors _ _ _ _ Hss) in Hs as (ps & Hps & Hin).
  pose proof (lookup_lt_Some _ _ _ Hps) as Hlt.
  split; [lia|]. split; [by eapply Hrank|]. by apply sink_rank_max.
Qed.

Lemma LF_stable (f f' i : nat) :
  (bound - rank i < f)%nat → (bound - rank i < f')%nat → LF f i = LF f' i.
Proof.
  revert f' i. induction f as [|f IH]; intros f' i Hf Hf'; [lia|].
  destruct f' as [|f']; [lia|]. simpl.
  destruct (decide (Z.of_nat i = Z.of_nat (length duration) - 1)); [done|].
  destruct (successors !! i) as [[|s ss]|] eqn:E; try done.
  assert (∀ q, q ∈ s :: ss → LF f q = LF f' q) as Hq.
  { intros q Hq. destruct (successor_rank i q _ E Hq) as (_ & ? & ?). apply IH; lia. }
  rewrite (Hq s) by (by left). f_equal.
  apply list_fmap_ext. intros k q Hk. rewrite (Hq q); [done|].
  right. by eapply list_elem_of_lookup_2.
Qed.

Lemma LFv_sink (i : nat) :
  Z.of_nat i = Z.of_nat (length duration) - 1 → LFv i = sink_value.
Proof.
  intros Hi. unfold CriticalValues.LFv. simpl.
  by destruct (decide (Z.of_nat i = Z.of_nat (length duration) - 1)).
Qed.

Lemma LFv_unfold (i s : nat) (ss : list nat) :
  Z.of_nat i ≠ Z.of_nat (length duration) - 1 →
  successors !! i = Some (s :: ss) →
  LFv i = fold_left Z.min ((fun q => LFv q - dur q) <$> ss) (LFv s - dur s).
Proof.
  intros Hi E. unfold CriticalValues.LFv at 1. simpl.
  destruct (decide (Z.of_nat i = Z.of_nat (length duration) - 1)); [done|].
  rewrite E.
  assert (∀ q, q ∈ s :: ss → LF (bound - rank i) q = LFv q) as Hq.
  { intros q Hq. destruct (successor_rank i q _ E Hq) as (_ & ? & ?).
    apply LF_stable; lia. }
  rewrite (Hq s) by (by left). f_equal.
  apply list_fmap_ext. intros k q Hk. rewrite (Hq q); [done|].
  right. by eapply list_elem_of_lookup_2.
Qed.

Lemma LFv_leaf (i : nat) :
  Z.of_nat i ≠ Z.of_nat (length duration) - 1 →
  successors !! i = Some [] → LFv i = 0.
Proof.
  intros Hi E. unfold CriticalValues.LFv. simpl.
  destruct (decide (Z.of_nat i = Z.of_nat (length duration) - 1)); [done|].
  by rewrite E.
Qed.

Lemma calc_lf_S (fuel i : nat) :
  calc_lf duration successors est (S fuel) i =
  ((if decide (Z.of_nat i = Z.of_nat (length duration) - 1) then
      e ← index est i; assign i e
    else
      ss ← index successors i;
      match ss with
      | [] => mret tt
      | _ :: _ =>
        vs ← gen_list (fun s => l ← calc_lf duration successors est fuel s;
                                d ← index duration s; mret (l - d)) ss;
        m ← py_min vs;
        assign i m
      end);;
   current i).
Proof. reflexivity. Qed.

Lemma calc_lf_run (fuel i : nat) (lst : list Z) :
  (bound - rank i < fuel)%nat → (i < length duration)%nat → filled lst →
  ∃ lst', calc_lf duration successors est fuel i lst = (Ret (LFv i), lst') ∧
          filled lst' ∧ extends lst lst' ∧
          ∀ j, reaches i j → lst' !! j = Some (LFv j).
Proof.
  revert i lst. induction fuel as [|fuel IH]; intros i lst Hfuel Hi Hlst; [lia|].
  rewrite calc_lf_S, bind_run.
  assert (i < length lst)%nat as Hil by (destruct Hlst; lia).
  destruct (decide (Z.of_nat i = Z.of_nat (length duration) - 1)) as [Hlast|Hnot].
  - assert (i = (length duration - 1)%nat) as Hieq by lia.
    assert (est !! i = Some sink_value) as Hei by (by rewrite Hieq).
    exists (<[i:=LFv i]> lst). split.
    { rewrite (bind_ret_run _ _ _ _ _ (index_run _ _ _ _ Hei)).
      rewrite (assign_run _ _ _ Hil), (LFv_sink i Hlast).
      apply current_run. by apply list_lookup_insert_eq. }
    split; [by apply filled_insert|]. split; [by apply extends_insert, extends_refl|].
    intros j Hj. apply reaches_inv_first in Hj as [<-|(s & ps & Hps & Hin & _)].
    + by apply list_lookup_insert_eq.
    + exfalso. eapply sink_no_successor; [done..|].
      by replace (length predecessors - 1)%nat with i by lia.
  - destruct (lookup_lt_is_Some_2 successors i) as [ss Hss].
    { rewrite successors_length. lia. }
    rewrite (bind_ret_run _ _ _ _ _ (index_run _ _ _ _ Hss)).
    destruct ss as [|s ss].
    + destruct (lookup_lt_is_Some_2 lst i Hil) as [x Hx].
      assert (x = LFv i) as ->.
      { rewrite (LFv_leaf i Hnot Hss). destruct Hlst as [_ Hlst].
        destruct (Hlst i x Hx) as [->| ->]; [done|]. by apply LFv_leaf. }
      exists lst. split; [rewrite ret_run; by apply current_run|].
      split; [done|]. split; [apply extends_refl|].
      intros j Hj. apply reaches_inv_first in Hj as [<-|(s & ps & Hps & Hin & _)]; [done|].
      assert (s ∈ []) as Hs by (apply (elem_of_successors _ _ _ _ Hss); eauto).
      by apply elem_of_nil in Hs.
    + set (f := fun q => l ← calc_lf duration successors est fuel q;
                          d ← index duration q; mret (l - d)).
      destruct (gen_list_run f (fun q => LFv q - dur q) filled extends
                  (fun q st => ∀ j, reaches q j → st !! j = Some (LFv j))
                  (extends_refl LFv) (extends_trans LFv)) with (l := s :: ss) (s := lst)
        as (lst1 & Hrun & Hlst1 & Hext1 & Hall); [| |done|].
      { intros q st st' HQ Hrel j Hj. by apply Hrel, HQ. }
      { intros q st Hq Hst.
        destruct (successor_rank i q _ Hss Hq) as (Hqn & Hri & Hrb).
        destruct (IH q st) as (st' & Hc & Hst' & Hext & Hreach); [lia|lia|done|].
        exists st'. split; [|done].
        unfold f. rewrite (bind_ret_run _ _ _ _ _ Hc).
        destruct (lookup_lt_is_Some_2 duration q) as [d Hd]; [lia|].
        rewrite (bind_ret_run _ _ _ _ _ (index_run _ _ _ _ Hd)).
        unfold CriticalValues.dur. rewrite Hd. reflexivity. }
      exists (<[i:=LFv i]> lst1).
      assert (i < length lst1)%nat as Hi1 by (destruct Hlst1; lia).
      split.
      { rewrite bind_run. fold f. rewrite Hrun, fmap_cons.
        cbv beta iota. unfold py_min. rewrite <- (LFv_unfold i s ss Hnot Hss).
        rewrite bind_run, ret_run, (assign_run _ _ _ Hi1). apply current_run.
        by apply list_lookup_insert_eq. }
      split; [by apply filled_insert|]. split; [by apply extends_insert|].
      intros j Hj. destruct (decide (i = j)) as [<-|Hne].
      { by rewrite list_lookup_insert_eq. }
      rewrite list_lookup_insert_ne by done.
      apply reaches_inv_first in Hj as [->|(q & ps & Hps & Hin & Hqj)]; [done|].
      eapply Hall; [|done]. apply (elem_of_successors _ _ _ _ Hss). eauto.
Qed.


End latest.

Local Abbreviation LFv :=
  (CriticalValues.LFv duration successors rank bound (ESv (length duration - 1))).

Lemma filled_replicate (value : nat → Z) :
  CriticalValues.filled duration value (replicate (length duration) 0).
Proof.
  split; [by rewrite length_replicate|].
  intros j x Hx. apply lookup_replicate in Hx as [-> _]. by left.
Qed.

(** What [calculate_critical_times] returns on an acyclic single-sink
    network, given fuel beyond the rank of the sink. *)
Lemma calculate_critical_times_run (sarg : option (list (list nat))) (fuel : nat) :
  consistent_successors predecessors sarg → (bound < fuel)%nat →
  ∃ est lst,
    calculate_critical_times fuel duration predecessors sarg = Ret (est, lst) ∧
    length est = length duration ∧ length lst = length duration ∧
    (∀ j, (j < length duration)%nat → est !! j = Some (ESv j)) ∧
    (∀ j, reaches 0 j → lst !! j = Some (LFv j)).
Proof.
  intros Hsarg Hfuel. unfold calculate_critical_times.
  assert (match sarg with
          | Some (s :: ss) => s :: ss
          | _ => successors
          end = successors) as ->.
  { destruct Hsarg as [->| ->]; [done|]. by destruct successors. }
  remember (length duration) as m eqn:Hn in |- *.
  destruct m as [|last]; [lia|]. rewrite Hn.
  assert (last = (length predecessors - 1)%nat) as -> by lia.
  destruct (calc_es_run fuel (length predecessors - 1) (replicate (length duration) 0))
    as (est & Hes & [Hel _] & _ & Hreach); [lia|lia|apply filled_replicate|].
  rewrite Hes.
  assert (∀ j, (j < length duration)%nat → est !! j = Some (ESv j)) as Hest.
  { intros j Hj. apply Hreach. apply all_reach_sink. lia. }
  destruct (calc_lf_run est (ESv (length duration - 1))) with (fuel := fuel) (i := 0%nat)
              (lst := replicate (length duration) 0)
    as (lst & Hlf & [Hll _] & _ & Hreach'); [apply Hest; lia|lia|lia|apply filled_replicate|].
  rewrite Hlf. by exists est, lst.
Qed.

Lemma ESv_max_over (i p : nat) (ps : list nat) (est : list Z) :
  predecessors !! i = Some (p :: ps) →
  (∀ j, (j < length duration)%nat → est !! j = Some (ESv j)) →
  max_over (plus_duration duration est) (p :: ps) (ESv i).
Proof.
  intros Hps Hest.
  assert (∀ q, q ∈ p :: ps → plus_duration duration est q = Some (ESv q + dur q)) as Hplus.
  { intros q Hq. pose proof (Hrange i _ q Hps Hq) as Hlt.
    unfold plus_duration. rewrite Hest by lia. simpl.
    destruct (lookup_lt_is_Some_2 duration q) as [d Hd]; [lia|].
    unfold CriticalValues.dur. by rewrite Hd. }
  rewrite (ESv_unfold i p ps Hps). split.
  - destruct (fold_max_attained ((fun q => ESv q + dur q) <$> ps) (ESv p + dur p))
      as [->|Hin].
    + exists p. split; [by left|]. apply Hplus. by left.
    + apply list_elem_of_fmap in Hin as (q & -> & Hq).
      exists q. split; [by right|]. apply Hplus. by right.
  - intros q Hq. exists (ESv q + dur q). split; [by apply Hplus|].
    apply elem_of_cons in Hq as [->|Hq]; [apply fold_max_ge_init|].
    apply fold_max_ge_elem. by apply (list_elem_of_fmap_2 (fun q => ESv q + dur q)).
Qed.

Lemma ESv_nonneg (i : nat) : nonnegative duration → 0 <= ESv i.
Proof.
  intros Hnn. unfold CriticalValues.ESv. generalize (S (rank i)). intros f.
  revert i. induction f as [|f IH]; intros i; simpl; [lia|].
  destruct (predecessors !! i) as [[|p ps]|]; try lia.
  etrans; [|apply fold_max_ge_init]. specialize (IH p).
  assert (0 <= dur p); [|lia].
  unfold CriticalValues.dur. destruct (duration !! p) as [d|] eqn:Hd; simpl; [|lia].
  by eapply Hnn.
Qed.

Lemma ESv_ge_predecessor (i p : nat) (ps : list nat) :
  predecessors !! i = Some ps → p ∈ ps → ESv p + dur p <= ESv i.
Proof.
  intros Hps Hp. destruct ps as [|q ps]; [by apply elem_of_nil in Hp|].
  rewrite (ESv_unfold i q ps Hps).
  apply elem_of_cons in Hp as [->|Hp]; [apply fold_max_ge_init|].
  apply fold_max_ge_elem. by apply (list_elem_of_fmap_2 (fun q => ESv q + dur q)).
Qed.

(** Every activity can finish by its latest value, up to the duration of the
    last activity. *)
Lemma ESv_LFv_slack (i : nat) :
  (i < length duration)%nat →
  ESv i + dur i <= LFv i + dur (length duration - 1).
Proof.
  remember (bound - rank i)%nat as m eqn:Hm.
  revert i Hm. induction (lt_wf m) as [m _ IH]. intros i Hm Hi.
  destruct (decide (Z.of_nat i = Z.of_nat (length duration) - 1)) as [Hlast|Hnot].
  - rewrite LFv_sink by done.
    replace i with (length duration - 1)%nat by lia. lia.
  - destruct (lookup_lt_is_Some_2 successors i) as [ss Hss].
    { rewrite successors_length. lia. }
    destruct ss as [|s ss].
    { destruct (Hsink i) as (j & ps & Hps & Hin); [lia|].
      assert (j ∈ []) as Hj by (apply (elem_of_successors _ _ _ _ Hss); eauto).
      by apply elem_of_nil in Hj. }
    assert (∀ q, q ∈ s :: ss →
              ESv i + dur i <= LFv q - dur q + dur (length duration - 1)) as Hq.
    { intros q Hq.
      destruct (successor_rank i q _ Hss Hq) as (Hqn & Hri & Hrb).
      apply (elem_of_successors _ _ _ _ Hss) in Hq as (ps & Hps & Hin).
      pose proof (ESv_ge_predecessor q i ps Hps Hin).
      assert (ESv q + dur q <= LFv q + dur (length duration - 1)); [|lia].
      eapply (IH (bound - rank q)%nat); [lia|done|lia]. }
    rewrite (LFv_unfold _ i s ss Hnot Hss).
    destruct (fold_min_attained ((fun q => LFv q - dur q) <$> ss) (LFv s - dur s))
      as [->|Hin].
    + apply Hq. by left.
    + apply list_elem_of_fmap in Hin as (q & -> & Hin). apply Hq. by right.
Qed.

Lemma earliest_start_recurrence_run (sarg : option (list (list nat))) (fuel : nat) :
  consistent_successors predecessors sarg → (bound < fuel)%nat →
  ∃ est lst,
    calculate_critical_times fuel duration predecessors sarg = Ret (est, lst) ∧
    length est = length duration ∧
    earliest_start_recurrence duration predecessors est.
Proof.
  intros Hsarg Hfuel.
  destruct (calculate_critical_times_run sarg fuel Hsarg Hfuel)
    as (est & lst & Hrun & Hel & _ & Hest & _).
  exists est, lst. split; [done|]. split; [done|].
  intros i ps Hps. pose proof (lookup_lt_Some _ _ _ Hps) as Hi.
  destruct ps as [|p ps].
  - rewrite Hest by lia. by rewrite ESv_source.
  - exists (ESv i). split; [apply Hest; lia|]. by apply ESv_max_over.
Qed.

Lemma critical_times_bounded_run (sarg : option (list (list nat))) (fuel : nat) :
  single_source predecessors → nonnegative duration →
  consistent_successors predecessors sarg → (bound < fuel)%nat →
  ∃ est lst,
    calculate_critical_times fuel duration predecessors sarg = Ret (est, lst) ∧
    length est = length duration ∧
    critical_times_bounded duration est lst.
Proof.
  intros Hsource Hnn Hsarg Hfuel.
  destruct (calculate_critical_times_run sarg fuel Hsarg Hfuel)
    as (est & lst & Hrun & Hel & Hll & Hest & Hlst).
  assert (∀ j, (j < length duration)%nat → lst !! j = Some (LFv j)) as Hlst'.
  { intros j Hj. apply Hlst, all_reached_from_source; [done|lia]. }
  exists est, lst. split; [done|]. split; [done|].
  split; [lia|]. split; [|split].
  - intros i e He. pose proof (lookup_lt_Some _ _ _ He) as Hi.
    rewrite Hest in He by lia. injection He as <-. by apply ESv_nonneg.
  - exists (ESv (length duration - 1)). rewrite Hel, Hest, Hlst' by lia.
    split; [done|]. f_equal. apply LFv_sink. lia.
  - intros i e l d ds He Hl Hd Hds Hle.
    pose proof (lookup_lt_Some _ _ _ He) as Hi.
    rewrite Hest in He by lia. rewrite Hlst' in Hl by lia.
    injection He as <-. injection Hl as <-.
    assert (ESv i + dur i <= LFv i + dur (length duration - 1)) as Hslack.
    { apply ESv_LFv_slack. lia. }
    unfold CriticalValues.dur in Hslack. rewrite Hd, Hds in Hslack. simpl in Hslack.
    lia.
Qed.

End critical_path.

(** C6.  On an acyclic network in which only activity [n-1] lacks a
    successor, [calculate_critical_times] returns (given enough fuel for its
    recursion) an earliest-start vector that is 0 at every activity without
    predecessors and, at every other activity [i], the maximum over the
    predecessors [p] of [i] of [est[p] + duration[p]]. *)
Theorem earliest_start_recurrence_holds
    (duration : list Z) (predecessors : list (list nat))
    (successors : option (list (list nat))) :
  (0 < length duration)%nat →
  length predecessors = length duration →
  in_range predecessors →
  acyclic predecessors →
  single_sink predecessors →
  consistent_successors predecessors successors →
  ∃ fuel0, ∀ fuel, (fuel0 ≤ fuel)%nat →
    ∃ est lst,
      calculate_critical_times fuel duration predecessors successors = Ret (est, lst) ∧
      length est = length duration ∧
      earliest_start_recurrence duration predecessors est.
Proof.
  intros Hpos Hlen Hrange [rank Hrank] Hsink Hsucc.
  exists (S (rank (length predecessors - 1)%nat)). intros fuel Hfuel.
  eapply earliest_start_recurrence_run; eauto.
Qed.

(** With a last activity of duration 0 the bounds are those the claim asks
    for. *)
Lemma critical_times_bounded_ordered (duration est lst : list Z) :
  nonnegative duration → length est = length duration →
  critical_times_bounded duration est lst →
  duration !! (length duration - 1)%nat = Some 0 →
  critical_times_ordered est lst.
Proof.
  intros Hnn Hel (Hll & Hpos & (e & He & Hl) & Hle) Hzero.
  split; [done|]. split; [|by rewrite He, Hl].
  intros i x l Hx Hlx. split; [by eapply Hpos|].
  destruct (lookup_lt_is_Some_2 duration i) as [d Hd].
  { rewrite <- Hel. by eapply lookup_lt_Some. }
  eapply (Hle i x l d 0); try done. by eapply Hnn.
Qed.

(** C7, as amended.  On every well-formed network the vectors returned by
    [calculate_critical_times] satisfy [est[i] >= 0] for every activity and
    [est[n-1] == lst[n-1]]; [est[i] <= lst[i]] holds at every activity whose
    duration is at least that of the sink [n-1], so at every activity when
    the sink has duration 0. *)
Theorem critical_times_ordered_by_sink
    (duration : list Z) (predecessors : list (list nat))
    (successors : option (list (list nat))) :
  well_formed_network duration predecessors →
  consistent_successors predecessors successors →
  ∃ fuel0, ∀ fuel, (fuel0 ≤ fuel)%nat →
    ∃ est lst,
      calculate_critical_times fuel duration predecessors successors = Ret (est, lst) ∧
      length est = length duration ∧
      critical_times_bounded duration est lst ∧
      (duration !! (length duration - 1)%nat = Some 0 → critical_times_ordered est lst).
Proof.
  intros (Hpos & Hlen & Hrange & [rank Hrank] & Hsource & Hsink & Hnn) Hsucc.
  exists (S (rank (length predecessors - 1)%nat)). intros fuel Hfuel.
  destruct (critical_times_bounded_run duration predecessors rank Hrank Hrange Hlen Hpos
              Hsink successors fuel Hsource Hnn Hsucc)
    as (est & lst & Hrun & Hel & Hb); [lia|].
  exists est, lst. split; [done|]. split; [done|]. split; [done|].
  by apply critical_times_bounded_ordered.
Qed.

(** ** The sampler emits activity orders *)

Import Sampler.

Lemma successors_NoDup (predecessors : list (list nat)) (i : nat) (ss : list nat) :
  successors_by_predecessors predecessors !! i = Some ss → NoDup ss.
Proof.
  intros Hss.
  assert (i < length predecessors)%nat as Hi.
  { apply lookup_lt_Some in Hss. by rewrite successors_length in Hss. }
  rewrite successors_lookup in Hss by done. injection Hss as <-.
  apply NoDup_filter, NoDup_seq.
Qed.

Lemma list_remove_split (i : nat) (l1 l2 : list nat) :
  i ∉ l1 → list_remove i (l1 ++ i :: l2) = Some (l1 ++ l2).
Proof.
  induction l1 as [|y l1 IH]; intros Hi; simpl.
  - by destruct (decide (i = i)).
  - apply not_elem_of_cons in Hi as [Hne Hi].
    destruct (decide (i = y)); [done|]. by rewrite IH.
Qed.

(** The first minimum of a non-empty list and the items around it. *)
Lemma fold_min_key_split (rule : nat → Z) (l l1 l2 : list nat) (b : nat) :
  (∀ z, z ∈ l1 → rule b < rule z) →
  (∀ z, z ∈ l2 → rule b <= rule z) →
  ∃ i m1 m2,
    fold_left (fun best y => if decide (rule y < rule best) then y else best) l b = i ∧
    l1 ++ b :: l2 ++ l = m1 ++ i :: m2 ∧
    (∀ z, z ∈ m1 → rule i < rule z) ∧
    (∀ z, z ∈ m2 → rule i <= rule z).
Proof.
  revert l1 l2 b. induction l as [|y l IH]; intros l1 l2 b H1 H2.
  - exists b, l1, l2. by rewrite app_nil_r.
  - simpl. destruct (decide (rule y < rule b)) as [Hlt|Hge].
    + destruct (IH (l1 ++ b :: l2) [] y) as (i & m1 & m2 & Hi & Heq & Hm1 & Hm2).
      { intros z Hz. apply elem_of_app in Hz as [Hz|Hz]; [specialize (H1 z Hz); lia|].
        apply elem_of_cons in Hz as [->|Hz]; [done|]. specialize (H2 z Hz). lia. }
      { intros z Hz. by apply elem_of_nil in Hz. }
      exists i, m1, m2. split; [done|]. split; [|done].
      rewrite <- Heq. by rewrite <- !app_assoc.
    + destruct (IH l1 (l2 ++ [y]) b) as (i & m1 & m2 & Hi & Heq & Hm1 & Hm2); [done| |].
      { intros z Hz. apply elem_of_app in Hz as [Hz|Hz]; [by apply H2|].
        apply list_elem_of_singleton in Hz as ->. lia. }
      exists i, m1, m2. split; [done|]. split; [|done].
      rewrite <- Heq. by rewrite <- !app_assoc.
Qed.

Lemma py_min_key_split (rule : nat → Z) (x : list nat) :
  x ≠ [] →
  ∃ i l1 l2, py_min_key rule x = Some i ∧ x = l1 ++ i :: l2 ∧
             (∀ z, z ∈ l1 → rule i < rule z) ∧ (∀ z, z ∈ l2 → rule i <= rule z).
Proof.
  destruct x as [|a l]; [done|]. intros _. unfold py_min_key.
  destruct (fold_min_key_split rule l [] [] a) as (i & m1 & m2 & Hi & Heq & Hm1 & Hm2).
  { intros z Hz. by apply elem_of_nil in Hz. }
  { intros z Hz. by apply elem_of_nil in Hz. }
  exists i, m1, m2. by rewrite Hi.
Qed.

Section release.
Context {R : Type}.

Lemma release_run (i : nat) (ss : list nat) (rem : list (gset nat)) (ready : list nat) (r : R) :
  NoDup ss →
  (∀ s, s ∈ ss → ∃ rs, rem !! s = Some rs ∧ i ∈ rs) →
  ∃ rem' new,
    release i ss rem ready r = (Ret (rem', ready ++ new), r) ∧
    length rem' = length rem ∧
    (∀ j, j ∈ ss → rem' !! j = (fun rs => rs ∖ {[i]}) <$> rem !! j) ∧
    (∀ j, j ∉ ss → rem' !! j = rem !! j) ∧
    (∀ s, s ∈ new ↔ s ∈ ss ∧ rem' !! s = Some ∅) ∧
    NoDup new.
Proof.
  revert rem ready. induction ss as [|s ss IH]; intros rem ready Hnd Hpre.
  - exists rem, []. rewrite app_nil_r. split; [done|]. split; [done|].
    split; [intros j Hj; by apply elem_of_nil in Hj|]. split; [done|].
    split; [|constructor]. intros s. split; [intros Hs|intros [Hs _]]; by apply elem_of_nil in Hs.
  - apply NoDup_cons in Hnd as [Hs Hnd].
    destruct (Hpre s) as (rs & Hrs & Hi); [by left|].
    pose proof (lookup_lt_Some _ _ _ Hrs) as Hlt.
    set (rem1 := <[s:=rs ∖ {[i]}]> rem).
    set (ready1 := if decide (rs ∖ {[i]} = ∅) then ready ++ [s] else ready).
    destruct (IH rem1 ready1) as (rem' & new & Hrun & Hlen & Hin & Hout & Hnew & Hndn); [done| |].
    { intros s' Hs'. destruct (Hpre s') as (rs' & Hrs' & Hi'); [by right|].
      exists rs'. split; [|done]. unfold rem1. rewrite list_lookup_insert_ne; [done|].
      intros ->. done. }
    assert (rem' !! s = Some (rs ∖ {[i]})) as Hrems.
    { rewrite Hout by done. unfold rem1. by apply list_lookup_insert_eq. }
    exists rem', ((if decide (rs ∖ {[i]} = ∅) then [s] else []) ++ new).
    split.
    { simpl. rewrite (bind_ret_run _ _ _ _ _ (index_run _ _ _ _ Hrs)).
      destruct (decide (i ∈ rs)); [|done]. fold rem1. fold ready1. rewrite Hrun.
      unfold ready1. destruct (decide (rs ∖ {[i]} = ∅)); by rewrite <- ?app_assoc. }
    split; [by rewrite Hlen; unfold rem1; rewrite length_insert|].
    split.
    { intros j Hj. apply elem_of_cons in Hj as [->|Hj].
      - by rewrite Hrems, Hrs.
      - rewrite Hin by done. unfold rem1. rewrite list_lookup_insert_ne; [done|].
        intros ->. done. }
    split.
    { intros j Hj. apply not_elem_of_cons in Hj as [Hne Hj].
      rewrite Hout by done. unfold rem1. by rewrite list_lookup_insert_ne. }
    split.
    { intros s'. rewrite elem_of_app, Hnew, elem_of_cons.
      destruct (decide (rs ∖ {[i]} = ∅)) as [He|Hne].
      - rewrite list_elem_of_singleton. split.
        + intros [->|[? ?]]; [|by auto]. split; [by left|]. by rewrite Hrems, He.
        + intros [[->|?] ?]; auto.
      - rewrite elem_of_nil. split.
        + intros [[]|[? ?]]; auto.
        + intros [[->|?] ?]; [|by auto]. rewrite Hrems in *. congruence. }
    destruct (decide (rs ∖ {[i]} = ∅)); [|done].
    simpl. apply NoDup_cons. split; [|done]. rewrite Hnew. by intros [? _].
Qed.

End release.

Lemma list_remove_elem (i : nat) (l l' : list nat) :
  list_remove i l = Some l' → i ∈ l.
Proof.
  revert l'. induction l as [|y l IH]; intros l'; simpl; [done|].
  destruct (decide (i = y)) as [->|Hne]; [intros _; by left|].
  destruct (list_remove i l) as [l0|] eqn:E; [|done].
  intros _. right. by eapply IH.
Qed.

Lemma NoDup_bounded_length (l : list nat) (m : nat) :
  NoDup l → (∀ x, x ∈ l → (x < m)%nat) → (length l ≤ m)%nat.
Proof.
  intros Hnd Hlt. rewrite <- (length_seq m 0).
  apply submseteq_length, NoDup_submseteq; [done|].
  intros x Hx. apply elem_of_seq. specialize (Hlt x Hx). lia.
Qed.

Section sampler.
Context {R : Type} (predecessors : list (list nat)).

Local Abbreviation self := (init predecessors).
Local Abbreviation inv := (gen_inv predecessors).

Lemma gen_init_inv : inv (gen_init self).
Proof.
  unfold gen_inv, gen_init. simpl.
  split; [by rewrite length_fmap|].
  split.
  { intros j ps Hps. exists (list_to_set ps).
    split; [by rewrite list_lookup_fmap, Hps|].
    intros p. rewrite elem_of_list_to_set, elem_of_nil. tauto. }
  split; [apply NoDup_filter, NoDup_seq|].
  split; [|intros k i ps p Hk; by rewrite lookup_nil in Hk].
  intros j. rewrite list_elem_of_filter, elem_of_seq, list_lookup_fmap. split.
  - intros [Hj [_ Hlt]]. split; [lia|]. intros ps p Hps Hp. rewrite Hps in Hj.
    simpl in Hj. injection Hj as Hj.
    assert (p ∈ (list_to_set ps : gset nat)) as Hin by (by apply elem_of_list_to_set).
    rewrite Hj in Hin. by apply not_elem_of_empty in Hin.
  - intros [Hlt Hj]. split; [|lia].
    destruct (lookup_lt_is_Some_2 predecessors j Hlt) as [ps Hps]. rewrite Hps. simpl.
    f_equal. apply set_eq. intros p. rewrite elem_of_list_to_set. split.
    + intros Hp. specialize (Hj ps p Hps Hp). by apply elem_of_nil in Hj.
    + intros Hp. by apply not_elem_of_empty in Hp.
Qed.

(** One turn of the loop, given what the policy picked. *)
Lemma gen_step_run (pick : list nat → M R nat) (st : gen_state) (r r' : R)
    (i : nat) (l1 l2 : list nat) :
  inv st → pick (ready st) r = (Ret i, r') → ready st = l1 ++ i :: l2 →
  ∃ rem' new,
    gen_step self pick st r =
      (Ret {| res := res st ++ [i]; rem := rem'; ready := l1 ++ l2 ++ new |}, r') ∧
    inv {| res := res st ++ [i]; rem := rem'; ready := l1 ++ l2 ++ new |} ∧
    ∀ s, s ∈ new → s ∉ ready st.
Proof.
  intros (Hlen & Hrem & Hnd & Hmem & Htopo) Hpick Hready.
  assert (i ∈ ready st) as Hi by (rewrite Hready; set_solver).
  pose proof Hnd as Hnd'. apply NoDup_app in Hnd' as (Hndres & Hdisj & Hndready).
  assert (i ∉ res st) as Hires by (intros Hin; by apply (Hdisj i)).
  rewrite Hready in Hndready. pose proof Hndready as Hnd2.
  apply NoDup_app in Hnd2 as (_ & Hil1 & Hnd2). apply NoDup_cons in Hnd2 as [Hil2 _].
  assert (i ∉ l1) as Hil1' by (intros Hin; apply (Hil1 i Hin); by left).
  destruct (Hmem i) as [[Hin Hipred] _]; [set_solver|].
  destruct (lookup_lt_is_Some_2 (succ self) i) as [ss Hss].
  { simpl. by rewrite successors_length. }
  simpl in Hss.
  destruct (release_run (R:=R) i ss (rem st) (l1 ++ l2) r' (successors_NoDup _ _ _ Hss))
    as (rem' & new & Hrel & Hlen' & Hrin & Hrout & Hnew & Hndnew).
  { intros s Hs. apply (elem_of_successors _ _ _ _ Hss) in Hs as (ps & Hps & Hip).
    destruct (Hrem s ps Hps) as (rs & Hrs & Hrsp). exists rs. split; [done|].
    apply Hrsp. done. }
  (* the sets of remaining predecessors after the turn *)
  assert (∀ j ps, predecessors !! j = Some ps →
            ∃ rs, rem' !! j = Some rs ∧ ∀ p, p ∈ rs ↔ p ∈ ps ∧ p ∉ res st ++ [i]) as Hrem'.
  { intros j ps Hps. destruct (Hrem j ps Hps) as (rs & Hrs & Hrsp).
    destruct (decide (j ∈ ss)) as [Hj|Hj].
    - exists (rs ∖ {[i]}). split; [by rewrite Hrin, Hrs|].
      intros p. rewrite elem_of_difference, Hrsp, not_elem_of_app, !list_elem_of_singleton,
        elem_of_singleton. tauto.
    - exists rs. split; [by rewrite Hrout|].
      assert (i ∉ ps) as Hip.
      { intros Hip. apply Hj. apply (elem_of_successors _ _ _ _ Hss). eauto. }
      intros p. rewrite Hrsp, not_elem_of_app, list_elem_of_singleton. split; [|tauto].
      intros [Hp Hq]. split; [done|]. split; [done|]. by intros ->. }
  assert (∀ s, s ∈ new → s ∉ res st ++ ready st) as Hfresh.
  { intros s Hs Hs'. apply Hnew in Hs as [Hs _].
    apply (elem_of_successors _ _ _ _ Hss) in Hs as (ps & Hps & Hip).
    apply Hmem in Hs' as [_ Hs']. apply Hires. by eapply Hs'. }
  exists rem', new. split.
  { unfold gen_step. rewrite (bind_ret_run _ _ _ _ _ Hpick), Hready.
    rewrite (list_remove_split i l1 l2 Hil1'), bind_run, ret_run.
    rewrite (bind_ret_run _ _ _ _ _ (index_run _ _ _ _ Hss)).
    rewrite (bind_ret_run _ _ _ _ _ Hrel). by rewrite <- app_assoc. }
  split.
  { split; [simpl; lia|]. split; [done|]. simpl. split.
    { assert ((res st ++ [i]) ++ l1 ++ l2 ++ new ≡ₚ (res st ++ l1 ++ i :: l2) ++ new) as ->.
      { rewrite <- !app_assoc. f_equiv. simpl.
        rewrite (app_comm_cons l2 new i), (Permutation_middle l1 (l2 ++ new) i). done. }
      rewrite <- Hready. apply NoDup_app. split; [done|]. split; [|done].
      intros x Hx Hx'. by apply (Hfresh x). }
    split.
    { intros j. split.
      - rewrite !elem_of_app, list_elem_of_singleton. intros Hj.
        assert (j ∈ res st ++ ready st ∨ j ∈ new) as [Hj'|Hj'].
        { rewrite Hready. set_solver. }
        + apply Hmem in Hj' as [Hlt Hj']. split; [done|].
          intros ps p Hps Hp. apply elem_of_app. left. by eapply Hj'.
        + apply Hnew in Hj' as [Hj' Hempty].
          apply (elem_of_successors _ _ _ _ Hss) in Hj' as (ps & Hps & Hip).
          split; [by eapply lookup_lt_Some|].
          intros ps' p Hps' Hp. rewrite Hps in Hps'. injection Hps' as <-.
          destruct (Hrem' j ps Hps) as (rs & Hrs & Hrsp).
          rewrite Hrs in Hempty. injection Hempty as ->.
          destruct (decide (p ∈ res st ++ [i])) as [Hin'|Hnin]; [done|].
          exfalso. apply (not_elem_of_empty (C:=gset nat) p). by apply Hrsp.
      - intros [Hlt Hj].
        destruct (lookup_lt_is_Some_2 predecessors j Hlt) as [ps Hps].
        destruct (decide (i ∈ ps)) as [Hip|Hip].
        + assert (j ∈ new); [|set_solver].
          apply Hnew. split; [apply (elem_of_successors _ _ _ _ Hss); eauto|].
          destruct (Hrem' j ps Hps) as (rs & Hrs & Hrsp). rewrite Hrs. f_equal.
          apply set_eq. intros p. rewrite Hrsp. split.
          * intros [Hp Hq]. exfalso. apply Hq. by eapply Hj.
          * intros Hp. by apply not_elem_of_empty in Hp.
        + assert (j ∈ res st ++ ready st) as Hj'.
          { apply Hmem. split; [done|]. intros ps' p Hps' Hp.
            specialize (Hj ps' p Hps' Hp). rewrite Hps in Hps'. injection Hps' as <-.
            apply elem_of_app in Hj as [Hj|Hj]; [done|].
            apply list_elem_of_singleton in Hj as ->. done. }
          rewrite Hready in Hj'. set_solver. }
    intros k x ps p Hk Hps Hp.
    apply lookup_app_Some in Hk as [Hk|[Hge Hk]].
    - destruct (Htopo k x ps p Hk Hps Hp) as (k' & Hlt & Hk').
      exists k'. split; [done|]. by apply lookup_app_l_Some.
    - apply list_lookup_singleton_Some in Hk as [Hk <-].
      specialize (Hipred ps p Hps Hp). apply list_elem_of_lookup in Hipred as [k' Hk'].
      exists k'. split; [apply lookup_lt_Some in Hk'; lia|]. by apply lookup_app_l_Some. }
  intros s Hs Hs'. apply (Hfresh s Hs). set_solver.
Qed.

Lemma gen_step_inv (pick : list nat → M R nat) (st st' : gen_state) (r r' : R) :
  inv st → gen_step self pick st r = (Ret st', r') → inv st'.
Proof.
  intros Hinv Hstep. pose proof Hstep as Hstep0.
  unfold gen_step in Hstep. rewrite bind_run in Hstep.
  destruct (pick (ready st) r) as [[i| |] r1] eqn:Hpick; try done.
  destruct (list_remove i (ready st)) as [l|] eqn:Hrm; [|done].
  apply list_remove_elem in Hrm. apply list_elem_of_split in Hrm as (l1 & l2 & Hready).
  destruct (gen_step_run pick st r r1 i l1 l2 Hinv Hpick Hready) as (rem' & new & Hrun & Hinv' & _).
  rewrite Hrun in Hstep0. by injection Hstep0 as <- <-.
Qed.

Lemma gen_iter_inv (pick : list nat → M R nat) (k : nat) (st st' : gen_state) (r r' : R) :
  inv st → gen_iter self k pick st r = (Ret st', r') → inv st'.
Proof.
  revert st r. induction k as [|k IH]; intros st r Hinv Hiter; simpl in Hiter.
  - by injection Hiter as <- <-.
  - destruct (ready st) eqn:Hready; [done|].
    rewrite bind_run in Hiter.
    destruct (gen_step self pick st r) as [[st1| |] r1] eqn:Hstep; try done.
    eapply IH; [|done]. by eapply gen_step_inv.
Qed.

Lemma gen_inv_room (st : gen_state) (a : nat) (l : list nat) :
  inv st → ready st = a :: l → (length (res st) < length predecessors)%nat.
Proof.
  intros (_ & _ & Hnd & Hmem & _) Hready.
  pose proof (NoDup_bounded_length _ (length predecessors) Hnd) as Hb.
  rewrite length_app, Hready in Hb. simpl in Hb.
  assert (length (res st) + S (length l) ≤ length predecessors)%nat; [|lia].
  apply Hb. intros x Hx. rewrite <- Hready in Hx. by apply Hmem in Hx as [? _].
Qed.

(** The loop ends, within as many turns as activities are left. *)
Lemma gen_loop_run (pick : list nat → M R nat) (fuel : nat) (st : gen_state) (r : R) :
  selects pick → inv st → (length predecessors - length (res st) ≤ fuel)%nat →
  ∃ st' r', gen_loop self fuel pick st r = (Ret (res st'), r') ∧ inv st' ∧ ready st' = [].
Proof.
  intros Hpick. revert st r. induction fuel as [|fuel IH]; intros st r Hinv Hfuel.
  - destruct (ready st) as [|a l] eqn:Hready.
    + exists st, r. simpl. by rewrite Hready.
    + pose proof (gen_inv_room st a l Hinv Hready). lia.
  - destruct (ready st) as [|a l] eqn:Hready.
    { exists st, r. simpl. by rewrite Hready. }
    pose proof (gen_inv_room st a l Hinv Hready) as Hroom.
    destruct (Hpick (ready st) r) as (i & r1 & Hi & Hin); [by rewrite Hready|].
    apply list_elem_of_split in Hin as (l1 & l2 & Hsplit).
    destruct (gen_step_run pick st r r1 i l1 l2 Hinv Hi Hsplit)
      as (rem' & new & Hstep & Hinv' & _).
    destruct (IH _ r1 Hinv') as (st' & r' & Hloop & Hinv'' & Hdone).
    { simpl. rewrite length_app. simpl. lia. }
    exists st', r'. split; [|done].
    simpl. rewrite Hready, (bind_ret_run _ _ _ _ _ Hstep). done.
Qed.

(** When the loop has ended on an acyclic network, [res] is an activity
    order. *)
Lemma gen_inv_final (st : gen_state) :
  in_range predecessors → acyclic predecessors →
  inv st → ready st = [] → topological_order predecessors (res st).
Proof.
  intros Hrange [rank Hrank] (_ & _ & Hnd & Hmem & Htopo) Hready.
  rewrite Hready, app_nil_r in Hnd, Hmem.
  assert (∀ j, (j < length predecessors)%nat → j ∈ res st) as Hall.
  { intros j. remember (rank j) as m eqn:Hm. revert j Hm.
    induction (lt_wf m) as [m _ IH]. intros j Hm Hj.
    apply Hmem. split; [done|]. intros ps p Hps Hp.
    eapply (IH (rank p)); [|done|by eapply Hrange].
    rewrite Hm. by eapply Hrank. }
  split; [|done].
  apply NoDup_Permutation; [done|apply NoDup_seq|].
  intros x. rewrite elem_of_seq. split.
  - intros Hx. apply Hmem in Hx as [? _]. lia.
  - intros [_ Hx]. apply Hall. lia.
Qed.

Lemma gen_run (pick : list nat → M R nat) (fuel : nat) (r : R) :
  in_range predecessors → acyclic predecessors → selects pick →
  (length predecessors ≤ fuel)%nat →
  ∃ order r', _gen self fuel pick r = (Ret order, r') ∧
              topological_order predecessors order.
Proof.
  intros Hrange Hacyc Hpick Hfuel. unfold _gen.
  destruct (gen_loop_run pick fuel (gen_init self) r Hpick gen_init_inv)
    as (st' & r' & Hloop & Hinv & Hdone); [simpl; lia|].
  exists (res st'), r'. split; [done|]. by apply gen_inv_final.
Qed.

End sampler.

Lemma choice_selects {R : Type} (randbelow : nat → R → nat * R) :
  (∀ m r, (0 < m)%nat → ((randbelow m r).1 < m)%nat) → selects (choice randbelow).
Proof.
  intros Hbelow x r Hx. unfold choice.
  destruct (randbelow (length x) r) as [k r'] eqn:Hk.
  assert (k < length x)%nat as Hlt.
  { specialize (Hbelow (length x) r). rewrite Hk in Hbelow. apply Hbelow.
    destruct x; [done|simpl; lia]. }
  destruct (lookup_lt_is_Some_2 x k Hlt) as [i Hi].
  exists i, r'. split; [by apply index_run|]. by eapply list_elem_of_lookup_2.
Qed.

Lemma min_pick_selects {R : Type} (rule : nat → Z) : selects (min_pick (R:=R) rule).
Proof.
  intros x r Hx. destruct (py_min_key_split rule x Hx) as (i & l1 & l2 & Hi & -> & _).
  exists i, r. unfold min_pick. rewrite Hi. split; [done|]. set_solver.
Qed.

(** [min_rule] makes no use of the pseudo-random source. *)
Lemma stateless_ret {S A} (a : A) : stateless (S:=S) (mret a).
Proof. by exists (Ret a). Qed.

Lemma stateless_raise {S A} (e : pyexn) : stateless (S:=S) (A:=A) (raise e).
Proof. by exists (Raise e). Qed.

Lemma stateless_timeout {S A} : stateless (S:=S) (A:=A) timeout.
Proof. by exists Timeout. Qed.

Lemma stateless_bind {S A B} (m : M S A) (f : A → M S B) :
  stateless m → (∀ a, stateless (f a)) → stateless (m ≫= f).
Proof.
  intros [o Hm] Hf. destruct o as [a|e|].
  - destruct (Hf a) as [o' Hfa]. exists o'. intros s. by rewrite bind_run, Hm, Hfa.
  - exists (Raise e). intros s. by rewrite bind_run, Hm.
  - exists Timeout. intros s. by rewrite bind_run, Hm.
Qed.

Lemma stateless_index {S A} (l : list A) (i : nat) : stateless (S:=S) (index l i).
Proof. unfold index. destruct (l !! i); [apply stateless_ret|apply stateless_raise]. Qed.

Section min_rule_runs.
Context {R : Type} (self : ActivityListSampler) (rule : nat → Z).

Lemma stateless_release (i : nat) (ss : list nat) (rem : list (gset nat)) (ready : list nat) :
  stateless (release (R:=R) i ss rem ready).
Proof.
  revert rem ready. induction ss as [|s ss IH]; intros rem ready; simpl.
  - apply stateless_ret.
  - apply stateless_bind; [apply stateless_index|]. intros rs.
    destruct (decide (i ∈ rs)); [apply IH|apply stateless_raise].
Qed.

Lemma stateless_min_pick (x : list nat) : stateless (min_pick (R:=R) rule x).
Proof.
  unfold min_pick. destruct (py_min_key rule x); [apply stateless_ret|apply stateless_raise].
Qed.

Lemma stateless_gen_step (st : gen_state) : stateless (gen_step (R:=R) self (min_pick rule) st).
Proof.
  unfold gen_step.
  apply stateless_bind; [apply stateless_min_pick|]. intros i.
  apply stateless_bind.
  { destruct (list_remove i (ready st)); [apply stateless_ret|apply stateless_raise]. }
  intros ready1. apply stateless_bind; [apply stateless_index|]. intros ss.
  apply stateless_bind; [apply stateless_release|]. intros [rem1 ready2].
  apply stateless_ret.
Qed.

Lemma stateless_gen_loop (fuel : nat) (st : gen_state) :
  stateless (gen_loop (R:=R) self fuel (min_pick rule) st).
Proof.
  revert st. induction fuel as [|fuel IH]; intros st; simpl.
  - destruct (ready st); [apply stateless_ret|apply stateless_timeout].
  - destruct (ready st); [apply stateless_ret|].
    apply stateless_bind; [apply stateless_gen_step|apply IH].
Qed.

(** More fuel does not change what the loop returns. *)
Lemma gen_loop_fuel (pick : list nat → M R nat) (fuel fuel' : nat) (st : gen_state)
    (r r' : R) (order : list nat) :
  (fuel ≤ fuel')%nat →
  gen_loop self fuel pick st r = (Ret order, r') →
  gen_loop self fuel' pick st r = (Ret order, r').
Proof.
  revert fuel' st r. induction fuel as [|fuel IH]; intros fuel' st r Hle Hrun.
  - simpl in Hrun. destruct (ready st) eqn:Hready; [|done].
    destruct fuel'; simpl; by rewrite Hready.
  - destruct fuel' as [|fuel']; [lia|]. simpl in *.
    destruct (ready st); [done|].
    rewrite bind_run in *.
    destruct (gen_step self pick st r) as [[st1| |] r1]; [|done..].
    apply IH; [lia|done].
Qed.

End min_rule_runs.

(** C5.  On a network whose predecessor lists name existing activities and
    have no cycle, [random] and [min_rule] both return (given fuel for as
    many turns as there are activities) an order that holds each of the [n]
    activities exactly once and every activity after all its predecessors. *)
Theorem sampler_orders_topological {R : Type} (predecessors : list (list nat))
    (randbelow : nat → R → nat * R) (rule : nat → Z) :
  in_range predecessors →
  acyclic predecessors →
  (∀ m r, (0 < m)%nat → ((randbelow m r).1 < m)%nat) →
  ∃ fuel0, ∀ fuel r, (fuel0 ≤ fuel)%nat →
    (∃ order r', random (init predecessors) fuel randbelow r = (Ret order, r') ∧
                 topological_order predecessors order) ∧
    (∃ order r', min_rule (init predecessors) fuel rule r = (Ret order, r') ∧
                 topological_order predecessors order).
Proof.
  intros Hrange Hacyc Hbelow. exists (length predecessors). intros fuel r Hfuel.
  split.
  - apply gen_run; [done..|by apply choice_selects|done].
  - apply gen_run; [done..|apply min_pick_selects|done].
Qed.

(** The turns of the loop of [min_rule], one by one: from a state [st] the
    loop returns [res st] followed by the activities [rest]; the [j]-th of
    them is the first activity of minimal key in the ready list the loop has
    after [j] turns, and the loop stops, after as many turns as [rest] has
    items, on an empty ready list. *)
Lemma gen_loop_trace {R : Type} (predecessors : list (list nat)) (rule : nat → Z)
    (fuel : nat) (st : gen_state) (r : R) :
  gen_inv predecessors st →
  (length predecessors - length (res st) ≤ fuel)%nat →
  ∃ rest,
    gen_loop (Sampler.init predecessors) fuel (min_pick rule) st r
      = (Ret (res st ++ rest), r) ∧
    (∀ j, (j < length rest)%nat →
       ∃ st' i l1 l2 new rem',
         gen_iter (Sampler.init predecessors) j (min_pick rule) st r = (Ret st', r) ∧
         res st' = res st ++ take j rest ∧
         rest !! j = Some i ∧
         ready st' = l1 ++ i :: l2 ∧
         (∀ z, z ∈ l1 → rule i < rule z) ∧
         (∀ z, z ∈ l2 → rule i <= rule z) ∧
         gen_step (Sampler.init predecessors) (min_pick rule) st' r =
           (Ret {| res := res st' ++ [i]; rem := rem'; ready := l1 ++ l2 ++ new |}, r) ∧
         (∀ s, s ∈ new → s ∉ ready st')) ∧
    (∃ st',
       gen_iter (Sampler.init predecessors) (length rest) (min_pick rule) st r
         = (Ret st', r) ∧
       res st' = res st ++ rest ∧ ready st' = []).
Proof.
  revert st. induction fuel as [|fuel IH]; intros st Hinv Hfuel.
  - destruct (ready st) as [|a l] eqn:Hready.
    + exists []. simpl. rewrite Hready, app_nil_r. split; [done|].
      split; [intros j Hj; simpl in Hj; lia|]. by exists st.
    + pose proof (gen_inv_room predecessors st a l Hinv Hready). lia.
  - destruct (ready st) as [|a l] eqn:Hready.
    { exists []. simpl. rewrite Hready, app_nil_r. split; [done|].
      split; [intros j Hj; simpl in Hj; lia|]. by exists st. }
    pose proof (gen_inv_room predecessors st a l Hinv Hready) as Hroom.
    destruct (py_min_key_split rule (ready st)) as (i & l1 & l2 & Hi & Hsplit & Hl1 & Hl2).
    { by rewrite Hready. }
    assert (min_pick rule (ready st) r = (Ret i, r)) as Hpick.
    { unfold min_pick. by rewrite Hi. }
    destruct (gen_step_run predecessors (min_pick rule) st r r i l1 l2 Hinv Hpick Hsplit)
      as (rem' & new & Hstep & Hinv' & Hnew).
    set (st1 := {| res := res st ++ [i]; rem := rem'; ready := l1 ++ l2 ++ new |}) in *.
    destruct (IH st1 Hinv') as (rest & Hloop & Hturns & st2 & Hlast & Hres2 & Hready2).
    { simpl. rewrite length_app. simpl. lia. }
    exists (i :: rest). split; [|split].
    + simpl. rewrite Hready, bind_run, Hstep, Hloop. simpl.
      by rewrite <- app_assoc.
    + intros j Hj. destruct j as [|j].
      * exists st, i, l1, l2, new, rem'. simpl. rewrite app_nil_r.
        by repeat (split; [done|]).
      * destruct (Hturns j) as (st' & i' & l1' & l2' & new' & rem'' & Hiter & Hres' & Hrest);
          [simpl in Hj; lia|].
        exists st', i', l1', l2', new', rem''.
        split; [simpl; by rewrite Hready, bind_run, Hstep|].
        split; [|done]. rewrite Hres'. simpl. by rewrite <- app_assoc.
    + exists st2. split; [simpl; by rewrite Hready, bind_run, Hstep|].
      split; [|done]. rewrite Hres2. simpl. by rewrite <- app_assoc.
Qed.

(** C8.  [min_rule] returns one order, the same whatever the state of the
    pseudo-random source and however many turns beyond [n] its loop is
    allowed, and leaves the pseudo-random source as it was.  That order is
    the sequence of the loop's selections: its [k]-th activity [i] is taken
    from the ready list the loop has after [k] turns, where it has a key
    strictly below the keys of all ready activities before it in the list
    and at most the keys of those after it; the other ready activities keep
    their order and the activities that become ready are appended behind
    them, so the ready list holds the activities in the order in which they
    became ready; and the order ends where the ready list is empty. *)
Theorem min_rule_selection {R : Type} (predecessors : list (list nat)) (rule : nat → Z)
    (r : R) :
  ∃ order,
    (∀ (fuel : nat) (r' : R), (length predecessors ≤ fuel)%nat →
       min_rule (Sampler.init predecessors) fuel rule r' = (Ret order, r')) ∧
    (∀ k, (k < length order)%nat →
       ∃ st i l1 l2 new rem',
         gen_iter (Sampler.init predecessors) k (min_pick rule)
           (gen_init (Sampler.init predecessors)) r = (Ret st, r) ∧
         res st = take k order ∧
         order !! k = Some i ∧
         ready st = l1 ++ i :: l2 ∧
         (∀ z, z ∈ l1 → rule i < rule z) ∧
         (∀ z, z ∈ l2 → rule i <= rule z) ∧
         gen_step (Sampler.init predecessors) (min_pick rule) st r =
           (Ret {| res := res st ++ [i]; rem := rem'; ready := l1 ++ l2 ++ new |}, r) ∧
         (∀ s, s ∈ new → s ∉ ready st)) ∧
    (∃ st,
       gen_iter (Sampler.init predecessors) (length order) (min_pick rule)
         (gen_init (Sampler.init predecessors)) r = (Ret st, r) ∧
       res st = order ∧ ready st = []).
Proof.
  destruct (gen_loop_trace predecessors rule (length predecessors)
              (gen_init (Sampler.init predecessors)) r (gen_init_inv predecessors))
    as (order & Hloop & Hturns & Hlast); [simpl; lia|].
  simpl in Hloop. exists order. split; [|split; [done|done]].
  intros fuel r' Hfuel. unfold min_rule, _gen.
  destruct (stateless_gen_loop (R:=R) (Sampler.init predecessors) rule
              (length predecessors) (gen_init (Sampler.init predecessors))) as [o Ho].
  rewrite Ho in Hloop. injection Hloop as ->.
  eapply gen_loop_fuel; [done|]. apply Ho.
Qed.

(** ** The decoder keeps its frame *)

Import Profile Decoder Frame.

Lemma bind_Ret_inv {S A B} (m : M S A) (f : A → M S B) (s s' : S) (b : B) :
  (m ≫= f) s = (Ret b, s') → ∃ a s1, m s = (Ret a, s1) ∧ f a s1 = (Ret b, s').
Proof.
  rewrite bind_run. destruct (m s) as [[a| |] s1]; [|done..]. intros H. by exists a, s1.
Qed.

Lemma index_Ret_inv {S A} (l : list A) (i : nat) (a : A) (s s' : S) :
  index l i s = (Ret a, s') → l !! i = Some a ∧ s' = s.
Proof. unfold index. destruct (l !! i); [|done]. by intros [= -> ->]. Qed.

Lemma store_Ret_inv {S A} (l l' : list A) (i : nat) (x : A) (s s' : S) :
  store l i x s = (Ret l', s') → (i < length l)%nat ∧ l' = <[i:=x]> l ∧ s' = s.
Proof. unfold store. destruct (decide (i < length l)%nat); [|done]. by intros [= <- <-]. Qed.

Section frame.
Context (h0 : heap).

Local Abbreviation fresh := (fresh h0).
Local Abbreviation ofresh := (ofresh h0).
Local Abbreviation all_fresh := (all_fresh h0).
Local Abbreviation framed := (framed h0).
Local Abbreviation preserves := (preserves h0).

Lemma framed_initial : framed h0.
Proof.
  split; [done|]. split; [done|]. split; [done|].
  intros a nd Ha Hnd. apply lookup_lt_Some in Hnd. unfold Frame.fresh in Ha. lia.
Qed.

Lemma ofresh_None : ofresh None.
Proof. by intros a. Qed.

Lemma ofresh_Some (a : nat) : fresh a → ofresh (Some a).
Proof. by intros Ha b [= <-]. Qed.

Lemma preserves_ret {A} (a : A) (Q : A → Prop) : Q a → preserves (mret a) Q.
Proof. intros Ha h Hh. split; [done|]. by intros b [= <-]. Qed.

Lemma preserves_raise {A} (e : pyexn) (Q : A → Prop) : preserves (raise e) Q.
Proof. by intros h Hh. Qed.

Lemma preserves_timeout {A} (Q : A → Prop) : preserves timeout Q.
Proof. by intros h Hh. Qed.

Lemma preserves_bind {A B} (m : M heap A) (f : A → M heap B) (Q : A → Prop) (Q' : B → Prop) :
  preserves m Q → (∀ a, Q a → preserves (f a) Q') → preserves (m ≫= f) Q'.
Proof.
  intros Hm Hf h Hh. rewrite bind_run. destruct (Hm h Hh) as [Hh1 Ha].
  destruct (m h) as [[a| |] h1]; simpl in *; [|done..].
  by apply Hf; [apply Ha|].
Qed.

Lemma preserves_weaken {A} (m : M heap A) (Q Q' : A → Prop) :
  preserves m Q → (∀ a, Q a → Q' a) → preserves m Q'.
Proof. intros Hm HQ h Hh. destruct (Hm h Hh) as [? Ha]. split; [done|]. intros a Hr. by apply HQ, Ha. Qed.

Lemma preserves_index {A} (l : list A) (i : nat) :
  preserves (index l i) (fun x => l !! i = Some x).
Proof. unfold index. destruct (l !! i); [by apply preserves_ret|apply preserves_raise]. Qed.

Lemma preserves_store {A} (l : list A) (i : nat) (x : A) :
  preserves (store l i x) (fun l' => l' = <[i:=x]> l).
Proof. unfold store. case_decide; [by apply preserves_ret|apply preserves_raise]. Qed.

Lemma preserves_vec (r : nat) : preserves (vec r) (fun _ => True).
Proof. intros h Hh. unfold vec. by destruct (vecs h !! r). Qed.

Lemma preserves_vec_index (r i : nat) : preserves (vec_index r i) (fun _ => True).
Proof.
  eapply preserves_bind; [apply preserves_vec|]. intros v _.
  eapply preserves_weaken; [apply preserves_index|done].
Qed.

Lemma preserves_vec_assign (r i : nat) (x : Z) :
  (length (vecs h0) ≤ r)%nat → preserves (vec_assign r i x) (fun _ => True).
Proof.
  intros Hr h Hh. unfold vec_assign.
  destruct (vecs h !! r) as [v|]; [|done]. case_decide; [|done]. simpl. split; [|done].
  destruct Hh as (H1 & H2 & H3 & H4). split; [|split; [|split]]; simpl; try done.
  - intros r' Hr'. rewrite list_lookup_insert_ne by lia. by apply H1.
  - by rewrite length_insert.
Qed.

Lemma preserves_copy (r : nat) :
  preserves (copy r) (fun c => (length (vecs h0) ≤ c)%nat).
Proof.
  intros h Hh. unfold copy. destruct (vecs h !! r) as [v|]; [|done]. simpl.
  destruct Hh as (H1 & H2 & H3 & H4). split; [|by intros a [= <-]].
  split; [|split; [|split]]; simpl; try done.
  - intros r' Hr'. rewrite lookup_app_l by lia. by apply H1.
  - rewrite length_app. lia.
Qed.

Lemma preserves_deref (a : nat) :
  fresh a →
  preserves (deref a) (fun nd => (length (vecs h0) ≤ capacity nd)%nat ∧ ofresh (next nd)).
Proof.
  intros Ha h Hh. unfold deref. destruct (nodes h !! a) as [nd|] eqn:E; [|done]. simpl.
  split; [done|]. intros nd' [= <-]. destruct Hh as (_ & _ & _ & H4). by eapply H4.
Qed.

Lemma preserves_attr (o : option nat) :
  ofresh o →
  preserves (attr o) (fun nd => (length (vecs h0) ≤ capacity nd)%nat ∧ ofresh (next nd)).
Proof.
  intros Ho. destruct o as [a|]; simpl; [|apply preserves_raise].
  apply preserves_deref. by apply Ho.
Qed.

Lemma preserves_call {A} (o : option nat) (method : nat → M heap A) (Q : A → Prop) :
  ofresh o → (∀ a, fresh a → preserves (method a) Q) → preserves (call o method) Q.
Proof.
  intros Ho Hm. destruct o as [a|]; simpl; [|apply preserves_raise]. by apply Hm, Ho.
Qed.

Lemma framed_update (h : heap) (a : nat) (nd nd' : TimeCapacityNode) :
  framed h → nodes h !! a = Some nd → capacity nd' = capacity nd →
  (fresh a → ofresh (next nd')) →
  framed {| vecs := vecs h; nodes := <[a:=nd']> (nodes h) |}.
Proof.
  intros (H1 & H2 & H3 & H4) Hnd Hcap Hnext.
  split; [|split; [|split]]; simpl; try done.
  - by rewrite length_insert.
  - intros b ndb Hb. destruct (decide (a = b)) as [<-|Hne].
    + rewrite list_lookup_insert_eq by (by eapply lookup_lt_Some). intros [= <-].
      rewrite Hcap. split; [|by apply Hnext]. by eapply H4.
    + rewrite list_lookup_insert_ne by done. by apply H4.
Qed.

Lemma preserves_set_next (a : nat) (v : option nat) :
  ofresh v → preserves (set_next a v) (fun _ => True).
Proof.
  intros Hv h Hh. unfold set_next. destruct (nodes h !! a) as [nd|] eqn:E; [|done]. simpl.
  split; [|done]. eapply (framed_update h a nd); [exact Hh|exact E|reflexivity|].
  by intros _.
Qed.

Lemma preserves_set_prev (a : nat) (v : option nat) :
  preserves (set_prev a v) (fun _ => True).
Proof.
  intros h Hh. unfold set_prev. destruct (nodes h !! a) as [nd|] eqn:E; [|done]. simpl.
  split; [|done]. eapply (framed_update h a nd); [exact Hh|exact E|reflexivity|].
  intros Ha. destruct Hh as (_ & _ & _ & H4). by destruct (H4 a nd Ha E).
Qed.

Lemma preserves_init (t : Z) (c : nat) :
  (length (vecs h0) ≤ c)%nat → preserves (init t c) fresh.
Proof.
  intros Hc h (H1 & H2 & H3 & H4). unfold init. simpl. split; [|by intros a [= <-]].
  split; [|split; [|split]]; simpl; try done.
  - rewrite length_app. lia.
  - intros a nd Ha Hnd. apply lookup_app_Some in Hnd as [Hnd|[_ Hnd]]; [by eapply H4|].
    apply list_lookup_singleton_Some in Hnd as [_ <-]. simpl. split; [done|apply ofresh_None].
Qed.

Lemma preserves_insert_after (self : nat) (t : Z) :
  fresh self → preserves (insert_after self t) fresh.
Proof.
  intros Hself. unfold insert_after.
  eapply preserves_bind; [by apply preserves_deref|]. intros me [Hc _].
  eapply preserves_bind; [apply preserves_copy|]. intros c Hc'.
  eapply preserves_bind; [by apply preserves_init|]. intros node Hnode.
  eapply preserves_bind; [apply preserves_set_prev|]. intros _ _.
  eapply preserves_bind; [by apply preserves_deref|]. intros me' [_ Hnext].
  eapply preserves_bind; [by apply preserves_set_next|]. intros _ _.
  eapply preserves_bind.
  { instantiate (1 := fun _ => True).
    destruct (next me'); [apply preserves_set_prev|by apply preserves_ret]. }
  intros _ _.
  eapply preserves_bind; [by apply preserves_set_next, ofresh_Some|]. intros _ _.
  by apply preserves_ret.
Qed.

Lemma preserves_enough (self demand : nat) :
  preserves (enough self demand) (fun _ => True).
Proof.
  unfold enough.
  eapply preserves_bind; [apply preserves_vec|]. intros dv _.
  intros h Hh. rewrite bind_run. unfold deref.
  destruct (nodes h !! self) as [me|]; [|done].
  rewrite bind_run. unfold vec. destruct (vecs h !! capacity me) as [cv|]; [|done].
  by destruct (all_ge cv dv).
Qed.

Lemma preserves_consume_from (self demand : nat) (j k : nat) :
  fresh self → preserves (consume_from self demand j k) (fun _ => True).
Proof.
  intros Hself. revert j. induction k as [|k IH]; intros j; simpl; [by apply preserves_ret|].
  eapply preserves_bind; [by apply preserves_deref|]. intros me [Hc _].
  eapply preserves_bind; [apply preserves_vec_index|]. intros c _.
  eapply preserves_bind; [apply preserves_vec_index|]. intros d _.
  eapply preserves_bind; [by apply preserves_vec_assign|]. intros _ _.
  apply IH.
Qed.

Lemma preserves_consume (self demand : nat) :
  fresh self → preserves (consume self demand) (fun _ => True).
Proof.
  intros Hself. unfold consume.
  eapply preserves_bind; [apply preserves_vec|]. intros dv _.
  by apply preserves_consume_from.
Qed.

Section body.
Context (fuel : nat) (duration : nat) (predecessors : list (list nat)) (demands : list nat).

Lemma preserves_latest_finish (finish_nodes : list (option nat)) (ps : list nat)
    (start : option nat) :
  all_fresh finish_nodes → ofresh start →
  preserves (latest_finish finish_nodes ps start) ofresh.
Proof.
  intros Hfn. revert start. induction ps as [|p ps IH]; intros start Hstart; simpl.
  { by apply preserves_ret. }
  eapply preserves_bind; [apply preserves_index|]. intros fp Hfp.
  assert (ofresh fp) as Hfresh.
  { intros a ->. by eapply Hfn. }
  eapply preserves_bind; [by apply preserves_attr|]. intros fnd _.
  eapply preserves_bind; [by apply preserves_attr|]. intros snd _.
  apply IH. by case_decide.
Qed.

Lemma preserves_find_start (f i : nat) (node start : option nat) (finish_time : Z) :
  ofresh node → ofresh start →
  preserves (find_start duration demands f i node start finish_time)
            (fun '(n, s, _) => ofresh n ∧ ofresh s).
Proof.
  revert node start finish_time.
  induction f as [|f IH]; intros node start finish_time Hnode Hstart; simpl.
  all: eapply preserves_bind; [by apply preserves_attr|]; intros _ _.
  all: eapply preserves_bind; [apply preserves_index|]; intros d _.
  all: eapply preserves_bind;
    [apply preserves_call; [done|]; intros a _; apply preserves_enough|]; intros ok _.
  all: destruct ok; [by apply preserves_ret|].
  { apply preserves_timeout. }
  eapply preserves_bind; [by apply preserves_attr|]. intros nd [_ Hnext].
  eapply preserves_bind; [by apply preserves_attr|]. intros snd _.
  eapply preserves_bind; [apply preserves_vec_index|]. intros dv _.
  by apply IH.
Qed.

Lemma preserves_consume_range (f i : nat) (t finish_node : option nat) :
  ofresh t → preserves (consume_range demands f i t finish_node) (fun _ => True).
Proof.
  revert t. induction f as [|f IH]; intros t Ht; simpl.
  all: case_decide; [by apply preserves_ret|].
  { apply preserves_timeout. }
  eapply preserves_bind; [by apply preserves_attr|]. intros _ _.
  eapply preserves_bind; [apply preserves_index|]. intros d _.
  eapply preserves_bind.
  { apply preserves_call; [done|]. intros a Ha. by apply preserves_consume. }
  intros _ _.
  eapply preserves_bind; [by apply preserves_attr|]. intros nd [_ Hnext].
  by apply IH.
Qed.

Lemma all_fresh_insert (finish_nodes : list (option nat)) (i : nat) (o : option nat) :
  all_fresh finish_nodes → ofresh o → all_fresh (<[i:=o]> finish_nodes).
Proof.
  intros Hfn Ho j a Hj. apply list_lookup_insert_Some in Hj as [(_ & -> & _)|[_ Hj]].
  - by apply Ho.
  - by eapply Hfn.
Qed.

Lemma preserves_schedule (root i : nat) (starts : list Z) (finish_nodes : list (option nat)) :
  fresh root → all_fresh finish_nodes →
  preserves (schedule fuel duration predecessors demands root i (starts, finish_nodes))
            (fun st => all_fresh st.2).
Proof.
  intros Hroot Hfn. unfold schedule.
  eapply preserves_bind; [apply preserves_index|]. intros ps _.
  eapply preserves_bind; [by apply preserves_latest_finish, ofresh_Some|]. intros start Hstart.
  eapply preserves_bind; [by apply preserves_attr|]. intros snd _.
  eapply preserves_bind; [apply preserves_vec_index|]. intros dv _.
  eapply preserves_bind; [by apply preserves_find_start|].
  intros [[node start'] finish_time] [Hnode Hstart'].
  eapply preserves_bind; [by apply preserves_attr|]. intros nd [_ Hnext].
  eapply preserves_bind.
  { instantiate (1 := ofresh). destruct (next nd) as [nx|] eqn:Hnx.
    - eapply preserves_bind; [by apply preserves_deref, Hnext|]. intros nxd _.
      case_decide; [|by apply preserves_ret].
      eapply preserves_bind.
      { apply preserves_call; [done|]. intros a Ha. by apply preserves_insert_after. }
      intros a Ha. by apply preserves_ret, ofresh_Some.
    - eapply preserves_bind.
      { apply preserves_call; [done|]. intros a Ha. by apply preserves_insert_after. }
      intros a Ha. by apply preserves_ret, ofresh_Some. }
  intros finish_node Hfinish.
  eapply preserves_bind; [by apply preserves_consume_range|]. intros _ _.
  eapply preserves_bind; [by apply preserves_attr|]. intros snd' _.
  eapply preserves_bind; [apply preserves_store|]. intros starts' _.
  eapply preserves_bind; [apply preserves_store|]. intros fn' ->.
  apply preserves_ret. simpl. by apply all_fresh_insert.
Qed.

Lemma preserves_decode_loop (root : nat) (alist : list nat) (st : list Z * list (option nat)) :
  fresh root → all_fresh st.2 →
  preserves (decode_loop fuel duration predecessors demands root alist st)
            (fun st' => all_fresh st'.2).
Proof.
  intros Hroot. revert st. induction alist as [|i alist IH]; intros [starts fn] Hfn; simpl.
  { by apply preserves_ret. }
  eapply preserves_bind; [by apply preserves_schedule|]. intros st' Hst'. by apply IH.
Qed.

Lemma preserves_decode_init (capacity : nat) :
  preserves (decode_init duration capacity) (fun x => fresh x.1 ∧ all_fresh x.2.2).
Proof.
  unfold decode_init.
  eapply preserves_bind; [apply preserves_copy|]. intros c Hc.
  eapply preserves_bind; [by apply preserves_init|]. intros root Hroot.
  eapply preserves_bind; [apply preserves_vec|]. intros dur _.
  eapply preserves_bind; [apply preserves_store|]. intros fn ->.
  apply preserves_ret. simpl. split; [done|].
  apply all_fresh_insert; [|by apply ofresh_Some].
  intros i a Hi. by apply lookup_replicate in Hi as [? _].
Qed.

Lemma preserves_decode_run (alist : list nat) (capacity : nat) :
  preserves (decode_run fuel duration predecessors demands alist capacity)
            (fun x => fresh x.1 ∧ all_fresh x.2.2).
Proof.
  unfold decode_run.
  eapply preserves_bind; [apply preserves_decode_init|]. intros [root st] [Hroot Hfn].
  eapply preserves_bind; [by apply preserves_decode_loop|]. intros st' Hst'.
  by apply preserves_ret.
Qed.

End body.

Lemma framed_prefix (h : heap) : framed h → vecs h0 `prefix_of` vecs h.
Proof.
  intros (H1 & H2 & _). exists (drop (length (vecs h0)) (vecs h)).
  rewrite <- (take_drop (length (vecs h0)) (vecs h)) at 1. f_equal.
  apply list_eq. intros r. destruct (decide (r < length (vecs h0))%nat) as [Hr|Hr].
  - rewrite lookup_take_lt by done. by apply H1.
  - rewrite lookup_take_ge by lia. symmetry. apply lookup_ge_None. lia.
Qed.

End frame.

(** C10.  Whatever its arguments and however it ends, [decode] leaves every
    list object that existed at the call as it was: the list objects of the
    heap after the call are those before it, followed by new ones.  Hence
    the [duration] list, the [capacity] list and every item of [demands]
    are unchanged. *)
Theorem decode_keeps_inputs (fuel : nat) (alist : list nat) (duration : nat)
    (predecessors : list (list nat)) (demands : list nat) (capacity : nat) (h0 : heap) :
  vecs h0 `prefix_of` vecs (decode fuel alist duration predecessors demands capacity h0).2.
Proof.
  apply framed_prefix.
  assert (preserves h0 (decode fuel alist duration predecessors demands capacity)
            (fun _ => True)) as H.
  { unfold decode. eapply preserves_bind; [apply preserves_decode_run|].
    intros [root [starts fn]] _. by apply preserves_ret. }
  apply H, framed_initial.
Qed.

(** ** Reading the heap, and what stays as the heap evolves *)

Lemma deref_Ret_inv (a : nat) (nd : TimeCapacityNode) (h h' : heap) :
  deref a h = (Ret nd, h') → nodes h !! a = Some nd ∧ h' = h.
Proof. unfold deref. destruct (nodes h !! a); [|done]. by intros [= -> ->]. Qed.

Lemma attr_Ret_inv (o : option nat) (nd : TimeCapacityNode) (h h' : heap) :
  attr o h = (Ret nd, h') → ∃ a, o = Some a ∧ nodes h !! a = Some nd ∧ h' = h.
Proof.
  destruct o as [a|]; simpl; [|done]. intros H. apply deref_Ret_inv in H. by exists a.
Qed.

Lemma call_Ret_inv {A} (o : option nat) (method : nat → M heap A) (x : A) (h h' : heap) :
  call o method h = (Ret x, h') → ∃ a, o = Some a ∧ method a h = (Ret x, h').
Proof. destruct o as [a|]; simpl; [|done]. intros H. by exists a. Qed.

Lemma vec_Ret_inv (r : nat) (v : list Z) (h h' : heap) :
  vec r h = (Ret v, h') → vecs h !! r = Some v ∧ h' = h.
Proof. unfold vec. destruct (vecs h !! r); [|done]. by intros [= -> ->]. Qed.

Lemma vec_index_Ret_inv (r i : nat) (x : Z) (h h' : heap) :
  vec_index r i h = (Ret x, h') → ∃ v, vecs h !! r = Some v ∧ v !! i = Some x ∧ h' = h.
Proof.
  unfold vec_index. intros H. apply bind_Ret_inv in H as (v & h1 & Hv & H).
  apply vec_Ret_inv in Hv as [Hv ->]. apply index_Ret_inv in H as [H ->]. by exists v.
Qed.

Lemma evolves_refl (h : heap) : evolves h h.
Proof. intros a nd Hnd. by exists nd. Qed.

Lemma evolves_trans (h1 h2 h3 : heap) : evolves h1 h2 → evolves h2 h3 → evolves h1 h3.
Proof.
  intros H12 H23 a nd Hnd. destruct (H12 a nd Hnd) as (nd2 & Hnd2 & Ht2).
  destruct (H23 a nd2 Hnd2) as (nd3 & Hnd3 & Ht3). exists nd3. split; [done|congruence].
Qed.

Lemma readonly_ret {A} (a : A) : readonly (mret a : M heap A).
Proof. by intros h. Qed.

Lemma readonly_raise {A} (e : pyexn) : readonly (raise e : M heap A).
Proof. by intros h. Qed.

Lemma readonly_timeout {A} : readonly (timeout : M heap A).
Proof. by intros h. Qed.

Lemma readonly_bind {A B} (m : M heap A) (f : A → M heap B) :
  readonly m → (∀ a, readonly (f a)) → readonly (m ≫= f).
Proof.
  intros Hm Hf h. rewrite bind_run. specialize (Hm h).
  destruct (m h) as [[a| |] h1]; simpl in *; subst; [apply Hf|done..].
Qed.

Lemma readonly_index {A} (l : list A) (i : nat) : readonly (index l i : M heap A).
Proof. intros h. unfold index. by destruct (l !! i). Qed.

Lemma readonly_vec (r : nat) : readonly (vec r).
Proof. intros h. unfold vec. by destruct (vecs h !! r). Qed.

Lemma readonly_vec_index (r i : nat) : readonly (vec_index r i).
Proof. apply readonly_bind; [apply readonly_vec|]. intros v. apply readonly_index. Qed.

Lemma readonly_deref (a : nat) : readonly (deref a).
Proof. intros h. unfold deref. by destruct (nodes h !! a). Qed.

Lemma readonly_attr (o : option nat) : readonly (attr o).
Proof. destruct o; [apply readonly_deref|apply readonly_raise]. Qed.

Lemma readonly_call {A} (o : option nat) (method : nat → M heap A) :
  (∀ a, readonly (method a)) → readonly (call o method).
Proof. intros H. destruct o; [apply H|apply readonly_raise]. Qed.

Lemma readonly_enough (self demand : nat) : readonly (enough self demand).
Proof.
  unfold enough. apply readonly_bind; [apply readonly_vec|]. intros dv.
  apply readonly_bind; [apply readonly_deref|]. intros me.
  apply readonly_bind; [apply readonly_vec|]. intros cv.
  destruct (all_ge cv dv); [apply readonly_ret|apply readonly_raise].
Qed.

Lemma readonly_latest_finish (finish_nodes : list (option nat)) (ps : list nat)
    (start : option nat) :
  readonly (latest_finish finish_nodes ps start).
Proof.
  revert start. induction ps as [|p ps IH]; intros start; simpl; [apply readonly_ret|].
  apply readonly_bind; [apply readonly_index|]. intros fp.
  apply readonly_bind; [apply readonly_attr|]. intros fnd.
  apply readonly_bind; [apply readonly_attr|]. intros snd. apply IH.
Qed.

Lemma readonly_find_start (duration : nat) (demands : list nat) (f i : nat)
    (node start : option nat) (finish_time : Z) :
  readonly (find_start duration demands f i node start finish_time).
Proof.
  revert node start finish_time. induction f as [|f IH]; intros node start finish_time; simpl.
  all: apply readonly_bind; [apply readonly_attr|]; intros _.
  all: apply readonly_bind; [apply readonly_index|]; intros d.
  all: apply readonly_bind; [apply readonly_call; intros a; apply readonly_enough|]; intros ok.
  all: destruct ok; [apply readonly_ret|].
  { apply readonly_timeout. }
  apply readonly_bind; [apply readonly_attr|]. intros nd.
  apply readonly_bind; [apply readonly_attr|]. intros snd.
  apply readonly_bind; [apply readonly_vec_index|]. intros dv. apply IH.
Qed.

Lemma readonly_monotone {A} (m : M heap A) : readonly m → monotone m.
Proof. intros Hm h. rewrite Hm. apply evolves_refl. Qed.

Lemma monotone_ret {A} (a : A) : monotone (mret a : M heap A).
Proof. apply readonly_monotone, readonly_ret. Qed.

Lemma monotone_bind {A B} (m : M heap A) (f : A → M heap B) :
  monotone m → (∀ a, monotone (f a)) → monotone (m ≫= f).
Proof.
  intros Hm Hf h. rewrite bind_run. specialize (Hm h).
  destruct (m h) as [[a| |] h1]; simpl in *; [|done..].
  eapply evolves_trans; [done|apply Hf].
Qed.

Lemma monotone_call {A} (o : option nat) (method : nat → M heap A) :
  (∀ a, monotone (method a)) → monotone (call o method).
Proof. intros H. destruct o; [apply H|apply readonly_monotone, readonly_raise]. Qed.

Lemma evolves_same_nodes (h h' : heap) : nodes h' = nodes h → evolves h h'.
Proof. intros Heq a nd Hnd. exists nd. by rewrite Heq. Qed.

Lemma monotone_vec_assign (r i : nat) (x : Z) : monotone (vec_assign r i x).
Proof.
  intros h. unfold vec_assign. destruct (vecs h !! r); [|apply evolves_refl].
  case_decide; by apply evolves_same_nodes.
Qed.

Lemma monotone_copy (r : nat) : monotone (copy r).
Proof. intros h. unfold copy. destruct (vecs h !! r); by apply evolves_same_nodes. Qed.

Lemma evolves_update (h : heap) (a : nat) (nd nd' : TimeCapacityNode) :
  nodes h !! a = Some nd → time nd' = time nd →
  evolves h {| vecs := vecs h; nodes := <[a:=nd']> (nodes h) |}.
Proof.
  intros Hnd Ht b ndb Hb. simpl. destruct (decide (a = b)) as [<-|Hne].
  - exists nd'. rewrite list_lookup_insert_eq by (by eapply lookup_lt_Some).
    split; [done|]. congruence.
  - exists ndb. by rewrite list_lookup_insert_ne.
Qed.

Lemma monotone_set_next (a : nat) (v : option nat) : monotone (set_next a v).
Proof.
  intros h. unfold set_next. destruct (nodes h !! a) as [nd|] eqn:E; [|apply evolves_refl].
  by eapply evolves_update.
Qed.

Lemma monotone_set_prev (a : nat) (v : option nat) : monotone (set_prev a v).
Proof.
  intros h. unfold set_prev. destruct (nodes h !! a) as [nd|] eqn:E; [|apply evolves_refl].
  by eapply evolves_update.
Qed.

Lemma monotone_init (t : Z) (c : nat) : monotone (init t c).
Proof. intros h a nd Hnd. exists nd. split; [|done]. simpl. by apply lookup_app_l_Some. Qed.

Lemma monotone_insert_after (self : nat) (t : Z) : monotone (insert_after self t).
Proof.
  unfold insert_after.
  apply monotone_bind; [apply readonly_monotone, readonly_deref|]. intros me.
  apply monotone_bind; [apply monotone_copy|]. intros c.
  apply monotone_bind; [apply monotone_init|]. intros node.
  apply monotone_bind; [apply monotone_set_prev|]. intros _.
  apply monotone_bind; [apply readonly_monotone, readonly_deref|]. intros me'.
  apply monotone_bind; [apply monotone_set_next|]. intros _.
  apply monotone_bind; [destruct (next me'); [apply monotone_set_prev|apply monotone_ret]|].
  intros _. apply monotone_bind; [apply monotone_set_next|]. intros _. apply monotone_ret.
Qed.

Lemma monotone_consume_from (self demand j k : nat) : monotone (consume_from self demand j k).
Proof.
  revert j. induction k as [|k IH]; intros j; simpl; [apply monotone_ret|].
  apply monotone_bind; [apply readonly_monotone, readonly_deref|]. intros me.
  apply monotone_bind; [apply readonly_monotone, readonly_vec_index|]. intros c.
  apply monotone_bind; [apply readonly_monotone, readonly_vec_index|]. intros d.
  apply monotone_bind; [apply monotone_vec_assign|]. intros _. apply IH.
Qed.

Lemma monotone_consume (self demand : nat) : monotone (consume self demand).
Proof.
  unfold consume. apply monotone_bind; [apply readonly_monotone, readonly_vec|].
  intros dv. apply monotone_consume_from.
Qed.

Lemma monotone_consume_range (demands : list nat) (f i : nat) (t finish_node : option nat) :
  monotone (consume_range demands f i t finish_node).
Proof.
  revert t. induction f as [|f IH]; intros t; simpl.
  all: case_decide; [apply monotone_ret|].
  { apply readonly_monotone, readonly_timeout. }
  apply monotone_bind; [apply readonly_monotone, readonly_attr|]. intros _.
  apply monotone_bind; [apply readonly_monotone, readonly_index|]. intros d.
  apply monotone_bind; [apply monotone_call; intros a; apply monotone_consume|]. intros _.
  apply monotone_bind; [apply readonly_monotone, readonly_attr|]. intros nd. apply IH.
Qed.

(** The node that [insert_after] returns carries the time it was given. *)
Lemma insert_after_time (self : nat) (t : Z) (h h' : heap) (m : nat) :
  insert_after self t h = (Ret m, h') →
  ∃ nd, nodes h' !! m = Some nd ∧ time nd = t.
Proof.
  unfold insert_after. intros H.
  apply bind_Ret_inv in H as (me & h1 & Hme & H).
  apply bind_Ret_inv in H as (c & h2 & Hc & H).
  apply bind_Ret_inv in H as (node & h3 & Hnode & H).
  assert (∃ nd, nodes h3 !! node = Some nd ∧ time nd = t) as (nd3 & Hnd3 & Ht3).
  { unfold init in Hnode. injection Hnode as <- <-. simpl.
    eexists. split; [apply list_lookup_middle; done|done]. }
  assert (evolves h3 h' ∧ m = node) as [Hev ->].
  { apply bind_Ret_inv in H as (u1 & h4 & H1 & H).
    apply bind_Ret_inv in H as (me' & h5 & H2 & H).
    apply bind_Ret_inv in H as (u2 & h6 & H3 & H).
    apply bind_Ret_inv in H as (u3 & h7 & H4 & H).
    apply bind_Ret_inv in H as (u4 & h8 & H5 & H).
    injection H as <- <-. split; [|done].
    pose proof (monotone_set_prev node (Some self) h3) as E1. rewrite H1 in E1.
    pose proof (readonly_deref self h4) as E2. rewrite H2 in E2. simpl in E2. subst h5.
    pose proof (monotone_set_next node (next me') h4) as E3. rewrite H3 in E3.
    assert (evolves h6 h7) as E4.
    { destruct (next me') as [nx|].
      - pose proof (monotone_set_prev nx (Some node) h6) as E. by rewrite H4 in E.
      - injection H4 as _ <-. apply evolves_refl. }
    pose proof (monotone_set_next self (Some node) h7) as E5. rewrite H5 in E5.
    simpl in *. eauto using evolves_trans. }
  destruct (Hev node nd3 Hnd3) as (nd & Hnd & Ht). exists nd. split; [done|congruence].
Qed.

(** ** The finish node of a scheduled activity *)

Section finish.
Context (h0 : heap) (fuel : nat) (duration : nat) (predecessors : list (list nat))
        (demands : list nat) (dur : list Z).
Hypothesis Hdur : vecs h0 !! duration = Some dur.

(** The search for capacity leaves [node] and [start] on the same
    breakpoint and [finish_time] at its time plus the duration. *)
Lemma find_start_Ret (f i : nat) (node start node' start' : option nat)
    (finish_time finish_time' dv : Z) (snd : TimeCapacityNode) (h h' : heap) :
  node = start → attr start h = (Ret snd, h) → vec_index duration i h = (Ret dv, h) →
  finish_time = time snd + dv →
  find_start duration demands f i node start finish_time h
    = (Ret (node', start', finish_time'), h') →
  h' = h ∧ node' = start' ∧
  ∃ snd', attr start' h = (Ret snd', h) ∧ finish_time' = time snd' + dv.
Proof.
  intros Hns Hsnd Hdv Hft Hrun.
  assert (h' = h) as ->.
  { pose proof (readonly_find_start duration demands f i node start finish_time h) as Hro.
    by rewrite Hrun in Hro. }
  split; [done|]. revert node start finish_time snd Hns Hsnd Hft Hrun.
  induction f as [|f IH]; intros node start finish_time snd Hns Hsnd Hft Hrun.
  all: simpl in Hrun.
  all: apply bind_Ret_inv in Hrun as (nd0 & h1 & H0 & Hrun);
       apply attr_Ret_inv in H0 as (a0 & Ha0 & Hnd0 & ->).
  all: apply bind_Ret_inv in Hrun as (d & h1 & H1 & Hrun);
       apply index_Ret_inv in H1 as [Hd ->].
  all: apply bind_Ret_inv in Hrun as (ok & h1 & H2 & Hrun).
  all: pose proof (readonly_call node (fun a => enough a d) (fun a => readonly_enough a d) h)
         as Hro; rewrite H2 in Hro; simpl in Hro; subst h1.
  all: destruct ok.
  1,3: injection Hrun as <- <- <-; subst; split; [done|]; by exists snd.
  { done. }
  apply bind_Ret_inv in Hrun as (nd & h1 & H3 & Hrun).
  apply attr_Ret_inv in H3 as (a & Ha & Hnd & ->).
  apply bind_Ret_inv in Hrun as (snd1 & h1 & H4 & Hrun).
  pose proof H4 as H4'. apply attr_Ret_inv in H4' as (a1 & Ha1 & Hnd1 & ->).
  apply bind_Ret_inv in Hrun as (dv1 & h1 & H5 & Hrun).
  rewrite Hdv in H5. injection H5 as <- <-.
  by eapply (IH (next nd) (next nd) (time snd1 + dv) snd1).
Qed.

(** One pass through the body of the loop records, for its activity, a
    finish node whose time is the recorded start plus the duration. *)
Lemma schedule_finish (root i : nat) (starts starts' : list Z)
    (finish_nodes finish_nodes' : list (option nat)) (h h' : heap) :
  framed h0 h →
  schedule fuel duration predecessors demands root i (starts, finish_nodes) h
    = (Ret (starts', finish_nodes'), h') →
  evolves h h' ∧
  (∀ j, j ≠ i → starts' !! j = starts !! j ∧ finish_nodes' !! j = finish_nodes !! j) ∧
  ∃ a nd s d,
    finish_nodes' !! i = Some (Some a) ∧ nodes h' !! a = Some nd ∧
    starts' !! i = Some s ∧ dur !! i = Some d ∧ time nd = s + d.
Proof.
  intros Hframed Hrun. unfold schedule in Hrun.
  apply bind_Ret_inv in Hrun as (ps & h1 & H1 & Hrun). apply index_Ret_inv in H1 as [Hps ->].
  apply bind_Ret_inv in Hrun as (start & h1 & H2 & Hrun).
  pose proof (readonly_latest_finish finish_nodes ps (Some root) h) as Hro.
  rewrite H2 in Hro. simpl in Hro. subst h1.
  apply bind_Ret_inv in Hrun as (snd & h1 & H3 & Hrun).
  pose proof (readonly_attr start h) as Hro. rewrite H3 in Hro. simpl in Hro. subst h1.
  apply bind_Ret_inv in Hrun as (dv & h1 & H4 & Hrun).
  pose proof (readonly_vec_index duration i h) as Hro. rewrite H4 in Hro. simpl in Hro. subst h1.
  apply bind_Ret_inv in Hrun as ([[node start'] finish_time] & h1 & H5 & Hrun).
  destruct (find_start_Ret fuel i start start node start' _ finish_time dv snd h h1
              eq_refl H3 H4 eq_refl H5) as (-> & -> & snd' & Hsnd' & ->).
  apply bind_Ret_inv in Hrun as (nd & h1 & H6 & Hrun).
  rewrite Hsnd' in H6. injection H6 as <- <-.
  apply attr_Ret_inv in Hsnd' as (a0 & -> & Ha0 & _).
  apply bind_Ret_inv in Hrun as (finish_node & h1 & H7 & Hrun).
  (* the finish node, found or inserted *)
  assert (evolves h h1 ∧ ∃ a nd, finish_node = Some a ∧ nodes h1 !! a = Some nd ∧
                                 time nd = time snd' + dv) as (Hev1 & a & nda & -> & Ha & Hta).
  { assert (∀ o h2, (a ← call (Some a0) (fun a => insert_after a (time snd' + dv)); mret (Some a)) h
                      = (Ret o, h2) →
              evolves h h2 ∧ ∃ a nd, o = Some a ∧ nodes h2 !! a = Some nd ∧
                                     time nd = time snd' + dv) as Hins.
    { intros o h2 H. apply bind_Ret_inv in H as (a & h3 & Hi & H). injection H as <- <-.
      simpl in Hi. split.
      - pose proof (monotone_insert_after a0 (time snd' + dv) h) as E. by rewrite Hi in E.
      - apply insert_after_time in Hi as (nd & Hnd & Ht). by exists a, nd. }
    destruct (next snd') as [nx|]; [|by apply Hins].
    apply bind_Ret_inv in H7 as (nxd & h2 & Hnx & H7).
    apply deref_Ret_inv in Hnx as [Hnx ->].
    case_decide as Hne; [by apply Hins|].
    injection H7 as <- <-. split; [apply evolves_refl|].
    exists nx, nxd. split; [done|]. split; [done|].
    by destruct (decide (time nxd = time snd' + dv)). }
  apply bind_Ret_inv in Hrun as (u & h2 & H8 & Hrun).
  assert (evolves h1 h2) as Hev2.
  { pose proof (monotone_consume_range demands fuel i (Some a0) (Some a) h1) as E.
    by rewrite H8 in E. }
  apply bind_Ret_inv in Hrun as (snd2 & h3 & H9 & Hrun).
  apply attr_Ret_inv in H9 as (a0' & [= <-] & Ha0' & ->).
  apply bind_Ret_inv in Hrun as (starts1 & h3 & H10 & Hrun).
  apply store_Ret_inv in H10 as (Hi1 & -> & ->).
  apply bind_Ret_inv in Hrun as (fn1 & h3 & H11 & Hrun).
  apply store_Ret_inv in H11 as (Hi2 & -> & ->).
  injection Hrun as <- <- <-.
  assert (evolves h h2) as Hev by (by eapply evolves_trans).
  split; [done|]. split.
  { intros j Hj. by rewrite !list_lookup_insert_ne. }
  destruct (Hev2 a nda Ha) as (nda' & Ha' & Hta').
  destruct (Hev a0 snd' Ha0) as (snd2' & Ha0'' & Hts).
  rewrite Ha0' in Ha0''. injection Ha0'' as <-.
  apply vec_index_Ret_inv in H4 as (v & Hv & Hvi & _).
  assert (v = dur) as ->.
  { destruct Hframed as (Hold & _). apply lookup_lt_Some in Hdur as Hlt.
    rewrite Hold, Hdur in Hv by done. by injection Hv. }
  exists a, nda', (time snd2), dv.
  rewrite !list_lookup_insert_eq by done. repeat split; try done. lia.
Qed.

Lemma decode_loop_finish (root : nat) (alist done : list nat) (st st' : list Z * list (option nat))
    (h h' : heap) :
  framed h0 h → fresh h0 root → all_fresh h0 st.2 →
  finish_times_recorded dur done h st.1 st.2 →
  decode_loop fuel duration predecessors demands root alist st h = (Ret st', h') →
  finish_times_recorded dur (done ++ alist) h' st'.1 st'.2.
Proof.
  revert done st h. induction alist as [|i alist IH]; intros done [starts fn] h Hh Hroot Hfn Hrec Hrun.
  { injection Hrun as <- <-. by rewrite app_nil_r. }
  cbn [decode_loop] in Hrun.
  apply bind_Ret_inv in Hrun as ([starts1 fn1] & h1 & Hstep & Hrun).
  pose proof (preserves_schedule h0 fuel duration predecessors demands root i starts fn
                Hroot Hfn h Hh) as [Hh1 Hfn1].
  rewrite Hstep in Hh1, Hfn1. simpl in Hh1, Hfn1. specialize (Hfn1 _ eq_refl).
  destruct (schedule_finish root i starts starts1 fn fn1 h h1 Hh Hstep)
    as (Hev & Hother & Hi).
  replace (done ++ i :: alist) with ((done ++ [i]) ++ alist) by (by rewrite <- app_assoc).
  eapply IH; [done..| |done].
  intros j Hj. simpl. destruct (decide (j = i)) as [->|Hne]; [done|].
  apply elem_of_app in Hj as [Hj|Hj]; [|by apply list_elem_of_singleton in Hj].
  destruct (Hrec j Hj) as (a & nd & s & d & Hfa & Hnd & Hs & Hd & Ht). simpl in *.
  destruct (Hev a nd Hnd) as (nd' & Hnd' & Ht').
  destruct (Hother j Hne) as [-> ->].
  exists a, nd', s, d. repeat split; try done. lia.
Qed.

End finish.

(** C9.  When [decode] has worked through an activity list (so also after
    any prefix of a longer list), every activity [i] of the list has a
    finish node whose time is [starts[i] + duration[i]]. *)
Theorem finish_node_time (fuel : nat) (alist : list nat) (duration : nat)
    (predecessors : list (list nat)) (demands : list nat) (capacity : nat)
    (h0 h : heap) (dur starts : list Z) (root : nat) (finish_nodes : list (option nat)) :
  vecs h0 !! duration = Some dur →
  decode_run fuel duration predecessors demands alist capacity h0
    = (Ret (root, (starts, finish_nodes)), h) →
  finish_times_recorded dur alist h starts finish_nodes.
Proof.
  intros Hdur Hrun. unfold decode_run in Hrun.
  apply bind_Ret_inv in Hrun as ([root' st0] & h1 & Hinit & Hrun).
  apply bind_Ret_inv in Hrun as (st1 & h2 & Hloop & Hrun).
  injection Hrun as -> -> ->.
  pose proof (preserves_decode_init h0 duration capacity h0 (framed_initial h0)) as [Hh1 Hfresh].
  rewrite Hinit in Hh1, Hfresh. simpl in Hh1, Hfresh.
  destruct (Hfresh _ eq_refl) as [Hroot Hfn].
  apply (decode_loop_finish h0 fuel duration predecessors demands dur Hdur
           root alist [] st0 (starts, finish_nodes) h1 h Hh1 Hroot Hfn); [|done].
  intros j Hj. by apply elem_of_nil in Hj.
Qed.

(** ** Running the heap operations *)

Import Chain.

Lemma links_lookup (h : heap) (a : nat) (t : Z) (c : nat) (n : option nat) :
  links h !! a = Some (t, c, n) ↔
  ∃ nd, nodes h !! a = Some nd ∧ time nd = t ∧ capacity nd = c ∧ next nd = n.
Proof.
  unfold links. rewrite list_lookup_fmap_Some. unfold link. split.
  - intros (nd & [= -> -> ->] & Hnd). by exists nd.
  - intros (nd & Hnd & <- & <- & <-). by exists nd.
Qed.

Lemma links_length (h : heap) : length (links h) = length (nodes h).
Proof. unfold links. by rewrite length_fmap. Qed.

Lemma deref_run (h : heap) (a : nat) (t : Z) (c : nat) (n : option nat) :
  links h !! a = Some (t, c, n) →
  ∃ nd, deref a h = (Ret nd, h) ∧ time nd = t ∧ capacity nd = c ∧ next nd = n.
Proof.
  intros H. apply links_lookup in H as (nd & Hnd & ?). exists nd.
  unfold deref. by rewrite Hnd.
Qed.

Lemma set_prev_run (h : heap) (a : nat) (v : option nat) :
  is_Some (links h !! a) →
  ∃ h', set_prev a v h = (Ret tt, h') ∧ links h' = links h ∧ vecs h' = vecs h.
Proof.
  intros [[[t c] n] H]. pose proof H as H'. apply links_lookup in H' as (nd & Hnd & <- & <- & <-).
  unfold set_prev. rewrite Hnd. eexists. split; [done|]. split; [|done].
  unfold links. simpl. rewrite list_fmap_insert. by apply list_insert_id.
Qed.

Lemma set_next_run (h : heap) (a : nat) (v : option nat) (t : Z) (c : nat) (n : option nat) :
  links h !! a = Some (t, c, n) →
  ∃ h', set_next a v h = (Ret tt, h') ∧ links h' = <[a:=(t, c, v)]> (links h) ∧
        vecs h' = vecs h.
Proof.
  intros H. apply links_lookup in H as (nd & Hnd & <- & <- & <-).
  unfold set_next. rewrite Hnd. eexists. split; [done|]. split; [|done].
  unfold links. simpl. by rewrite list_fmap_insert.
Qed.

Lemma init_run (h : heap) (t : Z) (c : nat) :
  ∃ h', init t c h = (Ret (length (links h)), h') ∧
        links h' = links h ++ [(t, c, None)] ∧ vecs h' = vecs h.
Proof.
  unfold init. eexists. rewrite links_length. split; [done|]. split; [|done].
  unfold links. simpl. by rewrite fmap_app.
Qed.

Lemma copy_run (h : heap) (r : nat) (v : list Z) :
  vecs h !! r = Some v →
  ∃ h', copy r h = (Ret (length (vecs h)), h') ∧ links h' = links h ∧
        vecs h' = vecs h ++ [v].
Proof. intros H. unfold copy. rewrite H. by eexists. Qed.

Lemma vec_run (h : heap) (r : nat) (v : list Z) :
  vecs h !! r = Some v → vec r h = (Ret v, h).
Proof. intros H. unfold vec. by rewrite H. Qed.

Lemma vec_index_run (h : heap) (r i : nat) (v : list Z) (x : Z) :
  vecs h !! r = Some v → v !! i = Some x → vec_index r i h = (Ret x, h).
Proof.
  intros Hv Hx. unfold vec_index. rewrite (bind_ret_run _ _ _ _ _ (vec_run h r v Hv)).
  by apply index_run.
Qed.

Lemma vec_assign_run (h : heap) (r i : nat) (v : list Z) (x : Z) :
  vecs h !! r = Some v → (i < length v)%nat →
  ∃ h', vec_assign r i x h = (Ret tt, h') ∧ links h' = links h ∧
        vecs h' = <[r:=<[i:=x]> v]> (vecs h).
Proof.
  intros Hv Hi. unfold vec_assign. rewrite Hv. case_decide; [|done]. by eexists.
Qed.

Lemma insert_after_run (h : heap) (self : nat) (tm : Z) (t : Z) (c : nat) (n : option nat)
    (cv : list Z) :
  links h !! self = Some (t, c, n) → vecs h !! c = Some cv →
  (∀ x, n = Some x → is_Some (links h !! x)) →
  ∃ h', insert_after self tm h = (Ret (length (links h)), h') ∧
        links h' = <[self:=(t, c, Some (length (links h)))]>
                     (links h ++ [(tm, length (vecs h), n)]) ∧
        vecs h' = vecs h ++ [cv].
Proof.
  intros Hself Hcv Hn. unfold insert_after.
  pose proof (lookup_lt_Some _ _ _ Hself) as Hlt.
  destruct (deref_run h self t c n Hself) as (me & Hme & Ht & Hc & Hnx).
  rewrite (bind_ret_run _ _ _ _ _ Hme), Hc.
  destruct (copy_run h c cv Hcv) as (h1 & Hcopy & HL1 & HV1).
  rewrite (bind_ret_run _ _ _ _ _ Hcopy).
  destruct (init_run h1 tm (length (vecs h))) as (h2 & Hinit & HL2 & HV2).
  rewrite (bind_ret_run _ _ _ _ _ Hinit), HL1.
  set (m := length (links h)).
  assert (links h2 !! m = Some (tm, length (vecs h), None)) as Hm2.
  { rewrite HL2, HL1. by apply list_lookup_middle. }
  destruct (set_prev_run h2 m (Some self)) as (h3 & Hsp & HL3 & HV3); [by eexists|].
  rewrite (bind_ret_run _ _ _ _ _ Hsp).
  assert (links h3 !! self = Some (t, c, n)) as Hself3.
  { rewrite HL3, HL2, HL1. by apply lookup_app_l_Some. }
  destruct (deref_run h3 self t c n Hself3) as (me' & Hme' & Ht' & Hc' & Hnx').
  rewrite (bind_ret_run _ _ _ _ _ Hme'), Hnx'.
  destruct (set_next_run h3 m n tm (length (vecs h)) None) as (h4 & Hsn & HL4 & HV4).
  { by rewrite HL3. }
  rewrite (bind_ret_run _ _ _ _ _ Hsn).
  assert (links h4 = links h ++ [(tm, length (vecs h), n)]) as HL4'.
  { rewrite HL4, HL3, HL2, HL1. unfold m.
    replace (length (links h)) with (length (links h) + 0)%nat at 1 by lia.
    by rewrite insert_app_r. }
  assert (∃ h5, match n with
                | Some nx => set_prev nx (Some m)
                | None => mret ()
                end h4 = (Ret tt, h5) ∧ links h5 = links h4 ∧ vecs h5 = vecs h4)
    as (h5 & Hsp5 & HL5 & HV5).
  { destruct n as [x|]; [|by exists h4].
    apply set_prev_run. destruct (Hn x eq_refl) as [y Hy]. exists y.
    rewrite HL4'. by apply lookup_app_l_Some. }
  rewrite (bind_ret_run _ _ _ _ _ Hsp5).
  destruct (set_next_run h5 self (Some m) t c n) as (h6 & Hsn6 & HL6 & HV6).
  { rewrite HL5, HL4'. by apply lookup_app_l_Some. }
  rewrite (bind_ret_run _ _ _ _ _ Hsn6).
  exists h6. split; [done|]. split.
  - by rewrite HL6, HL5, HL4'.
  - by rewrite HV6, HV5, HV4, HV3, HV2, HV1.
Qed.

Lemma all_ge_total (cv dv : list Z) :
  (length dv ≤ length cv)%nat → is_Some (all_ge cv dv).
Proof.
  revert cv. induction dv as [|d dv IH]; intros cv Hlen; simpl; [by eexists|].
  destruct cv as [|c cv]; simpl in Hlen; [lia|].
  case_decide; [apply IH; lia|by eexists].
Qed.

Lemma all_ge_covered (cv dv : list Z) : Forall2 Z.le dv cv → all_ge cv dv = Some true.
Proof.
  induction 1 as [|d c dv cv Hle _ IH]; simpl; [done|].
  case_decide; [done|lia].
Qed.

Lemma enough_run (h : heap) (self demand : nat) (t : Z) (c : nat) (n : option nat)
    (cv dv : list Z) :
  links h !! self = Some (t, c, n) → vecs h !! c = Some cv → vecs h !! demand = Some dv →
  (length dv ≤ length cv)%nat →
  ∃ b, enough self demand h = (Ret b, h) ∧ (Forall2 Z.le dv cv → b = true).
Proof.
  intros Hself Hcv Hdv Hlen. unfold enough.
  rewrite (bind_ret_run _ _ _ _ _ (vec_run h demand dv Hdv)).
  destruct (deref_run h self t c n Hself) as (me & Hme & _ & Hc & _).
  rewrite (bind_ret_run _ _ _ _ _ Hme), Hc.
  rewrite (bind_ret_run _ _ _ _ _ (vec_run h c cv Hcv)).
  destruct (all_ge_total cv dv Hlen) as [b Hb]. rewrite Hb. exists b. split; [done|].
  intros Hle. apply all_ge_covered in Hle. congruence.
Qed.

Lemma consume_from_run (self demand : nat) (t : Z) (c : nat) (n : option nat) (dv : list Z)
    (k j : nat) (h : heap) (cv : list Z) :
  links h !! self = Some (t, c, n) → vecs h !! c = Some cv → vecs h !! demand = Some dv →
  c ≠ demand → (j + k ≤ length dv)%nat → (length dv ≤ length cv)%nat →
  ∃ h' cv', consume_from self demand j k h = (Ret tt, h') ∧ links h' = links h ∧
            vecs h' = <[c:=cv']> (vecs h) ∧ length cv' = length cv.
Proof.
  revert j h cv. induction k as [|k IH]; intros j h cv Hself Hcv Hdv Hne Hjk Hlen; simpl.
  { exists h, cv. split; [done|]. split; [done|]. split; [|done]. by rewrite list_insert_id. }
  destruct (deref_run h self t c n Hself) as (me & Hme & _ & Hc & _).
  rewrite (bind_ret_run _ _ _ _ _ Hme), Hc.
  destruct (lookup_lt_is_Some_2 cv j) as [x Hx]; [lia|].
  destruct (lookup_lt_is_Some_2 dv j) as [d Hd]; [lia|].
  rewrite (bind_ret_run _ _ _ _ _ (vec_index_run h c j cv x Hcv Hx)).
  rewrite (bind_ret_run _ _ _ _ _ (vec_index_run h demand j dv d Hdv Hd)).
  destruct (vec_assign_run h c j cv (x - d) Hcv) as (h1 & Hva & HL1 & HV1); [lia|].
  rewrite (bind_ret_run _ _ _ _ _ Hva).
  pose proof (lookup_lt_Some _ _ _ Hcv) as Hc_lt.
  destruct (IH (S j) h1 (<[j:=x - d]> cv)) as (h' & cv' & Hrun & HL' & HV' & Hlen').
  { by rewrite HL1. }
  { rewrite HV1. by apply list_lookup_insert_eq. }
  { rewrite HV1. by rewrite list_lookup_insert_ne. }
  { done. }
  { lia. }
  { by rewrite length_insert. }
  exists h', cv'. split; [done|]. split; [by rewrite HL', HL1|].
  split; [by rewrite HV', HV1, list_insert_insert_eq|].
  by rewrite Hlen', length_insert.
Qed.

Lemma consume_run (h : heap) (self demand : nat) (t : Z) (c : nat) (n : option nat)
    (cv dv : list Z) :
  links h !! self = Some (t, c, n) → vecs h !! c = Some cv → vecs h !! demand = Some dv →
  c ≠ demand → (length dv ≤ length cv)%nat →
  ∃ h' cv', consume self demand h = (Ret tt, h') ∧ links h' = links h ∧
            vecs h' = <[c:=cv']> (vecs h) ∧ length cv' = length cv.
Proof.
  intros Hself Hcv Hdv Hne Hlen. unfold consume.
  rewrite (bind_ret_run _ _ _ _ _ (vec_run h demand dv Hdv)).
  by eapply consume_from_run.
Qed.

(** ** The breakpoint list under insertion and consumption *)

Section chain.
Context (V0 : list (list Z)) (cap : list Z).

Local Abbreviation chained := (chained V0 cap).

Lemma linked_frame (L L' : list (Z * nat * option nat)) (l : list nat) (e : option nat) :
  (∀ a, a ∈ l → L' !! a = L !! a) → linked L l e → linked L' l e.
Proof.
  induction l as [|a r IH]; intros Hsame; simpl; [done|].
  intros [(t & c & Ha) Hr]. split.
  - exists t, c. rewrite Hsame; [done|by left].
  - apply IH; [|done]. intros b Hb. apply Hsame. by right.
Qed.

Lemma linked_app_cons (L : list (Z * nat * option nat)) (l1 l2 : list nat) (a : nat)
    (e : option nat) :
  linked L (l1 ++ a :: l2) e ↔ linked L l1 (Some a) ∧ linked L (a :: l2) e.
Proof.
  induction l1 as [|b l1 IH]; [simpl; tauto|].
  change ((b :: l1) ++ a :: l2) with (b :: (l1 ++ a :: l2)).
  cbn [linked]. rewrite IH. destruct l1; simpl; tauto.
Qed.

Lemma chained_lookup (l : list nat) (L : list (Z * nat * option nat)) (V : list (list Z))
    (l1 l2 : list nat) (a : nat) :
  chained l L V → l = l1 ++ a :: l2 →
  ∃ t c cv, L !! a = Some (t, c, head l2) ∧ (length V0 ≤ c)%nat ∧
            V !! c = Some cv ∧ length cv = length cap ∧ (l2 = [] → cv = cap).
Proof.
  intros (Hnd & Hlinked & Hown & Hsep & Hlast & Hold) ->.
  apply linked_app_cons in Hlinked as [_ [(t & c & Ha) _]].
  destruct (Hown a) as (t' & c' & n' & cv & Ha' & Hc & Hcv & Hlen); [set_solver|].
  rewrite Ha in Ha'. injection Ha' as <- <- <-.
  exists t, c, cv. split; [by destruct l2|]. repeat split; try done.
  intros ->. destruct Hlast as (b & tb & cb & Hb & HLb & HVb).
  rewrite last_snoc in Hb. injection Hb as <-.
  rewrite Ha in HLb. injection HLb as <- <-. congruence.
Qed.

Lemma chained_bound (l : list nat) (L : list (Z * nat * option nat)) (V : list (list Z))
    (a : nat) :
  chained l L V → a ∈ l → (a < length L)%nat.
Proof.
  intros (_ & _ & Hown & _) Ha. destruct (Hown a Ha) as (t & c & n & cv & HL & _).
  by eapply lookup_lt_Some.
Qed.

Lemma chained_insert (l : list nat) (L : list (Z * nat * option nat)) (V : list (list Z))
    (l1 l2 : list nat) (a : nat) (t tm : Z) (c : nat) (cv : list Z) :
  chained l L V → l = l1 ++ a :: l2 →
  L !! a = Some (t, c, head l2) → V !! c = Some cv → (length V0 ≤ length V)%nat →
  chained (l1 ++ a :: length L :: l2)
          (<[a:=(t, c, Some (length L))]> (L ++ [(tm, length V, head l2)]))
          (V ++ [cv]).
Proof.
  intros Hch -> Ha Hcv HV0.
  destruct (chained_lookup _ _ _ l1 l2 a Hch eq_refl)
    as (t' & c' & cv' & Ha' & Hc & Hcv' & Hlen & Hfull).
  rewrite Ha in Ha'. injection Ha' as <- <-. rewrite Hcv in Hcv'. injection Hcv' as <-.
  assert (∀ b, b ∈ l1 ++ a :: l2 → (b < length L)%nat) as Hbound.
  { intros b. by apply (chained_bound _ L V). }
  destruct Hch as (Hnd & Hlinked & Hown & Hsep & Hlast & Hold).
  set (m := length L). set (L' := <[a:=_]> _).
  assert (a < m)%nat as Ham by (apply Hbound; set_solver).
  assert (m ∉ l1 ++ a :: l2) as Hm.
  { intros Hin. apply Hbound in Hin. lia. }
  assert (L' !! a = Some (t, c, Some m)) as HLa.
  { unfold L'. apply list_lookup_insert_eq. rewrite length_app. simpl. lia. }
  assert (L' !! m = Some (tm, length V, head l2)) as HLm.
  { unfold L'. rewrite list_lookup_insert_ne by lia. by apply list_lookup_middle. }
  assert (∀ b, b ∈ l1 ++ a :: l2 → b ≠ a → L' !! b = L !! b) as HLb.
  { intros b Hb Hne. unfold L'. rewrite list_lookup_insert_ne by done.
    apply lookup_app_l. by apply Hbound. }
  assert (NoDup (l1 ++ a :: m :: l2)) as Hnd'.
  { assert (l1 ++ a :: m :: l2 ≡ₚ m :: (l1 ++ a :: l2)) as ->.
    { replace (l1 ++ a :: m :: l2) with ((l1 ++ [a]) ++ m :: l2)
        by (by rewrite <- app_assoc).
      rewrite <- Permutation_middle. by rewrite <- app_assoc. }
    by apply NoDup_cons. }
  apply NoDup_app in Hnd as (_ & Hl1 & Hal2). apply NoDup_cons in Hal2 as [Hal2 _].
  apply linked_app_cons in Hlinked as [Hlk1 [_ Hlk2]].
  split; [done|]. split.
  { apply linked_app_cons. split.
    - eapply linked_frame; [|done]. intros b Hb. apply HLb; [set_solver|].
      intros ->. apply (Hl1 a Hb). by left.
    - split; [by exists t, c|]. split; [by exists tm, (length V)|].
      eapply linked_frame; [|done]. intros b Hb. apply HLb; [set_solver|].
      by intros ->. }
  split.
  { intros b Hb.
    assert (b = m ∨ b ∈ l1 ++ a :: l2) as [->|Hb'] by set_solver.
    - exists tm, (length V), (head l2), cv. split; [done|]. split; [done|].
      split; [by apply list_lookup_middle|done].
    - destruct (Hown b Hb') as (tb & cb & nb & cvb & HLb' & Hcb & HVb & Hlenb).
      destruct (decide (b = a)) as [->|Hne].
      + exists t, c, (Some m), cv. split; [done|]. split; [done|].
        split; [by apply lookup_app_l_Some|done].
      + exists tb, cb, nb, cvb. rewrite HLb by done. split; [done|]. split; [done|].
        split; [by apply lookup_app_l_Some|done]. }
  assert (∀ b tb cb nb, b ∈ l1 ++ a :: l2 → L' !! b = Some (tb, cb, nb) →
            (cb < length V)%nat ∧ ∃ nb', L !! b = Some (tb, cb, nb')) as Hold'.
  { intros b tb cb nb Hb HL. destruct (Hown b Hb) as (tb' & cb' & nb' & cvb & HLb' & _ & HVb & _).
    destruct (decide (b = a)) as [->|Hne].
    - rewrite HLa in HL. injection HL as <- <- <-. split; [by eapply lookup_lt_Some|]. eauto.
    - rewrite HLb, HLb' in HL by done. injection HL as <- <- <-.
      split; [by eapply lookup_lt_Some|]. eauto. }
  split.
  { intros b b' tb tb' cb nb nb' Hb Hb' HL HL'.
    assert (b = m ∨ b ∈ l1 ++ a :: l2) as [->|Hin] by set_solver;
    assert (b' = m ∨ b' ∈ l1 ++ a :: l2) as [->|Hin'] by set_solver.
    - done.
    - rewrite HLm in HL. injection HL as <- <- <-.
      destruct (Hold' _ _ _ _ Hin' HL') as [Hlt _]. lia.
    - rewrite HLm in HL'. injection HL' as <- <- <-.
      destruct (Hold' _ _ _ _ Hin HL) as [Hlt _]. lia.
    - destruct (Hold' _ _ _ _ Hin HL) as [_ [n1 H1]].
      destruct (Hold' _ _ _ _ Hin' HL') as [_ [n2 H2]]. by eapply Hsep. }
  split.
  { destruct l2 as [|x r] using rev_ind.
    - exists m, tm, (length V). split.
      { replace (l1 ++ [a; m]) with ((l1 ++ [a]) ++ [m]) by (by rewrite <- app_assoc).
        apply last_snoc. }
      split; [done|]. rewrite Hfull by done. by apply list_lookup_middle.
    - destruct Hlast as (b & tb & cb & Hb & HLb' & HVb).
      replace (l1 ++ a :: r ++ [x]) with ((l1 ++ a :: r) ++ [x]) in Hb
        by (by rewrite <- app_assoc).
      rewrite last_snoc in Hb. injection Hb as <-.
      exists x, tb, cb. split.
      { replace (l1 ++ a :: m :: r ++ [x]) with ((l1 ++ a :: m :: r) ++ [x])
          by (by rewrite <- app_assoc).
        apply last_snoc. }
      split; [|by apply lookup_app_l_Some].
      rewrite HLb; [done|set_solver|]. intros ->. apply Hal2. set_solver. }
  intros r Hr. rewrite lookup_app_l by lia. by apply Hold.
Qed.

Lemma chained_consume (l : list nat) (L : list (Z * nat * option nat)) (V : list (list Z))
    (a f : nat) (t : Z) (c : nat) (cv' : list Z) :
  chained l L V → a ∈ l → L !! a = Some (t, c, Some f) → length cv' = length cap →
  chained l L (<[c:=cv']> V).
Proof.
  intros (Hnd & Hlinked & Hown & Hsep & Hlast & Hold) Ha HLa Hlen.
  destruct (Hown a Ha) as (t' & c' & n' & cv & HLa' & Hc & HVc & _).
  rewrite HLa in HLa'. injection HLa' as <- <- <-.
  split; [done|]. split; [done|]. split.
  { intros b Hb. destruct (Hown b Hb) as (tb & cb & nb & cvb & HLb & Hcb & HVb & Hlenb).
    destruct (decide (cb = c)) as [->|Hne].
    - exists tb, c, nb, cv'. split; [done|]. split; [done|]. split; [|done].
      apply list_lookup_insert_eq. by eapply lookup_lt_Some.
    - exists tb, cb, nb, cvb. by rewrite list_lookup_insert_ne. }
  split; [done|]. split.
  { destruct Hlast as (b & tb & cb & Hb & HLb & HVb). exists b, tb, cb.
    split; [done|]. split; [done|]. rewrite list_lookup_insert_ne; [done|].
    intros <-. assert (a = b) as ->.
    { eapply Hsep; [done| |done..]. by apply last_Some_elem_of. }
    congruence. }
  intros r Hr. rewrite list_lookup_insert_ne by lia. by apply Hold.
Qed.

End chain.

(** ** The decoder returns on a well-formed input *)

Section returns.
Context (h0 : heap) (fuel : nat) (duration : nat) (predecessors : list (list nat))
        (demands : list nat) (dur cap : list Z).
Hypothesis Hdur : vecs h0 !! duration = Some dur.
Hypothesis Hdem : ∀ i d, demands !! i = Some d →
  ∃ dv, vecs h0 !! d = Some dv ∧ Forall2 Z.le dv cap.

Local Abbreviation chained := (chained (vecs h0) cap).

Lemma chained_old (l : list nat) (h : heap) (r : nat) (v : list Z) :
  chained l (links h) (vecs h) → vecs h0 !! r = Some v → vecs h !! r = Some v.
Proof.
  intros (_ & _ & _ & _ & _ & Hold) Hr. rewrite Hold; [done|]. by eapply lookup_lt_Some.
Qed.

Lemma chained_deref (l : list nat) (h : heap) (a : nat) :
  chained l (links h) (vecs h) → a ∈ l →
  ∃ nd, attr (Some a) h = (Ret nd, h) ∧ links h !! a = Some (link nd).
Proof.
  intros (_ & _ & Hown & _) Ha. destruct (Hown a Ha) as (t & c & n & cv & HL & _).
  destruct (deref_run h a t c n HL) as (nd & Hnd & <- & <- & <-). by exists nd.
Qed.

Lemma latest_finish_run (l : list nat) (h : heap) (finish_nodes : list (option nat))
    (ps : list nat) (s : nat) :
  chained l (links h) (vecs h) → s ∈ l →
  (∀ p, p ∈ ps → ∃ a, finish_nodes !! p = Some (Some a) ∧ a ∈ l) →
  ∃ s', latest_finish finish_nodes ps (Some s) h = (Ret (Some s'), h) ∧ s' ∈ l.
Proof.
  intros Hch. revert s. induction ps as [|p ps IH]; intros s Hs Hps; simpl.
  { by exists s. }
  destruct (Hps p) as (a & Hfp & Ha); [by left|].
  rewrite (bind_ret_run _ _ _ _ _ (index_run _ _ _ _ Hfp)).
  destruct (chained_deref l h a Hch Ha) as (fnd & Hfnd & _).
  rewrite (bind_ret_run _ _ _ _ _ Hfnd).
  destruct (chained_deref l h s Hch Hs) as (snd & Hsnd & _).
  rewrite (bind_ret_run _ _ _ _ _ Hsnd).
  case_decide; apply IH; try done; intros q Hq; apply Hps; by right.
Qed.

(** The search ends at a breakpoint of the list: the last one, at the
    latest, has the full capacity. *)
Lemma find_start_run (l : list nat) (h : heap) (i d : nat) (dv : list Z) (x : Z) (f : nat) :
  chained l (links h) (vecs h) →
  demands !! i = Some d → vecs h0 !! d = Some dv → Forall2 Z.le dv cap →
  dur !! i = Some x →
  ∀ l2 l1 s ft, l = l1 ++ s :: l2 → (length l2 ≤ f)%nat →
    ∃ l1' a l2' ft',
      l = l1' ++ a :: l2' ∧
      find_start duration demands f i (Some s) (Some s) ft h
        = (Ret (Some a, Some a, ft'), h).
Proof.
  intros Hch Hd Hdv Hle Hx l2. revert f.
  induction l2 as [|b l2 IH]; intros f l1 s ft Hl Hf.
  all: destruct (chained_lookup _ _ l _ _ l1 _ s Hch Hl) as (t & c & cv & HL & Hc & HV & Hlen & Hfull).
  all: assert (s ∈ l) as Hs by (rewrite Hl; set_solver).
  all: destruct (chained_deref l h s Hch Hs) as (nd & Hnd & Hlink).
  all: pose proof (chained_old l h d dv Hch Hdv) as Hdv'.
  all: pose proof (Forall2_length _ _ _ Hle) as Hlen'.
  all: destruct (enough_run h s d t c _ cv dv HL HV Hdv') as (ok & Hok & Hfullok); [lia|].
  all: assert (find_start duration demands f i (Some s) (Some s) ft h =
         if ok then (Ret (Some s, Some s, ft), h)
         else match f with
              | O => (Timeout, h)
              | S f' =>
                (nd ← attr (Some s);
                 snd ← attr (next nd);
                 dv ← vec_index duration i;
                 find_start duration demands f' i (next nd) (next nd) (time snd + dv)) h
              end) as Hunfold
    by (destruct f; simpl;
        rewrite (bind_ret_run _ _ _ _ _ Hnd), (bind_ret_run _ _ _ _ _ (index_run _ _ _ _ Hd));
        simpl; rewrite (bind_ret_run _ _ _ _ _ Hok); by destruct ok).
  all: rewrite Hunfold; clear Hunfold.
  - rewrite (Hfullok ltac:(by rewrite Hfull)). by exists l1, s, [], ft.
  - destruct ok; [by exists l1, s, (b :: l2), ft|].
    destruct f as [|f]; [simpl in Hf; lia|].
    rewrite (bind_ret_run _ _ _ _ _ Hnd).
    rewrite HL in Hlink. injection Hlink as _ _ Hnext. simpl in Hnext. rewrite <- Hnext.
    assert (b ∈ l) as Hb by (rewrite Hl; set_solver).
    destruct (chained_deref l h b Hch Hb) as (snd & Hsnd & _).
    rewrite (bind_ret_run _ _ _ _ _ Hsnd).
    rewrite (bind_ret_run _ _ _ _ _
               (vec_index_run h duration i dur x (chained_old l h _ _ Hch Hdur) Hx)).
    apply (IH f (l1 ++ [s]) b); [by rewrite <- app_assoc|simpl in Hf; lia].
Qed.

(** The finish node is found or inserted right behind the chosen start. *)
Lemma finish_node_run (l : list nat) (h : heap) (l1 l2 : list nat) (a : nat)
    (nd : TimeCapacityNode) (finish_time : Z) :
  chained l (links h) (vecs h) → l = l1 ++ a :: l2 →
  links h !! a = Some (link nd) →
  ∃ l' h1 f t c,
    match next nd with
    | Some nx =>
      nxd ← deref nx;
      if decide (time nxd ≠ finish_time)
      then a ← call (Some a) (fun a => insert_after a finish_time); mret (Some a)
      else mret (Some nx)
    | None => a ← call (Some a) (fun a => insert_after a finish_time); mret (Some a)
    end h = (Ret (Some f), h1) ∧
    chained l' (links h1) (vecs h1) ∧ (∀ b, b ∈ l → b ∈ l') ∧ a ∈ l' ∧ f ∈ l' ∧ f ≠ a ∧
    links h1 !! a = Some (t, c, Some f) ∧ (length l' ≤ S (length l))%nat.
Proof.
  intros Hch Hl Hlink.
  destruct (chained_lookup _ _ l _ _ l1 l2 a Hch Hl) as (t & c & cv & HL & Hc & HV & Hlen & Hfull).
  rewrite HL in Hlink. injection Hlink as _ _ Hnext.
  assert (∃ h1, (a ← call (Some a) (fun a => insert_after a finish_time); mret (Some a)) h
                  = (Ret (Some (length (links h))), h1) ∧
                chained (l1 ++ a :: length (links h) :: l2) (links h1) (vecs h1) ∧
                links h1 !! a = Some (t, c, Some (length (links h)))) as Hins.
  { destruct (insert_after_run h a finish_time t c (head l2) cv HL HV) as (h1 & Hrun & HL1 & HV1).
    { intros x Hx. apply lookup_lt_is_Some.
      apply (chained_bound (vecs h0) cap l (links h) (vecs h)); [done|].
      rewrite Hl. destruct l2; simplify_eq/=. set_solver. }
    exists h1. split; [simpl; by rewrite (bind_ret_run _ _ _ _ _ Hrun)|].
    rewrite HL1, HV1. split.
    - eapply chained_insert; [done..|]. apply lookup_lt_Some in HV. lia.
    - apply list_lookup_insert_eq. rewrite length_app. simpl.
      apply lookup_lt_Some in HL. lia. }
  assert (a < length (links h))%nat as Hlt by (by eapply lookup_lt_Some).
  assert (∀ h1, chained (l1 ++ a :: length (links h) :: l2) (links h1) (vecs h1) →
            links h1 !! a = Some (t, c, Some (length (links h))) →
            chained (l1 ++ a :: length (links h) :: l2) (links h1) (vecs h1) ∧
            (∀ b, b ∈ l → b ∈ l1 ++ a :: length (links h) :: l2) ∧
            a ∈ l1 ++ a :: length (links h) :: l2 ∧
            length (links h) ∈ l1 ++ a :: length (links h) :: l2 ∧
            length (links h) ≠ a ∧
            links h1 !! a = Some (t, c, Some (length (links h))) ∧
            (length (l1 ++ a :: length (links h) :: l2) ≤ S (length l))%nat) as Hpost.
  { intros h1 Hch1 HL1. split; [done|]. split; [rewrite Hl; set_solver|].
    split; [set_solver|]. split; [set_solver|]. split; [lia|]. split; [done|].
    rewrite Hl, !length_app. simpl. lia. }
  destruct (next nd) as [nx|] eqn:Hnx.
  - assert (nx ∈ l) as Hin.
    { rewrite Hl. destruct l2; simplify_eq/=. set_solver. }
    destruct (chained_deref l h nx Hch Hin) as (nxd & Hnxd & _). simpl in Hnxd.
    rewrite (bind_ret_run _ _ _ _ _ Hnxd).
    case_decide as Htime.
    + destruct Hins as (h1 & Hrun & Hch1 & HL1).
      exists (l1 ++ a :: length (links h) :: l2), h1, (length (links h)), t, c.
      split; [done|]. by apply Hpost.
    + exists l, h, nx, t, c. split; [done|]. split; [done|]. split; [done|].
      split; [rewrite Hl; set_solver|]. split; [done|]. split.
      { intros ->. destruct Hch as (Hnd & _). rewrite Hl in Hnd.
        apply NoDup_app in Hnd as (_ & _ & Hnd). apply NoDup_cons in Hnd as [Hnd _].
        apply Hnd. destruct l2; simplify_eq/=. set_solver. }
      split; [by rewrite HL, <- Hnext|lia].
  - destruct Hins as (h1 & Hrun & Hch1 & HL1).
    exists (l1 ++ a :: length (links h) :: l2), h1, (length (links h)), t, c.
    split; [done|]. by apply Hpost.
Qed.

(** The rest of the body: consumption over [start, finish_node) and the two
    assignments. *)
Lemma consume_range_run (l : list nat) (h : heap) (i d a f : nat) (dv : list Z)
    (t : Z) (c : nat) (k : nat) :
  chained l (links h) (vecs h) →
  demands !! i = Some d → vecs h0 !! d = Some dv → Forall2 Z.le dv cap →
  a ∈ l → f ≠ a → links h !! a = Some (t, c, Some f) →
  ∃ h', consume_range demands (S k) i (Some a) (Some f) h = (Ret tt, h') ∧
        chained l (links h') (vecs h') ∧ links h' !! a = Some (t, c, Some f).
Proof.
  intros Hch Hd Hdv Hle Ha Hne HL.
  pose proof Hch as (_ & _ & Hown & _).
  destruct (Hown a Ha) as (t' & c' & n' & cv & HL' & Hc & HV & Hlen).
  rewrite HL in HL'. injection HL' as <- <- <-.
  pose proof (chained_old l h d dv Hch Hdv) as Hdv'.
  pose proof (Forall2_length _ _ _ Hle) as Hlen'.
  destruct (consume_run h a d t c (Some f) cv dv HL HV Hdv') as (h' & cv' & Hrun & HL1 & HV1 & Hlen1).
  { apply lookup_lt_Some in Hdv. lia. }
  { lia. }
  exists h'. split.
  - simpl. case_decide as Heq; [by injection Heq as ->|].
    destruct (deref_run h a t c (Some f) HL) as (nd & Hnd & _).
    rewrite (bind_ret_run _ _ _ _ _ Hnd), (bind_ret_run _ _ _ _ _ (index_run _ _ _ _ Hd)).
    simpl. rewrite (bind_ret_run _ _ _ _ _ Hrun).
    destruct (deref_run h' a t c (Some f)) as (nd' & Hnd' & _ & _ & Hnext); [by rewrite HL1|].
    rewrite (bind_ret_run _ _ _ _ _ Hnd'), Hnext.
    destruct k; simpl; by case_decide.
  - rewrite HL1, HV1. split; [|done]. eapply chained_consume; [done..|lia].
Qed.

Lemma schedule_run (l : list nat) (h : heap) (root i : nat) (starts : list Z)
    (finish_nodes : list (option nat)) (ps : list nat) (k : nat) :
  fuel = S k →
  chained l (links h) (vecs h) → root ∈ l →
  predecessors !! i = Some ps →
  (∀ p, p ∈ ps → ∃ a, finish_nodes !! p = Some (Some a) ∧ a ∈ l) →
  (i < length dur)%nat → length starts = length dur → length finish_nodes = length dur →
  is_Some (demands !! i) → (length l ≤ fuel)%nat →
  ∃ l' h' starts' f,
    schedule fuel duration predecessors demands root i (starts, finish_nodes) h
      = (Ret (starts', <[i:=Some f]> finish_nodes), h') ∧
    chained l' (links h') (vecs h') ∧ (∀ b, b ∈ l → b ∈ l') ∧ f ∈ l' ∧
    (length l' ≤ S (length l))%nat ∧ length starts' = length starts.
Proof.
  intros Hfuel Hch Hroot Hps Hpred Hi Hls Hlf [d Hd] Hlen.
  destruct (Hdem i d Hd) as (dv & Hdv & Hle).
  destruct (lookup_lt_is_Some_2 dur i Hi) as [x Hx].
  destruct (latest_finish_run l h finish_nodes ps root Hch Hroot Hpred) as (s & Hlat & Hs).
  destruct (chained_deref l h s Hch Hs) as (snd & Hsnd & _).
  pose proof (vec_index_run h duration i dur x (chained_old l h _ _ Hch Hdur) Hx) as Hvx.
  apply list_elem_of_split in Hs as (l1 & l2 & Hl).
  destruct (find_start_run l h i d dv x fuel Hch Hd Hdv Hle Hx l2 l1 s (time snd + x) Hl)
    as (l1' & a & l2' & ft' & Hl' & Hfind).
  { rewrite Hl, length_app in Hlen. simpl in Hlen. lia. }
  assert (a ∈ l) as Ha by (rewrite Hl'; set_solver).
  destruct (chained_deref l h a Hch Ha) as (nd & Hnd & Hlink).
  destruct (finish_node_run l h l1' l2' a nd ft' Hch Hl' Hlink)
    as (l' & h1 & f & t & c & Hfin & Hch1 & Hsub & Ha' & Hf & Hne & HL1 & Hlen').
  destruct (consume_range_run l' h1 i d a f dv t c k Hch1 Hd Hdv Hle Ha' Hne HL1)
    as (h2 & Hcons & Hch2 & HL2).
  destruct (deref_run h2 a t c (Some f) HL2) as (snd2 & Hsnd2 & _).
  exists l', h2, (<[i:=time snd2]> starts), f. split.
  - unfold schedule.
    rewrite (bind_ret_run _ _ _ _ _ (index_run _ _ _ _ Hps)).
    rewrite (bind_ret_run _ _ _ _ _ Hlat), (bind_ret_run _ _ _ _ _ Hsnd).
    rewrite (bind_ret_run _ _ _ _ _ Hvx), (bind_ret_run _ _ _ _ _ Hfind).
    cbv beta iota.
    rewrite (bind_ret_run _ _ _ _ _ Hnd), (bind_ret_run _ _ _ _ _ Hfin).
    rewrite Hfuel, (bind_ret_run _ _ _ _ _ Hcons).
    change (attr (Some a)) with (deref a). rewrite (bind_ret_run _ _ _ _ _ Hsnd2).
    unfold store. rewrite Hls, Hlf. case_decide; [|lia].
    by rewrite bind_run, ret_run, bind_run, ret_run.
  - split; [done|]. split; [done|]. split; [done|]. split; [done|]. by rewrite length_insert.
Qed.

Lemma decode_loop_run (full : list nat) (root k : nat) :
  fuel = S k → (length full ≤ fuel)%nat →
  (∀ i, i ∈ full → (i < length dur)%nat ∧ is_Some (predecessors !! i) ∧
                   is_Some (demands !! i)) →
  (∀ j i ps p, full !! j = Some i → predecessors !! i = Some ps → p ∈ ps →
     ∃ j', (j' < j)%nat ∧ full !! j' = Some p) →
  ∀ alist done l h starts finish_nodes,
    full = done ++ alist →
    chained l (links h) (vecs h) → root ∈ l → (length l ≤ S (length done))%nat →
    length starts = length dur → length finish_nodes = length dur →
    (∀ p, p ∈ done → ∃ a, finish_nodes !! p = Some (Some a) ∧ a ∈ l) →
    ∃ h' starts' finish_nodes',
      decode_loop fuel duration predecessors demands root alist (starts, finish_nodes) h
        = (Ret (starts', finish_nodes'), h') ∧
      length starts' = length dur.
Proof.
  intros Hfuel Hlen Hin Htopo alist.
  induction alist as [|i alist IH]; intros done l h starts fn Hfull Hch Hroot Hl Hls Hlf Hfn.
  { by exists h, starts, fn. }
  destruct (Hin i) as (Hi & [ps Hps] & Hd); [rewrite Hfull; set_solver|].
  assert (full !! length done = Some i) as Hpos.
  { rewrite Hfull. by apply list_lookup_middle. }
  destruct (schedule_run l h root i starts fn ps k Hfuel Hch Hroot Hps)
    as (l' & h1 & starts1 & f & Hstep & Hch1 & Hsub & Hf & Hl' & Hls1); try done.
  { intros p Hp. destruct (Htopo _ i ps p Hpos Hps Hp) as (j' & Hj' & Hp').
    apply Hfn. rewrite Hfull, lookup_app_l in Hp' by done.
    by eapply list_elem_of_lookup_2. }
  { rewrite Hfull, length_app in Hlen. simpl in Hlen. lia. }
  destruct (IH (done ++ [i]) l' h1 starts1 (<[i:=Some f]> fn))
    as (h' & starts' & fn' & Hloop & Hls'); try done.
  { by rewrite Hfull, <- app_assoc. }
  { by apply Hsub. }
  { rewrite length_app. simpl. lia. }
  { lia. }
  { by rewrite length_insert. }
  { intros p Hp. destruct (decide (p = i)) as [->|Hne].
    - exists f. split; [|done]. apply list_lookup_insert_eq. lia.
    - apply elem_of_app in Hp as [Hp|Hp]; [|by apply list_elem_of_singleton in Hp].
      destruct (Hfn p Hp) as (a & Ha & Hal). exists a.
      rewrite list_lookup_insert_ne by done. split; [done|]. by apply Hsub. }
  exists h', starts', fn'. split; [|done].
  cbn [decode_loop]. by rewrite (bind_ret_run _ _ _ _ _ Hstep).
Qed.

Lemma decode_init_run (capacity : nat) :
  vecs h0 !! capacity = Some cap → (0 < length dur)%nat →
  ∃ h1 starts finish_nodes,
    decode_init duration capacity h0
      = (Ret (length (links h0), (starts, finish_nodes)), h1) ∧
    chained [length (links h0)] (links h1) (vecs h1) ∧
    length starts = length dur ∧ length finish_nodes = length dur.
Proof.
  intros Hcap Hpos.
  destruct (copy_run h0 capacity cap Hcap) as (h1 & Hcopy & HL1 & HV1).
  destruct (init_run h1 0 (length (vecs h0))) as (h2 & Hinit & HL2 & HV2).
  rewrite HL1 in Hinit.
  assert (vecs h2 !! duration = Some dur) as Hdur2.
  { rewrite HV2, HV1. by apply lookup_app_l_Some. }
  exists h2, (replicate (length dur) 0),
    (<[0%nat:=Some (length (links h0))]> (replicate (length dur) None)).
  split.
  { unfold decode_init.
    rewrite (bind_ret_run _ _ _ _ _ Hcopy), (bind_ret_run _ _ _ _ _ Hinit).
    rewrite (bind_ret_run _ _ _ _ _ (vec_run h2 duration dur Hdur2)).
    unfold store. rewrite length_replicate. case_decide; [|lia].
    by rewrite bind_run, ret_run, ret_run. }
  split; [|by rewrite length_insert, !length_replicate].
  rewrite HL2, HL1, HV2, HV1.
  assert ((links h0 ++ [(0, length (vecs h0), None)]) !! length (links h0)
          = Some (0, length (vecs h0), None)) as Hroot by (by apply list_lookup_middle).
  assert ((vecs h0 ++ [cap]) !! length (vecs h0) = Some cap) as Hvec
    by (by apply list_lookup_middle).
  split; [apply NoDup_singleton|]. split; [simpl; eauto|]. split.
  { intros a Ha. apply list_elem_of_singleton in Ha as ->.
    by exists 0, (length (vecs h0)), None, cap. }
  split.
  { intros a a' t t' c n n' Ha Ha' _ _. apply list_elem_of_singleton in Ha as ->.
    by apply list_elem_of_singleton in Ha' as ->. }
  split; [by exists (length (links h0)), 0, (length (vecs h0))|].
  intros r Hr. by apply lookup_app_l.
Qed.

End returns.

(** C4.  On a non-empty network, with an activity order that holds every
    activity once and after its predecessors, and with demands that are
    item by item at most the capacity, [decode] returns its vector of start
    times as soon as its loops are given one more turn than there are
    activities; so the search for capacity cannot run on unless some demand
    exceeds the capacity. *)
Theorem decode_returns (h0 : heap) (alist : list nat) (duration : nat)
    (predecessors : list (list nat)) (demands : list nat) (capacity : nat)
    (dur cap : list Z) :
  decodable h0 alist duration predecessors demands capacity dur cap →
  ∃ fuel0, ∀ fuel, (fuel0 ≤ fuel)%nat →
    ∃ starts h,
      decode fuel alist duration predecessors demands capacity h0 = (Ret starts, h) ∧
      length starts = length dur.
Proof.
  intros (Hdur & Hcap & Hpos & Hlp & Hld & [Hperm Htopo] & Hdem).
  exists (S (length alist)). intros fuel Hfuel.
  destruct fuel as [|k]; [lia|].
  destruct (decode_init_run h0 duration dur cap Hdur capacity Hcap Hpos)
    as (h1 & starts0 & fn0 & Hinit & Hch & Hls & Hlf).
  destruct (decode_loop_run h0 (S k) duration predecessors demands dur cap Hdur Hdem
              alist (length (links h0)) k eq_refl) with
      (alist := alist) (done := @nil nat) (l := [length (links h0)]) (h := h1)
      (starts := starts0) (finish_nodes := fn0)
    as (h' & starts' & fn' & Hloop & Hls'); try done.
  { lia. }
  { intros i Hi. rewrite Hperm in Hi. apply elem_of_seq in Hi as [_ Hi]. simpl in Hi.
    split; [lia|]. split; apply lookup_lt_is_Some; lia. }
  { by apply list_elem_of_singleton. }
  { intros p Hp. by apply elem_of_nil in Hp. }
  exists starts', h'. split; [|done].
  unfold decode, decode_run.
  rewrite bind_run, (bind_ret_run _ _ _ _ _ Hinit), (bind_ret_run _ _ _ _ _ Hloop).
  done.
Qed.

(** ** The three projects, run *)

(** Facts about a network written out as a list reduce to its cases. *)
Ltac network_cases :=
  unfold Examples.chain_predecessors, Examples.chain_durations,
    Examples.pair_predecessors, Examples.pair_durations,
    Examples.tight_predecessors, Examples.wide_predecessors,
    Examples.demand_refs, Examples.chain_demand_refs, Examples.order,
    Examples.chain_order in *;
  repeat match goal with
  | H : (_ :: _) !! ?i = Some _ |- _ =>
    first [is_var i; destruct i; simpl in H | progress simpl in H]
  | H : [] !! _ = Some _ |- _ => by rewrite lookup_nil in H
  | H : Some _ = Some _ |- _ => first [discriminate H | injection H as <-]
  | H : _ ∈ _ :: _ |- _ => apply elem_of_cons in H as [->|H]
  | H : _ ∈ [] |- _ => by apply elem_of_nil in H
  end.

Lemma chain_network_well_formed :
  well_formed_network Examples.chain_durations Examples.chain_predecessors.
Proof.
  split; [simpl; lia|]. split; [done|]. split.
  { intros i ps p Hi Hp. network_cases; simpl; lia. }
  split.
  { exists id. intros i ps p Hi Hp. network_cases; simpl; lia. }
  split.
  { intros i ps Hi Hne. by network_cases. }
  split.
  { intros i Hi. simpl in Hi. exists (S i), [i].
    do 3 (destruct i as [|i]; [split; [done|by left]|]). lia. }
  intros i d Hd. network_cases; lia.
Qed.

Lemma earliest_start_recurrence_witness :
  ∃ fuel0, ∀ fuel, (fuel0 ≤ fuel)%nat →
    ∃ est lst,
      CriticalPath.calculate_critical_times fuel Examples.chain_durations
        Examples.chain_predecessors None = Ret (est, lst) ∧
      length est = length Examples.chain_durations ∧
      earliest_start_recurrence Examples.chain_durations Examples.chain_predecessors est.
Proof.
  destruct chain_network_well_formed as (Hpos & Hlen & Hrange & Hacyc & _ & Hsink & _).
  apply (earliest_start_recurrence_holds Examples.chain_durations
           Examples.chain_predecessors None Hpos Hlen Hrange Hacyc Hsink).
  by left.
Defined.

Lemma critical_times_ordered_witness :
  ∃ fuel0, ∀ fuel, (fuel0 ≤ fuel)%nat →
    ∃ est lst,
      CriticalPath.calculate_critical_times fuel Examples.chain_durations
        Examples.chain_predecessors None = Ret (est, lst) ∧
      length est = length Examples.chain_durations ∧
      critical_times_bounded Examples.chain_durations est lst ∧
      (Examples.chain_durations !! (length Examples.chain_durations - 1)%nat = Some 0 →
       critical_times_ordered est lst).
Proof.
  apply (critical_times_ordered_by_sink Examples.chain_durations
           Examples.chain_predecessors None chain_network_well_formed).
  by left.
Defined.

(** C7 as it is stated fails on a sink of positive duration: in the network
    of two activities with durations 0 and 5 the source gets [est = 0] and
    [lst = -5]. *)
Lemma critical_times_unordered :
  well_formed_network Examples.pair_durations Examples.pair_predecessors ∧
  CriticalPath.calculate_critical_times 2 Examples.pair_durations
    Examples.pair_predecessors None = Ret ([0; 0], [-5; 0]) ∧
  ¬ critical_times_ordered [0; 0] [-5; 0].
Proof.
  split.
  { split; [simpl; lia|]. split; [done|]. split.
    { intros i ps p Hi Hp. network_cases; simpl; lia. }
    split.
    { exists id. intros i ps p Hi Hp. network_cases; simpl; lia. }
    split.
    { intros i ps Hi Hne. by network_cases. }
    split.
    { intros i Hi. simpl in Hi. exists 1%nat, [0%nat].
      destruct i as [|i]; [split; [done|by left]|lia]. }
    intros i d Hd. network_cases; lia. }
  split; [reflexivity|].
  intros (_ & H & _). destruct (H 0%nat 0 (-5)); [done..|lia].
Qed.

Lemma sampler_orders_witness :
  ∃ fuel0, ∀ fuel (r : unit), (fuel0 ≤ fuel)%nat →
    (∃ order r',
       Sampler.random (Sampler.init Examples.tight_predecessors) fuel
         (fun _ r => (0%nat, r)) r = (Ret order, r') ∧
       topological_order Examples.tight_predecessors order) ∧
    (∃ order r',
       Sampler.min_rule (Sampler.init Examples.tight_predecessors) fuel
         (fun i => - Z.of_nat i) r = (Ret order, r') ∧
       topological_order Examples.tight_predecessors order).
Proof.
  apply (sampler_orders_topological Examples.tight_predecessors
           (fun _ (r : unit) => (0%nat, r)) (fun i => - Z.of_nat i)).
  - intros i ps p Hi Hp. network_cases; simpl; lia.
  - exists id. intros i ps p Hi Hp. network_cases; simpl; lia.
  - intros m r Hm. simpl. lia.
Defined.

Lemma min_rule_selection_witness :
  ∃ order,
    (∀ (fuel : nat) (r' : unit), (length Examples.tight_predecessors ≤ fuel)%nat →
       Sampler.min_rule (Sampler.init Examples.tight_predecessors) fuel
         (fun i => - Z.of_nat i) r' = (Ret order, r')) ∧
    (∀ k, (k < length order)%nat →
       ∃ st i l1 l2 new rem',
         Sampler.gen_iter (Sampler.init Examples.tight_predecessors) k
           (Sampler.min_pick (fun i => - Z.of_nat i))
           (Sampler.gen_init (Sampler.init Examples.tight_predecessors)) tt
           = (Ret st, tt) ∧
         Sampler.res st = take k order ∧
         order !! k = Some i ∧
         Sampler.ready st = l1 ++ i :: l2 ∧
         (∀ z, z ∈ l1 → - Z.of_nat i < - Z.of_nat z) ∧
         (∀ z, z ∈ l2 → - Z.of_nat i <= - Z.of_nat z) ∧
         Sampler.gen_step (Sampler.init Examples.tight_predecessors)
           (Sampler.min_pick (fun i => - Z.of_nat i)) st tt =
           (Ret {| Sampler.res := Sampler.res st ++ [i]; Sampler.rem := rem';
                   Sampler.ready := l1 ++ l2 ++ new |}, tt) ∧
         (∀ s, s ∈ new → s ∉ Sampler.ready st)) ∧
    (∃ st,
       Sampler.gen_iter (Sampler.init Examples.tight_predecessors) (length order)
         (Sampler.min_pick (fun i => - Z.of_nat i))
         (Sampler.gen_init (Sampler.init Examples.tight_predecessors)) tt
         = (Ret st, tt) ∧
       Sampler.res st = order ∧ Sampler.ready st = []).
Proof.
  exact (min_rule_selection Examples.tight_predecessors (fun i => - Z.of_nat i) tt).
Defined.

Ltac earlier_position :=
  first [ by exists 0%nat; split; [lia|]
        | by exists 1%nat; split; [lia|]
        | by exists 2%nat; split; [lia|]
        | by exists 3%nat; split; [lia|] ].

Ltac demand_covered :=
  eexists; split; [reflexivity|]; repeat constructor; lia.

Lemma chain_decodable :
  decodable Examples.chain_heap Examples.chain_order 0 Examples.chain_predecessors
    Examples.chain_demand_refs 1 Examples.chain_durations [1].
Proof.
  split; [done|]. split; [done|]. split; [simpl; lia|]. split; [done|]. split; [done|].
  split; [split; [done|]|].
  - intros k i ps p Hk Hi Hp. network_cases; earlier_position.
  - intros i d Hd. network_cases; demand_covered.
Qed.

Lemma tight_decodable :
  decodable Examples.tight_heap Examples.order 0 Examples.tight_predecessors
    Examples.demand_refs 1 Examples.durations [1].
Proof.
  split; [done|]. split; [done|]. split; [simpl; lia|]. split; [done|]. split; [done|].
  split; [split; [done|]|].
  - intros k i ps p Hk Hi Hp. network_cases; earlier_position.
  - intros i d Hd. network_cases; demand_covered.
Qed.

Lemma wide_decodable :
  decodable Examples.wide_heap Examples.order 0 Examples.wide_predecessors
    Examples.demand_refs 1 Examples.durations [2].
Proof.
  split; [done|]. split; [done|]. split; [simpl; lia|]. split; [done|]. split; [done|].
  split; [split; [done|]|].
  - intros k i ps p Hk Hi Hp. network_cases; earlier_position.
  - intros i d Hd. network_cases; demand_covered.
Qed.

Lemma decode_returns_witness :
  ∃ fuel0, ∀ fuel, (fuel0 ≤ fuel)%nat →
    ∃ starts h,
      Decoder.decode fuel Examples.chain_order 0 Examples.chain_predecessors
        Examples.chain_demand_refs 1 Examples.chain_heap = (Ret starts, h) ∧
      length starts = length Examples.chain_durations.
Proof.
  exact (decode_returns Examples.chain_heap Examples.chain_order 0
           Examples.chain_predecessors Examples.chain_demand_refs 1
           Examples.chain_durations [1] chain_decodable).
Defined.

Lemma finish_node_time_witness :
  finish_times_recorded Examples.chain_durations Examples.chain_order
    Examples.chain_decoded.2 [0; 0; 2; 5] [Some 1; Some 2; Some 3; Some 4]%nat.
Proof.
  apply (finish_node_time 5 Examples.chain_order 0 Examples.chain_predecessors
           Examples.chain_demand_refs 1 Examples.chain_heap Examples.chain_decoded.2
           Examples.chain_durations [0; 0; 2; 5] 0
           [Some 1; Some 2; Some 3; Some 4]%nat).
  - reflexivity.
  - vm_compute. reflexivity.
Defined.

(** C1 does not hold of the code.  On the tight project, whose order is
    topological and whose demands are within the capacity 1, [decode] starts
    activity 2 at time 1 for 5 time units and activity 3 at time 3: at time
    3 both draw on the one unit of the resource. *)
Theorem decode_overbooks :
  decodable Examples.tight_heap Examples.order 0 Examples.tight_predecessors
    Examples.demand_refs 1 Examples.durations [1] ∧
  (Decoder.decode 6 Examples.order 0 Examples.tight_predecessors Examples.demand_refs 1
     Examples.tight_heap).1 = Ret [0; 1; 1; 3; 6] ∧
  usage [0; 1; 1; 3; 6] Examples.durations Examples.tight_demand 3 0 = 2 ∧
  ¬ resource_feasible [0; 1; 1; 3; 6] Examples.durations Examples.tight_demand [1].
Proof.
  split; [apply tight_decodable|]. split; [by vm_compute|]. split; [by vm_compute|].
  intros H. specialize (H 3 0%nat 1 eq_refl).
  assert (usage [0; 1; 1; 3; 6] Examples.durations Examples.tight_demand 3 0 = 2) as Hu
    by (by vm_compute).
  rewrite Hu in H. lia.
Qed.

(** C2 does not hold of the code.  On the wide project, whose order is
    topological and whose demands are within the capacity 2, activity 2
    starts at time 1 and lasts 5, and its successor 3 is started at time 3. *)
Theorem decode_breaks_precedence :
  decodable Examples.wide_heap Examples.order 0 Examples.wide_predecessors
    Examples.demand_refs 1 Examples.durations [2] ∧
  (Decoder.decode 6 Examples.order 0 Examples.wide_predecessors Examples.demand_refs 1
     Examples.wide_heap).1 = Ret [0; 1; 1; 3; 4] ∧
  ¬ respects_precedence [0; 1; 1; 3; 4] Examples.durations Examples.wide_predecessors.
Proof.
  split; [apply wide_decodable|]. split; [by vm_compute|].
  intros H.
  assert (1 + 5 <= 3); [|lia].
  apply (H 3%nat [2%nat] 2%nat 3 1 5); try reflexivity. by left.
Qed.

(** C3 does not hold of the code.  On the wide project the breakpoint of
    time 6 is inserted right behind the breakpoint of time 1, before the
    breakpoint of time 3: after the first three activities the times along
    the list are 0, 1, 6, 3, and at the end 0, 1, 6, 3, 4, 5. *)
Theorem decode_profile_out_of_order :
  decodable Examples.wide_heap Examples.order 0 Examples.wide_predecessors
    Examples.demand_refs 1 Examples.durations [2] ∧
  match Decoder.decode_run 6 0 Examples.wide_predecessors Examples.demand_refs
          [0; 1; 2]%nat 1 Examples.wide_heap with
  | (Ret (root, _), h) => profile_times 10 h root = [0; 1; 6; 3]
  | _ => False
  end ∧
  match Decoder.decode_run 6 0 Examples.wide_predecessors Examples.demand_refs
          Examples.order 1 Examples.wide_heap with
  | (Ret (root, _), h) => profile_times 10 h root = [0; 1; 6; 3; 4; 5]
  | _ => False
  end ∧
  ¬ strictly_increasing [0; 1; 6; 3] ∧ ¬ strictly_increasing [0; 1; 6; 3; 4; 5].
Proof.
  split; [apply wide_decodable|]. split; [by vm_compute|]. split; [by vm_compute|].
  split; intros H; specialize (H 2%nat 6 3 eq_refl eq_refl); lia.
Qed.

(** ** The precedence index, read both ways *)

Lemma ascending_nil : ascending [].
Proof. intros j k x y _ H. by rewrite lookup_nil in H. Qed.

Lemma ascending_cons (a : nat) (l : list nat) :
  ascending (a :: l) ↔ (∀ x, x ∈ l → (a < x)%nat) ∧ ascending l.
Proof.
  split.
  - intros H. split.
    + intros x Hx. apply list_elem_of_lookup in Hx as [k Hk].
      by apply (H 0%nat (S k) a x); [lia| |].
    + intros j k x y Hjk Hj Hk. by apply (H (S j) (S k) x y); [lia| |].
  - intros [Ha Hl] j k x y Hjk Hj Hk.
    destruct k as [|k]; [lia|]. simpl in Hk.
    destruct j as [|j]; simpl in Hj.
    + injection Hj as <-. apply Ha. by eapply list_elem_of_lookup_2.
    + apply (Hl j k x y); [lia|done..].
Qed.

Lemma ascending_filter_seq (P : nat → Prop) `{∀ x, Decision (P x)} (m len : nat) :
  ascending (filter P (seq m len)).
Proof.
  revert m. induction len as [|len IH]; intros m; simpl; [apply ascending_nil|].
  rewrite filter_cons. destruct (decide (P m)); [|apply IH].
  apply ascending_cons. split; [|apply IH].
  intros x Hx. apply list_elem_of_filter in Hx as [_ Hx]. apply elem_of_seq in Hx. lia.
Qed.

Lemma filter_agree {A} (P Q : A → Prop) `{∀ x, Decision (P x)} `{∀ x, Decision (Q x)}
    (l : list A) :
  (∀ x, x ∈ l → P x ↔ Q x) → filter P l = filter Q l.
Proof.
  induction l as [|a l IH]; intros HPQ; [done|].
  rewrite !filter_cons.
  assert (filter P l = filter Q l) as -> by (apply IH; intros x Hx; apply HPQ; by right).
  destruct (decide (P a)) as [HP|HP], (decide (Q a)) as [HQ|HQ]; try done.
  - destruct HQ. apply HPQ; [by left|done].
  - destruct HP. apply HPQ; [by left|done].
Qed.

(** An ascending list of numbers of [m .. m+len-1] is what filtering that
    range by membership in the list gives. *)
Lemma ascending_filter_elem_of (l : list nat) (m len : nat) :
  ascending l → (∀ x, x ∈ l → (m ≤ x < m + len)%nat) →
  filter (fun x => x ∈ l) (seq m len) = l.
Proof.
  revert l m. induction len as [|len IH]; intros l m Hasc Hr; simpl.
  - destruct l as [|a l]; [done|]. specialize (Hr a (list_elem_of_here a l)). lia.
  - rewrite filter_cons. destruct (decide (m ∈ l)) as [Hm|Hm].
    + destruct l as [|a l]; [by apply elem_of_nil in Hm|].
      apply ascending_cons in Hasc as [Ha Hl].
      assert (a = m) as ->.
      { apply elem_of_cons in Hm as [->|Hm]; [done|].
        specialize (Ha m Hm). specialize (Hr a (list_elem_of_here a l)). lia. }
      f_equal. transitivity (filter (fun x => x ∈ l) (seq (S m) len)).
      * apply filter_agree. intros x Hx. apply elem_of_seq in Hx.
        rewrite elem_of_cons. split; [|by right]. intros [->|?]; [lia|done].
      * apply IH; [done|]. intros x Hx. specialize (Ha x Hx).
        specialize (Hr x (list_elem_of_further x m l Hx)). lia.
    + apply IH; [done|]. intros x Hx. specialize (Hr x Hx).
      assert (x ≠ m) by (by intros ->). lia.
Qed.

Lemma successors_ascending (predecessors : list (list nat)) (i : nat) (ss : list nat) :
  successors_by_predecessors predecessors !! i = Some ss → ascending ss.
Proof.
  intros Hss.
  assert (i < length predecessors)%nat as Hi.
  { apply lookup_lt_Some in Hss. by rewrite successors_length in Hss. }
  rewrite successors_lookup in Hss by done. injection Hss as <-.
  apply ascending_filter_seq.
Qed.

(** X1.  [successors_by_predecessors] mirrors the predecessor lists: its
    result has one entry for each activity below [len(predecessors)] and no
    other; the entry of [i] is in ascending order and holds exactly the
    activities whose predecessor list contains [i]. *)
Theorem successors_mirror_predecessors (predecessors : list (list nat)) :
  length (successors_by_predecessors predecessors) = length predecessors ∧
  ∀ i, (i < length predecessors)%nat →
    ∃ ss, successors_by_predecessors predecessors !! i = Some ss ∧
          ascending ss ∧
          ∀ j, j ∈ ss ↔ ∃ ps, predecessors !! j = Some ps ∧ i ∈ ps.
Proof.
  split; [apply successors_length|].
  intros i Hi.
  destruct (lookup_lt_is_Some_2 (successors_by_predecessors predecessors) i) as [ss Hss].
  { by rewrite successors_length. }
  exists ss. split; [done|]. split; [by eapply successors_ascending|].
  intros j. by apply elem_of_successors.
Qed.

Lemma twice_lookup (predecessors : list (list nat)) (i : nat) (ps : list nat) :
  in_range predecessors → predecessors !! i = Some ps →
  successors_by_predecessors (successors_by_predecessors predecessors) !! i =
  Some (filter (fun j => j ∈ ps) (seq 0 (length predecessors))).
Proof.
  intros Hrange Hps.
  assert (i < length predecessors)%nat as Hi by (by eapply lookup_lt_Some).
  rewrite successors_lookup by (by rewrite successors_length).
  rewrite successors_length. f_equal.
  apply filter_agree. intros j Hj. apply elem_of_seq in Hj as [_ Hj]. simpl in Hj.
  destruct (lookup_lt_is_Some_2 (successors_by_predecessors predecessors) j) as [ss Hss];
    [by rewrite successors_length|].
  rewrite Hss. simpl. rewrite (elem_of_successors _ _ _ _ Hss).
  split.
  - intros (ps' & Hps' & Hin). by simplify_eq.
  - intros Hin. by exists ps.
Qed.

(** X2.  Taking [successors_by_predecessors] twice gives the predecessor
    lists back: on a network whose predecessors are all activities the result
    has, at each activity, the members of its predecessor list in ascending
    order without repetition, and it is the very input when every predecessor
    list is ascending. *)
Theorem successors_twice (predecessors : list (list nat)) :
  in_range predecessors →
  (∀ i ps, predecessors !! i = Some ps →
     ∃ qs, successors_by_predecessors (successors_by_predecessors predecessors) !! i
             = Some qs ∧
           ascending qs ∧ ∀ p, p ∈ qs ↔ p ∈ ps) ∧
  ((∀ i ps, predecessors !! i = Some ps → ascending ps) →
   successors_by_predecessors (successors_by_predecessors predecessors) = predecessors).
Proof.
  intros Hrange. split.
  - intros i ps Hps. eexists. split; [by apply twice_lookup|].
    split; [apply ascending_filter_seq|].
    intros p. rewrite list_elem_of_filter, elem_of_seq. split; [by intros [? _]|].
    intros Hp. split; [done|]. split; [lia|]. simpl. by eapply Hrange.
  - intros Hasc. apply list_eq. intros i.
    destruct (predecessors !! i) as [ps|] eqn:Hps.
    + rewrite (twice_lookup _ _ _ Hrange Hps). f_equal.
      apply ascending_filter_elem_of; [by eapply Hasc|].
      intros x Hx. split; [lia|]. simpl. by eapply Hrange.
    + apply lookup_ge_None. rewrite !successors_length. by apply lookup_ge_None.
Qed.

(** ** More on the critical path calculator *)

Section critical_path_more.
Context (duration : list Z) (predecessors : list (list nat)) (rank : nat → nat).
Hypothesis Hrank : ∀ i ps p, predecessors !! i = Some ps → p ∈ ps → (rank p < rank i)%nat.
Hypothesis Hrange : in_range predecessors.
Hypothesis Hlen : length predecessors = length duration.
Hypothesis Hpos : (0 < length duration)%nat.
Hypothesis Hsink : single_sink predecessors.

Local Abbreviation successors := (successors_by_predecessors predecessors).
Local Abbreviation bound := (rank (length predecessors - 1)).
Local Abbreviation dur := (CriticalValues.dur duration).
Local Abbreviation ESv := (CriticalValues.ESv duration predecessors rank).
Local Abbreviation LFv :=
  (CriticalValues.LFv duration successors rank bound (ESv (length duration - 1))).

Lemma LFv_min_over (i s : nat) (ss : list nat) (lst : list Z) :
  Z.of_nat i ≠ Z.of_nat (length duration) - 1 →
  successors !! i = Some (s :: ss) →
  (∀ j, (j < length duration)%nat → lst !! j = Some (LFv j)) →
  min_over (minus_duration duration lst) (s :: ss) (LFv i).
Proof.
  intros Hi Hss Hlst.
  assert (∀ q, q ∈ s :: ss → minus_duration duration lst q = Some (LFv q - dur q)) as Hminus.
  { intros q Hq.
    destruct (successor_rank duration predecessors rank Hrank Hlen Hpos Hsink i q _ Hss Hq)
      as (Hlt & _).
    unfold minus_duration. rewrite Hlst by lia. simpl.
    destruct (lookup_lt_is_Some_2 duration q) as [d Hd]; [lia|].
    unfold CriticalValues.dur. by rewrite Hd. }
  rewrite (LFv_unfold duration predecessors rank Hrank Hlen Hpos Hsink _ i s ss Hi Hss).
  split.
  - destruct (fold_min_attained ((fun q => LFv q - dur q) <$> ss) (LFv s - dur s))
      as [->|Hin].
    + exists s. split; [by left|]. apply Hminus. by left.
    + apply list_elem_of_fmap in Hin as (q & -> & Hq).
      exists q. split; [by right|]. apply Hminus. by right.
  - intros q Hq. exists (LFv q - dur q). split; [by apply Hminus|].
    apply elem_of_cons in Hq as [->|Hq]; [apply fold_min_le_init|].
    apply fold_min_le_elem. by apply (list_elem_of_fmap_2 (fun q => LFv q - dur q)).
Qed.

Lemma latest_finish_recurrence_run (sarg : option (list (list nat))) (fuel : nat) :
  single_source predecessors →
  consistent_successors predecessors sarg → (bound < fuel)%nat →
  ∃ est lst,
    calculate_critical_times fuel duration predecessors sarg = Ret (est, lst) ∧
    length lst = length duration ∧
    latest_finish_recurrence duration predecessors est lst.
Proof.
  intros Hsource Hsarg Hfuel.
  destruct (calculate_critical_times_run duration predecessors rank Hrank Hrange Hlen Hpos
              Hsink sarg fuel Hsarg Hfuel)
    as (est & lst & Hrun & Hel & Hll & Hest & Hlst).
  assert (∀ j, (j < length duration)%nat → lst !! j = Some (LFv j)) as Hlst'.
  { intros j Hj. apply Hlst.
    apply (all_reached_from_source duration predecessors rank Hrank Hrange Hlen Hpos);
      [done|lia]. }
  exists est, lst. split; [done|]. split; [done|].
  intros i ss Hss.
  assert (i < length duration)%nat as Hi.
  { apply lookup_lt_Some in Hss. rewrite successors_length in Hss. lia. }
  case_decide as Hlast.
  - exists (ESv i). split; [by apply Hest|]. rewrite Hlst' by done. f_equal.
    rewrite Hlast at 2. apply LFv_sink. lia.
  - destruct ss as [|s ss].
    + rewrite Hlst' by done. f_equal. apply LFv_leaf; [lia|done].
    + exists (LFv i). split; [by apply Hlst'|]. apply LFv_min_over; [lia|done..].
Qed.

Lemma ESv_ancestor (j i : nat) :
  nonnegative duration → reaches predecessors j i → j ≠ i → ESv j + dur j <= ESv i.
Proof.
  intros Hnn Hreach. induction Hreach as [i|j p i ps Hps Hp Hreach IH]; [done|].
  intros Hne.
  pose proof (ESv_ge_predecessor duration predecessors rank Hrank Hlen Hpos i p ps Hps Hp) as Hge.
  destruct (decide (j = p)) as [->|Hjp]; [done|].
  specialize (IH Hjp).
  assert (0 <= dur p); [|lia].
  unfold CriticalValues.dur. destruct (duration !! p) as [d|] eqn:Hd; simpl; [|lia].
  by eapply Hnn.
Qed.

Lemma finishes_by_sink_run (sarg : option (list (list nat))) (fuel : nat) :
  nonnegative duration →
  consistent_successors predecessors sarg → (bound < fuel)%nat →
  ∃ est lst,
    calculate_critical_times fuel duration predecessors sarg = Ret (est, lst) ∧
    length est = length duration ∧
    finishes_by_sink duration est.
Proof.
  intros Hnn Hsarg Hfuel.
  destruct (calculate_critical_times_run duration predecessors rank Hrank Hrange Hlen Hpos
              Hsink sarg fuel Hsarg Hfuel)
    as (est & lst & Hrun & Hel & Hll & Hest & Hlst).
  exists est, lst. split; [done|]. split; [done|].
  intros i e d s Hne He Hd Hs.
  pose proof (lookup_lt_Some _ _ _ He) as Hi.
  rewrite Hest in He, Hs by lia. injection He as <-. injection Hs as <-.
  pose proof (ESv_ancestor i (length duration - 1) Hnn) as H.
  unfold CriticalValues.dur in H. rewrite Hd in H. simpl in H. apply H; [|done].
  rewrite <- Hlen.
  apply (all_reach_sink duration predecessors rank Hrank Hlen Hpos Hsink). lia.
Qed.

End critical_path_more.

(** X3.  The second vector [calculate_critical_times] returns on an acyclic
    network with one source 0 and one sink [n-1] follows the backward
    recurrence of [calc_lf]: at the sink it is the sink's earliest time,
    elsewhere the least, over the successors [s], of [lst[s] - duration[s]]. *)
Theorem latest_finish_recurrence_holds
    (duration : list Z) (predecessors : list (list nat))
    (successors : option (list (list nat))) :
  (0 < length duration)%nat →
  length predecessors = length duration →
  in_range predecessors →
  acyclic predecessors →
  single_source predecessors →
  single_sink predecessors →
  consistent_successors predecessors successors →
  ∃ fuel0, ∀ fuel, (fuel0 ≤ fuel)%nat →
    ∃ est lst,
      calculate_critical_times fuel duration predecessors successors = Ret (est, lst) ∧
      length lst = length duration ∧
      latest_finish_recurrence duration predecessors est lst.
Proof.
  intros Hpos Hlen Hrange [rank Hrank] Hsource Hsink Hsucc.
  exists (S (rank (length predecessors - 1)%nat)). intros fuel Hfuel.
  eapply latest_finish_recurrence_run; eauto.
Qed.

(** X4.  With non-negative durations, the earliest time
    [calculate_critical_times] gives the last activity of an acyclic network
    whose only sink it is bounds every other activity's earliest time plus its
    duration. *)
Theorem sink_start_bounds_finishes
    (duration : list Z) (predecessors : list (list nat))
    (successors : option (list (list nat))) :
  (0 < length duration)%nat →
  length predecessors = length duration →
  in_range predecessors →
  acyclic predecessors →
  single_sink predecessors →
  nonnegative duration →
  consistent_successors predecessors successors →
  ∃ fuel0, ∀ fuel, (fuel0 ≤ fuel)%nat →
    ∃ est lst,
      calculate_critical_times fuel duration predecessors successors = Ret (est, lst) ∧
      length est = length duration ∧
      finishes_by_sink duration est.
Proof.
  intros Hpos Hlen Hrange [rank Hrank] Hsink Hnn Hsucc.
  exists (S (rank (length predecessors - 1)%nat)). intros fuel Hfuel.
  eapply finishes_by_sink_run; eauto.
Qed.

(** ** The recursion on a network with a cycle *)

(** A generator whose calls either return or run out of fuel, keeping [I]. *)
Lemma gen_list_outcomes {S A B} (f : A → M S B) (I : S → Prop) (l : list A) (s : S) :
  (∀ x s, x ∈ l → I s →
     (∃ y s', f x s = (Ret y, s') ∧ I s') ∨ (∃ s', f x s = (Timeout, s') ∧ I s')) →
  I s →
  (∃ ys s', gen_list f l s = (Ret ys, s') ∧ I s' ∧ length ys = length l) ∨
  (∃ s', gen_list f l s = (Timeout, s') ∧ I s').
Proof.
  revert s. induction l as [|x l IH]; intros s Hf Hs.
  { left. by exists [], s. }
  cbn [gen_list]. rewrite bind_run.
  destruct (Hf x s) as [(y & s1 & -> & Hs1)|(s1 & -> & Hs1)]; [by left|done| |right; by exists s1].
  rewrite bind_run.
  destruct (IH s1) as [(ys & s2 & -> & Hs2 & Hlen)|(s2 & -> & Hs2)]; [|done| |right; by exists s2].
  { intros z s' Hz. apply Hf. by right. }
  left. exists (y :: ys), s2. rewrite ret_run. split; [done|]. split; [done|]. simpl. lia.
Qed.

Lemma gen_list_timeout {S A B} (f : A → M S B) (I : S → Prop) (l : list A) (s : S) (p : A) :
  (∀ x s, x ∈ l → I s →
     (∃ y s', f x s = (Ret y, s') ∧ I s') ∨ (∃ s', f x s = (Timeout, s') ∧ I s')) →
  p ∈ l → (∀ s, I s → ∃ s', f p s = (Timeout, s')) →
  I s → ∃ s', gen_list f l s = (Timeout, s').
Proof.
  revert s. induction l as [|x l IH]; intros s Hf Hp Hbad Hs; [by apply elem_of_nil in Hp|].
  cbn [gen_list]. rewrite bind_run.
  apply elem_of_cons in Hp as [->|Hp].
  { destruct (Hbad s Hs) as [s' ->]. by exists s'. }
  destruct (Hf x s) as [(y & s1 & -> & Hs1)|(s1 & -> & Hs1)]; [by left|done| |by exists s1].
  rewrite bind_run.
  destruct (IH s1) as [s2 ->]; [|done..|by exists s2].
  intros z s' Hz. apply Hf. by right.
Qed.

Section cycle.
Context (duration : list Z) (predecessors : list (list nat)).
Hypothesis Hrange : in_range predecessors.
Hypothesis Hlen : length predecessors = length duration.

Local Abbreviation sized := (fun est : list Z => length est = length duration).

(** On a network whose predecessors are all activities, [calc_es] raises
    nothing: it returns or it runs out of fuel. *)
Lemma calc_es_outcomes (fuel i : nat) (est : list Z) :
  (i < length duration)%nat → sized est →
  (∃ v est', calc_es duration predecessors fuel i est = (Ret v, est') ∧ sized est') ∨
  (∃ est', calc_es duration predecessors fuel i est = (Timeout, est') ∧ sized est').
Proof.
  revert i est. induction fuel as [|fuel IH]; intros i est Hi Hest.
  { right. by exists est. }
  rewrite calc_es_S.
  destruct (lookup_lt_is_Some_2 predecessors i) as [ps Hps]; [lia|].
  rewrite (bind_ret_run _ _ _ _ _ (index_run predecessors i ps est Hps)).
  assert (∀ est1, sized est1 → ∃ v, current i est1 = (Ret v, est1)) as Hcur.
  { intros est1 H1. destruct (lookup_lt_is_Some_2 est1 i) as [v Hv]; [lia|].
    exists v. by apply current_run. }
  destruct ps as [|p ps].
  { left. rewrite bind_run, ret_run. destruct (Hcur est Hest) as [v ->]. by exists v, est. }
  rewrite !bind_run.
  destruct (gen_list_outcomes
              (fun p => e ← calc_es duration predecessors fuel p;
                        d ← index duration p; mret (e + d)) sized (p :: ps) est)
    as [(vs & est1 & -> & Hest1 & Hvs)|(est1 & -> & Hest1)]; [|done| |right; by exists est1].
  { intros q s Hq Hs. pose proof (Hrange i _ q Hps Hq) as Hlt.
    rewrite bind_run.
    destruct (IH q s) as [(v & s' & -> & Hs')|(s' & -> & Hs')]; [lia|done| |right; by exists s'].
    destruct (lookup_lt_is_Some_2 duration q) as [d Hd]; [lia|].
    rewrite (bind_ret_run _ _ _ _ _ (index_run duration q d s' Hd)), ret_run.
    left. by exists (v + d), s'. }
  destruct vs as [|v vs]; [done|]. simpl.
  rewrite bind_run, ret_run, assign_run by lia.
  set (est2 := <[i:=_]> est1).
  assert (sized est2) as Hest2 by (unfold est2; by rewrite length_insert).
  destruct (Hcur est2 Hest2) as [w ->]. left. by exists w, est2.
Qed.

(** From an activity of an unfounded set, one that has a predecessor in the
    set again and again, the recursion runs out of any fuel. *)
Lemma calc_es_unfounded (C : nat → Prop) (fuel i : nat) (est : list Z) :
  unfounded predecessors C → C i → sized est →
  ∃ est', calc_es duration predecessors fuel i est = (Timeout, est').
Proof.
  intros HC. revert i est. induction fuel as [|fuel IH]; intros i est Hi Hest.
  { by exists est. }
  rewrite calc_es_S.
  destruct (HC i Hi) as (ps & p & Hps & Hp & HCp).
  rewrite (bind_ret_run _ _ _ _ _ (index_run predecessors i ps est Hps)).
  destruct ps as [|q ps]; [by apply elem_of_nil in Hp|].
  rewrite !bind_run.
  destruct (gen_list_timeout
              (fun p => e ← calc_es duration predecessors fuel p;
                        d ← index duration p; mret (e + d)) sized (q :: ps) est p)
    as [est1 ->]; [| | |done|by exists est1].
  - intros x s Hx Hs. pose proof (Hrange i _ x Hps Hx) as Hlt.
    rewrite bind_run.
    destruct (calc_es_outcomes fuel x s) as [(v & s' & -> & Hs')|(s' & -> & Hs')];
      [lia|done| |right; by exists s'].
    destruct (lookup_lt_is_Some_2 duration x) as [d Hd]; [lia|].
    rewrite (bind_ret_run _ _ _ _ _ (index_run duration x d s' Hd)), ret_run.
    left. by exists (v + d), s'.
  - done.
  - intros s Hs. rewrite bind_run. destruct (IH p s HCp Hs) as [s' ->]. by exists s'.
Qed.

End cycle.

(** X5.  On a network with a cycle that the last activity lies on or behind,
    [calculate_critical_times] returns nothing and raises no index error:
    [calc_es] recurses without end, whatever fuel the run is given (in Python,
    until the recursion limit). *)
Theorem critical_times_cycle (duration : list Z) (predecessors : list (list nat))
    (successors : option (list (list nat))) (C : nat → Prop) (fuel : nat) :
  in_range predecessors →
  length predecessors = length duration →
  (0 < length duration)%nat →
  unfounded predecessors C →
  C (length duration - 1)%nat →
  calculate_critical_times fuel duration predecessors successors = Timeout.
Proof.
  intros Hrange Hlen Hpos HC Hsink. unfold calculate_critical_times.
  pose proof (calc_es_unfounded duration predecessors Hrange Hlen C fuel
                (length duration - 1) (replicate (length duration) 0) HC Hsink) as Hrun.
  destruct (length duration) as [|last]; [lia|].
  replace (S last - 1)%nat with last in Hrun by lia.
  destruct Hrun as [est' ->]; [|done].
  by rewrite length_replicate.
Qed.

(** ** The sampler on any network *)

Lemma gen_inv_emitted (predecessors : list (list nat)) (st : gen_state) :
  gen_inv predecessors st → ready st = [] → emitted predecessors (res st).
Proof.
  intros (_ & _ & Hnd & Hmem & Htopo) Hready.
  rewrite Hready, app_nil_r in Hnd, Hmem. done.
Qed.

Lemma gen_emitted {R : Type} (predecessors : list (list nat)) (pick : list nat → M R nat)
    (fuel : nat) (r : R) :
  selects pick → (length predecessors ≤ fuel)%nat →
  ∃ order r', _gen (Sampler.init predecessors) fuel pick r = (Ret order, r') ∧
              emitted predecessors order.
Proof.
  intros Hpick Hfuel. unfold _gen.
  destruct (gen_loop_run predecessors pick fuel (gen_init (Sampler.init predecessors)) r Hpick
              (gen_init_inv predecessors))
    as (st' & r' & Hloop & Hinv & Hdone); [simpl; lia|].
  exists (res st'), r'. split; [done|]. by apply gen_inv_emitted.
Qed.

Lemma emitted_unfounded (predecessors : list (list nat)) (order : list nat) (C : nat → Prop) :
  emitted predecessors order → unfounded predecessors C → ∀ i, C i → i ∉ order.
Proof.
  intros (_ & _ & Hpos) HC i Hi Hin.
  apply list_elem_of_lookup in Hin as [k Hk].
  revert i Hi Hk. induction (lt_wf k) as [k _ IH]. intros i Hi Hk.
  destruct (HC i Hi) as (ps & p & Hps & Hp & HCp).
  destruct (Hpos k i ps p Hk Hps Hp) as (k' & Hlt & Hk').
  by apply (IH k' Hlt p).
Qed.

Lemma topological_order_ends (predecessors : list (list nat)) (order : list nat) :
  (0 < length predecessors)%nat →
  single_source predecessors → single_sink predecessors →
  topological_order predecessors order →
  head order = Some 0%nat ∧ last order = Some (length predecessors - 1)%nat.
Proof.
  intros Hn Hsource Hsink [Hperm Hpos].
  assert (length order = length predecessors) as Hlen.
  { by rewrite Hperm, length_seq. }
  assert (NoDup order) as Hnd by (rewrite Hperm; apply NoDup_seq).
  assert (∀ j, j ∈ order ↔ (j < length predecessors)%nat) as Hmem.
  { intros j. rewrite Hperm, elem_of_seq. lia. }
  split.
  - destruct (lookup_lt_is_Some_2 order 0) as [i Hi]; [lia|].
    rewrite head_lookup, Hi. f_equal.
    destruct (decide (i = 0%nat)) as [|Hne]; [done|].
    assert (i < length predecessors)%nat as Hlt by (by eapply Hmem, list_elem_of_lookup_2).
    destruct (lookup_lt_is_Some_2 predecessors i Hlt) as [ps Hps].
    pose proof (Hsource i ps Hps Hne) as Hps'.
    destruct ps as [|p ps]; [done|].
    destruct (Hpos 0%nat i (p :: ps) p Hi Hps) as (k' & Hk' & _); [by left|lia].
  - destruct (lookup_lt_is_Some_2 order (length predecessors - 1)) as [i Hi]; [lia|].
    rewrite last_lookup, Hlen.
    replace (Nat.pred (length predecessors)) with (length predecessors - 1)%nat by lia.
    rewrite Hi. f_equal.
    assert (i < length predecessors)%nat as Hlt by (by eapply Hmem, list_elem_of_lookup_2).
    destruct (decide (i = (length predecessors - 1)%nat)) as [|Hne]; [done|].
    destruct (Hsink i) as (j & ps & Hps & Hin); [lia|].
    assert (j ∈ order) as Hj by (apply Hmem; by eapply lookup_lt_Some).
    apply list_elem_of_lookup in Hj as [kj Hkj].
    destruct (Hpos kj j ps i Hkj Hps Hin) as (k' & Hlt' & Hk').
    pose proof (NoDup_lookup _ _ _ _ Hnd Hi Hk') as Heq.
    apply lookup_lt_Some in Hkj. lia.
Qed.

(** X6.  On any list of predecessor lists, cyclic or not, [random] and
    [min_rule] return: the order holds no activity twice, it holds exactly the
    activities all of whose predecessors it holds, and each one stands behind
    its predecessors. *)
Theorem sampler_returns {R : Type} (predecessors : list (list nat))
    (randbelow : nat → R → nat * R) (rule : nat → Z) (fuel : nat) (r : R) :
  (∀ m r, (0 < m)%nat → ((randbelow m r).1 < m)%nat) →
  (length predecessors ≤ fuel)%nat →
  (∃ order r', random (Sampler.init predecessors) fuel randbelow r = (Ret order, r') ∧
               emitted predecessors order) ∧
  (∃ order r', min_rule (Sampler.init predecessors) fuel rule r = (Ret order, r') ∧
               emitted predecessors order).
Proof.
  intros Hbelow Hfuel. split.
  - apply gen_emitted; [by apply choice_selects|done].
  - apply gen_emitted; [apply min_pick_selects|done].
Qed.

(** X7.  The sampler leaves out, without any error, the activities of a
    cycle and those behind one: an activity of a set each of whose members
    waits for another member is in no order [random] or [min_rule] returns. *)
Theorem sampler_omits_cycles {R : Type} (predecessors : list (list nat))
    (randbelow : nat → R → nat * R) (rule : nat → Z) (fuel : nat) (r : R)
    (C : nat → Prop) :
  (∀ m r, (0 < m)%nat → ((randbelow m r).1 < m)%nat) →
  (length predecessors ≤ fuel)%nat →
  unfounded predecessors C →
  (∃ order r', random (Sampler.init predecessors) fuel randbelow r = (Ret order, r') ∧
               ∀ i, C i → i ∉ order) ∧
  (∃ order r', min_rule (Sampler.init predecessors) fuel rule r = (Ret order, r') ∧
               ∀ i, C i → i ∉ order).
Proof.
  intros Hbelow Hfuel HC. split.
  - destruct (gen_emitted predecessors (choice randbelow) fuel r) as (order & r' & Hrun & Hem);
      [by apply choice_selects|done|].
    exists order, r'. split; [done|]. by eapply emitted_unfounded.
  - destruct (gen_emitted predecessors (min_pick rule) fuel r) as (order & r' & Hrun & Hem);
      [apply min_pick_selects|done|].
    exists order, r'. split; [done|]. by eapply emitted_unfounded.
Qed.

(** X8.  On an acyclic network with the single source 0 and the single sink
    [n-1], every order [random] or [min_rule] returns begins with 0 and ends
    with [n-1]. *)
Theorem sampler_orders_ends {R : Type} (predecessors : list (list nat))
    (randbelow : nat → R → nat * R) (rule : nat → Z) (fuel : nat) (r : R) :
  (0 < length predecessors)%nat →
  in_range predecessors →
  acyclic predecessors →
  single_source predecessors →
  single_sink predecessors →
  (∀ m r, (0 < m)%nat → ((randbelow m r).1 < m)%nat) →
  (length predecessors ≤ fuel)%nat →
  (∃ order r', random (Sampler.init predecessors) fuel randbelow r = (Ret order, r') ∧
               head order = Some 0%nat ∧
               last order = Some (length predecessors - 1)%nat) ∧
  (∃ order r', min_rule (Sampler.init predecessors) fuel rule r = (Ret order, r') ∧
               head order = Some 0%nat ∧
               last order = Some (length predecessors - 1)%nat).
Proof.
  intros Hn Hrange Hacyc Hsource Hsink Hbelow Hfuel. split.
  - destruct (gen_run predecessors (choice randbelow) fuel r) as (order & r' & Hrun & Htopo);
      [done..|by apply choice_selects|done|].
    exists order, r'. split; [done|]. by apply topological_order_ends.
  - destruct (gen_run predecessors (min_pick rule) fuel r) as (order & r' & Hrun & Htopo);
      [done..|apply min_pick_selects|done|].
    exists order, r'. split; [done|]. by apply topological_order_ends.
Qed.

(** ** The operations of a breakpoint *)

Lemma all_ge_spec (cv dv : list Z) :
  match all_ge cv dv with
  | Some true => (length dv ≤ length cv)%nat ∧ covers cv dv
  | Some false => ∃ i d c, dv !! i = Some d ∧ cv !! i = Some c ∧ c < d
  | None => (length cv < length dv)%nat ∧ covers cv dv
  end.
Proof.
  revert cv. induction dv as [|d dv IH]; intros cv; simpl.
  { split; [lia|]. intros i d c H. by rewrite lookup_nil in H. }
  destruct cv as [|c cv]; simpl.
  { split; [lia|]. intros i d' c' _ H. by rewrite lookup_nil in H. }
  case_decide as Hcd.
  - specialize (IH cv). destruct (all_ge cv dv) as [[|]|].
    + destruct IH as [Hlen Hcov]. split; [lia|].
      intros [|i] d' c' Hd Hc; simpl in *; [simplify_eq; lia|by eapply Hcov].
    + destruct IH as (i & d' & c' & Hd & Hc & Hlt). by exists (S i), d', c'.
    + destruct IH as [Hlen Hcov]. split; [lia|].
      intros [|i] d' c' Hd Hc; simpl in *; [simplify_eq; lia|by eapply Hcov].
  - exists 0%nat, d, c. repeat split; [done..|lia].
Qed.

(** X9.  [enough] leaves the heap as it is.  It answers [True] only if the
    capacity has an item for every item of the demand and none is less than
    the demand's, [False] only if some item of the capacity is less than the
    demand's, and it raises [IndexError] when the demand is longer than the
    capacity and covered as far as the capacity goes. *)
Theorem enough_decides (h : heap) (self demand : nat) (nd : TimeCapacityNode)
    (cv dv : list Z) :
  nodes h !! self = Some nd →
  vecs h !! capacity nd = Some cv →
  vecs h !! demand = Some dv →
  (enough self demand h).2 = h ∧
  match (enough self demand h).1 with
  | Ret true => (length dv ≤ length cv)%nat ∧ covers cv dv
  | Ret false => ∃ i d c, dv !! i = Some d ∧ cv !! i = Some c ∧ c < d
  | Raise e => e = IndexError ∧ (length cv < length dv)%nat ∧ covers cv dv
  | Timeout => False
  end.
Proof.
  intros Hnd Hcv Hdv. unfold enough.
  rewrite (bind_ret_run _ _ _ _ _ (vec_run h demand dv Hdv)).
  assert (deref self h = (Ret nd, h)) as Hderef by (unfold deref; by rewrite Hnd).
  rewrite (bind_ret_run _ _ _ _ _ Hderef).
  rewrite (bind_ret_run _ _ _ _ _ (vec_run h (capacity nd) cv Hcv)).
  pose proof (all_ge_spec cv dv) as Hspec.
  destruct (all_ge cv dv) as [[|]|]; simpl; by split.
Qed.

Lemma consume_from_spec (self demand : nat) (nd : TimeCapacityNode) (cv dv : list Z)
    (k j : nat) (h : heap) (w : list Z) :
  nodes h !! self = Some nd → vecs h !! capacity nd = Some w → vecs h !! demand = Some dv →
  capacity nd ≠ demand → (j + k = length dv)%nat → (j ≤ length cv)%nat →
  length w = length cv →
  (∀ i c, cv !! i = Some c →
     w !! i = Some (if decide (i < j)%nat then c - default 0 (dv !! i) else c)) →
  ∃ cv',
    consume_from self demand j k h =
      (if decide (length dv ≤ length cv)%nat then Ret tt else Raise IndexError,
       {| vecs := <[capacity nd:=cv']> (vecs h); nodes := nodes h |}) ∧
    length cv' = length cv ∧
    ∀ i c, cv !! i = Some c → cv' !! i = Some (c - default 0 (dv !! i)).
Proof.
  revert j h w. induction k as [|k IH]; intros j h w Hnd Hw Hdv Hne Hjk Hj Hlen Hitems.
  - exists w. simpl. rewrite decide_True by lia. rewrite ret_run. split; [|split; [done|]].
    + f_equal. destruct h as [V N]. simpl in *. f_equal. by rewrite list_insert_id.
    + intros i c Hc. rewrite (Hitems i c Hc). f_equal. case_decide; [done|].
      rewrite (lookup_ge_None_2 dv i) by lia. simpl. lia.
  - cbn [consume_from].
    assert (deref self h = (Ret nd, h)) as Hderef by (unfold deref; by rewrite Hnd).
    rewrite (bind_ret_run _ _ _ _ _ Hderef).
    destruct (decide (j < length cv)%nat) as [Hlt|Hge].
    + destruct (lookup_lt_is_Some_2 cv j Hlt) as [c Hc].
      destruct (lookup_lt_is_Some_2 dv j) as [d Hd]; [lia|].
      assert (w !! j = Some c) as Hwj.
      { rewrite (Hitems j c Hc). by rewrite decide_False by lia. }
      rewrite (bind_ret_run _ _ _ _ _ (vec_index_run h (capacity nd) j w c Hw Hwj)).
      rewrite (bind_ret_run _ _ _ _ _ (vec_index_run h demand j dv d Hdv Hd)).
      rewrite bind_run. unfold vec_assign at 1. rewrite Hw.
      rewrite decide_True by lia.
      set (h1 := {| vecs := <[capacity nd:=<[j:=c - d]> w]> (vecs h); nodes := nodes h |}).
      assert (capacity nd < length (vecs h))%nat as Hcl by (by eapply lookup_lt_Some).
      destruct (IH (S j) h1 (<[j:=c - d]> w)) as (cv' & Hrun & Hlen' & Hitems').
      * done.
      * simpl. by rewrite list_lookup_insert_eq.
      * simpl. by rewrite list_lookup_insert_ne.
      * done.
      * lia.
      * lia.
      * by rewrite length_insert.
      * intros i c' Hc'. destruct (decide (i = j)) as [->|Hij].
        -- rewrite list_lookup_insert_eq by lia. rewrite decide_True by lia.
           rewrite Hd. simpl. by simplify_eq.
        -- rewrite list_lookup_insert_ne by done. rewrite (Hitems i c' Hc').
           f_equal. repeat case_decide; try done; lia.
      * exists cv'. split; [|done]. rewrite Hrun. f_equal. unfold h1. simpl.
        f_equal. by rewrite list_insert_insert_eq.
    + assert (j = length cv) as -> by lia.
      assert (w !! length cv = None) as Hwj by (apply lookup_ge_None; lia).
      rewrite bind_run. unfold vec_index. rewrite (bind_ret_run _ _ _ _ _ (vec_run h _ w Hw)).
      unfold index. rewrite Hwj. simpl.
      exists w. rewrite decide_False by lia. split; [|split; [done|]].
      * unfold raise. f_equal. destruct h as [V N]. simpl in *. f_equal.
        by rewrite list_insert_id.
      * intros i c Hc. rewrite (Hitems i c Hc). rewrite decide_True; [done|].
        by eapply lookup_lt_Some.
Qed.

(** X10.  [consume], on a demand list that is not the node's own capacity
    list, changes that capacity list alone, in place: each item with a
    demand is lowered by it, the others stay, and the call raises
    [IndexError], after lowering all the items there are, exactly when the
    demand is the longer list. *)
Theorem consume_subtracts (h : heap) (self demand : nat) (nd : TimeCapacityNode)
    (cv dv : list Z) :
  nodes h !! self = Some nd →
  vecs h !! capacity nd = Some cv →
  vecs h !! demand = Some dv →
  capacity nd ≠ demand →
  ∃ cv',
    consume self demand h =
      (if decide (length dv ≤ length cv)%nat then Ret tt else Raise IndexError,
       {| vecs := <[capacity nd:=cv']> (vecs h); nodes := nodes h |}) ∧
    length cv' = length cv ∧
    ∀ i c, cv !! i = Some c → cv' !! i = Some (c - default 0 (dv !! i)).
Proof.
  intros Hnd Hcv Hdv Hne. unfold consume.
  rewrite (bind_ret_run _ _ _ _ _ (vec_run h demand dv Hdv)).
  apply (consume_from_spec self demand nd cv dv (length dv) 0 h cv); try done; lia.
Qed.

(** ** Inserting a breakpoint *)

Lemma insert_after_spliced (h : heap) (self : nat) (t : Z) (nd : TimeCapacityNode)
    (cv : list Z) :
  nodes h !! self = Some nd → vecs h !! capacity nd = Some cv →
  (∀ nx, next nd = Some nx → is_Some (nodes h !! nx)) →
  ∃ N', insert_after self t h =
          (Ret (length (nodes h)), {| vecs := vecs h ++ [cv]; nodes := N' |}) ∧
        spliced (nodes h) N' self nd t (length (vecs h)).
Proof.
  intros Hnd Hcv Hnx. unfold insert_after.
  pose proof (lookup_lt_Some _ _ _ Hnd) as Hself.
  assert (deref self h = (Ret nd, h)) as Hderef by (unfold deref; by rewrite Hnd).
  rewrite (bind_ret_run _ _ _ _ _ Hderef).
  set (h1 := {| vecs := vecs h ++ [cv]; nodes := nodes h |}).
  assert (copy (capacity nd) h = (Ret (length (vecs h)), h1)) as Hcopy
    by (unfold copy; by rewrite Hcv).
  rewrite (bind_ret_run _ _ _ _ _ Hcopy).
  set (m := length (nodes h)). set (c := length (vecs h)).
  set (n0 := {| time := t; capacity := c; next := None; prev := None |}).
  set (h2 := {| vecs := vecs h1; nodes := nodes h1 ++ [n0] |}).
  assert (init t c h1 = (Ret m, h2)) as Hinit by done.
  rewrite (bind_ret_run _ _ _ _ _ Hinit).
  set (n1 := {| time := t; capacity := c; next := None; prev := Some self |}).
  set (h3 := {| vecs := vecs h2; nodes := <[m:=n1]> (nodes h2) |}).
  assert (nodes h2 !! m = Some n0) as Hm2 by (by apply list_lookup_middle).
  assert (set_prev m (Some self) h2 = (Ret tt, h3)) as Hsp
    by (unfold set_prev; by rewrite Hm2).
  rewrite (bind_ret_run _ _ _ _ _ Hsp).
  assert (nodes h3 !! self = Some nd) as Hself3.
  { simpl. rewrite list_lookup_insert_ne by (unfold m; lia). by rewrite lookup_app_l. }
  assert (deref self h3 = (Ret nd, h3)) as Hderef3 by (unfold deref; by rewrite Hself3).
  rewrite (bind_ret_run _ _ _ _ _ Hderef3).
  set (n2 := {| time := t; capacity := c; next := next nd; prev := Some self |}).
  set (V := vecs h ++ [cv]).
  set (N4 := nodes h ++ [n2]).
  assert (nodes h3 !! m = Some n1) as Hm3.
  { simpl. rewrite list_lookup_insert_eq; [done|]. rewrite length_app. simpl. unfold m. lia. }
  assert (set_next m (next nd) h3 = (Ret tt, {| vecs := V; nodes := N4 |})) as Hsn.
  { unfold set_next. rewrite Hm3. simpl. do 2 f_equal.
    rewrite list_insert_insert_eq.
    unfold m. rewrite insert_app_r_alt by lia. by rewrite Nat.sub_diag. }
  rewrite (bind_ret_run _ _ _ _ _ Hsn).
  assert (length N4 = S m) as Hlen4 by (unfold N4; rewrite length_app; simpl; unfold m; lia).
  assert (N4 !! m = Some n2) as Hm4 by (by apply list_lookup_middle).
  assert (∀ a, (a < m)%nat → N4 !! a = nodes h !! a) as Hold4.
  { intros a Ha. unfold N4. by rewrite lookup_app_l. }
  destruct (next nd) as [nx|] eqn:Hnext.
  - destruct (Hnx nx eq_refl) as [nxd Hnxd].
    pose proof (lookup_lt_Some _ _ _ Hnxd) as Hnxlt. fold m in Hnxlt.
    set (nxd' := {| time := time nxd; capacity := capacity nxd; next := next nxd;
                    prev := Some m |}).
    set (N5 := <[nx:=nxd']> N4).
    assert (set_prev nx (Some m) {| vecs := V; nodes := N4 |}
            = (Ret tt, {| vecs := V; nodes := N5 |})) as Hsp5.
    { unfold set_prev. simpl. by rewrite Hold4, Hnxd. }
    rewrite (bind_ret_run _ _ _ _ _ Hsp5).
    assert (∃ nd5, N5 !! self = Some nd5 ∧ time nd5 = time nd ∧
                   capacity nd5 = capacity nd ∧
                   prev nd5 = if decide (Some nx = Some self) then Some m else prev nd)
      as (nd5 & Hself5 & Ht5 & Hc5 & Hp5).
    { unfold N5. destruct (decide (nx = self)) as [->|Hne].
      - exists nxd'. rewrite list_lookup_insert_eq by lia.
        rewrite decide_True by done. assert (nxd = nd) as -> by congruence. done.
      - exists nd. rewrite list_lookup_insert_ne by done. rewrite Hold4 by done.
        rewrite decide_False by congruence. done. }
    set (nd6 := {| time := time nd5; capacity := capacity nd5; next := Some m;
                   prev := prev nd5 |}).
    assert (set_next self (Some m) {| vecs := V; nodes := N5 |}
            = (Ret tt, {| vecs := V; nodes := <[self:=nd6]> N5 |})) as Hsn6.
    { unfold set_next. simpl. by rewrite Hself5. }
    rewrite (bind_ret_run _ _ _ _ _ Hsn6), ret_run.
    exists (<[self:=nd6]> N5). split; [done|].
    unfold spliced. cbv zeta. fold m.
    assert (self ≠ m) as Hsm by (unfold m; lia).
    assert (length N5 = S m) as Hlen5 by (unfold N5; by rewrite length_insert).
    split; [by rewrite length_insert|].
    split.
    { rewrite list_lookup_insert_ne by done.
      unfold N5. rewrite list_lookup_insert_ne by lia. by rewrite Hm4, Hnext. }
    split.
    { rewrite list_lookup_insert_eq by lia. unfold nd6. by rewrite Ht5, Hc5, Hp5, Hnext. }
    split.
    { intros nx' nxd0 Hn Hne Hl. rewrite Hnext in Hn. injection Hn as <-.
      rewrite list_lookup_insert_ne by done. unfold N5.
      rewrite list_lookup_insert_eq by lia. by simplify_eq. }
    intros a Ha Hna Halt. rewrite Hnext in Hna.
    rewrite list_lookup_insert_ne by done. unfold N5.
    rewrite list_lookup_insert_ne by congruence. by apply Hold4.
  - rewrite (bind_ret_run _ _ _ _ _ (ret_run tt _)).
    set (nd6 := {| time := time nd; capacity := capacity nd; next := Some m;
                   prev := prev nd |}).
    assert (set_next self (Some m) {| vecs := V; nodes := N4 |}
            = (Ret tt, {| vecs := V; nodes := <[self:=nd6]> N4 |})) as Hsn6.
    { unfold set_next. simpl. by rewrite Hold4, Hnd. }
    rewrite (bind_ret_run _ _ _ _ _ Hsn6), ret_run.
    exists (<[self:=nd6]> N4). split; [done|].
    unfold spliced. cbv zeta. fold m.
    assert (self ≠ m) as Hsm by (unfold m; lia).
    split; [by rewrite length_insert|].
    split; [rewrite list_lookup_insert_ne by done; by rewrite Hm4, Hnext|].
    split; [rewrite list_lookup_insert_eq by lia; by rewrite Hnext|].
    split; [by rewrite Hnext|].
    intros a Ha _ Halt. rewrite list_lookup_insert_ne by done. by apply Hold4.
Qed.

(** How a node of the spliced list reads. *)
Lemma spliced_lookup (N N' : list TimeCapacityNode) (self : nat) (nd : TimeCapacityNode)
    (t : Z) (c : nat) (a : nat) (x : TimeCapacityNode) :
  spliced N N' self nd t c → N !! self = Some nd → N' !! a = Some x →
  (a = length N ∧ x = {| time := t; capacity := c; next := next nd; prev := Some self |}) ∨
  (a = self ∧ time x = time nd ∧ capacity x = capacity nd ∧ next x = Some (length N) ∧
   prev x = if decide (next nd = Some self) then Some (length N) else prev nd) ∨
  (a ≠ self ∧ next nd = Some a ∧
   ∃ y, N !! a = Some y ∧ time x = time y ∧ capacity x = capacity y ∧ next x = next y ∧
        prev x = Some (length N)) ∨
  (a ≠ self ∧ next nd ≠ Some a ∧ N !! a = Some x).
Proof.
  intros (Hlen & Hm & Hself & Hnx & Hother) Hnd Hx.
  pose proof (lookup_lt_Some _ _ _ Hx) as Ha.
  destruct (decide (a = length N)) as [->|Hne].
  { left. split; [done|]. congruence. }
  destruct (decide (a = self)) as [->|Hns].
  { right. left. rewrite Hself in Hx. injection Hx as <-. done. }
  destruct (decide (next nd = Some a)) as [Hn|Hn].
  - right. right. left. split; [done|]. split; [done|].
    destruct (lookup_lt_is_Some_2 N a) as [y Hy]; [lia|].
    rewrite (Hnx a y Hn Hns Hy) in Hx. injection Hx as <-. by exists y.
  - right. right. right. split; [done|]. split; [done|].
    rewrite <- Hx. symmetry. apply Hother; [done..|lia].
Qed.

Lemma spliced_doubly_linked (V V' : list (list Z)) (N N' : list TimeCapacityNode)
    (self : nat) (nd : TimeCapacityNode) (t : Z) (c : nat) :
  doubly_linked {| vecs := V; nodes := N |} → N !! self = Some nd →
  spliced N N' self nd t c →
  doubly_linked {| vecs := V'; nodes := N' |}.
Proof.
  intros [Hfw Hbw] Hnd Hsp. simpl in Hfw, Hbw.
  pose proof Hsp as (Hlen & Hm & Hself & Hnx & Hother).
  pose proof (lookup_lt_Some _ _ _ Hnd) as Hslt.
  assert (∀ a x, N !! a = Some x → a ≠ length N) as Hold.
  { intros a x Hx ->. apply lookup_lt_Some in Hx. lia. }
  (* the node that followed [self], if any, as it reads now *)
  assert (∀ nx, next nd = Some nx → ∃ x, N' !! nx = Some x ∧ prev x = Some (length N) ∧
            ∃ y, N !! nx = Some y ∧ next x = (if decide (nx = self) then Some (length N)
                                              else next y)) as Hnx'.
  { intros nx Hn. destruct (Hfw self nd nx Hnd Hn) as (y & Hy & Hpy).
    destruct (decide (nx = self)) as [->|Hne].
    - eexists. split; [apply Hself|]. simpl. rewrite decide_True by done.
      split; [done|]. by exists nd.
    - eexists. split; [by apply Hnx|]. simpl. split; [done|]. by exists y. }
  split; simpl.
  - intros a x b Hx Hb.
    destruct (spliced_lookup _ _ _ _ _ _ _ _ Hsp Hnd Hx)
      as [[-> ->]|[(-> & _ & _ & Hn & _)|[(Hns & Hn & y & Hy & _ & _ & Hny & _)|(Hns & Hn & Hy)]]].
    + simpl in Hb. destruct (Hnx' b Hb) as (z & Hz & Hpz & _). by exists z.
    + rewrite Hn in Hb. injection Hb as <-. eexists. by split.
    + rewrite Hny in Hb. destruct (Hfw a y b Hy Hb) as (z & Hz & Hpz).
      destruct (decide (b = self)) as [->|Hbs].
      * eexists. split; [apply Hself|]. simpl.
        rewrite decide_False; [congruence|]. intros Hn'. congruence.
      * destruct (decide (next nd = Some b)) as [Hnb|Hnb].
        { destruct (Hfw self nd b Hnd Hnb) as (z' & Hz' & Hpz'). congruence. }
        exists z. split; [|done]. rewrite Hother; [done..|by eapply lookup_lt_Some].
    + destruct (Hfw a x b Hy Hb) as (z & Hz & Hpz).
      destruct (decide (b = self)) as [->|Hbs].
      * eexists. split; [apply Hself|]. simpl.
        assert (z = nd) as -> by congruence.
        rewrite decide_False; [done|]. intros Hn'.
        destruct (Hfw self nd self Hnd Hn') as (z' & Hz' & Hpz'). congruence.
      * destruct (decide (next nd = Some b)) as [Hnb|Hnb].
        { destruct (Hfw self nd b Hnd Hnb) as (z' & Hz' & Hpz'). congruence. }
        exists z. split; [|done]. rewrite Hother; [done..|by eapply lookup_lt_Some].
  - intros a x b Hx Hb.
    destruct (spliced_lookup _ _ _ _ _ _ _ _ Hsp Hnd Hx)
      as [[-> ->]|[(-> & _ & _ & _ & Hp)|[(Hns & Hn & y & Hy & _ & _ & _ & Hp)|(Hns & Hn & Hy)]]].
    + simpl in Hb. injection Hb as <-. eexists. by split.
    + rewrite Hp in Hb. case_decide as Hloop.
      * injection Hb as <-. eexists. by split.
      * destruct (Hbw self nd b Hnd Hb) as (z & Hz & Hnz).
        destruct (decide (b = self)) as [->|Hbs]; [congruence|].
        destruct (decide (next nd = Some b)) as [Hnb|Hnb].
        { destruct (Hnx' b Hnb) as (z' & Hz' & _ & y & Hy & Hnz').
          exists z'. split; [done|]. rewrite Hnz', decide_False by done. congruence. }
        exists z. split; [|done]. rewrite Hother; [done..|by eapply lookup_lt_Some].
    + rewrite Hp in Hb. injection Hb as <-. eexists. split; [done|]. done.
    + destruct (Hbw a x b Hy Hb) as (z & Hz & Hnz).
      destruct (decide (b = self)) as [->|Hbs]; [congruence|].
      destruct (decide (next nd = Some b)) as [Hnb|Hnb].
      { destruct (Hnx' b Hnb) as (z' & Hz' & _ & y & Hy' & Hnz').
        exists z'. split; [done|]. rewrite Hnz', decide_False by done. congruence. }
      exists z. split; [|done]. rewrite Hother; [done..|by eapply lookup_lt_Some].
Qed.

(** X11.  [insert_after] on a node of a doubly linked heap returns a new
    node that holds the given time and a copy of the capacity list, puts it
    between the node and the node that followed, and leaves the heap doubly
    linked. *)
Theorem insert_after_splices (h : heap) (self : nat) (t : Z) (nd : TimeCapacityNode)
    (cv : list Z) :
  doubly_linked h →
  nodes h !! self = Some nd →
  vecs h !! capacity nd = Some cv →
  ∃ h',
    insert_after self t h = (Ret (length (nodes h)), h') ∧
    vecs h' = vecs h ++ [cv] ∧
    spliced (nodes h) (nodes h') self nd t (length (vecs h)) ∧
    doubly_linked h'.
Proof.
  intros Hdl Hnd Hcv.
  destruct (insert_after_spliced h self t nd cv Hnd Hcv) as (N' & Hrun & Hsp).
  { intros nx Hn. destruct Hdl as [Hfw _]. destruct (Hfw self nd nx Hnd Hn) as (y & Hy & _).
    by exists y. }
  eexists. split; [done|]. split; [done|]. split; [done|].
  destruct h as [V N]. by eapply spliced_doubly_linked.
Qed.

(** ** Invariants of the heap under [decode] *)

Section keeping.
Context (I : heap → Prop).

Lemma keeps_ret {A} (a : A) : keeps I (mret a).
Proof. by intros h. Qed.

Lemma keeps_raise {A} (e : pyexn) : keeps I (raise e : M heap A).
Proof. by intros h. Qed.

Lemma keeps_timeout {A} : keeps I (timeout : M heap A).
Proof. by intros h. Qed.

Lemma keeps_bind {A B} (m : M heap A) (f : A → M heap B) :
  keeps I m → (∀ a, keeps I (f a)) → keeps I (m ≫= f).
Proof.
  intros Hm Hf h Hh. rewrite bind_run. specialize (Hm h Hh).
  destruct (m h) as [[a| |] h1]; simpl in *; [by apply Hf|done..].
Qed.

Lemma keeps_readonly {A} (m : M heap A) : readonly m → keeps I m.
Proof. intros Hro h Hh. by rewrite Hro. Qed.

Lemma keeps_call {A} (o : option nat) (method : nat → M heap A) :
  (∀ a, keeps I (method a)) → keeps I (call o method).
Proof. intros H. destruct o; [apply H|apply keeps_raise]. Qed.

End keeping.

Section decode_keeps.
Context (I : heap → Prop).
Hypothesis Hcopy : ∀ r, keeps I (copy r).
Hypothesis Hinit : ∀ t c, keeps I (init t c).
Hypothesis Hassign : ∀ r i x, keeps I (vec_assign r i x).
Hypothesis Hinsert : ∀ self t, keeps I (insert_after self t).

Lemma keeps_consume_from (self demand j k : nat) : keeps I (consume_from self demand j k).
Proof.
  revert j. induction k as [|k IH]; intros j; simpl; [apply keeps_ret|].
  apply keeps_bind; [apply keeps_readonly, readonly_deref|]. intros me.
  apply keeps_bind; [apply keeps_readonly, readonly_vec_index|]. intros c.
  apply keeps_bind; [apply keeps_readonly, readonly_vec_index|]. intros d.
  apply keeps_bind; [apply Hassign|]. intros _. apply IH.
Qed.

Lemma keeps_consume (self demand : nat) : keeps I (consume self demand).
Proof.
  apply keeps_bind; [apply keeps_readonly, readonly_vec|]. intros dv.
  apply keeps_consume_from.
Qed.

Lemma keeps_consume_range (demands : list nat) (f i : nat) (t finish_node : option nat) :
  keeps I (consume_range demands f i t finish_node).
Proof.
  revert t. induction f as [|f IH]; intros t; simpl.
  all: case_decide; [apply keeps_ret|].
  { apply keeps_timeout. }
  apply keeps_bind; [apply keeps_readonly, readonly_attr|]. intros _.
  apply keeps_bind; [apply keeps_readonly, readonly_index|]. intros d.
  apply keeps_bind; [apply keeps_call; intros a; apply keeps_consume|]. intros _.
  apply keeps_bind; [apply keeps_readonly, readonly_attr|]. intros nd. apply IH.
Qed.

Lemma keeps_schedule (fuel duration : nat) (predecessors : list (list nat))
    (demands : list nat) (root i : nat) (st : list Z * list (option nat)) :
  keeps I (schedule fuel duration predecessors demands root i st).
Proof.
  destruct st as [starts finish_nodes]. unfold schedule.
  apply keeps_bind; [apply keeps_readonly, readonly_index|]. intros ps.
  apply keeps_bind; [apply keeps_readonly, readonly_latest_finish|]. intros start.
  apply keeps_bind; [apply keeps_readonly, readonly_attr|]. intros snd.
  apply keeps_bind; [apply keeps_readonly, readonly_vec_index|]. intros dv.
  apply keeps_bind; [apply keeps_readonly, readonly_find_start|].
  intros [[node start'] finish_time].
  apply keeps_bind; [apply keeps_readonly, readonly_attr|]. intros nd.
  assert (keeps I (a ← call node (fun a => insert_after a finish_time); mret (Some a)))
    as Hins.
  { apply keeps_bind; [apply keeps_call; intros a; apply Hinsert|]. intros a.
    apply keeps_ret. }
  apply keeps_bind.
  { destruct (next nd) as [nx|]; [|done].
    apply keeps_bind; [apply keeps_readonly, readonly_deref|]. intros nxd.
    case_decide; [done|apply keeps_ret]. }
  intros finish_node.
  apply keeps_bind; [apply keeps_consume_range|]. intros _.
  apply keeps_bind; [apply keeps_readonly, readonly_attr|]. intros snd'.
  apply keeps_bind.
  { unfold store. case_decide; [apply keeps_ret|apply keeps_raise]. }
  intros starts'. apply keeps_bind.
  { unfold store. case_decide; [apply keeps_ret|apply keeps_raise]. }
  intros fn'. apply keeps_ret.
Qed.

Lemma keeps_decode_loop (fuel duration : nat) (predecessors : list (list nat))
    (demands : list nat) (root : nat) (alist : list nat) (st : list Z * list (option nat)) :
  keeps I (decode_loop fuel duration predecessors demands root alist st).
Proof.
  revert st. induction alist as [|i alist IH]; intros st; cbn [decode_loop].
  - apply keeps_ret.
  - apply keeps_bind; [apply keeps_schedule|]. intros st'. apply IH.
Qed.

Lemma keeps_decode (fuel : nat) (alist : list nat) (duration : nat)
    (predecessors : list (list nat)) (demands : list nat) (capacity : nat) :
  keeps I (decode fuel alist duration predecessors demands capacity).
Proof.
  unfold decode, decode_run, decode_init.
  apply keeps_bind; [|intros [root [starts fn]]; apply keeps_ret].
  apply keeps_bind.
  { apply keeps_bind; [apply Hcopy|]. intros c.
    apply keeps_bind; [apply Hinit|]. intros root.
    apply keeps_bind; [apply keeps_readonly, readonly_vec|]. intros dur.
    apply keeps_bind.
    { unfold store. case_decide; [apply keeps_ret|apply keeps_raise]. }
    intros fn. apply keeps_ret. }
  intros [root st].
  apply keeps_bind; [apply keeps_decode_loop|]. intros st'. apply keeps_ret.
Qed.

End decode_keeps.

Lemma doubly_linked_same_nodes (h h' : heap) :
  nodes h' = nodes h → doubly_linked h → doubly_linked h'.
Proof. intros Heq [Hfw Hbw]. split; rewrite Heq; done. Qed.

Lemma keeps_doubly_linked_init (t : Z) (c : nat) : keeps doubly_linked (init t c).
Proof.
  intros h [Hfw Hbw]. simpl.
  assert (∀ a x, (nodes h ++ [{| time := t; capacity := c; next := None; prev := None |}]) !! a
                 = Some x → (next x = None ∧ prev x = None) ∨ nodes h !! a = Some x) as Hcase.
  { intros a x Hx. apply lookup_app_Some in Hx as [Hx|[_ Hx]]; [by right|].
    left. apply list_lookup_singleton_Some in Hx as [_ <-]. done. }
  split; simpl; intros a x b Hx Hb.
  - destruct (Hcase a x Hx) as [[Hn _]|Hx']; [congruence|].
    destruct (Hfw a x b Hx' Hb) as (z & Hz & Hpz). exists z. split; [|done].
    by apply lookup_app_l_Some.
  - destruct (Hcase a x Hx) as [[_ Hp]|Hx']; [congruence|].
    destruct (Hbw a x b Hx' Hb) as (z & Hz & Hpz). exists z. split; [|done].
    by apply lookup_app_l_Some.
Qed.

Lemma keeps_doubly_linked_copy (r : nat) : keeps doubly_linked (copy r).
Proof.
  intros h Hdl. unfold copy. destruct (vecs h !! r); [|done].
  by eapply doubly_linked_same_nodes.
Qed.

Lemma keeps_doubly_linked_vec_assign (r i : nat) (x : Z) :
  keeps doubly_linked (vec_assign r i x).
Proof.
  intros h Hdl. unfold vec_assign. destruct (vecs h !! r); [|done].
  case_decide; [|done]. by eapply doubly_linked_same_nodes.
Qed.

Lemma keeps_doubly_linked_insert_after (self : nat) (t : Z) :
  keeps doubly_linked (insert_after self t).
Proof.
  intros h Hdl.
  destruct (nodes h !! self) as [nd|] eqn:Hnd.
  - destruct (vecs h !! capacity nd) as [cv|] eqn:Hcv.
    + destruct (insert_after_spliced h self t nd cv Hnd Hcv) as (N' & -> & Hsp).
      { intros nx Hn. destruct Hdl as [Hfw _].
        destruct (Hfw self nd nx Hnd Hn) as (y & Hy & _). by exists y. }
      simpl. destruct h as [V N]. by eapply spliced_doubly_linked.
    + unfold insert_after. rewrite bind_run. unfold deref at 1. rewrite Hnd.
      rewrite bind_run. unfold copy. by rewrite Hcv.
  - unfold insert_after. rewrite bind_run. unfold deref at 1. by rewrite Hnd.
Qed.

Lemma keeps_doubly_linked_schedule (fuel duration : nat) (predecessors : list (list nat))
    (demands : list nat) (root i : nat) (st : list Z * list (option nat)) :
  keeps doubly_linked (schedule fuel duration predecessors demands root i st).
Proof.
  apply keeps_schedule.
  - apply keeps_doubly_linked_vec_assign.
  - apply keeps_doubly_linked_insert_after.
Qed.

(** X12.  [decode] leaves a doubly linked heap doubly linked, whatever its
    arguments and whether it returns, raises or runs out of fuel. *)
Theorem decode_keeps_doubly_linked (fuel : nat) (alist : list nat) (duration : nat)
    (predecessors : list (list nat)) (demands : list nat) (capacity : nat) (h0 : heap) :
  doubly_linked h0 →
  doubly_linked (decode fuel alist duration predecessors demands capacity h0).2.
Proof.
  apply keeps_decode.
  - apply keeps_doubly_linked_copy.
  - apply keeps_doubly_linked_init.
  - apply keeps_doubly_linked_vec_assign.
  - apply keeps_doubly_linked_insert_after.
Qed.

(** ** Reading a run of the loop body backwards *)

Lemma readonly_Ret_inv {A} (m : M heap A) (h h' : heap) (a : A) :
  readonly m → m h = (Ret a, h') → h' = h.
Proof. intros Hro Hrun. specialize (Hro h). by rewrite Hrun in Hro. Qed.

Lemma keeps_Ret_inv {A} (I : heap → Prop) (m : M heap A) (h h' : heap) (a : A) :
  keeps I m → m h = (Ret a, h') → I h → I h'.
Proof. intros Hk Hrun Hh. specialize (Hk h Hh). by rewrite Hrun in Hk. Qed.

(** [latest_finish] answers with the node of latest time among [start] and
    the finish nodes of the predecessors; among equals, the first met. *)
Lemma latest_finish_Ret (finish_nodes : list (option nat)) (ps : list nat) (s : nat)
    (nds : TimeCapacityNode) (o : option nat) (h h' : heap) :
  nodes h !! s = Some nds →
  latest_finish finish_nodes ps (Some s) h = (Ret o, h') →
  h' = h ∧
  ∃ s' nd', o = Some s' ∧ nodes h !! s' = Some nd' ∧ time nds <= time nd' ∧
    (s' = s ∨ ∃ p, p ∈ ps ∧ finish_nodes !! p = Some (Some s')) ∧
    (time nd' = time nds ∨
     ∃ p a nda, p ∈ ps ∧ finish_nodes !! p = Some (Some a) ∧ nodes h !! a = Some nda ∧
                time nda = time nd') ∧
    (∀ p, p ∈ ps → ∃ a nda, finish_nodes !! p = Some (Some a) ∧
                            nodes h !! a = Some nda ∧ time nda <= time nd').
Proof.
  intros Hs Hrun.
  split; [by eapply readonly_Ret_inv; [apply readonly_latest_finish|]|].
  revert s nds Hs Hrun. induction ps as [|p ps IH]; intros s nds Hs Hrun.
  { injection Hrun as <- <-. exists s, nds. split; [done|]. split; [done|].
    split; [lia|]. split; [by left|]. split; [by left|].
    intros p Hp. by apply elem_of_nil in Hp. }
  cbn [latest_finish] in Hrun.
  apply bind_Ret_inv in Hrun as (fp & h1 & H1 & Hrun). apply index_Ret_inv in H1 as [Hfp ->].
  apply bind_Ret_inv in Hrun as (fnd & h1 & H2 & Hrun).
  apply attr_Ret_inv in H2 as (a & -> & Ha & ->).
  apply bind_Ret_inv in Hrun as (snd & h1 & H3 & Hrun).
  apply attr_Ret_inv in H3 as (s1 & [= <-] & Hs1 & ->).
  assert (snd = nds) as -> by congruence.
  case_decide as Hlater.
  - destruct (IH a fnd Ha Hrun)
      as (s' & nd' & -> & Hs' & Hle & Hfrom & Hatt & Hall).
    exists s', nd'. split; [done|]. split; [done|]. split; [lia|]. split.
    { right. destruct Hfrom as [->|(q & Hq & Hfq)]; [exists p|exists q]; split; try done.
      - by left.
      - by right. }
    split.
    { right. destruct Hatt as [Heq|(q & b & ndb & Hq & Hfq & Hb & Hbt)].
      - exists p, a, fnd. split; [by left|]. done.
      - exists q, b, ndb. split; [by right|]. done. }
    intros q Hq. apply elem_of_cons in Hq as [->|Hq]; [|by apply Hall].
    exists a, fnd. split; [done|]. split; [done|lia].
  - destruct (IH s nds Hs Hrun)
      as (s' & nd' & -> & Hs' & Hle & Hfrom & Hatt & Hall).
    exists s', nd'. split; [done|]. split; [done|]. split; [lia|]. split.
    { destruct Hfrom as [->|(q & Hq & Hfq)]; [by left|]. right. exists q. split; [by right|done]. }
    split.
    { destruct Hatt as [Heq|(q & b & ndb & Hq & Hfq & Hb & Hbt)]; [by left|].
      right. exists q, b, ndb. split; [by right|]. done. }
    intros q Hq. apply elem_of_cons in Hq as [->|Hq]; [|by apply Hall].
    exists a, fnd. split; [done|]. split; [done|lia].
Qed.

(** The node at which the search for capacity stops has enough capacity;
    it is the node the search starts from when that one has enough. *)
Lemma find_start_enough (duration : nat) (demands : list nat) (f i : nat) (s : option nat)
    (ft : Z) (node' start' : option nat) (ft' : Z) (h h' : heap) :
  find_start duration demands f i s s ft h = (Ret (node', start', ft'), h') →
  ∃ a d, node' = Some a ∧ demands !! i = Some d ∧ enough a d h = (Ret true, h) ∧
         ∀ s0, s = Some s0 → (enough s0 d h).1 ≠ Ret false → a = s0 ∧ ft' = ft.
Proof.
  revert s ft. induction f as [|f IH]; intros s ft Hrun.
  all: simpl in Hrun.
  all: apply bind_Ret_inv in Hrun as (nd0 & h1 & H0 & Hrun);
       apply attr_Ret_inv in H0 as (a0 & -> & Hnd0 & ->).
  all: apply bind_Ret_inv in Hrun as (d & h1 & H1 & Hrun);
       apply index_Ret_inv in H1 as [Hd ->].
  all: apply bind_Ret_inv in Hrun as (ok & h1 & H2 & Hrun); simpl in H2.
  all: pose proof (readonly_Ret_inv _ _ _ _ (readonly_enough a0 d) H2) as ->.
  all: destruct ok.
  1,3: injection Hrun as <- <- <- <-; exists a0, d;
       (split; [done|]); (split; [done|]); (split; [done|]); by intros z [= <-] _.
  { done. }
  apply bind_Ret_inv in Hrun as (nd & h1 & H3 & Hrun).
  apply attr_Ret_inv in H3 as (a & [= <-] & Hnd & ->).
  apply bind_Ret_inv in Hrun as (snd1 & h1 & H4 & Hrun).
  apply attr_Ret_inv in H4 as (a1 & Ha1 & Hnd1 & ->).
  apply bind_Ret_inv in Hrun as (dv1 & h1 & H5 & Hrun).
  pose proof (readonly_Ret_inv _ _ _ _ (readonly_vec_index duration i) H5) as ->.
  destruct (IH _ _ Hrun) as (a' & d' & -> & Hd' & Hen & _).
  exists a', d'. split; [done|]. split; [done|]. split; [done|].
  intros z [= <-] Hen0. rewrite Hd in Hd'. injection Hd' as <-. by rewrite H2 in Hen0.
Qed.

Lemma nodes_consume (self demand : nat) (h : heap) :
  nodes (consume self demand h).2 = nodes h.
Proof.
  apply (keeps_consume (fun h' => nodes h' = nodes h)); [|done].
  intros r i x h1 H1. unfold vec_assign. destruct (vecs h1 !! r); [|done].
  by case_decide.
Qed.

(** From a node whose [next] is the finish node, the loop that consumes
    goes through its body once, or not at all. *)
Lemma consume_range_Ret_inv (demands : list nat) (fuel i a f : nat) (nd : TimeCapacityNode)
    (h h' : heap) :
  nodes h !! a = Some nd → next nd = Some f →
  consume_range demands fuel i (Some a) (Some f) h = (Ret tt, h') →
  (a = f ∧ h' = h) ∨
  (a ≠ f ∧ ∃ d, demands !! i = Some d ∧ consume a d h = (Ret tt, h')).
Proof.
  intros Hnd Hnext Hrun.
  destruct (decide (a = f)) as [->|Hne].
  { left. split; [done|]. destruct fuel; simpl in Hrun; rewrite decide_True in Hrun by done;
      by injection Hrun. }
  right. split; [done|].
  destruct fuel as [|k]; simpl in Hrun; rewrite decide_False in Hrun by congruence; [done|].
  apply bind_Ret_inv in Hrun as (nd0 & h1 & H0 & Hrun).
  apply deref_Ret_inv in H0 as [Hnd0 ->].
  apply bind_Ret_inv in Hrun as (d & h1 & H1 & Hrun). apply index_Ret_inv in H1 as [Hd ->].
  apply bind_Ret_inv in Hrun as ([] & h1 & H2 & Hrun).
  apply bind_Ret_inv in Hrun as (nd1 & h2 & H3 & Hrun).
  apply deref_Ret_inv in H3 as [Hnd1 ->].
  pose proof (nodes_consume a d h) as Hsame. rewrite H2 in Hsame. simpl in Hsame.
  rewrite Hsame, Hnd in Hnd1. injection Hnd1 as <-. rewrite Hnext in Hrun.
  destruct k; simpl in Hrun; rewrite decide_True in Hrun by done; injection Hrun as <-.
  all: by exists d.
Qed.

(** A returning [insert_after] on a doubly linked heap has spliced. *)
Lemma insert_after_Ret_inv (self : nat) (t : Z) (m : nat) (h h' : heap) :
  doubly_linked h → insert_after self t h = (Ret m, h') →
  ∃ nd cv, nodes h !! self = Some nd ∧ vecs h !! capacity nd = Some cv ∧
           m = length (nodes h) ∧ vecs h' = vecs h ++ [cv] ∧
           spliced (nodes h) (nodes h') self nd t (length (vecs h)).
Proof.
  intros Hdl Hrun.
  destruct (nodes h !! self) as [nd|] eqn:Hnd.
  - destruct (vecs h !! capacity nd) as [cv|] eqn:Hcv.
    + destruct (insert_after_spliced h self t nd cv Hnd Hcv) as (N' & Hrun' & Hsp).
      { intros nx Hn. destruct Hdl as [Hfw _].
        destruct (Hfw self nd nx Hnd Hn) as (y & Hy & _). by exists y. }
      rewrite Hrun' in Hrun. injection Hrun as <- <-. by exists nd, cv.
    + unfold insert_after in Hrun. rewrite bind_run in Hrun. unfold deref at 1 in Hrun.
      rewrite Hnd in Hrun. rewrite bind_run in Hrun. unfold copy in Hrun.
      by rewrite Hcv in Hrun.
  - unfold insert_after in Hrun. rewrite bind_run in Hrun. unfold deref at 1 in Hrun.
    by rewrite Hnd in Hrun.
Qed.

Section schedule_inv.
Context (fuel duration : nat) (predecessors : list (list nat)) (demands : list nat).

(** What happened in a pass through the loop body that came to its end. *)
Lemma schedule_Ret_inv (root i : nat) (starts starts' : list Z)
    (finish_nodes finish_nodes' : list (option nat)) (h h' : heap) :
  schedule fuel duration predecessors demands root i (starts, finish_nodes) h
    = (Ret (starts', finish_nodes'), h') →
  ∃ ps s0 nd0 dv a nd d f h1,
    predecessors !! i = Some ps ∧
    latest_finish finish_nodes ps (Some root) h = (Ret (Some s0), h) ∧
    nodes h !! s0 = Some nd0 ∧
    vec_index duration i h = (Ret dv, h) ∧
    find_start duration demands fuel i (Some s0) (Some s0) (time nd0 + dv) h
      = (Ret (Some a, Some a, time nd + dv), h) ∧
    nodes h !! a = Some nd ∧
    demands !! i = Some d ∧ enough a d h = (Ret true, h) ∧
    ((enough s0 d h).1 ≠ Ret false → a = s0) ∧
    ((h1 = h ∧ next nd = Some f ∧ ∃ nf, nodes h !! f = Some nf ∧ time nf = time nd + dv) ∨
     insert_after a (time nd + dv) h = (Ret f, h1)) ∧
    consume_range demands fuel i (Some a) (Some f) h1 = (Ret tt, h') ∧
    (∃ nd', nodes h' !! a = Some nd' ∧ starts' = <[i:=time nd']> starts) ∧
    finish_nodes' = <[i:=Some f]> finish_nodes ∧
    (i < length starts)%nat ∧ (i < length finish_nodes)%nat.
Proof.
  intros Hrun. unfold schedule in Hrun.
  apply bind_Ret_inv in Hrun as (ps & h1 & H1 & Hrun). apply index_Ret_inv in H1 as [Hps ->].
  apply bind_Ret_inv in Hrun as (start & h1 & H2 & Hrun).
  pose proof (readonly_Ret_inv _ _ _ _ (readonly_latest_finish finish_nodes ps (Some root)) H2)
    as ->.
  apply bind_Ret_inv in Hrun as (snd & h1 & H3 & Hrun).
  apply attr_Ret_inv in H3 as (s0 & -> & Hs0 & ->).
  apply bind_Ret_inv in Hrun as (dv & h1 & H4 & Hrun).
  pose proof (readonly_Ret_inv _ _ _ _ (readonly_vec_index duration i) H4) as ->.
  apply bind_Ret_inv in Hrun as ([[node start'] finish_time] & h1 & H5 & Hrun).
  assert (attr (Some s0) h = (Ret snd, h)) as Hattr by (simpl; unfold deref; by rewrite Hs0).
  pose proof H5 as Hfs.
  eapply find_start_Ret in Hfs; [|reflexivity|exact Hattr|exact H4|reflexivity].
  destruct Hfs as (-> & -> & snd' & Hsnd' & ->).
  destruct (find_start_enough _ _ _ _ _ _ _ _ _ _ _ H5) as (a & d & -> & Hd & Hen & Hsame).
  apply attr_Ret_inv in Hsnd' as (a' & [= <-] & Ha & _).
  apply bind_Ret_inv in Hrun as (nd & h1 & H6 & Hrun).
  apply attr_Ret_inv in H6 as (a' & [= <-] & Ha' & ->).
  assert (nd = snd') as -> by congruence.
  apply bind_Ret_inv in Hrun as (finish_node & h1 & H7 & Hrun).
  assert (∃ f, finish_node = Some f ∧
            ((h1 = h ∧ next snd' = Some f ∧
              ∃ nf, nodes h !! f = Some nf ∧ time nf = time snd' + dv) ∨
             insert_after a (time snd' + dv) h = (Ret f, h1))) as (f & -> & Hfin).
  { assert (∀ o h2, (a ← call (Some a) (fun a => insert_after a (time snd' + dv)); mret (Some a)) h
                      = (Ret o, h2) →
              ∃ f, o = Some f ∧ insert_after a (time snd' + dv) h = (Ret f, h2)) as Hins.
    { intros o h2 H. apply bind_Ret_inv in H as (f & h3 & Hi & H). injection H as <- <-.
      by exists f. }
    destruct (next snd') as [nx|] eqn:Hnext.
    - apply bind_Ret_inv in H7 as (nxd & h2 & Hnx & H7).
      apply deref_Ret_inv in Hnx as [Hnx ->].
      case_decide as Hne.
      + destruct (Hins _ _ H7) as (f & -> & Hi). exists f. split; [done|]. by right.
      + injection H7 as <- <-. exists nx. split; [done|]. left.
        split; [done|]. split; [done|]. exists nxd. split; [done|].
        by destruct (decide (time nxd = time snd' + dv)).
    - destruct (Hins _ _ H7) as (f & -> & Hi). exists f. split; [done|]. by right. }
  apply bind_Ret_inv in Hrun as ([] & h2 & H8 & Hrun).
  apply bind_Ret_inv in Hrun as (snd2 & h3 & H9 & Hrun).
  apply attr_Ret_inv in H9 as (a'' & [= <-] & Ha2 & ->).
  apply bind_Ret_inv in Hrun as (starts1 & h3 & H10 & Hrun).
  apply store_Ret_inv in H10 as (Hi1 & -> & ->).
  apply bind_Ret_inv in Hrun as (fn1 & h3 & H11 & Hrun).
  apply store_Ret_inv in H11 as (Hi2 & -> & ->).
  injection Hrun as <- <- <-.
  exists ps, s0, snd, dv, a, snd', d, f, h1.
  repeat split; try done.
  - intros Hen0. by destruct (Hsame s0 eq_refl Hen0).
  - by exists snd2.
Qed.

End schedule_inv.

(** ** The loop of [decode], read backwards *)


Lemma enough_Ret_inv (self demand : nat) (b : bool) (h h' : heap) :
  enough self demand h = (Ret b, h') →
  ∃ nd dv cv, nodes h !! self = Some nd ∧ vecs h !! demand = Some dv ∧
              vecs h !! capacity nd = Some cv ∧ all_ge cv dv = Some b.
Proof.
  unfold enough. intros H.
  apply bind_Ret_inv in H as (dv & h1 & H1 & H). apply vec_Ret_inv in H1 as [Hdv ->].
  apply bind_Ret_inv in H as (nd & h1 & H2 & H). apply deref_Ret_inv in H2 as [Hnd ->].
  apply bind_Ret_inv in H as (cv & h1 & H3 & H). apply vec_Ret_inv in H3 as [Hcv ->].
  exists nd, dv, cv. repeat split; try done.
  destruct (all_ge cv dv) as [b'|]; [|done]. by injection H as ->.
Qed.

Lemma consume_Ret_inv (self demand : nat) (nd : TimeCapacityNode) (cv dv : list Z)
    (h h' : heap) :
  nodes h !! self = Some nd → vecs h !! capacity nd = Some cv →
  vecs h !! demand = Some dv → capacity nd ≠ demand →
  consume self demand h = (Ret tt, h') →
  (length dv ≤ length cv)%nat ∧
  ∃ cv', h' = {| vecs := <[capacity nd:=cv']> (vecs h); nodes := nodes h |} ∧
         length cv' = length cv ∧
         ∀ k c, cv !! k = Some c → cv' !! k = Some (c - default 0 (dv !! k)).
Proof.
  intros Hnd Hcv Hdv Hne Hrun. unfold consume in Hrun.
  rewrite (bind_ret_run _ _ _ _ _ (vec_run h demand dv Hdv)) in Hrun.
  destruct (consume_from_spec self demand nd cv dv (length dv) 0 h cv)
    as (cv' & Hrun' & Hlen & Hitems); try done; try lia.
  rewrite Hrun' in Hrun. case_decide; [|done]. injection Hrun as <-.
  split; [done|]. by exists cv'.
Qed.


Section loop.
Context (h0 : heap) (fuel duration : nat) (predecessors : list (list nat))
        (demands : list nat) (dur : list Z).
Hypothesis Hdur : vecs h0 !! duration = Some dur.
Hypothesis Hold : ∀ i d, demands !! i = Some d → (d < length (vecs h0))%nat.

(** What every turn of the loop finds and leaves: the frame, a fresh root,
    fresh finish nodes, a doubly linked heap. *)
Local Abbreviation sound := (fun (root : nat) (fn : list (option nat)) (h : heap) =>
  framed h0 h ∧ fresh h0 root ∧ all_fresh h0 fn ∧ doubly_linked h).

Lemma schedule_sound (root i : nat) (starts starts' : list Z)
    (fn fn' : list (option nat)) (h h' : heap) :
  sound root fn h →
  schedule fuel duration predecessors demands root i (starts, fn) h
    = (Ret (starts', fn'), h') →
  sound root fn' h'.
Proof.
  intros (Hh & Hroot & Hfn & Hdl) Hrun.
  pose proof (preserves_schedule h0 fuel duration predecessors demands root i starts fn
                Hroot Hfn h Hh) as [Hh' Hfn'].
  rewrite Hrun in Hh', Hfn'. simpl in Hh', Hfn'. specialize (Hfn' _ eq_refl).
  split; [done|]. split; [done|]. split; [done|].
  by apply (keeps_Ret_inv _ _ _ _ _ (keeps_doubly_linked_schedule _ _ _ _ _ _ _) Hrun).
Qed.

Lemma framed_duration (h : heap) (i : nat) (dv : Z) :
  framed h0 h → vec_index duration i h = (Ret dv, h) → dur !! i = Some dv.
Proof.
  intros (Hsame & _) H. apply vec_index_Ret_inv in H as (v & Hv & Hvi & _).
  apply lookup_lt_Some in Hdur as Hlt. rewrite Hsame, Hdur in Hv by done. congruence.
Qed.

(** A pass through the loop body that came to its end, in full. *)
Lemma schedule_Ret_sound (root i : nat) (starts starts' : list Z)
    (fn fn' : list (option nat)) (h h' : heap) :
  sound root fn h →
  schedule fuel duration predecessors demands root i (starts, fn) h
    = (Ret (starts', fn'), h') →
  ∃ ps s0 nd0 dv a nd d dvec cv f h1 nd1,
    predecessors !! i = Some ps ∧ dur !! i = Some dv ∧
    latest_finish fn ps (Some root) h = (Ret (Some s0), h) ∧
    nodes h !! s0 = Some nd0 ∧ fresh h0 s0 ∧
    nodes h !! a = Some nd ∧ fresh h0 a ∧
    ((enough s0 d h).1 ≠ Ret false → a = s0) ∧
    demands !! i = Some d ∧ vecs h !! d = Some dvec ∧
    vecs h !! capacity nd = Some cv ∧ (length (vecs h0) ≤ capacity nd)%nat ∧
    (length dvec ≤ length cv)%nat ∧ covers cv dvec ∧
    (h1 = h ∨
     (vecs h1 = vecs h ++ [cv] ∧ f = length (nodes h) ∧
      spliced (nodes h) (nodes h1) a nd (time nd + dv) (length (vecs h)))) ∧
    nodes h1 !! a = Some nd1 ∧ time nd1 = time nd ∧ capacity nd1 = capacity nd ∧
    next nd1 = Some f ∧
    (∃ nf, nodes h1 !! f = Some nf ∧ time nf = time nd + dv) ∧
    (h' = h1 ∨
     ∃ cv', h' = {| vecs := <[capacity nd:=cv']> (vecs h1); nodes := nodes h1 |} ∧
            length cv' = length cv ∧
            ∀ k c, cv !! k = Some c → cv' !! k = Some (c - default 0 (dvec !! k))) ∧
    starts' = <[i:=time nd]> starts ∧ fn' = <[i:=Some f]> fn ∧
    (i < length starts)%nat ∧ (i < length fn)%nat.
Proof.
  intros (Hh & Hroot & Hfn & Hdl) Hrun.
  destruct (schedule_Ret_inv _ _ _ _ _ _ _ _ _ _ _ _ Hrun)
    as (ps & s0 & nd0 & dv & a & nd & d & f & h1 & Hps & Hlf & Hs0 & Hdv & Hfs & Ha & Hd &
        Hen & Hsame & Hfin & Hcr & (nd' & Ha' & ->) & -> & Hi1 & Hi2).
  (* the nodes met are fresh *)
  assert (fresh h0 s0) as Hs0f.
  { pose proof (preserves_latest_finish h0 fn ps (Some root) Hfn (ofresh_Some h0 root Hroot)
                  h Hh) as [_ Hq].
    rewrite Hlf in Hq. by apply (Hq _ eq_refl). }
  assert (fresh h0 a) as Haf.
  { pose proof (preserves_find_start h0 duration demands fuel i (Some s0) (Some s0)
                  (time nd0 + dv) (ofresh_Some h0 s0 Hs0f) (ofresh_Some h0 s0 Hs0f) h Hh)
      as [_ Hq].
    rewrite Hfs in Hq. destruct (Hq _ eq_refl) as [Hq' _]. by apply Hq'. }
  destruct Hh as (Hsame0 & Hlv & Hln & Hfresh).
  destruct (Hfresh a nd Haf Ha) as [Hcap _].
  apply enough_Ret_inv in Hen as Hen'.
  destruct Hen' as (nd_ & dvec & cv & Ha_ & Hdvec & Hcv & Hge).
  assert (nd_ = nd) as -> by congruence.
  pose proof (all_ge_spec cv dvec) as Hspec. rewrite Hge in Hspec. destruct Hspec as [Hlen Hcov].
  pose proof (Hold i d Hd) as Hdold.
  (* the heap with the finish node *)
  assert ((h1 = h ∨
           (vecs h1 = vecs h ++ [cv] ∧ f = length (nodes h) ∧
            spliced (nodes h) (nodes h1) a nd (time nd + dv) (length (vecs h)))) ∧
          (∃ nd1, nodes h1 !! a = Some nd1 ∧ time nd1 = time nd ∧
                  capacity nd1 = capacity nd ∧ next nd1 = Some f) ∧
          (∃ nf, nodes h1 !! f = Some nf ∧ time nf = time nd + dv))
    as (Hh1 & (nd1 & Ha1 & Ht1 & Hc1 & Hn1) & Hf1).
  { destruct Hfin as [(-> & Hnext & nf & Hnf & Htf)|Hins].
    - split; [by left|]. split; [by exists nd|by exists nf].
    - destruct (insert_after_Ret_inv _ _ _ _ _ Hdl Hins)
        as (nd_ & cv_ & Ha_' & Hcv_ & -> & Hv1 & Hsp).
      assert (nd_ = nd) as -> by congruence. assert (cv_ = cv) as -> by congruence.
      split; [by right|].
      destruct Hsp as (_ & Hm & Hself & _). split.
      + eexists. split; [apply Hself|]. done.
      + eexists. split; [apply Hm|]. done. }
  assert (vecs h1 !! d = Some dvec ∧ vecs h1 !! capacity nd = Some cv) as [Hd1 Hcv1].
  { destruct Hh1 as [->|(-> & _)]; [done|]. split; by apply lookup_app_l_Some. }
  assert (h' = h1 ∨
          ∃ cv', h' = {| vecs := <[capacity nd:=cv']> (vecs h1); nodes := nodes h1 |} ∧
                 length cv' = length cv ∧
                 ∀ k c, cv !! k = Some c → cv' !! k = Some (c - default 0 (dvec !! k)))
    as Hh'.
  { destruct (consume_range_Ret_inv demands fuel i a f nd1 h1 h' Ha1 Hn1 Hcr)
      as [[_ ->]|(_ & d_ & Hd_ & Hcons)]; [by left|].
    assert (d_ = d) as -> by congruence. right.
    rewrite <- Hc1 in Hcv1.
    destruct (consume_Ret_inv a d nd1 cv dvec h1 h' Ha1 Hcv1 Hd1) as (_ & cv' & -> & Hl & Hit);
      [lia|done|].
    exists cv'. by rewrite Hc1. }
  assert (time nd' = time nd) as ->.
  { assert (nodes h' = nodes h1) as Hn by (destruct Hh' as [->|(cv' & -> & _)]; done).
    rewrite Hn, Ha1 in Ha'. congruence. }
  exists ps, s0, nd0, dv, a, nd, d, dvec, cv, f, h1, nd1.
  assert (dur !! i = Some dv) as Hdi.
  { apply (framed_duration h); [|done]. exact (conj Hsame0 (conj Hlv (conj Hln Hfresh))). }
  do 23 (split; [done|]). done.
Qed.

(** Induction over the turns of a loop that came to its end. *)
Lemma decode_loop_Ret_ind (P : list nat → list Z → list (option nat) → heap → Prop)
    (root : nat) (full : list nat) :
  (∀ done i rest starts fn h starts' fn' h',
     full = done ++ i :: rest → sound root fn h → P done starts fn h →
     schedule fuel duration predecessors demands root i (starts, fn) h
       = (Ret (starts', fn'), h') →
     P (done ++ [i]) starts' fn' h') →
  ∀ alist done starts fn h starts' fn' h',
    full = done ++ alist → sound root fn h → P done starts fn h →
    decode_loop fuel duration predecessors demands root alist (starts, fn) h
      = (Ret (starts', fn'), h') →
    sound root fn' h' ∧ P full starts' fn' h'.
Proof.
  intros Hstep alist. induction alist as [|i alist IH];
    intros done starts fn h starts' fn' h' Hfull Hs HP Hrun.
  { injection Hrun as <- <- <-. rewrite app_nil_r in Hfull. by subst. }
  cbn [decode_loop] in Hrun.
  apply bind_Ret_inv in Hrun as ([starts1 fn1] & h1 & Hsched & Hrun).
  eapply (IH (done ++ [i])); [|by eapply schedule_sound| |done].
  - by rewrite <- app_assoc.
  - by eapply Hstep.
Qed.

(** The state in which the loop is entered. *)
Lemma decode_init_Ret_inv (capacity root : nat) (starts : list Z) (fn : list (option nat))
    (h : heap) :
  doubly_linked h0 →
  decode_init duration capacity h0 = (Ret (root, (starts, fn)), h) →
  ∃ cap, vecs h0 !! capacity = Some cap ∧ root = length (nodes h0) ∧
    h = {| vecs := vecs h0 ++ [cap];
           nodes := nodes h0 ++ [{| time := 0; capacity := length (vecs h0);
                                    next := None; prev := None |}] |} ∧
    starts = replicate (length dur) 0 ∧
    fn = <[0%nat:=Some root]> (replicate (length dur) None) ∧
    (0 < length dur)%nat ∧ sound root fn h.
Proof.
  intros Hdl Hrun.
  pose proof (preserves_decode_init h0 duration capacity h0 (framed_initial h0)) as [Hh Hq].
  rewrite Hrun in Hh, Hq. simpl in Hh, Hq. destruct (Hq _ eq_refl) as [Hroot Hfn].
  unfold decode_init in Hrun.
  apply bind_Ret_inv in Hrun as (c & h1 & H1 & Hrun).
  unfold copy in H1. destruct (vecs h0 !! capacity) as [cap|] eqn:Hcap; [|done].
  injection H1 as <- <-.
  apply bind_Ret_inv in Hrun as (r & h2 & H2 & Hrun). injection H2 as <- <-. simpl in Hrun.
  apply bind_Ret_inv in Hrun as (dv & h3 & H3 & Hrun).
  apply vec_Ret_inv in H3 as [Hdv ->]. simpl in Hdv.
  assert (dv = dur) as ->.
  { apply lookup_lt_Some in Hdur as Hlt. rewrite lookup_app_l in Hdv by done. congruence. }
  apply bind_Ret_inv in Hrun as (fn0 & h3 & H4 & Hrun).
  apply store_Ret_inv in H4 as (Hlen & -> & ->). rewrite length_replicate in Hlen.
  injection Hrun as <- <- <- <-.
  exists cap. do 6 (split; [done|]). split; [done|]. split; [done|]. split; [done|].
  by apply (keeps_doubly_linked_init 0 (length (vecs h0))
              {| vecs := vecs h0 ++ [cap]; nodes := nodes h0 |}),
     (doubly_linked_same_nodes h0).
Qed.

End loop.

(** ** Start times that [decode] leaves alone *)

Lemma decode_loop_untouched (fuel duration : nat) (predecessors : list (list nat))
    (demands : list nat) (root : nat) (alist : list nat) (starts starts' : list Z)
    (fn fn' : list (option nat)) (h h' : heap) :
  decode_loop fuel duration predecessors demands root alist (starts, fn) h
    = (Ret (starts', fn'), h') →
  length starts' = length starts ∧
  (∀ i, i ∈ alist → (i < length starts)%nat) ∧
  ∀ j, j ∉ alist → starts' !! j = starts !! j.
Proof.
  revert starts fn h. induction alist as [|i alist IH]; intros starts fn h Hrun.
  { injection Hrun as <- <- <-. split; [done|]. split; [|done].
    intros i Hi. by apply elem_of_nil in Hi. }
  cbn [decode_loop] in Hrun.
  apply bind_Ret_inv in Hrun as ([starts1 fn1] & h1 & Hsched & Hrun).
  destruct (schedule_Ret_inv _ _ _ _ _ _ _ _ _ _ _ _ Hsched)
    as (ps & s0 & nd0 & dv & a & nd & d & f & h2 & _ & _ & _ & _ & _ & _ & _ & _ & _ & _ & _ &
        (nd' & _ & ->) & -> & Hi1 & Hi2).
  destruct (IH _ _ _ Hrun) as (Hlen & Hin & Hout). rewrite length_insert in Hlen, Hin.
  split; [done|]. split.
  - intros j Hj. apply elem_of_cons in Hj as [->|Hj]; [done|by apply Hin].
  - intros j Hj. apply not_elem_of_cons in Hj as [Hne Hj].
    rewrite (Hout j Hj). by rewrite list_lookup_insert_ne.
Qed.

(** X13.  When [decode] returns, the start times are as many as the
    durations, every activity of [alist] is below that number, and an activity
    that [alist] leaves out keeps the start time 0. *)
Theorem decode_skips_unlisted (fuel : nat) (alist : list nat) (duration : nat)
    (predecessors : list (list nat)) (demands : list nat) (capacity : nat)
    (h0 h : heap) (dur starts : list Z) :
  vecs h0 !! duration = Some dur →
  decode fuel alist duration predecessors demands capacity h0 = (Ret starts, h) →
  length starts = length dur ∧
  (∀ i, i ∈ alist → (i < length dur)%nat) ∧
  ∀ j, (j < length dur)%nat → j ∉ alist → starts !! j = Some 0.
Proof.
  intros Hdur Hrun. unfold decode in Hrun.
  apply bind_Ret_inv in Hrun as ([root [starts1 fn1]] & h1 & Hrun & Hret).
  injection Hret as <- <-. unfold decode_run in Hrun.
  apply bind_Ret_inv in Hrun as ([root0 [starts0 fn0]] & h2 & Hinit & Hrun).
  apply bind_Ret_inv in Hrun as ([starts2 fn2] & h3 & Hloop & Hret).
  injection Hret as <- <- <- <-.
  assert (starts0 = replicate (length dur) 0) as ->.
  { unfold decode_init in Hinit.
    apply bind_Ret_inv in Hinit as (c & h4 & H1 & Hinit).
    unfold copy in H1. destruct (vecs h0 !! capacity) as [cap|]; [|done].
    injection H1 as <- <-.
    apply bind_Ret_inv in Hinit as (r & h5 & H2 & Hinit). injection H2 as <- <-.
    apply bind_Ret_inv in Hinit as (dv & h6 & H3 & Hinit).
    apply vec_Ret_inv in H3 as [Hdv ->]. simpl in Hdv.
    apply lookup_lt_Some in Hdur as Hlt. rewrite lookup_app_l, Hdur in Hdv by done.
    injection Hdv as <-.
    apply bind_Ret_inv in Hinit as (fn & h6 & H4 & Hinit).
    apply store_Ret_inv in H4 as (_ & _ & ->). by injection Hinit as <- <- <- <-. }
  destruct (decode_loop_untouched _ _ _ _ _ _ _ _ _ _ _ _ Hloop) as (Hlen & Hin & Hout).
  rewrite length_replicate in Hlen, Hin.
  split; [done|]. split; [done|].
  intros j Hj Hnot. rewrite (Hout j Hnot). by apply lookup_replicate_2.
Qed.

(** ** Breakpoints lie at times from 0 on *)

Section times.
Context (h0 : heap) (fuel duration : nat) (predecessors : list (list nat))
        (demands : list nat) (dur : list Z).
Hypothesis Hdur : vecs h0 !! duration = Some dur.
Hypothesis Hold : ∀ i d, demands !! i = Some d → (d < length (vecs h0))%nat.
Hypothesis Hnn : nonnegative dur.

Local Abbreviation timely := (fun (starts : list Z) (h : heap) =>
  (∀ a nd, fresh h0 a → nodes h !! a = Some nd → 0 <= time nd) ∧
  (∀ j s, starts !! j = Some s → 0 <= s)).

Lemma schedule_timely (root i : nat) (starts starts' : list Z)
    (fn fn' : list (option nat)) (h h' : heap) :
  framed h0 h ∧ fresh h0 root ∧ all_fresh h0 fn ∧ doubly_linked h →
  timely starts h →
  schedule fuel duration predecessors demands root i (starts, fn) h
    = (Ret (starts', fn'), h') →
  timely starts' h'.
Proof.
  intros Hsound [Htimes Hstarts] Hrun.
  destruct (schedule_Ret_sound h0 fuel duration predecessors demands dur Hdur Hold
              root i starts starts' fn fn' h h' Hsound Hrun)
    as (ps & s0 & nd0 & dv & a & nd & d & dvec & cv & f & h1 & nd1 & Hps & Hdv & _ & _ & _ &
        Ha & Haf & _ & _ & _ & _ & _ & _ & _ & Hh1 & _ & _ & _ & _ & _ & Hh' & -> & _).
  pose proof (Htimes a nd Haf Ha) as Hta.
  pose proof (Hnn i dv Hdv) as Hdvnn.
  assert (∀ b x, fresh h0 b → nodes h1 !! b = Some x → 0 <= time x) as Htimes1.
  { destruct Hh1 as [->|(_ & _ & Hsp)]; [done|].
    intros b x Hb Hx.
    destruct (spliced_lookup _ _ _ _ _ _ _ _ Hsp Ha Hx)
      as [[_ ->]|[(-> & Ht & _)|[(_ & _ & y & Hy & Ht & _)|(_ & _ & Hy)]]].
    - simpl. lia.
    - lia.
    - rewrite Ht. by eapply Htimes.
    - by eapply Htimes. }
  split.
  - destruct Hh' as [->|(cv' & -> & _)]; done.
  - intros j s Hs. destruct (decide (j = i)) as [->|Hne].
    + apply list_lookup_insert_Some in Hs as [(_ & <- & _)|[? _]]; [lia|done].
    + rewrite list_lookup_insert_ne in Hs by done. by eapply Hstarts.
Qed.

End times.

(** X14.  With non-negative durations, on a doubly linked heap that holds
    the demand lists, no start time [decode] returns is negative. *)
Theorem decode_starts_nonnegative (fuel : nat) (alist : list nat) (duration : nat)
    (predecessors : list (list nat)) (demands : list nat) (capacity : nat)
    (h0 h : heap) (dur starts : list Z) :
  vecs h0 !! duration = Some dur →
  nonnegative dur →
  (∀ i d, demands !! i = Some d → (d < length (vecs h0))%nat) →
  doubly_linked h0 →
  decode fuel alist duration predecessors demands capacity h0 = (Ret starts, h) →
  nonnegative starts.
Proof.
  intros Hdur Hnn Hold Hdl Hrun. unfold decode in Hrun.
  apply bind_Ret_inv in Hrun as ([root [starts1 fn1]] & h1 & Hrun & Hret).
  injection Hret as -> ->. unfold decode_run in Hrun.
  apply bind_Ret_inv in Hrun as ([root0 [starts0 fn0]] & h2 & Hinit & Hrun).
  apply bind_Ret_inv in Hrun as ([starts2 fn2] & h3 & Hloop & Hret).
  injection Hret as -> -> -> ->.
  destruct (decode_init_Ret_inv h0 duration dur Hdur capacity _ _ _ _ Hdl Hinit)
    as (cap & Hcap & -> & -> & -> & -> & Hpos & Hsound).
  destruct (decode_loop_Ret_ind h0 fuel duration predecessors demands
              (fun _ starts _ h =>
                 (∀ a nd, fresh h0 a → nodes h !! a = Some nd → 0 <= time nd) ∧
                 (∀ j s, starts !! j = Some s → 0 <= s))
              (length (nodes h0)) alist) with
      (alist := alist) (done := @nil nat) (starts := replicate (length dur) 0)
      (fn := <[0%nat:=Some (length (nodes h0))]> (replicate (length dur) (@None nat)))
      (h := {| vecs := vecs h0 ++ [cap];
               nodes := nodes h0 ++ [{| time := 0; capacity := length (vecs h0);
                                        next := None; prev := None |}] |})
      (starts' := starts) (fn' := fn1) (h' := h)
    as (_ & _ & Hstarts); try done.
  - intros done i rest st fn h4 st' fn' h5 _ Hs HP Hsched.
    by eapply (schedule_timely h0 fuel duration predecessors demands dur).
  - split.
    + intros a nd Ha Hnd. simpl in Hnd.
      apply lookup_app_Some in Hnd as [Hnd|[_ Hnd]].
      * apply lookup_lt_Some in Hnd. unfold fresh in Ha. lia.
      * apply list_lookup_singleton_Some in Hnd as [_ <-]. done.
    + intros j s Hs. apply lookup_replicate in Hs as [-> _]. done.
Qed.

(** ** What the capacity lists of the breakpoints keep *)

Section vectors.
Context (h0 : heap) (fuel duration : nat) (predecessors : list (list nat))
        (demands : list nat) (dur : list Z).
Hypothesis Hdur : vecs h0 !! duration = Some dur.
Hypothesis Hold : ∀ i d, demands !! i = Some d → (d < length (vecs h0))%nat.

Local Abbreviation created := (fun (Φ : list Z → Prop) (h : heap) =>
  ∀ r v, (length (vecs h0) ≤ r)%nat → vecs h !! r = Some v → Φ v).

(** A turn of the loop takes capacity lists with [Φ] to capacity lists with
    [Ψ], when [Φ] implies [Ψ] and consuming the demand of the activity of the
    turn, where it is covered, leads from [Φ] to [Ψ]. *)
Lemma schedule_created (Φ Ψ : list Z → Prop) (root i : nat) (starts starts' : list Z)
    (fn fn' : list (option nat)) (h h' : heap) :
  (∀ v, Φ v → Ψ v) →
  (∀ d dv v v',
     demands !! i = Some d → vecs h0 !! d = Some dv →
     Φ v → covers v dv → (length dv ≤ length v)%nat → length v' = length v →
     (∀ k c, v !! k = Some c → v' !! k = Some (c - default 0 (dv !! k))) →
     Ψ v') →
  framed h0 h ∧ fresh h0 root ∧ all_fresh h0 fn ∧ doubly_linked h →
  created Φ h →
  schedule fuel duration predecessors demands root i (starts, fn) h
    = (Ret (starts', fn'), h') →
  created Ψ h'.
Proof.
  intros Hweak Hconsume Hsound Hcr Hrun.
  destruct (schedule_Ret_sound h0 fuel duration predecessors demands dur Hdur Hold
              root i starts starts' fn fn' h h' Hsound Hrun)
    as (ps & s0 & nd0 & dv & a & nd & d & dvec & cv & f & h1 & nd1 & _ & _ & _ & _ & _ &
        Ha & Haf & _ & Hd & Hdvec & Hcv & Hcap & Hlen & Hcov & Hh1 & _ & _ & _ & _ & _ &
        Hh' & _).
  pose proof (Hcr _ _ Hcap Hcv) as Hcvok.
  assert (created Φ h1) as Hcr1.
  { destruct Hh1 as [->|(Hv & _)]; [done|]. intros r v Hr Hrv. rewrite Hv in Hrv.
    apply lookup_app_Some in Hrv as [Hrv|[_ Hrv]]; [by eapply Hcr|].
    apply list_lookup_singleton_Some in Hrv as [_ <-]. done. }
  destruct Hh' as [->|(cv' & -> & Hlen' & Hitems)].
  { intros r v Hr Hrv. by eapply Hweak, Hcr1. }
  intros r v Hr Hrv. simpl in Hrv.
  destruct (decide (r = capacity nd)) as [->|Hne].
  - apply list_lookup_insert_Some in Hrv as [(_ & <- & _)|[? _]]; [|done].
    eapply (Hconsume d dvec cv cv'); try done.
    destruct Hsound as ((Hsame & _) & _). pose proof (Hold i d Hd) as Hlt.
    by rewrite <- Hsame.
  - rewrite list_lookup_insert_ne in Hrv by done. by eapply Hweak, Hcr1.
Qed.

Local Abbreviation referring := (fun h : heap =>
  ∀ a nd, fresh h0 a → nodes h !! a = Some nd → (capacity nd < length (vecs h))%nat).

Lemma schedule_referring (root i : nat) (starts starts' : list Z)
    (fn fn' : list (option nat)) (h h' : heap) :
  framed h0 h ∧ fresh h0 root ∧ all_fresh h0 fn ∧ doubly_linked h →
  referring h →
  schedule fuel duration predecessors demands root i (starts, fn) h
    = (Ret (starts', fn'), h') →
  referring h'.
Proof.
  intros Hsound Hrf Hrun.
  destruct (schedule_Ret_sound h0 fuel duration predecessors demands dur Hdur Hold
              root i starts starts' fn fn' h h' Hsound Hrun)
    as (ps & s0 & nd0 & dv & a & nd & d & dvec & cv & f & h1 & nd1 & _ & _ & _ & _ & _ &
        Ha & Haf & _ & Hd & Hdvec & Hcv & Hcap & Hlen & Hcov & Hh1 & _ & _ & _ & _ & _ &
        Hh' & _).
  assert (referring h1) as Hrf1.
  { destruct Hh1 as [->|(Hv & _ & Hsp)]; [done|].
    intros b x Hb Hx. rewrite Hv, length_app. simpl.
    destruct (spliced_lookup _ _ _ _ _ _ _ _ Hsp Ha Hx)
      as [[_ ->]|[(-> & _ & Hc & _)|[(_ & _ & y & Hy & _ & Hc & _)|(_ & _ & Hy)]]].
    - simpl. lia.
    - rewrite Hc. specialize (Hrf a nd Haf Ha). lia.
    - rewrite Hc. specialize (Hrf b y Hb Hy). lia.
    - specialize (Hrf b x Hb Hy). lia. }
  destruct Hh' as [->|(cv' & -> & _)]; [done|].
  intros b x Hb Hx. simpl in *. rewrite length_insert. by eapply Hrf1.
Qed.

Lemma decode_created (Φ : list Z → Prop) (alist : list nat) (capacity : nat)
    (cap starts : list Z) (h : heap) :
  (∀ i d dv v v',
     demands !! i = Some d → vecs h0 !! d = Some dv →
     Φ v → covers v dv → (length dv ≤ length v)%nat → length v' = length v →
     (∀ k c, v !! k = Some c → v' !! k = Some (c - default 0 (dv !! k))) →
     Φ v') →
  vecs h0 !! capacity = Some cap → Φ cap → doubly_linked h0 →
  decode fuel alist duration predecessors demands capacity h0 = (Ret starts, h) →
  ∀ a nd, fresh h0 a → nodes h !! a = Some nd →
    ∃ cv, vecs h !! Profile.capacity nd = Some cv ∧ Φ cv.
Proof.
  intros Hconsume Hcap Hok Hdl Hrun. unfold decode in Hrun.
  apply bind_Ret_inv in Hrun as ([root [starts1 fn1]] & h1 & Hrun & Hret).
  injection Hret as -> ->. unfold decode_run in Hrun.
  apply bind_Ret_inv in Hrun as ([root0 [starts0 fn0]] & h2 & Hinit & Hrun).
  apply bind_Ret_inv in Hrun as ([starts2 fn2] & h3 & Hloop & Hret).
  injection Hret as -> -> -> ->.
  destruct (decode_init_Ret_inv h0 duration dur Hdur capacity _ _ _ _ Hdl Hinit)
    as (cap' & Hcap' & -> & -> & -> & -> & Hpos & Hsound).
  assert (cap' = cap) as -> by congruence.
  destruct (decode_loop_Ret_ind h0 fuel duration predecessors demands
              (fun _ _ _ h => created Φ h ∧ referring h) (length (nodes h0)) alist) with
      (alist := alist) (done := @nil nat) (starts := replicate (length dur) 0)
      (fn := <[0%nat:=Some (length (nodes h0))]> (replicate (length dur) (@None nat)))
      (h := {| vecs := vecs h0 ++ [cap];
               nodes := nodes h0 ++ [{| time := 0; capacity := length (vecs h0);
                                        next := None; prev := None |}] |})
      (starts' := starts) (fn' := fn1) (h' := h)
    as (((_ & _ & _ & Hfresh) & _) & Hcr & Hrf); try done.
  - intros done i rest st fn h4 st' fn' h5 _ Hs [HP1 HP2] Hsched. split.
    + eapply (schedule_created Φ Φ); try done. intros d dv v v'. by apply Hconsume.
    + by eapply schedule_referring.
  - split.
    + intros r v Hr Hrv. simpl in Hrv.
      apply lookup_app_Some in Hrv as [Hrv|[_ Hrv]].
      * apply lookup_lt_Some in Hrv. lia.
      * apply list_lookup_singleton_Some in Hrv as [_ <-]. done.
    + intros a nd Ha Hnd. simpl in *. rewrite length_app. simpl.
      apply lookup_app_Some in Hnd as [Hnd|[_ Hnd]].
      * apply lookup_lt_Some in Hnd. unfold fresh in Ha. lia.
      * apply list_lookup_singleton_Some in Hnd as [_ <-]. simpl. lia.
  - intros a nd Ha Hnd. destruct (Hfresh a nd Ha Hnd) as [Hc _].
    destruct (lookup_lt_is_Some_2 (vecs h) (Profile.capacity nd)) as [cv Hcv];
      [by eapply Hrf|].
    exists cv. split; [done|]. by eapply Hcr.
Qed.

End vectors.

Lemma within_consume (cap dv v v' : list Z) :
  (∀ k d, dv !! k = Some d → 0 <= d) →
  within cap v → covers v dv → length v' = length v →
  (∀ k c, v !! k = Some c → v' !! k = Some (c - default 0 (dv !! k))) →
  within cap v'.
Proof.
  intros Hnn [Hlen Hin] Hcov Hlen' Hitems. split; [lia|].
  intros k c x Hc Hx.
  destruct (lookup_lt_is_Some_2 v k) as [y Hy]; [apply lookup_lt_Some in Hx; lia|].
  rewrite (Hitems k y Hy) in Hx. injection Hx as <-.
  pose proof (Hin k c y Hc Hy) as Hy'.
  destruct (dv !! k) as [d|] eqn:Hd; simpl; [|lia].
  pose proof (Hcov k d y Hd Hy). pose proof (Hnn k d Hd). lia.
Qed.

(** X15.  With non-negative capacities and demands, when [decode] returns
    every breakpoint it made has a capacity list as long as the capacity of
    the project, each item between 0 and that capacity: the resources are
    never overdrawn at a breakpoint. *)
Theorem decode_capacity_within (fuel : nat) (alist : list nat) (duration : nat)
    (predecessors : list (list nat)) (demands : list nat) (capacity : nat)
    (h0 h : heap) (dur cap starts : list Z) :
  vecs h0 !! duration = Some dur →
  vecs h0 !! capacity = Some cap →
  (∀ k c, cap !! k = Some c → 0 <= c) →
  (∀ i d, demands !! i = Some d →
     ∃ dv, vecs h0 !! d = Some dv ∧ ∀ k x, dv !! k = Some x → 0 <= x) →
  doubly_linked h0 →
  decode fuel alist duration predecessors demands capacity h0 = (Ret starts, h) →
  capacities_within h0 h cap.
Proof.
  intros Hdur Hcap Hcapnn Hdem Hdl Hrun.
  assert (∀ i d, demands !! i = Some d → (d < length (vecs h0))%nat) as Hold.
  { intros i d Hd. destruct (Hdem i d Hd) as (dv & Hdv & _). by eapply lookup_lt_Some. }
  unfold capacities_within.
  apply (decode_created h0 fuel duration predecessors demands dur Hdur Hold (within cap))
    with (alist := alist) (capacity := capacity) (cap := cap) (starts := starts); try done.
  - intros i d dv v v' Hd Hdv Hv Hcov Hlen Hlen' Hitems.
    destruct (Hdem i d Hd) as (dv' & Hdv' & Hnn).
    assert (dv' = dv) as -> by congruence. by eapply within_consume.
  - split; [done|]. intros k c x Hc Hx. rewrite Hc in Hx.
    injection Hx as <-. specialize (Hcapnn k c Hc). lia.
Qed.

(** ** Decoding when the capacity is never short *)

Section loads.
Context (demand : list (list Z)).
Hypothesis Hnn : ∀ i dv, demand !! i = Some dv → ∀ k x, dv !! k = Some x → 0 <= x.

Local Abbreviation item := (fun (r i : nat) => default 0 (dv ← demand !! i; dv !! r)).

Lemma item_nonneg (r i : nat) : 0 <= item r i.
Proof.
  cbv beta. destruct (demand !! i) as [dv|] eqn:Hdv; simpl; [|lia].
  destruct (dv !! r) as [x|] eqn:Hx; simpl; [|lia]. by eapply Hnn.
Qed.

Lemma load_cons (i : nat) (l : list nat) (r : nat) :
  load demand (i :: l) r = item r i + load demand l r.
Proof. done. Qed.

Lemma load_app (l1 l2 : list nat) (r : nat) :
  load demand (l1 ++ l2) r = load demand l1 r + load demand l2 r.
Proof.
  induction l1 as [|i l1 IH]; [unfold load; simpl; lia|].
  rewrite <- app_comm_cons, !load_cons, IH. lia.
Qed.

Lemma load_nonneg (l : list nat) (r : nat) : 0 <= load demand l r.
Proof.
  induction l as [|i l IH]; [unfold load; simpl; lia|].
  rewrite load_cons. pose proof (item_nonneg r i). lia.
Qed.

Lemma load_perm (l l' : list nat) (r : nat) :
  l ≡ₚ l' → load demand l r = load demand l' r.
Proof.
  induction 1 as [|x l l' _ IH|x y l|l l' l'' _ IH1 _ IH2]; rewrite ?load_cons; lia.
Qed.

Lemma load_singleton (i r : nat) : load demand [i] r = item r i.
Proof. rewrite load_cons. unfold load. simpl. lia. Qed.

(** The demand of an activity still to come fits what is left when the
    activities of [done] have taken theirs. *)
Lemma load_room (cap : list Z) (done rest : list nat) (i r : nat) (c : Z) :
  done ++ i :: rest ≡ₚ seq 0 (length demand) →
  (∀ r c, cap !! r = Some c → load demand (seq 0 (length demand)) r <= c) →
  cap !! r = Some c →
  item r i <= c - load demand done r.
Proof.
  intros Hperm Hample Hc. specialize (Hample r c Hc).
  rewrite <- (load_perm _ _ r Hperm), load_app in Hample.
  change (i :: rest) with ([i] ++ rest) in Hample.
  rewrite load_app, load_singleton in Hample.
  pose proof (load_nonneg rest r). cbv beta in *. lia.
Qed.

End loads.

Lemma max_over_ext (f g : nat → option Z) (ps : list nat) (m : Z) :
  (∀ p, p ∈ ps → f p = g p) → max_over f ps m → max_over g ps m.
Proof.
  intros Hfg [(p & Hp & Hfp) Hall]. split.
  - exists p. split; [done|]. by rewrite <- Hfg.
  - intros q Hq. destruct (Hall q Hq) as (v & Hv & Hle). exists v. by rewrite <- Hfg.
Qed.

(** In an activity order the predecessors of an activity stand before it. *)
Lemma topological_before (predecessors : list (list nat)) (done rest : list nat)
    (i j p : nat) (ps : list nat) :
  topological_order predecessors (done ++ i :: rest) →
  j ∈ done ++ [i] → predecessors !! j = Some ps → p ∈ ps →
  p ∈ done ∧ p ≠ i.
Proof.
  intros [Hperm Hpos] Hj Hps Hp.
  assert (NoDup (done ++ i :: rest)) as Hnd by (rewrite Hperm; apply NoDup_seq).
  assert (∃ k, (k ≤ length done)%nat ∧ (done ++ i :: rest) !! k = Some j) as (k & Hk & Hkj).
  { apply elem_of_app in Hj as [Hj|Hj].
    - apply list_elem_of_lookup in Hj as [k Hk]. exists k.
      pose proof (lookup_lt_Some _ _ _ Hk). split; [lia|]. by apply lookup_app_l_Some.
    - apply list_elem_of_singleton in Hj as ->. exists (length done). split; [done|].
      by apply list_lookup_middle. }
  destruct (Hpos k j ps p Hkj Hps Hp) as (k' & Hlt & Hk').
  rewrite lookup_app_l in Hk' by lia.
  split; [by eapply list_elem_of_lookup_2|].
  intros ->. apply NoDup_app in Hnd as (_ & Hdisj & _).
  apply (Hdisj i); [by eapply list_elem_of_lookup_2|by left].
Qed.

Section ample_capacity.
Context (h0 : heap) (fuel duration : nat) (predecessors : list (list nat))
        (demands : list nat) (dur cap : list Z) (demand : list (list Z)) (full : list nat)
        (root : nat).
Hypothesis Hdur : vecs h0 !! duration = Some dur.
Hypothesis Hstored : stored h0 demands demand.
Hypothesis Hample : ample demand cap.
Hypothesis Hnn : nonnegative dur.
Hypothesis Htopo : topological_order predecessors full.
Hypothesis Hlenp : length predecessors = length demand.

Lemma stored_old (i d : nat) : demands !! i = Some d → (d < length (vecs h0))%nat.
Proof.
  intros Hd. destruct Hstored as [_ Hst]. destruct (Hst i d Hd) as (dv & _ & Hdv).
  by eapply lookup_lt_Some.
Qed.

Lemma ample_nonneg (i : nat) (dv : list Z) :
  demand !! i = Some dv → ∀ k x, dv !! k = Some x → 0 <= x.
Proof. intros Hdv. destruct Hample as [Hitems _]. by destruct (Hitems i dv Hdv). Qed.

(** A capacity list from which the activities of [done] may have taken
    their demands. *)
Local Abbreviation left_by := (fun (done : list nat) (v : list Z) =>
  length v = length cap ∧
  ∀ k c x, cap !! k = Some c → v !! k = Some x → c - load demand done k <= x).

Local Abbreviation inv := (fun (done : list nat) (starts : list Z)
                               (fn : list (option nat)) (h : heap) =>
  (∀ r v, (length (vecs h0) ≤ r)%nat → vecs h !! r = Some v → left_by done v) ∧
  finish_times_recorded dur done h starts fn ∧
  (∃ ndr, nodes h !! root = Some ndr ∧ time ndr = 0) ∧
  (∀ j s, starts !! j = Some s → 0 <= s) ∧
  (∀ j, j ∈ done → recurrence_at dur predecessors starts j)).

Lemma schedule_ample (done rest : list nat) (i : nat) (starts starts' : list Z)
    (fn fn' : list (option nat)) (h h' : heap) :
  full = done ++ i :: rest →
  framed h0 h ∧ fresh h0 root ∧ all_fresh h0 fn ∧ doubly_linked h →
  inv done starts fn h →
  schedule fuel duration predecessors demands root i (starts, fn) h
    = (Ret (starts', fn'), h') →
  inv (done ++ [i]) starts' fn' h'.
Proof.
  intros Hfull Hsound (HA & HB & (ndr & Hndr & Htr) & HD & HE) Hrun.
  pose proof Hsound as (Hh & Hroot & Hfn & Hdl).
  destruct (schedule_Ret_sound h0 fuel duration predecessors demands dur Hdur stored_old
              root i starts starts' fn fn' h h' Hsound Hrun)
    as (ps & s0 & nd0 & dv & a & nd & d & dvec & cv & f & h1 & nd1 & Hps & Hdv & Hlf & Hs0 &
        Hs0f & Ha & Haf & Hsame & Hd & Hdvec & Hcv & Hcap & Hlen & Hcov & Hh1 & Ha1 & Ht1 &
        Hc1 & Hn1 & Hf1 & Hh' & Hst' & Hfn' & Hi1 & Hi2).
  destruct (schedule_finish h0 fuel duration predecessors demands dur Hdur root i starts
              starts' fn fn' h h' Hh Hrun) as (Hev & Hother & Hfin).
  destruct Hstored as [_ Hst]. destruct (Hst i d Hd) as (dvi & Hdvi & Hdvi0).
  pose proof Hh as (Hsame0 & Hlv & Hln & Hfresh).
  assert (dvec = dvi) as ->.
  { pose proof (stored_old i d Hd) as Hlt. rewrite Hsame0, Hdvi0 in Hdvec by done.
    congruence. }
  subst full. pose proof Htopo as [Hperm _]. rewrite Hlenp in Hperm.
  assert (∀ k, default 0 (dv ← demand !! i; dv !! k) = default 0 (dvi !! k)) as Hitem.
  { intros k. by rewrite Hdvi. }
  (* the capacity suffices where the search starts *)
  assert (a = s0) as ->.
  { apply Hsame. intros Hfalse.
    destruct (enough s0 d h) as [o h2] eqn:Hen. simpl in Hfalse. subst o.
    apply enough_Ret_inv in Hen as (nd_ & dv_ & cv0 & Hnd_ & Hdv_ & Hcv0 & Hge).
    pose proof (all_ge_spec cv0 dv_) as Hspec. rewrite Hge in Hspec.
    destruct Hspec as (k & x & c0 & Hx & Hc0 & Hlt).
    assert (nd_ = nd0) as -> by congruence. assert (dv_ = dvi) as -> by congruence.
    destruct (Hfresh s0 nd0 Hs0f Hs0) as [Hcapf _].
    destruct (HA _ _ Hcapf Hcv0) as [Hl0 Hbound].
    destruct (lookup_lt_is_Some_2 cap k) as [c Hc].
    { apply lookup_lt_Some in Hc0. lia. }
    pose proof (Hbound k c c0 Hc Hc0) as Hb.
    pose proof (load_room demand ample_nonneg cap done rest i k c Hperm (proj2 Hample) Hc)
      as Hroom.
    cbv beta in Hroom. rewrite Hitem, Hx in Hroom. simpl in Hroom. lia. }
  assert (nd = nd0) as -> by congruence.
  (* the start is the latest finish of the predecessors, or 0 *)
  destruct (latest_finish_Ret fn ps root ndr (Some s0) h h Hndr Hlf)
    as (_ & s' & nd' & [= <-] & Hs' & Hle & _ & Hatt & Hall).
  assert (nd' = nd0) as -> by congruence.
  assert (∀ p, p ∈ ps → p ∈ done ∧ p ≠ i) as Hbefore.
  { intros p Hp. eapply (topological_before predecessors done rest i i); try done.
    apply elem_of_app. right. by left. }
  assert (∀ p, p ∈ ps → ∃ a nda sp dp,
            fn !! p = Some (Some a) ∧ nodes h !! a = Some nda ∧
            starts !! p = Some sp ∧ dur !! p = Some dp ∧ time nda = sp + dp ∧
            0 <= sp + dp) as Hpred.
  { intros p Hp. destruct (Hbefore p Hp) as [Hpd _].
    destruct (HB p Hpd) as (ap & ndp & sp & dp & Hfp & Hap & Hsp & Hdp & Htp).
    exists ap, ndp, sp, dp. repeat split; try done.
    pose proof (HD p sp Hsp). pose proof (Hnn p dp Hdp). lia. }
  assert (0 <= time nd0) as Hstart by lia.
  assert (∀ p, p ∈ ps → plus_duration dur starts' p = plus_duration dur starts p) as Hplus.
  { intros p Hp. destruct (Hbefore p Hp) as [_ Hne]. unfold plus_duration.
    rewrite Hst'. by rewrite list_lookup_insert_ne. }
  split.
  { (* the capacity lists *)
    eapply (schedule_created h0 fuel duration predecessors demands dur Hdur stored_old
              (left_by done) (left_by (done ++ [i]))); try done.
    - intros v [Hl Hb]. split; [done|]. intros k c x Hc Hx.
      specialize (Hb k c x Hc Hx). rewrite load_app.
      pose proof (load_nonneg demand ample_nonneg [i] k). lia.
    - intros d' dv' v v' Hd' Hdv' [Hl Hb] Hcov' Hlen1 Hlen2 Hitems.
      assert (d' = d) as -> by congruence. assert (dv' = dvi) as -> by congruence.
      split; [lia|]. intros k c x Hc Hx.
      destruct (lookup_lt_is_Some_2 v k) as [y Hy]; [apply lookup_lt_Some in Hx; lia|].
      rewrite (Hitems k y Hy) in Hx. injection Hx as <-.
      specialize (Hb k c y Hc Hy). rewrite load_app, load_singleton.
      cbv beta. rewrite Hitem. lia. }
  split.
  { (* the finish nodes *)
    intros j Hj. destruct (decide (j = i)) as [->|Hne]; [done|].
    apply elem_of_app in Hj as [Hj|Hj]; [|by apply list_elem_of_singleton in Hj].
    destruct (HB j Hj) as (aj & ndj & sj & dj & Hfj & Haj & Hsj & Hdj & Htj).
    destruct (Hev aj ndj Haj) as (ndj' & Haj' & Htj').
    destruct (Hother j Hne) as [-> ->].
    exists aj, ndj', sj, dj. repeat split; try done. lia. }
  split.
  { destruct (Hev root ndr Hndr) as (ndr' & Hndr' & Htr'). exists ndr'. split; [done|lia]. }
  split.
  { intros j s Hs. rewrite Hst' in Hs. destruct (decide (j = i)) as [->|Hne].
    - apply list_lookup_insert_Some in Hs as [(_ & <- & _)|[? _]]; [lia|done].
    - rewrite list_lookup_insert_ne in Hs by done. by eapply HD. }
  (* the recurrence *)
  intros j Hj ps' Hps'. destruct (decide (j = i)) as [->|Hne].
  - assert (ps' = ps) as -> by congruence.
    assert (starts' !! i = Some (time nd0)) as Hsi.
    { rewrite Hst'. by apply list_lookup_insert_eq. }
    destruct ps as [|p0 ps].
    { rewrite Hsi. f_equal. destruct Hatt as [->|(p & _ & _ & Hp & _)]; [done|].
      by apply elem_of_nil in Hp. }
    exists (time nd0). split; [done|].
    apply (max_over_ext (plus_duration dur starts)); [intros p Hp; by rewrite Hplus|].
    assert (∀ p, p ∈ p0 :: ps → ∃ v, plus_duration dur starts p = Some v ∧ v <= time nd0 ∧
                                     0 <= v ∧
                                     ∀ b ndb, fn !! p = Some (Some b) →
                                              nodes h !! b = Some ndb → time ndb = v)
      as Hval.
    { intros p Hp. destruct (Hpred p Hp) as (ap & ndp & sp & dp & Hfp & Hap & Hsp & Hdp & Htp & Hpos).
      exists (sp + dp). unfold plus_duration. rewrite Hsp, Hdp. simpl.
      split; [done|].
      destruct (Hall p Hp) as (b & ndb & Hfb & Hb & Hle').
      assert (b = ap) as -> by congruence. assert (ndb = ndp) as -> by congruence.
      split; [lia|]. split; [done|].
      intros b' ndb' Hfb' Hb'. assert (b' = ap) as -> by congruence. congruence. }
    split.
    + destruct Hatt as [Heq|(p & b & ndb & Hp & Hfb & Hb & Htb)].
      * exists p0. split; [by left|].
        destruct (Hval p0) as (v & Hv & Hle' & Hpos & _); [by left|].
        rewrite Hv. f_equal. lia.
      * exists p. split; [done|].
        destruct (Hval p Hp) as (v & Hv & _ & _ & Hnode).
        rewrite Hv. f_equal. rewrite <- Htb. symmetry. by eapply Hnode.
    + intros p Hp. destruct (Hval p Hp) as (v & Hv & Hle' & _). by exists v.
  - apply elem_of_app in Hj as [Hj|Hj]; [|by apply list_elem_of_singleton in Hj].
    specialize (HE j Hj ps' Hps').
    assert (starts' !! j = starts !! j) as Hsj.
    { rewrite Hst'. by apply list_lookup_insert_ne. }
    destruct ps' as [|q ps']; [by rewrite Hsj|].
    destruct HE as (e & He & Hmax). exists e. split; [by rewrite Hsj|].
    apply (max_over_ext (plus_duration dur starts)); [|done].
    intros p Hp. unfold plus_duration. rewrite Hst'.
    rewrite list_lookup_insert_ne; [done|].
    intros <-.
    destruct (topological_before predecessors done rest i j i (q :: ps')) as [_ Hii];
      try done.
    apply elem_of_app. by left.
Qed.

End ample_capacity.

(** On a decodable input the call returns, given one more turn of fuel than
    there are activities. *)
Lemma decode_runs (h0 : heap) (alist : list nat) (duration : nat)
    (predecessors : list (list nat)) (demands : list nat) (capacity : nat)
    (dur cap : list Z) (fuel : nat) :
  decodable h0 alist duration predecessors demands capacity dur cap →
  (S (length alist) ≤ fuel)%nat →
  ∃ starts h,
    decode fuel alist duration predecessors demands capacity h0 = (Ret starts, h) ∧
    length starts = length dur.
Proof.
  intros (Hdur & Hcap & Hpos & Hlp & Hld & [Hperm Htopo] & Hdem) Hfuel.
  destruct fuel as [|k]; [lia|].
  destruct (decode_init_run h0 duration dur cap Hdur capacity Hcap Hpos)
    as (h1 & starts0 & fn0 & Hinit & Hch & Hls & Hlf).
  destruct (decode_loop_run h0 (S k) duration predecessors demands dur cap Hdur Hdem
              alist (length (Chain.links h0)) k eq_refl) with
      (alist := alist) (done := @nil nat) (l := [length (Chain.links h0)]) (h := h1)
      (starts := starts0) (finish_nodes := fn0)
    as (h' & starts' & fn' & Hloop & Hls'); try done.
  { lia. }
  { intros i Hi. rewrite Hperm in Hi. apply elem_of_seq in Hi as [_ Hi]. simpl in Hi.
    split; [lia|]. split; apply lookup_lt_is_Some; lia. }
  { by apply list_elem_of_singleton. }
  { intros p Hp. by apply elem_of_nil in Hp. }
  exists starts', h'. split; [|done].
  unfold decode, decode_run.
  rewrite bind_run, (bind_ret_run _ _ _ _ _ Hinit), (bind_ret_run _ _ _ _ _ Hloop).
  done.
Qed.

Lemma load_elem_le (demand : list (list Z)) (l : list nat) (i r : nat) :
  (∀ i dv, demand !! i = Some dv → ∀ k x, dv !! k = Some x → 0 <= x) →
  i ∈ l → default 0 (dv ← demand !! i; dv !! r) <= load demand l r.
Proof.
  intros Hnn Hi. apply list_elem_of_split in Hi as (l1 & l2 & ->).
  rewrite load_app, load_cons.
  pose proof (load_nonneg demand Hnn l1 r). pose proof (load_nonneg demand Hnn l2 r).
  cbv beta. lia.
Qed.

Lemma usage_le_load (starts dur : list Z) (demand : list (list Z)) (t : Z) (r : nat) :
  (∀ i dv, demand !! i = Some dv → ∀ k x, dv !! k = Some x → 0 <= x) →
  usage starts dur demand t r <= load demand (seq 0 (length starts)) r.
Proof.
  intros Hnn. unfold usage. generalize (seq 0 (length starts)). intros l.
  induction l as [|i l IH]; [unfold load; simpl; lia|].
  rewrite load_cons. rewrite fmap_cons. cbn [foldr].
  pose proof (item_nonneg demand Hnn r i) as Hitem. cbv beta in Hitem.
  destruct (active starts dur i t); lia.
Qed.

Lemma ample_decodable (h0 : heap) (alist : list nat) (duration : nat)
    (predecessors : list (list nat)) (demands : list nat) (capacity : nat)
    (dur cap : list Z) (demand : list (list Z)) :
  vecs h0 !! duration = Some dur → vecs h0 !! capacity = Some cap →
  (0 < length dur)%nat → length predecessors = length dur →
  topological_order predecessors alist →
  stored h0 demands demand → length demand = length dur → ample demand cap →
  decodable h0 alist duration predecessors demands capacity dur cap.
Proof.
  intros Hdur Hcap Hpos Hlp Htopo [Hld Hst] Hlen [Hitems Hsum].
  do 4 (split; [done|]). split; [lia|]. split; [done|].
  intros i d Hd. destruct (Hst i d Hd) as (dv & Hdv & Hdv0). exists dv. split; [done|].
  destruct (Hitems i dv Hdv) as [Hl Hnn].
  apply Forall2_same_length_lookup_2; [done|].
  intros k x c Hx Hc.
  assert (∀ i dv, demand !! i = Some dv → ∀ k x, dv !! k = Some x → 0 <= x) as Hnn'.
  { intros i' dv' Hdv'. by destruct (Hitems i' dv' Hdv'). }
  pose proof (load_elem_le demand (seq 0 (length demand)) i k Hnn') as Hle.
  rewrite Hdv in Hle. simpl in Hle. rewrite Hx in Hle. simpl in Hle.
  specialize (Hsum k c Hc).
  assert (x <= load demand (seq 0 (length demand)) k); [|lia].
  apply Hle. apply elem_of_seq. apply lookup_lt_Some in Hdv. lia.
Qed.

Lemma decode_ample_run (h0 : heap) (alist : list nat) (duration : nat)
    (predecessors : list (list nat)) (demands : list nat) (capacity : nat)
    (dur cap : list Z) (demand : list (list Z)) (fuel : nat) :
  vecs h0 !! duration = Some dur →
  vecs h0 !! capacity = Some cap →
  (0 < length dur)%nat →
  length predecessors = length dur →
  topological_order predecessors alist →
  nonnegative dur →
  stored h0 demands demand →
  length demand = length dur →
  ample demand cap →
  doubly_linked h0 →
  (S (length alist) ≤ fuel)%nat →
  ∃ starts h,
    decode fuel alist duration predecessors demands capacity h0 = (Ret starts, h) ∧
    length starts = length dur ∧
    earliest_start_recurrence dur predecessors starts ∧
    respects_precedence starts dur predecessors ∧
    resource_feasible starts dur demand cap.
Proof.
  intros Hdur Hcap Hpos Hlp Htopo Hnn Hstored Hld Hample Hdl Hfuel.
  destruct (decode_runs h0 alist duration predecessors demands capacity dur cap fuel)
    as (starts & h & Hrun & Hlen); [by eapply ample_decodable|done|].
  exists starts, h. split; [done|]. split; [done|].
  (* the run, read backwards *)
  pose proof Hrun as Hrun'. unfold decode in Hrun'.
  apply bind_Ret_inv in Hrun' as ([root [starts1 fn1]] & h1 & Hrun' & Hret).
  injection Hret as -> ->. unfold decode_run in Hrun'.
  apply bind_Ret_inv in Hrun' as ([root0 [starts0 fn0]] & h2 & Hinit & Hrun').
  apply bind_Ret_inv in Hrun' as ([starts2 fn2] & h3 & Hloop & Hret).
  injection Hret as -> -> -> ->.
  destruct (decode_init_Ret_inv h0 duration dur Hdur capacity _ _ _ _ Hdl Hinit)
    as (cap' & Hcap' & -> & -> & -> & -> & _ & Hsound).
  assert (cap' = cap) as -> by congruence.
  assert (length predecessors = length demand) as Hlpd by lia.
  assert (∀ i d, demands !! i = Some d → (d < length (vecs h0))%nat) as Hold.
  { intros i d. by eapply stored_old. }
  destruct (decode_loop_Ret_ind h0 fuel duration predecessors demands
              (fun done starts fn h =>
                 (∀ r v, (length (vecs h0) ≤ r)%nat → vecs h !! r = Some v →
                    length v = length cap ∧
                    ∀ k c x, cap !! k = Some c → v !! k = Some x →
                             c - load demand done k <= x) ∧
                 finish_times_recorded dur done h starts fn ∧
                 (∃ ndr, nodes h !! length (nodes h0) = Some ndr ∧ time ndr = 0) ∧
                 (∀ j s, starts !! j = Some s → 0 <= s) ∧
                 (∀ j, j ∈ done → recurrence_at dur predecessors starts j))
              (length (nodes h0)) alist) with
      (alist := alist) (done := @nil nat) (starts := replicate (length dur) 0)
      (fn := <[0%nat:=Some (length (nodes h0))]> (replicate (length dur) (@None nat)))
      (h := {| vecs := vecs h0 ++ [cap];
               nodes := nodes h0 ++ [{| time := 0; capacity := length (vecs h0);
                                        next := None; prev := None |}] |})
      (starts' := starts) (fn' := fn1) (h' := h)
    as (_ & _ & _ & _ & Hpos' & Hrec); try done.
  - intros done i rest st fn h4 st' fn' h5 Hfull Hs HP Hsched.
    by eapply (schedule_ample h0 fuel duration predecessors demands dur cap demand alist).
  - split.
    { intros r v Hr Hrv. simpl in Hrv.
      apply lookup_app_Some in Hrv as [Hrv|[_ Hrv]].
      - apply lookup_lt_Some in Hrv. lia.
      - apply list_lookup_singleton_Some in Hrv as [_ <-]. split; [done|].
        intros k c x Hc Hx. unfold load. simpl. assert (x = c) by congruence. lia. }
    split; [intros j Hj; by apply elem_of_nil in Hj|].
    split; [eexists; split; [by apply list_lookup_middle|done]|].
    split; [intros j s Hs; by apply lookup_replicate in Hs as [-> _]|].
    intros j Hj. by apply elem_of_nil in Hj.
  - assert (earliest_start_recurrence dur predecessors starts) as Hes.
    { intros i ps Hps. apply Hrec; [|done].
      destruct Htopo as [Hperm _]. rewrite Hperm. apply elem_of_seq.
      apply lookup_lt_Some in Hps. lia. }
    split; [done|]. split.
    + intros i ps p s sp dp Hps Hp Hs Hsp Hdp. specialize (Hes i ps Hps).
      destruct ps as [|q ps]; [by apply elem_of_nil in Hp|].
      destruct Hes as (e & He & _ & Hall). destruct (Hall p Hp) as (v & Hv & Hle).
      unfold plus_duration in Hv. rewrite Hsp, Hdp in Hv. simpl in Hv.
      assert (e = s) by congruence. assert (v = sp + dp) by congruence. lia.
    + intros t r c Hc. destruct Hample as [Hitems Hsum].
      etrans; [apply usage_le_load|].
      { intros i' dv' Hdv'. by destruct (Hitems i' dv' Hdv'). }
      rewrite Hlen, <- Hld. by apply Hsum.
Qed.

(** X16.  When the capacity holds the demands of all activities at once,
    [decode] returns on any topological order, and the start times are the
    earliest ones (the forward recurrence over the predecessors); they respect
    the precedence and the capacity. *)
Theorem decode_ample_capacity (h0 : heap) (alist : list nat) (duration : nat)
    (predecessors : list (list nat)) (demands : list nat) (capacity : nat)
    (dur cap : list Z) (demand : list (list Z)) :
  vecs h0 !! duration = Some dur →
  vecs h0 !! capacity = Some cap →
  (0 < length dur)%nat →
  length predecessors = length dur →
  topological_order predecessors alist →
  nonnegative dur →
  stored h0 demands demand →
  length demand = length dur →
  ample demand cap →
  doubly_linked h0 →
  ∃ fuel0, ∀ fuel, (fuel0 ≤ fuel)%nat →
    ∃ starts h,
      decode fuel alist duration predecessors demands capacity h0 = (Ret starts, h) ∧
      length starts = length dur ∧
      earliest_start_recurrence dur predecessors starts ∧
      respects_precedence starts dur predecessors ∧
      resource_feasible starts dur demand cap.
Proof.
  intros Hdur Hcap Hpos Hlp Htopo Hnn Hstored Hld Hample Hdl.
  exists (S (length alist)). intros fuel Hfuel. by eapply decode_ample_run.
Qed.

(** ** The decoder and the critical path calculator agree *)

Lemma max_over_unique (f : nat → option Z) (ps : list nat) (m m' : Z) :
  max_over f ps m → max_over f ps m' → m = m'.
Proof.
  intros [(p & Hp & Hfp) Hall] [(p' & Hp' & Hfp') Hall'].
  destruct (Hall p' Hp') as (v & Hv & Hle). destruct (Hall' p Hp) as (v' & Hv' & Hle').
  assert (v = m') by congruence. assert (v' = m) by congruence. lia.
Qed.

(** The earliest-start recurrence has one solution on an acyclic network. *)
Lemma earliest_start_recurrence_unique (dur : list Z) (predecessors : list (list nat))
    (est est' : list Z) :
  acyclic predecessors →
  length est = length predecessors → length est' = length predecessors →
  earliest_start_recurrence dur predecessors est →
  earliest_start_recurrence dur predecessors est' →
  est = est'.
Proof.
  intros [rank Hrank] Hlen Hlen' Hrec Hrec'.
  assert (∀ m i, rank i = m → (i < length predecessors)%nat → est !! i = est' !! i) as Heq.
  { intros m. induction (lt_wf m) as [m _ IH]. intros i Hm Hi.
    destruct (lookup_lt_is_Some_2 predecessors i Hi) as [ps Hps].
    specialize (Hrec i ps Hps). specialize (Hrec' i ps Hps).
    destruct ps as [|p ps]; [congruence|].
    destruct Hrec as (e & He & Hmax). destruct Hrec' as (e' & He' & Hmax').
    rewrite He, He'. f_equal. eapply max_over_unique; [done|].
    eapply max_over_ext; [|done].
    intros q Hq. unfold plus_duration.
    assert (est' !! q = est !! q) as ->; [|done].
    symmetry. apply (IH (rank q)); [|done|].
    - rewrite <- Hm. by eapply Hrank.
    - destruct Hmax as [_ Hall]. destruct (Hall q Hq) as (v & Hv & _).
      unfold plus_duration in Hv. destruct (est !! q) eqn:E; [|done].
      apply lookup_lt_Some in E. lia. }
  apply list_eq. intros i. destruct (decide (i < length predecessors)%nat) as [Hi|Hi].
  - by eapply Heq.
  - rewrite !(proj2 (lookup_ge_None _ _)) by lia. done.
Qed.

(** A network that has an activity order is acyclic, and its predecessors
    are activities. *)
Lemma topological_order_acyclic (predecessors : list (list nat)) (order : list nat) :
  topological_order predecessors order → acyclic predecessors ∧ in_range predecessors.
Proof.
  intros [Hperm Hpos].
  assert (NoDup order) as Hnd by (rewrite Hperm; apply NoDup_seq).
  assert (∀ i, (i < length predecessors)%nat → ∃ k, order !! k = Some i) as Hin.
  { intros i Hi. apply list_elem_of_lookup. rewrite Hperm. apply elem_of_seq. lia. }
  split.
  - exists (fun i => from_option fst 0%nat (list_find (fun x => x = i) order)).
    assert (∀ i k, order !! k = Some i →
              from_option fst 0%nat (list_find (fun x => x = i) order) = k) as Hrank.
    { intros i k Hk.
      destruct (list_find (fun x => x = i) order) as [[k' x]|] eqn:Hfind.
      - apply list_find_Some in Hfind as (Hk' & -> & _). simpl.
        by eapply NoDup_lookup.
      - apply list_find_None in Hfind. rewrite Forall_forall in Hfind.
        destruct (Hfind i); [by eapply list_elem_of_lookup_2|done]. }
    intros i ps p Hps Hp.
    destruct (Hin i) as [k Hk]; [by eapply lookup_lt_Some|].
    destruct (Hpos k i ps p Hk Hps Hp) as (k' & Hlt & Hk').
    by rewrite (Hrank i k Hk), (Hrank p k' Hk').
  - intros i ps p Hps Hp.
    destruct (Hin i) as [k Hk]; [by eapply lookup_lt_Some|].
    destruct (Hpos k i ps p Hk Hps Hp) as (k' & Hlt & Hk').
    assert (p ∈ order) as Hpin by (by eapply list_elem_of_lookup_2).
    rewrite Hperm in Hpin. apply elem_of_seq in Hpin. lia.
Qed.

(** X17.  When the capacity holds the demands of all activities at once,
    the start times [decode] returns on a network with the single sink [n-1]
    are the first vector [calculate_critical_times] returns for the same
    durations and predecessors. *)
Theorem decode_ample_earliest (h0 : heap) (alist : list nat) (duration : nat)
    (predecessors : list (list nat)) (demands : list nat) (capacity : nat)
    (dur cap : list Z) (demand : list (list Z)) :
  vecs h0 !! duration = Some dur →
  vecs h0 !! capacity = Some cap →
  (0 < length dur)%nat →
  length predecessors = length dur →
  topological_order predecessors alist →
  single_sink predecessors →
  nonnegative dur →
  stored h0 demands demand →
  length demand = length dur →
  ample demand cap →
  doubly_linked h0 →
  ∃ fuel0, ∀ fuel, (fuel0 ≤ fuel)%nat →
    ∃ starts lst h,
      decode fuel alist duration predecessors demands capacity h0 = (Ret starts, h) ∧
      CriticalPath.calculate_critical_times fuel dur predecessors None = Ret (starts, lst).
Proof.
  intros Hdur Hcap Hpos Hlp Htopo Hsink Hnn Hstored Hld Hample Hdl.
  destruct (topological_order_acyclic predecessors alist Htopo) as [Hacyc Hrange].
  pose proof Hacyc as [rank Hrank].
  exists (S (length alist) `max` S (rank (length predecessors - 1)))%nat. intros fuel Hfuel.
  destruct (decode_ample_run h0 alist duration predecessors demands capacity dur cap demand
              fuel) as (starts & h & Hrun & Hlen & Hrec & _); try done; [lia|].
  destruct (earliest_start_recurrence_run dur predecessors rank Hrank Hrange Hlp Hpos Hsink
              None fuel) as (est & lst & Hcp & Hel & Hes); [by left|lia|].
  exists starts, lst, h. split; [done|]. rewrite Hcp. do 2 f_equal.
  apply (earliest_start_recurrence_unique dur predecessors); try done; lia.
Qed.

(** ** A demand beyond the capacity *)

Lemma not_Forall2_le (dv cap : list Z) :
  length dv = length cap → ¬ Forall2 Z.le dv cap →
  ∃ k x c, dv !! k = Some x ∧ cap !! k = Some c ∧ c < x.
Proof.
  revert cap. induction dv as [|x dv IH]; intros [|c cap] Hlen Hnot; simplify_eq/=.
  { destruct Hnot. constructor. }
  destruct (decide (x <= c)) as [Hle|Hgt].
  - destruct (IH cap) as (k & x' & c' & Hx & Hc & Hlt); [done| |by exists (S k), x', c'].
    intros Hall. apply Hnot. by constructor.
  - exists 0%nat, x, c. repeat split; try done. lia.
Qed.

Lemma bind_ext {S A B} (m : M S A) (f g : A → M S B) (s : S) :
  (∀ a s', f a s' = g a s') → (m ≫= f) s = (m ≫= g) s.
Proof. intros H. rewrite !bind_run. destruct (m s) as [[a| |] s']; [apply H|done..]. Qed.

(** The search for capacity reads the demand of its activity only. *)
Lemma find_start_ext (duration : nat) (demands demands' : list nat) (f i : nat)
    (node start : option nat) (ft : Z) (h : heap) :
  demands !! i = demands' !! i →
  find_start duration demands f i node start ft h
  = find_start duration demands' f i node start ft h.
Proof.
  intros Heq. revert node start ft h.
  induction f as [|f IH]; intros node start ft h; simpl.
  all: apply bind_ext; intros _ h1.
  all: unfold index; rewrite Heq.
  all: apply bind_ext; intros d h2.
  all: apply bind_ext; intros ok h3.
  all: destruct ok; [done|].
  { done. }
  apply bind_ext; intros nd h4.
  apply bind_ext; intros snd h5.
  apply bind_ext; intros dv h6. apply IH.
Qed.

Section short.
Context (h0 : heap) (fuel : nat) (duration : nat) (predecessors : list (list nat))
        (demands : list nat) (dur cap : list Z).
Hypothesis Hdur : vecs h0 !! duration = Some dur.

Local Abbreviation chained := (chained (vecs h0) cap).

(** No capacity list created by the call exceeds the capacity. *)
Local Abbreviation bounded := (fun h : heap =>
  ∀ r v, (length (vecs h0) ≤ r)%nat → vecs h !! r = Some v →
    length v = length cap ∧ ∀ k c x, cap !! k = Some c → v !! k = Some x → x <= c).

(** [schedule_run] for an activity whose demand is within the capacity,
    whatever the demands of the others. *)
Lemma schedule_run_at (l : list nat) (h : heap) (root i d : nat) (dv : list Z)
    (starts : list Z) (finish_nodes : list (option nat)) (ps : list nat) (k : nat) :
  fuel = S k →
  chained l (links h) (vecs h) → root ∈ l →
  predecessors !! i = Some ps →
  (∀ p, p ∈ ps → ∃ a, finish_nodes !! p = Some (Some a) ∧ a ∈ l) →
  (i < length dur)%nat → length starts = length dur → length finish_nodes = length dur →
  demands !! i = Some d → vecs h0 !! d = Some dv → Forall2 Z.le dv cap →
  (length l ≤ fuel)%nat →
  ∃ l' h' starts' f,
    schedule fuel duration predecessors demands root i (starts, finish_nodes) h
      = (Ret (starts', <[i:=Some f]> finish_nodes), h') ∧
    chained l' (links h') (vecs h') ∧ (∀ b, b ∈ l → b ∈ l') ∧ f ∈ l' ∧
    (length l' ≤ S (length l))%nat ∧ length starts' = length starts.
Proof.
  intros Hfuel Hch Hroot Hps Hpred Hi Hls Hlf Hd Hdv Hle Hlen.
  destruct (lookup_lt_is_Some_2 dur i Hi) as [x Hx].
  destruct (latest_finish_run h0 cap l h finish_nodes ps root Hch Hroot Hpred)
    as (s & Hlat & Hs).
  destruct (chained_deref h0 cap l h s Hch Hs) as (snd & Hsnd & _).
  pose proof (vec_index_run h duration i dur x (chained_old h0 cap l h _ _ Hch Hdur) Hx) as Hvx.
  apply list_elem_of_split in Hs as (l1 & l2 & Hl).
  assert (∀ i' d', replicate (S i) d !! i' = Some d' →
            ∃ dv, vecs h0 !! d' = Some dv ∧ Forall2 Z.le dv cap) as Hdem.
  { intros i' d' Hd'. apply lookup_replicate in Hd' as [-> _]. by exists dv. }
  assert (replicate (S i) d !! i = Some d) as Hd1 by (apply lookup_replicate_2; lia).
  destruct (find_start_run h0 duration (replicate (S i) d) dur cap Hdur Hdem l h i d dv x fuel
              Hch Hd1 Hdv Hle Hx l2 l1 s (time snd + x) Hl)
    as (l1' & a & l2' & ft' & Hl' & Hfind).
  { rewrite Hl, length_app in Hlen. simpl in Hlen. lia. }
  rewrite <- (find_start_ext duration demands) in Hfind by congruence.
  assert (a ∈ l) as Ha by (rewrite Hl'; apply elem_of_app; right; by left).
  destruct (chained_deref h0 cap l h a Hch Ha) as (nd & Hnd & Hlink).
  destruct (finish_node_run h0 duration (replicate (S i) d) dur cap Hdur Hdem l h l1' l2' a
              nd ft' Hch Hl' Hlink)
    as (l' & h1 & f & t & c & Hfin & Hch1 & Hsub & Ha' & Hf & Hne & HL1 & Hlen').
  destruct (consume_range_run h0 demands cap l' h1 i d a f dv t c k Hch1 Hd Hdv Hle Ha' Hne
              HL1)
    as (h2 & Hcons & Hch2 & HL2).
  destruct (deref_run h2 a t c (Some f) HL2) as (snd2 & Hsnd2 & _).
  exists l', h2, (<[i:=time snd2]> starts), f. split.
  - unfold schedule.
    rewrite (bind_ret_run _ _ _ _ _ (index_run _ _ _ _ Hps)).
    rewrite (bind_ret_run _ _ _ _ _ Hlat), (bind_ret_run _ _ _ _ _ Hsnd).
    rewrite (bind_ret_run _ _ _ _ _ Hvx), (bind_ret_run _ _ _ _ _ Hfind).
    cbv beta iota.
    rewrite (bind_ret_run _ _ _ _ _ Hnd), (bind_ret_run _ _ _ _ _ Hfin).
    rewrite Hfuel, (bind_ret_run _ _ _ _ _ Hcons).
    change (attr (Some a)) with (deref a). rewrite (bind_ret_run _ _ _ _ _ Hsnd2).
    unfold store. rewrite Hls, Hlf. case_decide; [|lia].
    by rewrite bind_run, ret_run, bind_run, ret_run.
  - split; [done|]. split; [done|]. split; [done|]. split; [done|]. by rewrite length_insert.
Qed.

(** Where no breakpoint from [s] on has room for the demand, the search
    walks off the end of the list: [node.next] is [None] and reading its
    [time] raises [AttributeError]. *)
Lemma find_start_short (l : list nat) (h : heap) (i d : nat) (dv : list Z) (x : Z) :
  chained l (links h) (vecs h) → bounded h →
  demands !! i = Some d → vecs h0 !! d = Some dv → length dv = length cap →
  (∃ k y c, dv !! k = Some y ∧ cap !! k = Some c ∧ c < y) →
  dur !! i = Some x →
  ∀ l2 l1 s ft f, l = l1 ++ s :: l2 → (length l2 < f)%nat →
    find_start duration demands f i (Some s) (Some s) ft h = (Raise AttributeError, h).
Proof.
  intros Hch Hbd Hd Hdv Hlen (k & y & c0 & Hy & Hc0 & Hlt) Hx l2.
  induction l2 as [|b l2 IH]; intros l1 s ft f Hl Hf.
  all: destruct (chained_lookup _ _ l _ _ l1 _ s Hch Hl)
         as (t & c & cv & HL & Hc & HV & Hlenc & Hfull).
  all: assert (s ∈ l) as Hs by (rewrite Hl; apply elem_of_app; right; by left).
  all: destruct (chained_deref h0 cap l h s Hch Hs) as (nd & Hnd & Hlink).
  all: pose proof (chained_old h0 cap l h d dv Hch Hdv) as Hdv'.
  all: destruct (enough_run h s d t c _ cv dv HL HV Hdv') as (ok & Hok & _); [lia|].
  all: assert (ok = false) as ->.
  1,3: destruct ok; [|done];
       apply enough_Ret_inv in Hok as (nd_ & dv_ & cv_ & Hnd_ & Hdv_ & Hcv_ & Hge);
       pose proof (all_ge_spec cv_ dv_) as Hspec; rewrite Hge in Hspec;
       destruct Hspec as [_ Hcov];
       apply links_lookup in HL as (nd1 & Hnd1 & _ & Hc1 & _);
       assert (nd_ = nd1) as -> by congruence;
       assert (dv_ = dv) as -> by congruence;
       rewrite Hc1, HV in Hcv_; injection Hcv_ as <-;
       destruct (Hbd c cv Hc HV) as [_ Hle];
       destruct (lookup_lt_is_Some_2 cv k) as [z Hz];
         [apply lookup_lt_Some in Hc0; lia|];
       pose proof (Hcov k y z Hy Hz); pose proof (Hle k c0 z Hc0 Hz); lia.
  all: destruct f as [|f]; [lia|].
  all: cbn [find_start].
  all: rewrite (bind_ret_run _ _ _ _ _ Hnd), (bind_ret_run _ _ _ _ _ (index_run _ _ _ _ Hd)).
  all: simpl call; rewrite (bind_ret_run _ _ _ _ _ Hok).
  all: rewrite (bind_ret_run _ _ _ _ _ Hnd).
  all: rewrite HL in Hlink; injection Hlink as _ _ Hnext; simpl in Hnext; rewrite <- Hnext.
  - done.
  - assert (b ∈ l) as Hb.
    { rewrite Hl. apply elem_of_app. right. right. by left. }
    destruct (chained_deref h0 cap l h b Hch Hb) as (snd & Hsnd & _).
    rewrite (bind_ret_run _ _ _ _ _ Hsnd).
    rewrite (bind_ret_run _ _ _ _ _
               (vec_index_run h duration i dur x (chained_old h0 cap l h _ _ Hch Hdur) Hx)).
    apply (IH (l1 ++ [s]) b); [by rewrite <- app_assoc|simpl in Hf; lia].
Qed.

End short.

Section short_loop.
Context (h0 : heap) (fuel : nat) (duration : nat) (predecessors : list (list nat))
        (demands : list nat) (dur cap : list Z).
Hypothesis Hdur : vecs h0 !! duration = Some dur.
Hypothesis Hdemands : ∀ j d, demands !! j = Some d →
  ∃ dv, vecs h0 !! d = Some dv ∧ length dv = length cap ∧ ∀ k x, dv !! k = Some x → 0 <= x.

Local Abbreviation chained := (chained (vecs h0) cap).
Local Abbreviation bounded := (fun h : heap =>
  ∀ r v, (length (vecs h0) ≤ r)%nat → vecs h !! r = Some v →
    length v = length cap ∧ ∀ k c x, cap !! k = Some c → v !! k = Some x → x <= c).
Local Abbreviation sound := (fun (root : nat) (fn : list (option nat)) (h : heap) =>
  framed h0 h ∧ fresh h0 root ∧ all_fresh h0 fn ∧ doubly_linked h).

Lemma demands_old (j d : nat) : demands !! j = Some d → (d < length (vecs h0))%nat.
Proof. intros Hd. destruct (Hdemands j d Hd) as (dv & Hdv & _). by eapply lookup_lt_Some. Qed.

Lemma schedule_short (l : list nat) (h : heap) (root i d : nat) (dv : list Z)
    (starts : list Z) (fn : list (option nat)) (ps : list nat) :
  chained l (links h) (vecs h) → bounded h → root ∈ l →
  predecessors !! i = Some ps →
  (∀ p, p ∈ ps → ∃ a, fn !! p = Some (Some a) ∧ a ∈ l) →
  (i < length dur)%nat →
  demands !! i = Some d → vecs h0 !! d = Some dv → ¬ Forall2 Z.le dv cap →
  (length l ≤ fuel)%nat →
  schedule fuel duration predecessors demands root i (starts, fn) h
    = (Raise AttributeError, h).
Proof.
  intros Hch Hbd Hroot Hps Hpred Hi Hd Hdv Hnot Hlen.
  destruct (Hdemands i d Hd) as (dv' & Hdv' & Hlendv & _).
  assert (dv' = dv) as -> by congruence.
  destruct (lookup_lt_is_Some_2 dur i Hi) as [x Hx].
  destruct (latest_finish_run h0 cap l h fn ps root Hch Hroot Hpred) as (s & Hlat & Hs).
  destruct (chained_deref h0 cap l h s Hch Hs) as (snd & Hsnd & _).
  pose proof (vec_index_run h duration i dur x (chained_old h0 cap l h _ _ Hch Hdur) Hx) as Hvx.
  apply list_elem_of_split in Hs as (l1 & l2 & Hl).
  pose proof (find_start_short h0 duration demands dur cap Hdur l h i d dv x Hch Hbd Hd Hdv
                Hlendv (not_Forall2_le dv cap Hlendv Hnot) Hx l2 l1 s (time snd + x) fuel Hl)
    as Hfind.
  unfold schedule.
  rewrite (bind_ret_run _ _ _ _ _ (index_run _ _ _ _ Hps)).
  rewrite (bind_ret_run _ _ _ _ _ Hlat), (bind_ret_run _ _ _ _ _ Hsnd).
  rewrite (bind_ret_run _ _ _ _ _ Hvx), bind_run, Hfind; [done|].
  rewrite Hl, length_app in Hlen. simpl in Hlen. lia.
Qed.

Lemma decode_loop_short (full : list nat) (root k : nat) :
  fuel = S k → (length full ≤ fuel)%nat →
  (∀ i, i ∈ full → (i < length dur)%nat ∧ is_Some (predecessors !! i) ∧
                   is_Some (demands !! i)) →
  (∀ j i ps p, full !! j = Some i → predecessors !! i = Some ps → p ∈ ps →
     ∃ j', (j' < j)%nat ∧ full !! j' = Some p) →
  ∀ alist done l h starts fn,
    full = done ++ alist →
    chained l (links h) (vecs h) → root ∈ l → (length l ≤ S (length done))%nat →
    length starts = length dur → length fn = length dur →
    (∀ p, p ∈ done → ∃ a, fn !! p = Some (Some a) ∧ a ∈ l) →
    sound root fn h → bounded h →
    (∃ i d dv, i ∈ alist ∧ demands !! i = Some d ∧ vecs h0 !! d = Some dv ∧
               ¬ Forall2 Z.le dv cap) →
    ∃ h', decode_loop fuel duration predecessors demands root alist (starts, fn) h
            = (Raise AttributeError, h').
Proof.
  intros Hfuel Hlen Hin Htopo alist.
  induction alist as [|j alist IH];
    intros done l h starts fn Hfull Hch Hroot Hl Hls Hlf Hfn Hsound Hbd Hover.
  { destruct Hover as (i & _ & _ & Hi & _). by apply elem_of_nil in Hi. }
  destruct (Hin j) as (Hj & [ps Hps] & [dj Hdj]).
  { rewrite Hfull. apply elem_of_app. right. by left. }
  destruct (Hdemands j dj Hdj) as (dvj & Hdvj & Hlenj & Hnnj).
  assert (full !! length done = Some j) as Hpos.
  { rewrite Hfull. by apply list_lookup_middle. }
  assert (∀ p, p ∈ ps → ∃ a, fn !! p = Some (Some a) ∧ a ∈ l) as Hpred.
  { intros p Hp. destruct (Htopo _ j ps p Hpos Hps Hp) as (j' & Hj' & Hp').
    apply Hfn. rewrite Hfull, lookup_app_l in Hp' by done.
    by eapply list_elem_of_lookup_2. }
  assert (length l ≤ fuel)%nat as Hlfuel.
  { rewrite Hfull, length_app in Hlen. simpl in Hlen. lia. }
  cbn [decode_loop].
  destruct (decide (Forall2 Z.le dvj cap)) as [Hfits|Hnot].
  - destruct (schedule_run_at h0 fuel duration predecessors demands dur cap Hdur
                l h root j dj dvj starts fn ps k Hfuel Hch Hroot Hps Hpred Hj Hls Hlf Hdj Hdvj
                Hfits Hlfuel)
      as (l' & h1 & starts1 & f & Hstep & Hch1 & Hsub & Hf & Hl' & Hls1).
    rewrite (bind_ret_run _ _ _ _ _ Hstep).
    apply (IH (done ++ [j]) l' h1).
    + by rewrite Hfull, <- app_assoc.
    + done.
    + by apply Hsub.
    + rewrite length_app. simpl. lia.
    + lia.
    + by rewrite length_insert.
    + intros p Hp. destruct (decide (p = j)) as [->|Hne].
      * exists f. split; [|done]. apply list_lookup_insert_eq. lia.
      * apply elem_of_app in Hp as [Hp|Hp]; [|by apply list_elem_of_singleton in Hp].
        destruct (Hfn p Hp) as (a & Ha & Hal). exists a.
        rewrite list_lookup_insert_ne by done. split; [done|]. by apply Hsub.
    + by eapply (schedule_sound h0).
    + eapply (schedule_created h0 fuel duration predecessors demands dur Hdur demands_old
                (fun v => length v = length cap ∧
                          ∀ k c x, cap !! k = Some c → v !! k = Some x → x <= c)
                (fun v => length v = length cap ∧
                          ∀ k c x, cap !! k = Some c → v !! k = Some x → x <= c));
        try done.
      intros d' dv' v v' Hd' Hdv' [Hlv Hle] Hcov Hl1 Hl2 Hitems.
      destruct (Hdemands j d' Hd') as (dv'' & Hdv'' & _ & Hnn'').
      assert (dv'' = dv') as -> by congruence.
      split; [lia|]. intros k0 c x Hc Hx.
      destruct (lookup_lt_is_Some_2 v k0) as [y Hy]; [apply lookup_lt_Some in Hx; lia|].
      rewrite (Hitems k0 y Hy) in Hx. injection Hx as <-.
      specialize (Hle k0 c y Hc Hy).
      destruct (dv' !! k0) as [z|] eqn:Hz; simpl; [|lia].
      specialize (Hnn'' k0 z Hz). lia.
    + destruct Hover as (i & d & dv & Hi & Hd & Hdv & Hnot).
      exists i, d, dv. split; [|done].
      apply elem_of_cons in Hi as [->|Hi]; [|done].
      assert (d = dj) as -> by congruence. assert (dv = dvj) as -> by congruence. done.
  - exists h. rewrite bind_run.
    by rewrite (schedule_short l h root j dj dvj starts fn ps Hch Hbd Hroot Hps Hpred Hj
                  Hdj Hdvj Hnot Hlfuel).
Qed.

End short_loop.

(** X18.  When some activity demands more of a resource than the capacity
    of the project, [decode] on a topological order, all demands being
    non-negative with one item per resource, raises [AttributeError]: the
    search for a breakpoint with enough capacity runs past the last
    breakpoint, to [None]. *)
Theorem decode_overdemand_raises (h0 : heap) (alist : list nat) (duration : nat)
    (predecessors : list (list nat)) (demands : list nat) (capacity : nat)
    (dur cap : list Z) (i d : nat) (dv : list Z) (fuel : nat) :
  vecs h0 !! duration = Some dur →
  vecs h0 !! capacity = Some cap →
  (0 < length dur)%nat →
  length predecessors = length dur →
  length demands = length dur →
  topological_order predecessors alist →
  (∀ j d, demands !! j = Some d →
     ∃ dv, vecs h0 !! d = Some dv ∧ length dv = length cap ∧
           ∀ k x, dv !! k = Some x → 0 <= x) →
  doubly_linked h0 →
  demands !! i = Some d → vecs h0 !! d = Some dv →
  (∃ k x c, dv !! k = Some x ∧ cap !! k = Some c ∧ c < x) →
  (S (length alist) ≤ fuel)%nat →
  ∃ h, decode fuel alist duration predecessors demands capacity h0
         = (Raise AttributeError, h).
Proof.
  intros Hdur Hcap Hpos Hlp Hld [Hperm Htopo] Hdemands Hdl Hd Hdv (k & x & c & Hx & Hc & Hlt)
    Hfuel.
  destruct fuel as [|f]; [lia|].
  destruct (decode_init_run h0 duration dur cap Hdur capacity Hcap Hpos)
    as (h1 & starts0 & fn0 & Hinit & Hch & Hls & Hlf).
  destruct (decode_init_Ret_inv h0 duration dur Hdur capacity _ _ _ _ Hdl Hinit)
    as (cap' & Hcap' & Hroot & Hh1 & _ & _ & _ & Hsound).
  assert (cap' = cap) as -> by congruence.
  rewrite links_length in Hinit, Hch, Hsound.
  destruct (decode_loop_short h0 (S f) duration predecessors demands dur cap Hdur Hdemands
              alist (length (nodes h0)) f eq_refl) with
      (alist := alist) (done := @nil nat) (l := [length (nodes h0)]) (h := h1)
      (starts := starts0) (fn := fn0) as [h' Hloop]; try done.
  { lia. }
  { intros j Hj. rewrite Hperm in Hj. apply elem_of_seq in Hj as [_ Hj]. simpl in Hj.
    split; [lia|]. split; apply lookup_lt_is_Some; lia. }
  { by apply list_elem_of_singleton. }
  { intros p Hp. by apply elem_of_nil in Hp. }
  { subst h1. intros r v Hr Hrv. simpl in Hrv.
    apply lookup_app_Some in Hrv as [Hrv|[_ Hrv]].
    - apply lookup_lt_Some in Hrv. lia.
    - apply list_lookup_singleton_Some in Hrv as [_ <-]. split; [done|].
      intros k0 c0 x0 Hc0 Hx0. assert (x0 = c0) by congruence. lia. }
  { exists i, d, dv. split; [|split; [done|split; [done|]]].
    - rewrite Hperm. apply elem_of_seq. apply lookup_lt_Some in Hd. lia.
    - intros Hall. rewrite Forall2_lookup in Hall. specialize (Hall k).
      rewrite Hx, Hc in Hall. inversion Hall; subst. lia. }
  exists h'. unfold decode, decode_run.
  rewrite bind_run, bind_run, Hinit. simpl. rewrite bind_run, Hloop. done.
Qed.

(** ** A project of no activity *)

(** X19.  On a project of no activity (an empty duration list) [decode]
    raises [IndexError] at [finish_nodes[0] = root], having made the root
    breakpoint and the copy of the capacity list. *)
Theorem decode_empty_project (fuel : nat) (alist : list nat) (duration : nat)
    (predecessors : list (list nat)) (demands : list nat) (capacity : nat)
    (h0 : heap) (cap : list Z) :
  vecs h0 !! duration = Some [] →
  vecs h0 !! capacity = Some cap →
  decode fuel alist duration predecessors demands capacity h0 =
    (Raise IndexError,
     {| vecs := vecs h0 ++ [cap];
        nodes := nodes h0 ++ [{| time := 0; capacity := length (vecs h0);
                                 next := None; prev := None |}] |}).
Proof.
  intros Hdur Hcap. unfold decode, decode_run, decode_init.
  rewrite !bind_run. unfold copy. rewrite Hcap.
  rewrite !bind_run. simpl.
  rewrite !bind_run. unfold vec. simpl.
  apply lookup_lt_Some in Hdur as Hlt. rewrite lookup_app_l, Hdur by done.
  rewrite !bind_run. done.
Qed.

(** ** From the sampler to the decoder *)

Lemma topological_order_length (predecessors : list (list nat)) (order : list nat) :
  topological_order predecessors order → length order = length predecessors.
Proof. intros [Hperm _]. by rewrite Hperm, length_seq. Qed.

(** X20.  The orders of the sampler are orders [decode] accepts: on an
    acyclic network whose predecessors are all activities, when no activity
    demands more of a resource than the capacity of the project, [decode]
    returns a start time for every activity on the order [random] returns and
    on the order [min_rule] returns. *)
Theorem sampled_order_decodes {R : Type} (h0 : heap) (duration : nat)
    (predecessors : list (list nat)) (demands : list nat) (capacity : nat)
    (dur cap : list Z) (randbelow : nat → R → nat * R) (rule : nat → Z) :
  vecs h0 !! duration = Some dur →
  vecs h0 !! capacity = Some cap →
  (0 < length dur)%nat →
  length predecessors = length dur →
  length demands = length dur →
  in_range predecessors →
  acyclic predecessors →
  (∀ i d, demands !! i = Some d →
     ∃ dv, vecs h0 !! d = Some dv ∧ Forall2 Z.le dv cap) →
  (∀ m r, (0 < m)%nat → ((randbelow m r).1 < m)%nat) →
  ∃ fuel0, ∀ fuel r, (fuel0 ≤ fuel)%nat →
    (∃ order r' starts h,
       random (Sampler.init predecessors) fuel randbelow r = (Ret order, r') ∧
       decode fuel order duration predecessors demands capacity h0 = (Ret starts, h) ∧
       length starts = length dur) ∧
    (∃ order r' starts h,
       min_rule (Sampler.init predecessors) fuel rule r = (Ret order, r') ∧
       decode fuel order duration predecessors demands capacity h0 = (Ret starts, h) ∧
       length starts = length dur).
Proof.
  intros Hdur Hcap Hpos Hlp Hld Hrange Hacyc Hdem Hbelow.
  exists (S (length predecessors)). intros fuel r Hfuel.
  assert (∀ pick, selects pick →
            ∃ order r' starts h,
              _gen (Sampler.init predecessors) fuel pick r = (Ret order, r') ∧
              decode fuel order duration predecessors demands capacity h0
                = (Ret starts, h) ∧
              length starts = length dur) as Hboth.
  { intros pick Hpick.
    destruct (gen_run predecessors pick fuel r Hrange Hacyc Hpick)
      as (order & r' & Hgen & Htopo); [lia|].
    destruct (decode_runs h0 order duration predecessors demands capacity dur cap fuel)
      as (starts & h & Hrun & Hlen).
    - by repeat (split; [done|]).
    - rewrite (topological_order_length _ _ Htopo). lia.
    - by exists order, r', starts, h. }
  split.
  - apply Hboth. by apply choice_selects.
  - apply Hboth. apply min_pick_selects.
Qed.

(** ** The further properties on small cases *)

Ltac case_lists :=
  unfold Cases.knot_predecessors, Cases.knot_durations, Cases.snarl_predecessors,
    Cases.roomy_demand in *;
  network_cases.

Lemma tight_network :
  in_range Examples.tight_predecessors ∧ acyclic Examples.tight_predecessors ∧
  single_source Examples.tight_predecessors ∧ single_sink Examples.tight_predecessors.
Proof.
  split; [intros i ps p Hi Hp; network_cases; simpl; lia|].
  split; [exists id; intros i ps p Hi Hp; network_cases; simpl; lia|].
  split; [intros i ps Hi Hne; by network_cases|].
  intros i Hi. simpl in Hi.
  destruct i as [|[|[|[|i]]]];
    [exists 1%nat, [0%nat]|exists 3%nat, [1%nat]|exists 4%nat, [2; 3]%nat
    |exists 4%nat, [2; 3]%nat|lia];
    (split; [done|]); repeat constructor.
Qed.

Lemma doubly_linked_no_node (h : heap) : nodes h = [] → doubly_linked h.
Proof.
  intros Hn. split; intros a nd b Ha; by rewrite Hn, lookup_nil in Ha.
Qed.

Lemma lone_doubly_linked : doubly_linked Cases.lone_heap.
Proof.
  split; intros a nd b Ha Hb; (destruct a as [|a]; simpl in Ha; [|done]);
    injection Ha as <-; discriminate Hb.
Qed.

Lemma chain_topological :
  topological_order Examples.chain_predecessors Examples.chain_order.
Proof.
  split; [done|]. intros k i ps p Hk Hi Hp. network_cases; earlier_position.
Qed.

Lemma chain_references_old (i d : nat) :
  Examples.chain_demand_refs !! i = Some d → (d < 6)%nat.
Proof. intros Hd. network_cases; lia. Qed.

Lemma singleton_nonnegative (x : Z) : 0 <= x → ∀ k y, [x] !! k = Some y → 0 <= y.
Proof.
  intros Hx k y Hy. destruct k as [|k]; simpl in Hy; [|done].
  injection Hy as <-. done.
Qed.

Lemma roomy_stored :
  stored Cases.roomy_heap Examples.chain_demand_refs Cases.roomy_demand.
Proof.
  split; [done|]. intros i d Hd. network_cases; eexists; split; reflexivity.
Qed.

Lemma roomy_ample : ample Cases.roomy_demand [2].
Proof.
  split.
  - intros i dv Hi. case_lists; (split; [done|]); apply singleton_nonnegative; lia.
  - intros r c Hc. destruct r as [|r]; simpl in Hc; [|done].
    injection Hc as <-. vm_compute. discriminate.
Qed.

Lemma successors_twice_witness :
  (∀ i ps, Examples.tight_predecessors !! i = Some ps →
     ∃ qs, successors_by_predecessors
             (successors_by_predecessors Examples.tight_predecessors) !! i = Some qs ∧
           ascending qs ∧ ∀ p, p ∈ qs ↔ p ∈ ps) ∧
  ((∀ i ps, Examples.tight_predecessors !! i = Some ps → ascending ps) →
   successors_by_predecessors (successors_by_predecessors Examples.tight_predecessors)
     = Examples.tight_predecessors).
Proof.
  apply (successors_twice Examples.tight_predecessors).
  intros i ps p Hi Hp. network_cases; simpl; lia.
Defined.

Lemma latest_finish_recurrence_witness :
  ∃ fuel0, ∀ fuel, (fuel0 ≤ fuel)%nat →
    ∃ est lst,
      CriticalPath.calculate_critical_times fuel Examples.chain_durations
        Examples.chain_predecessors None = Ret (est, lst) ∧
      length lst = length Examples.chain_durations ∧
      latest_finish_recurrence Examples.chain_durations Examples.chain_predecessors
        est lst.
Proof.
  destruct chain_network_well_formed
    as (Hpos & Hlen & Hrange & Hacyc & Hsource & Hsink & _).
  apply (latest_finish_recurrence_holds Examples.chain_durations
           Examples.chain_predecessors None Hpos Hlen Hrange Hacyc Hsource Hsink).
  by left.
Defined.

Lemma sink_start_bounds_finishes_witness :
  ∃ fuel0, ∀ fuel, (fuel0 ≤ fuel)%nat →
    ∃ est lst,
      CriticalPath.calculate_critical_times fuel Examples.chain_durations
        Examples.chain_predecessors None = Ret (est, lst) ∧
      length est = length Examples.chain_durations ∧
      finishes_by_sink Examples.chain_durations est.
Proof.
  destruct chain_network_well_formed
    as (Hpos & Hlen & Hrange & Hacyc & _ & Hsink & Hnn).
  apply (sink_start_bounds_finishes Examples.chain_durations
           Examples.chain_predecessors None Hpos Hlen Hrange Hacyc Hsink Hnn).
  by left.
Defined.

Lemma critical_times_cycle_witness :
  CriticalPath.calculate_critical_times 7 Cases.knot_durations Cases.knot_predecessors
    None = Timeout.
Proof.
  apply (critical_times_cycle Cases.knot_durations Cases.knot_predecessors None
           (fun i => (i < 2)%nat) 7).
  - intros i ps p Hi Hp. case_lists; simpl; lia.
  - reflexivity.
  - simpl. lia.
  - intros i Hi.
    destruct i as [|[|i]]; [exists [1%nat], 1%nat|exists [0%nat], 0%nat|lia];
      (split; [done|]); (split; [by left|lia]).
  - simpl. lia.
Defined.

Lemma sampler_returns_witness :
  (∃ order r',
     Sampler.random (Sampler.init Cases.snarl_predecessors) 3
       (fun _ (r : unit) => (0%nat, r)) tt = (Ret order, r') ∧
     emitted Cases.snarl_predecessors order) ∧
  (∃ order r',
     Sampler.min_rule (Sampler.init Cases.snarl_predecessors) 3
       (fun i => - Z.of_nat i) tt = (Ret order, r') ∧
     emitted Cases.snarl_predecessors order).
Proof.
  apply (sampler_returns Cases.snarl_predecessors (fun _ (r : unit) => (0%nat, r))
           (fun i => - Z.of_nat i) 3 tt).
  - intros m r Hm. simpl. lia.
  - simpl. lia.
Defined.

Lemma sampler_omits_cycles_witness :
  (∃ order r',
     Sampler.random (Sampler.init Cases.snarl_predecessors) 3
       (fun _ (r : unit) => (0%nat, r)) tt = (Ret order, r') ∧
     ∀ i, i = 1%nat ∨ i = 2%nat → i ∉ order) ∧
  (∃ order r',
     Sampler.min_rule (Sampler.init Cases.snarl_predecessors) 3
       (fun i => - Z.of_nat i) tt = (Ret order, r') ∧
     ∀ i, i = 1%nat ∨ i = 2%nat → i ∉ order).
Proof.
  apply (sampler_omits_cycles Cases.snarl_predecessors (fun _ (r : unit) => (0%nat, r))
           (fun i => - Z.of_nat i) 3 tt (fun i => i = 1%nat ∨ i = 2%nat)).
  - intros m r Hm. simpl. lia.
  - simpl. lia.
  - intros i [->| ->]; [exists [2%nat], 2%nat|exists [1%nat], 1%nat];
      (split; [done|]); (split; [by left|]); [by right|by left].
Defined.

Lemma sampler_orders_ends_witness :
  (∃ order r',
     Sampler.random (Sampler.init Examples.tight_predecessors) 5
       (fun _ (r : unit) => (0%nat, r)) tt = (Ret order, r') ∧
     head order = Some 0%nat ∧
     last order = Some (length Examples.tight_predecessors - 1)%nat) ∧
  (∃ order r',
     Sampler.min_rule (Sampler.init Examples.tight_predecessors) 5
       (fun i => - Z.of_nat i) tt = (Ret order, r') ∧
     head order = Some 0%nat ∧
     last order = Some (length Examples.tight_predecessors - 1)%nat).
Proof.
  destruct tight_network as (Hrange & Hacyc & Hsource & Hsink).
  apply (sampler_orders_ends Examples.tight_predecessors (fun _ (r : unit) => (0%nat, r))
           (fun i => - Z.of_nat i) 5 tt);
    [simpl; lia|exact Hrange|exact Hacyc|exact Hsource|exact Hsink| |simpl; lia].
  intros m r Hm. simpl. lia.
Defined.

Lemma enough_decides_witness :
  (Profile.enough 0 1 Cases.lone_heap).2 = Cases.lone_heap ∧
  match (Profile.enough 0 1 Cases.lone_heap).1 with
  | Ret true => (length [1; 5] ≤ length [3; 4])%nat ∧ covers [3; 4] [1; 5]
  | Ret false => ∃ i d c, [1; 5] !! i = Some d ∧ [3; 4] !! i = Some c ∧ c < d
  | Raise e => e = IndexError ∧ (length [3; 4] < length [1; 5])%nat ∧ covers [3; 4] [1; 5]
  | Timeout => False
  end.
Proof.
  apply (enough_decides Cases.lone_heap 0 1
           {| time := 0; capacity := 0; next := None; prev := None |} [3; 4] [1; 5]);
    reflexivity.
Defined.

Lemma consume_subtracts_witness :
  ∃ cv',
    Profile.consume 0 1 Cases.lone_heap =
      (if decide (length [1; 5] ≤ length [3; 4])%nat then Ret tt else Raise IndexError,
       {| vecs := <[0%nat:=cv']> (vecs Cases.lone_heap);
          nodes := nodes Cases.lone_heap |}) ∧
    length cv' = length [3; 4] ∧
    ∀ i c, [3; 4] !! i = Some c → cv' !! i = Some (c - default 0 ([1; 5] !! i)).
Proof.
  apply (consume_subtracts Cases.lone_heap 0 1
           {| time := 0; capacity := 0; next := None; prev := None |} [3; 4] [1; 5]);
    [reflexivity..|simpl; lia].
Defined.

Lemma insert_after_splices_witness :
  ∃ h',
    Profile.insert_after 0 7 Cases.lone_heap = (Ret (length (nodes Cases.lone_heap)), h') ∧
    vecs h' = vecs Cases.lone_heap ++ [[3; 4]] ∧
    spliced (nodes Cases.lone_heap) (nodes h') 0
      {| time := 0; capacity := 0; next := None; prev := None |} 7
      (length (vecs Cases.lone_heap)) ∧
    doubly_linked h'.
Proof.
  apply (insert_after_splices Cases.lone_heap 0 7
           {| time := 0; capacity := 0; next := None; prev := None |} [3; 4]
           lone_doubly_linked); reflexivity.
Defined.

Lemma decode_keeps_doubly_linked_witness :
  doubly_linked
    (Decoder.decode 5 Examples.chain_order 0 Examples.chain_predecessors
       Examples.chain_demand_refs 1 Examples.chain_heap).2.
Proof.
  apply (decode_keeps_doubly_linked 5 Examples.chain_order 0 Examples.chain_predecessors
           Examples.chain_demand_refs 1 Examples.chain_heap).
  apply doubly_linked_no_node. reflexivity.
Defined.

Lemma decode_skips_unlisted_witness :
  length [0; 0; 0; 0] = length Examples.chain_durations ∧
  (∀ i, i ∈ [0; 1]%nat → (i < length Examples.chain_durations)%nat) ∧
  ∀ j, (j < length Examples.chain_durations)%nat → j ∉ [0; 1]%nat →
    [0; 0; 0; 0] !! j = Some 0.
Proof.
  apply (decode_skips_unlisted 5 [0; 1]%nat 0 Examples.chain_predecessors
           Examples.chain_demand_refs 1 Examples.chain_heap Cases.chain_partial.2
           Examples.chain_durations [0; 0; 0; 0]).
  - reflexivity.
  - vm_compute. reflexivity.
Defined.

Lemma decode_starts_nonnegative_witness : nonnegative [0; 0; 2; 5].
Proof.
  apply (decode_starts_nonnegative 5 Examples.chain_order 0 Examples.chain_predecessors
           Examples.chain_demand_refs 1 Examples.chain_heap Cases.chain_full.2
           Examples.chain_durations [0; 0; 2; 5]).
  - reflexivity.
  - apply chain_network_well_formed.
  - apply chain_references_old.
  - apply doubly_linked_no_node. reflexivity.
  - vm_compute. reflexivity.
Defined.

Lemma decode_capacity_within_witness :
  capacities_within Examples.chain_heap Cases.chain_full.2 [1].
Proof.
  apply (decode_capacity_within 5 Examples.chain_order 0 Examples.chain_predecessors
           Examples.chain_demand_refs 1 Examples.chain_heap Cases.chain_full.2
           Examples.chain_durations [1] [0; 0; 2; 5]).
  - reflexivity.
  - reflexivity.
  - apply singleton_nonnegative. lia.
  - intros i d Hd.
    network_cases; (eexists; split; [reflexivity|]); apply singleton_nonnegative; lia.
  - apply doubly_linked_no_node. reflexivity.
  - vm_compute. reflexivity.
Defined.

Lemma decode_ample_capacity_witness :
  ∃ fuel0, ∀ fuel, (fuel0 ≤ fuel)%nat →
    ∃ starts h,
      Decoder.decode fuel Examples.chain_order 0 Examples.chain_predecessors
        Examples.chain_demand_refs 1 Cases.roomy_heap = (Ret starts, h) ∧
      length starts = length Examples.chain_durations ∧
      earliest_start_recurrence Examples.chain_durations Examples.chain_predecessors
        starts ∧
      respects_precedence starts Examples.chain_durations Examples.chain_predecessors ∧
      resource_feasible starts Examples.chain_durations Cases.roomy_demand [2].
Proof.
  apply (decode_ample_capacity Cases.roomy_heap Examples.chain_order 0
           Examples.chain_predecessors Examples.chain_demand_refs 1
           Examples.chain_durations [2] Cases.roomy_demand).
  - reflexivity.
  - reflexivity.
  - simpl. lia.
  - reflexivity.
  - exact chain_topological.
  - apply chain_network_well_formed.
  - exact roomy_stored.
  - reflexivity.
  - exact roomy_ample.
  - apply doubly_linked_no_node. reflexivity.
Defined.

Lemma decode_ample_earliest_witness :
  ∃ fuel0, ∀ fuel, (fuel0 ≤ fuel)%nat →
    ∃ starts lst h,
      Decoder.decode fuel Examples.chain_order 0 Examples.chain_predecessors
        Examples.chain_demand_refs 1 Cases.roomy_heap = (Ret starts, h) ∧
      CriticalPath.calculate_critical_times fuel Examples.chain_durations
        Examples.chain_predecessors None = Ret (starts, lst).
Proof.
  apply (decode_ample_earliest Cases.roomy_heap Examples.chain_order 0
           Examples.chain_predecessors Examples.chain_demand_refs 1
           Examples.chain_durations [2] Cases.roomy_demand).
  - reflexivity.
  - reflexivity.
  - simpl. lia.
  - reflexivity.
  - exact chain_topological.
  - apply chain_network_well_formed.
  - apply chain_network_well_formed.
  - exact roomy_stored.
  - reflexivity.
  - exact roomy_ample.
  - apply doubly_linked_no_node. reflexivity.
Defined.

Lemma decode_overdemand_raises_witness :
  ∃ h, Decoder.decode 5 Examples.chain_order 0 Examples.chain_predecessors
         Examples.chain_demand_refs 1 Cases.short_heap = (Raise AttributeError, h).
Proof.
  apply (decode_overdemand_raises Cases.short_heap Examples.chain_order 0
           Examples.chain_predecessors Examples.chain_demand_refs 1
           Examples.chain_durations [1] 2 4 [2] 5).
  - reflexivity.
  - reflexivity.
  - simpl. lia.
  - reflexivity.
  - reflexivity.
  - exact chain_topological.
  - intros j d Hd.
    network_cases; (eexists; split; [reflexivity|]); (split; [reflexivity|]);
      apply singleton_nonnegative; lia.
  - apply doubly_linked_no_node. reflexivity.
  - reflexivity.
  - reflexivity.
  - exists 0%nat, 2, 1. split; [reflexivity|]. split; [reflexivity|]. lia.
  - simpl. lia.
Defined.

Lemma decode_empty_project_witness :
  Decoder.decode 3 [] 0 [] [] 1 Cases.empty_heap =
    (Raise IndexError,
     {| vecs := vecs Cases.empty_heap ++ [[1]];
        nodes := nodes Cases.empty_heap ++
                 [{| time := 0; capacity := length (vecs Cases.empty_heap);
                     next := None; prev := None |}] |}).
Proof.
  apply (decode_empty_project 3 [] 0 [] [] 1 Cases.empty_heap [1]); reflexivity.
Defined.

Lemma sampled_order_decodes_witness :
  ∃ fuel0, ∀ fuel (r : unit), (fuel0 ≤ fuel)%nat →
    (∃ order r' starts h,
       Sampler.random (Sampler.init Examples.chain_predecessors) fuel
         (fun _ r => (0%nat, r)) r = (Ret order, r') ∧
       Decoder.decode fuel order 0 Examples.chain_predecessors
         Examples.chain_demand_refs 1 Examples.chain_heap = (Ret starts, h) ∧
       length starts = length Examples.chain_durations) ∧
    (∃ order r' starts h,
       Sampler.min_rule (Sampler.init Examples.chain_predecessors) fuel
         (fun i => - Z.of_nat i) r = (Ret order, r') ∧
       Decoder.decode fuel order 0 Examples.chain_predecessors
         Examples.chain_demand_refs 1 Examples.chain_heap = (Ret starts, h) ∧
       length starts = length Examples.chain_durations).
Proof.
  destruct chain_network_well_formed as (Hpos & Hlen & Hrange & Hacyc & _).
  destruct chain_decodable as (Hdur & Hcap & _ & _ & Hld & _ & Hdem).
  apply (sampled_order_decodes Examples.chain_heap 0 Examples.chain_predecessors
           Examples.chain_demand_refs 1 Examples.chain_durations [1]
           (fun _ (r : unit) => (0%nat, r)) (fun i => - Z.of_nat i)
           Hdur Hcap Hpos Hlen Hld Hrange Hacyc Hdem).
  intros m r Hm. simpl. lia.
Defined.
